(** * The hybrid code knowledge graph of mcp-global, embedded in Rocq

    The development follows three source files of
    [mcp-global-rules/scripts]:

    - [hybrid_graph.py]: the fusion graph ([HybridNode], [HybridEdge],
      [HybridGraph] and its operations, [build_hybrid_graph]);
    - [correlation_tracker.py]: the co-modification miner
      ([analyze_git_history]);
    - [call_graph.py]: the structural extractor ([CallGraphBuilder]).

    Python values are modelled as the code has them: a [float] is an IEEE 754
    binary64 number (Rocq's primitive floats), an [int] is a [Z], a [str] is a
    [string], a [dict] whose order is observed is an association list in
    insertion order, a [dict] used as a map is a [gmap], a [set] of strings
    is a value of the interpreter's set type, known by its iteration order
    only. *)

From Stdlib Require Import ZArith List Bool Ascii String Floats Lia.
From Stdlib Require Import Sorting.Sorted.
From stdpp Require Import base option list gmap sets strings.

Set Warnings "-inexact-float,-register-all".

Local Open Scope Z_scope.
Local Open Scope string_scope.

(** ** Python's numbers *)

Module PyFloat.

(** [min(a, b)] over two arguments: the first one is kept unless the second
    is strictly smaller. *)
Definition pymin (a b : float) : float :=
  if PrimFloat.ltb b a then b else a.

(** [max(a, b)] over two arguments: the first one is kept unless the second
    is strictly greater. *)
Definition pymax (a b : float) : float :=
  if PrimFloat.ltb a b then b else a.

(** [float(n)] for an integer [n], as [n * 0.1] converts its left operand:
    the nearest binary64 number (an [int] of magnitude 2^1024 or more makes
    Python raise [OverflowError]; no count of this program reaches it). *)
Definition float_of_int (n : Z) : float :=
  SF2Prim (binary_normalize prec emax n 0 false).

(** [a > b] and [a < b]. *)
Definition gt (a b : float) : bool := PrimFloat.ltb b a.

(** A float that is a number. *)
Definition is_number (a : float) : Prop := PrimFloat.is_nan a = false.

(** The exact rational value of a finite float, as a pair numerator and
    power of two: [m * 2^e]. *)
Definition exact_value (a : float) : option (Z * Z) :=
  match Prim2SF a with
  | S754_zero _ => Some (0, 0)
  | S754_finite s m e => Some (if s then Z.neg m else Z.pos m, e)
  | _ => None
  end.

(** A weight or score of the data model lies between 0 and 1. *)
Definition in_unit (a : float) : bool :=
  PrimFloat.leb 0 a && PrimFloat.leb a 1.

(** The two shapes of float the score sums move in: a zero or a positive
    finite float, and the same or plus infinity. Neither holds a NaN or a
    negative float. *)
Definition SFunit (f : spec_float) : Prop :=
  match f with
  | S754_zero _ | S754_finite false _ _ => True
  | _ => False
  end.

Definition SFnonneg (f : spec_float) : Prop :=
  match f with
  | S754_zero _ | S754_finite false _ _ | S754_infinity false => True
  | _ => False
  end.

(** A positive finite float. *)
Definition SFpos (f : spec_float) : Prop :=
  match f with
  | S754_finite false _ _ => True
  | _ => False
  end.

(** *** Rounding, as integers

    The order of two floats that are not negative is read off an integer:
    for a base exponent [B] at or below the least exponent of the format, a
    finite float [m * 2^e] stands for the integer [m * 2^(e - B)]. The
    definitions below say what rounding to nearest, ties to even, does to
    such an integer. *)

(** [v / 2^n], rounded to the nearest integer, a tie to the even one. *)
Definition rne (v n : Z) : Z :=
  let c := (2 * v) / 2 ^ n in
  let q := c / 2 in
  if (c mod 2 =? 0)%Z then q
  else if negb ((2 * v) mod 2 ^ n =? 0)%Z then q + 1
  else if Z.even q then q else q + 1.

(** The exponent of the last place that binary64 keeps of the number
    [v * 2^B]: 53 digits, and never below [2^-1074]. *)
Definition round_exp (B v : Z) : Z := Z.max (Z.log2 v + 1 + B - 53) (-1074).

(** The number [v * 2^B], rounded to binary64 when overflow is ignored, as
    a multiple of [2^B] again. *)
Definition round_even (B v : Z) : Z :=
  if (v <=? 0)%Z then 0
  else let n := round_exp B v - B in
       if (n <=? 0)%Z then v else rne v n * 2 ^ n.

(** The integer a float that is not negative stands for: its value divided
    by [2^B], and [2^(1024 - B)], above every finite float, for plus
    infinity. *)
Definition order_key (B : Z) (f : spec_float) : Z :=
  match f with
  | S754_finite false m e => Z.pos m * 2 ^ (e - B)
  | S754_infinity false => 2 ^ (1024 - B)
  | _ => 0
  end.

(** A record of [shr] holds a mantissa, the digit shifted out last and
    whether a digit shifted out before was set. The mantissa and the last
    digit make one number, and [shr_shifted k a b] says that [b] is [a]
    after [k] shifts. *)
Definition shr_code (mrs : shr_record) : Z := 2 * shr_m mrs + Z.b2z (shr_r mrs).

Definition shr_shifted (k : Z) (a b : shr_record) : Prop :=
  0 <= shr_m b
  /\ shr_code b = shr_code a / 2 ^ k
  /\ shr_s b = negb (shr_code a mod 2 ^ k =? 0)%Z || shr_s a.

End PyFloat.

(** ** Python's strings *)

Module PyStr.

(** [sub in s]: [sub] occurs in [s] as a contiguous substring. *)
Fixpoint contains (sub s : string) : bool :=
  String.prefix sub s ||
  match s with
  | EmptyString => false
  | String _ s' => contains sub s'
  end.

(** [s.endswith(suffix)]. *)
Definition endswith (suffix s : string) : bool :=
  let n := String.length s in
  let k := String.length suffix in
  (k <=? n)%nat && String.eqb (String.substring (n - k) k s) suffix.

(** The characters [str.strip()] removes, among the first 256 code points:
    tab, line feed, vertical tab, form feed, carriage return, the four
    separators 0x1c-0x1f, space, next line (0x85) and no-break space
    (0xa0). *)
Definition is_space (c : ascii) : bool :=
  let n := nat_of_ascii c in
  ((9 <=? n) && (n <=? 13) || (28 <=? n) && (n <=? 32)
   || (n =? 133) || (n =? 160))%nat.

Fixpoint lstrip (s : string) : string :=
  match s with
  | EmptyString => EmptyString
  | String c s' => if is_space c then lstrip s' else s
  end.

Fixpoint rev_acc (s acc : string) : string :=
  match s with
  | EmptyString => acc
  | String c s' => rev_acc s' (String c acc)
  end.

Definition rev (s : string) : string := rev_acc s EmptyString.

(** [s.strip()]. *)
Definition strip (s : string) : string := rev (lstrip (rev (lstrip s))).

(** [s.split(sep)] for a non-empty separator: cut at every occurrence of
    [sep], scanning from the left. [skip] counts the characters of a
    separator still to be passed over, [cur] is the current piece,
    reversed. *)
Fixpoint split_go (sep s : string) (skip : nat) (cur : string) : list string :=
  match s with
  | EmptyString => [rev cur]
  | String c s' =>
      match skip with
      | S k => split_go sep s' k cur
      | O =>
          if String.prefix sep s
          then rev cur :: split_go sep s' (String.length sep - 1) EmptyString
          else split_go sep s' O (String c cur)
      end
  end.

Definition split (sep s : string) : list string := split_go sep s O EmptyString.

(** The line feed and the blank line that separates commit blocks. *)
Definition nl : string := String (ascii_of_nat 10) EmptyString.
Definition nlnl : string := nl ++ nl.

(** [s.split('\n')] joined back, used to write a log in examples. *)
Definition lines (ls : list string) : string := String.concat nl ls.

(** Some character of the string is not white space. *)
Fixpoint has_nonspace (s : string) : bool :=
  match s with
  | EmptyString => false
  | String c s' => negb (is_space c) || has_nonspace s'
  end.

(** The character occurs in the string. *)
Fixpoint occurs (c : ascii) (s : string) : bool :=
  match s with
  | EmptyString => false
  | String c' s' => Ascii.eqb c c' || occurs c s'
  end.

End PyStr.

(** ** Python's insertion-ordered dictionaries

    A [dict] whose iteration order the program observes is an association
    list in insertion order. Assigning to an existing key keeps its place;
    a new key goes last. *)

Module PyDict.

Section Dict.
Context {V : Type}.

Fixpoint get (k : string) (d : list (string * V)) : option V :=
  match d with
  | [] => None
  | (k', v) :: d' => if String.eqb k k' then Some v else get k d'
  end.

Fixpoint set (k : string) (v : V) (d : list (string * V)) : list (string * V) :=
  match d with
  | [] => [(k, v)]
  | (k', v') :: d' =>
      if String.eqb k k' then (k', v) :: d' else (k', v') :: set k v d'
  end.

Definition mem (k : string) (d : list (string * V)) : bool :=
  match get k d with Some _ => true | None => false end.

Definition keys (d : list (string * V)) : list string := map fst d.

(** What a well-formed dictionary is: no key twice. *)
Definition wf (d : list (string * V)) : Prop := NoDup (keys d).
End Dict.

(** [l[:limit]]: a negative [limit] counts from the end. *)
Definition slice_to {A : Type} (limit : Z) (l : list A) : list A :=
  if (0 <=? limit)%Z then firstn (Z.to_nat limit) l
  else firstn (List.length l - Z.to_nat (- limit)) l.

(** [l[-n:]] for [n > 0]: the last [n] items. *)
Definition last_n {A : Type} (n : nat) (l : list A) : list A :=
  skipn (List.length l - n) l.

(** [sorted(items, key=..., reverse=True)] for keys that are numbers: the
    stable sort in descending key order (items with equal keys keep their
    relative order). An item is inserted behind every item whose key is not
    smaller than its own. *)
Section Sorted.
Context {A : Type} (key : A -> float).

Fixpoint insert_desc (x : A) (l : list A) : list A :=
  match l with
  | [] => [x]
  | y :: l' =>
      if PrimFloat.ltb (key y) (key x) then x :: y :: l'
      else y :: insert_desc x l'
  end.

Definition sorted_desc (l : list A) : list A :=
  fold_left (fun acc x => insert_desc x acc) l [].

(** [x] stands before [y] in a descending list: [key y <= key x]. *)
Definition desc (x y : A) : Prop := PrimFloat.leb (key y) (key x) = true.

(** The items whose key equals [v], in list order. *)
Definition with_key (v : float) (l : list A) : list A :=
  List.filter (fun x => PrimFloat.eqb (key x) v) l.
End Sorted.

(** [sorted(items, key=..., reverse=True)] and [list.sort(key=...,
    reverse=True)] for keys that are integers: the stable sort in descending
    key order. *)
Section SortedInt.
Context {A : Type} (key : A -> Z).

Fixpoint insert_desc_int (x : A) (l : list A) : list A :=
  match l with
  | [] => [x]
  | y :: l' =>
      if (key y <? key x)%Z then x :: y :: l'
      else y :: insert_desc_int x l'
  end.

Definition sorted_desc_int (l : list A) : list A :=
  fold_left (fun acc x => insert_desc_int x acc) l [].

(** [x] stands before [y] in a descending list. *)
Definition desc_int (x y : A) : Prop := key y <= key x.
End SortedInt.

End PyDict.

(** ** Pairs of a file list

    Both co-modification loops run [for i, f1 in enumerate(files)] over
    [for f2 in files[i+1:]]. [pair_count x y files] is the number of rounds
    of the inner loop in which [(f1, f2)] is [(x, y)] or [(y, x)]: what the
    loops add to the table entry of [x] and [y]. *)

Module Pairs.

Definition one_if (b : bool) : Z := if b then 1 else 0.

Definition hit (x y f1 f2 : string) : Z :=
  one_if (String.eqb x f1 && String.eqb y f2)
  + one_if (String.eqb x f2 && String.eqb y f1).

Fixpoint hits (x y f1 : string) (rest : list string) : Z :=
  match rest with
  | [] => 0
  | f2 :: rest' => hit x y f1 f2 + hits x y f1 rest'
  end.

Fixpoint pair_count (x y : string) (files : list string) : Z :=
  match files with
  | [] => 0
  | f1 :: rest => hits x y f1 rest + pair_count x y rest
  end.

End Pairs.

(** ** What the interpreter decides

    Two behaviours of the interpreter are left open by the program text.
    Python's [set] is an unordered collection: the language fixes which
    strings a set holds after [set()], [s.add(x)] and [set(v)], and that
    iterating it yields each of them once, but not in which order (CPython
    orders a set of strings by hash values that are randomized per process
    and by the history of collisions in its table). [str.lower] is the
    Unicode lower-casing of the interpreter. *)

Class PyRuntime := {
  pyset : Type;
  set_new : pyset;
  set_add : string -> pyset -> pyset;
  set_of_list : list string -> pyset;
  set_iter : pyset -> list string;
  set_iter_nodup : forall s, NoDup (set_iter s);
  set_new_spec : set_iter set_new = [];
  set_add_spec : forall x s y, y ∈ set_iter (set_add x s) <-> y = x \/ y ∈ set_iter s;
  set_of_list_spec : forall l y, y ∈ set_iter (set_of_list l) <-> y ∈ l;
  str_lower : string -> string
}.

(** Two interpreters, to run the model on: [str.lower] on ASCII letters, and
    sets of strings kept as lists without repetition. The first iterates a
    set in the order its elements arrived; the second puts a new element in
    front, so it iterates the newest first. Both obey the laws above. *)

Module Runtimes.

Definition lower_char (c : ascii) : ascii :=
  let n := nat_of_ascii c in
  if ((65 <=? n) && (n <=? 90))%nat then ascii_of_nat (n + 32) else c.

Fixpoint ascii_lower (s : string) : string :=
  match s with
  | EmptyString => EmptyString
  | String c s' => String (lower_char c) (ascii_lower s')
  end.

Definition add_last (x : string) (s : list string) : list string :=
  if bool_decide (x ∈ s) then s else (s ++ [x])%list.

Definition add_first (x : string) (s : list string) : list string :=
  if bool_decide (x ∈ s) then s else x :: s.

Definition fill (add : string -> list string -> list string) (l : list string)
  : list string :=
  fold_left (fun s x => add x s) l [].

Lemma add_last_spec x s y :
  y ∈ remove_dups (add_last x s) <-> y = x \/ y ∈ remove_dups s.
Proof.
  unfold add_last. rewrite !elem_of_remove_dups. case_bool_decide.
  - split; [auto|]. intros [->|?]; assumption.
  - rewrite elem_of_app, list_elem_of_singleton. tauto.
Qed.

Lemma add_first_spec x s y :
  y ∈ remove_dups (add_first x s) <-> y = x \/ y ∈ remove_dups s.
Proof.
  unfold add_first. rewrite !elem_of_remove_dups. case_bool_decide.
  - split; [auto|]. intros [->|?]; assumption.
  - rewrite elem_of_cons. tauto.
Qed.

Lemma fill_spec add l y :
  (forall x s z, z ∈ remove_dups (add x s) <-> z = x \/ z ∈ remove_dups s) ->
  y ∈ remove_dups (fill add l) <-> y ∈ l.
Proof.
  intros Hadd. unfold fill.
  assert (G : forall acc, y ∈ remove_dups (fold_left (fun s x => add x s) l acc)
                          <-> y ∈ l \/ y ∈ remove_dups acc).
  { induction l as [|x l IH]; intros acc; simpl.
    - rewrite elem_of_nil. tauto.
    - rewrite IH, Hadd, elem_of_cons. tauto. }
  rewrite G. simpl. rewrite elem_of_nil. tauto.
Qed.

(** Sets that iterate in insertion order. *)
Definition ordered : PyRuntime :=
  {| pyset := list string;
     set_new := [];
     set_add := add_last;
     set_of_list := fill add_last;
     set_iter := remove_dups;
     set_iter_nodup := NoDup_remove_dups;
     set_new_spec := eq_refl;
     set_add_spec := add_last_spec;
     set_of_list_spec := fun l y => fill_spec add_last l y add_last_spec;
     str_lower := ascii_lower |}.

(** Sets that iterate the newest element first. *)
Definition newest_first : PyRuntime :=
  {| pyset := list string;
     set_new := [];
     set_add := add_first;
     set_of_list := fill add_first;
     set_iter := remove_dups;
     set_iter_nodup := NoDup_remove_dups;
     set_new_spec := eq_refl;
     set_add_spec := add_first_spec;
     set_of_list_spec := fun l y => fill_spec add_first l y add_first_spec;
     str_lower := ascii_lower |}.

End Runtimes.

(** ** call_graph.py: the structural graph and its extractor *)

Module CallGraph.

(** [GraphNode]. *)
Record GraphNode := {
  name : string;
  node_type : string;
  file : string;
  line : Z;
  qualified_name : string
}.

(** [GraphEdge]; its [file] and [line] fields are [edge_file] and
    [edge_line] here, the names being taken by [GraphNode]. *)
Record GraphEdge := {
  source : string;
  target : string;
  edge_type : string;
  edge_file : string;
  edge_line : Z
}.

(** [CallGraph]: nodes by qualified name, the list of edges, and the two
    lookup indexes. *)
Record CallGraph := {
  root : string;
  nodes : gmap string GraphNode;
  edges : list GraphEdge;
  callers : gmap string (list string);
  callees : gmap string (list string)
}.

Definition empty (r : string) : CallGraph :=
  {| root := r; nodes := ∅; edges := []; callers := ∅; callees := ∅ |}.

(** [CallGraph.add_node]. *)
Definition add_node (g : CallGraph) (n : GraphNode) : CallGraph :=
  {| root := root g;
     nodes := <[qualified_name n := n]> (nodes g);
     edges := edges g;
     callers := callers g;
     callees := callees g |}.

(** One index update of [add_edge]: create the entry of [k] if it is
    missing, append [v] unless it is there already. *)
Definition index_add (k v : string) (ix : gmap string (list string))
  : gmap string (list string) :=
  let l : list string := default [] (ix !! k) in
  <[k := if bool_decide (v ∈ l) then l else (l ++ [v])%list]> ix.

(** [CallGraph.add_edge]. *)
Definition add_edge (g : CallGraph) (e : GraphEdge) : CallGraph :=
  {| root := root g;
     nodes := nodes g;
     edges := edges g ++ [e];
     callers := index_add (target e) (source e) (callers g);
     callees := index_add (source e) (target e) (callees g) |}.

(** The part of Python's syntax tree the visitor tells apart. Every other
    node is [Other] with its child nodes in field order. [Call] lists the
    positional and keyword arguments behind [func]; [ClassDef] lists its
    keywords, body and decorators behind [bases]; a function lists its
    arguments, body, decorators and annotation in [children]. An import
    name is [(name, asname)]. *)
Inductive ast : Type :=
| Name (id : string)
| Attribute (value : ast) (attr : string)
| Call (func : ast) (args : list ast) (lineno : Z)
| Import (names : list (string * option string)) (lineno : Z)
| ImportFrom (module : option string) (names : list (string * option string))
    (lineno : Z)
| ClassDef (cname : string) (bases : list ast) (rest : list ast) (lineno : Z)
| FunctionDef (fname : string) (children : list ast) (lineno : Z)
| AsyncFunctionDef (fname : string) (children : list ast) (lineno : Z)
| Other (children : list ast).

(** The state of a [CallGraphBuilder]. *)
Record Builder := {
  graph : CallGraph;
  file_path : string;
  module_name : string;
  current_class : option string;
  current_function : option string;
  imports : gmap string string
}.

Definition init (g : CallGraph) (path m : string) : Builder :=
  {| graph := g; file_path := path; module_name := m;
     current_class := None; current_function := None; imports := ∅ |}.

Definition with_graph (b : Builder) (g : CallGraph) : Builder :=
  {| graph := g; file_path := file_path b; module_name := module_name b;
     current_class := current_class b;
     current_function := current_function b; imports := imports b |}.

Definition with_class (b : Builder) (c : option string) : Builder :=
  {| graph := graph b; file_path := file_path b; module_name := module_name b;
     current_class := c;
     current_function := current_function b; imports := imports b |}.

Definition with_function (b : Builder) (f : option string) : Builder :=
  {| graph := graph b; file_path := file_path b; module_name := module_name b;
     current_class := current_class b;
     current_function := f; imports := imports b |}.

Definition with_imports (b : Builder) (i : gmap string string) : Builder :=
  {| graph := graph b; file_path := file_path b; module_name := module_name b;
     current_class := current_class b;
     current_function := current_function b; imports := i |}.

(** The truth value of an optional string: [None] and the empty string are
    false. *)
Definition truthy (o : option string) : bool :=
  match o with
  | Some s => negb (String.eqb s "")
  | None => false
  end.

(** ['.'.join(parts)]. *)
Definition join_dot (parts : list string) : string := String.concat "." parts.

(** [get_current_scope]. *)
Definition get_current_scope (b : Builder) : string :=
  join_dot
    ([module_name b]
       ++ (if truthy (current_class b) then [default "" (current_class b)] else [])
       ++ (if truthy (current_function b) then [default "" (current_function b)] else [])).

(** [alias.asname or alias.name]. *)
Definition bound_name (a : string * option string) : string :=
  if truthy (snd a) then default "" (snd a) else fst a.

(** The loop of [_get_name] over an attribute chain: the attributes from the
    outside in, then the root if it is a name. *)
Fixpoint chain_parts (b : Builder) (e : ast) : list string :=
  match e with
  | Attribute v a => a :: chain_parts b v
  | Name i => [default i (imports b !! i)]
  | _ => []
  end.

(** [_get_name]. *)
Definition _get_name (b : Builder) (e : ast) : option string :=
  match e with
  | Name i => Some (default i (imports b !! i))
  | Attribute _ _ => Some (join_dot (List.rev (chain_parts b e)))
  | _ => None
  end.

(** [_get_call_name], on the [func] of a call. *)
Definition _get_call_name (b : Builder) (func : ast) : option string :=
  _get_name b func.

Definition mk_edge (b : Builder) (src tgt kind : string) (lineno : Z) : GraphEdge :=
  {| source := src; target := tgt; edge_type := kind;
     edge_file := file_path b; edge_line := lineno |}.

Definition emit (b : Builder) (e : GraphEdge) : Builder :=
  with_graph b (add_edge (graph b) e).

(** One round of the loop of [visit_Import]. *)
Definition import_step (lineno : Z) (b : Builder) (a : string * option string)
  : Builder :=
  let b1 := with_imports b (<[bound_name a := fst a]> (imports b)) in
  emit b1 (mk_edge b1 (module_name b1) (fst a) "imports" lineno).

(** One round of the loop of [visit_ImportFrom], for the module [m]. *)
Definition import_from_step (m : string) (lineno : Z) (b : Builder)
  (a : string * option string) : Builder :=
  let b1 := with_imports b (<[bound_name a := m ++ "." ++ fst a]> (imports b)) in
  emit b1 (mk_edge b1 (module_name b1) m "imports" lineno).

(** One round of the loop over the bases in [visit_ClassDef]. *)
Definition base_step (qualified : string) (lineno : Z) (b : Builder) (base : ast)
  : Builder :=
  if truthy (_get_name b base)
  then emit b (mk_edge b qualified (default "" (_get_name b base)) "inherits" lineno)
  else b.

(** What [visit_ClassDef] does before it visits the children. *)
Definition enter_class (b : Builder) (cname : string) (bases : list ast)
  (lineno : Z) : Builder :=
  let qualified := module_name b ++ "." ++ cname in
  let b1 := with_graph b (add_node (graph b)
              {| name := cname; node_type := "class"; file := file_path b;
                 line := lineno; qualified_name := qualified |}) in
  let b2 := fold_left (base_step qualified lineno) bases b1 in
  with_class b2 (Some cname).

(** What [_visit_function] does before it visits the children. *)
Definition enter_function (b : Builder) (fname : string) (lineno : Z) : Builder :=
  let qualified :=
    if truthy (current_class b)
    then module_name b ++ "." ++ default "" (current_class b) ++ "." ++ fname
    else module_name b ++ "." ++ fname in
  let kind := if truthy (current_class b) then "method" else "function" in
  let b1 := with_graph b (add_node (graph b)
              {| name := fname; node_type := kind; file := file_path b;
                 line := lineno; qualified_name := qualified |}) in
  with_function b1 (Some fname).

(** What [visit_Call] does before it visits the children. *)
Definition enter_call (b : Builder) (func : ast) (lineno : Z) : Builder :=
  if truthy (current_function b)
  then
    let caller := get_current_scope b in
    let callee := _get_call_name b func in
    if truthy callee
    then emit b (mk_edge b caller (default "" callee) "calls" lineno)
    else b
  else b.

(** [visit]: the dispatch of [ast.NodeVisitor] on the node's class, with
    [generic_visit] visiting the children from left to right. *)
Fixpoint visit (t : ast) (b : Builder) {struct t} : Builder :=
  match t with
  | Name _ => b
  | Attribute v _ => visit v b
  | Call func args lineno =>
      let b1 := enter_call b func lineno in
      fold_left (fun acc c => visit c acc) args (visit func b1)
  | Import names lineno => fold_left (import_step lineno) names b
  | ImportFrom m names lineno =>
      if truthy m
      then fold_left (import_from_step (default "" m) lineno) names b
      else b
  | ClassDef cname bases rest lineno =>
      let b1 := enter_class b cname bases lineno in
      let b2 := fold_left (fun acc c => visit c acc) rest
                  (fold_left (fun acc c => visit c acc) bases b1) in
      with_class b2 (current_class b)
  | FunctionDef fname children lineno
  | AsyncFunctionDef fname children lineno =>
      let b1 := enter_function b fname lineno in
      let b2 := fold_left (fun acc c => visit c acc) children b1 in
      with_function b2 (current_function b)
  | Other children => fold_left (fun acc c => visit c acc) children b
  end.

(** [generic_visit] over a list of children. *)
Definition visit_all (ts : list ast) (b : Builder) : Builder :=
  fold_left (fun acc c => visit c acc) ts b.

(** The body of the loop of [build_call_graph] for one parsed file: the
    module node, then the visitor over the module's statements. [fname] is
    [path.name], [path] is [str(path)]. *)
Definition analyze_file (g : CallGraph) (path fname module_name : string)
  (body : list ast) : CallGraph :=
  let g1 := add_node g {| name := fname; node_type := "module"; file := path;
                          line := 1; qualified_name := module_name |} in
  graph (visit (Other body) (init g1 path module_name)).

(** The 'calls' edges of an edge list. *)
Definition calls_edges (es : list GraphEdge) : list GraphEdge :=
  List.filter (fun e => String.eqb (edge_type e) "calls") es.

(** *** Notions the properties below are stated with *)

(** The children [generic_visit] descends into, in order. *)
Definition children (t : ast) : list ast :=
  match t with
  | Name _ | Import _ _ | ImportFrom _ _ _ => []
  | Attribute v _ => [v]
  | Call func args _ => func :: args
  | ClassDef _ bases rest _ => (bases ++ rest)%list
  | FunctionDef _ cs _ | AsyncFunctionDef _ cs _ | Other cs => cs
  end.

(** The state in which the children of a node are visited. *)
Definition enter (b : Builder) (t : ast) : Builder :=
  match t with
  | Call func _ lineno => enter_call b func lineno
  | ClassDef cname bases _ lineno => enter_class b cname bases lineno
  | FunctionDef fname _ lineno | AsyncFunctionDef fname _ lineno =>
      enter_function b fname lineno
  | Import names lineno => fold_left (import_step lineno) names b
  | ImportFrom m names lineno =>
      if truthy m then fold_left (import_from_step (default "" m) lineno) names b
      else b
  | _ => b
  end.

(** The state a visitor method returns in: a class or a function puts the
    enclosing scope back. *)
Definition leave (b : Builder) (t : ast) (after : Builder) : Builder :=
  match t with
  | ClassDef _ _ _ _ => with_class after (current_class b)
  | FunctionDef _ _ _ | AsyncFunctionDef _ _ _ => with_function after (current_function b)
  | _ => after
  end.

(** A node that opens no scope: neither a class nor a function. *)
Definition plain (t : ast) : Prop :=
  match t with
  | ClassDef _ _ _ _ | FunctionDef _ _ _ | AsyncFunctionDef _ _ _ => False
  | _ => True
  end.

(** [reach b ts bc x]: while the siblings [ts] are visited from the state
    [b], the node [x] is visited from the state [bc], and [x] is one of [ts]
    or lies below one of them under plain nodes only. *)
Inductive reach : Builder -> list ast -> Builder -> ast -> Prop :=
| reach_here b pre x post :
    reach b (pre ++ x :: post) (visit_all pre b) x
| reach_below b pre t post bc x :
    plain t ->
    reach (enter (visit_all pre b) t) (children t) bc x ->
    reach b (pre ++ t :: post) bc x.

(** A tree with no function definition in it. *)
Fixpoint no_function_def (t : ast) : bool :=
  match t with
  | Name _ | Import _ _ | ImportFrom _ _ _ => true
  | Attribute v _ => no_function_def v
  | Call func args _ => no_function_def func && forallb no_function_def args
  | ClassDef _ bases rest _ =>
      forallb no_function_def bases && forallb no_function_def rest
  | FunctionDef _ _ _ | AsyncFunctionDef _ _ _ => false
  | Other cs => forallb no_function_def cs
  end.

(** Two states with the same scope, module and file. *)
Definition same_scope (b b' : Builder) : Prop :=
  current_class b' = current_class b
  /\ current_function b' = current_function b
  /\ module_name b' = module_name b
  /\ file_path b' = file_path b.

(** [b'] has the edges of [b] and then [added]. *)
Definition grows (b b' : Builder) (added : list GraphEdge) : Prop :=
  edges (graph b') = (edges (graph b) ++ added)%list.

(** Some edges are added, none is removed. *)
Definition extends (b b' : Builder) : Prop := exists added, grows b b' added.

(** [b'] has the edges of [b] and then edges that are not 'calls' edges. *)
Definition quiet (b b' : Builder) : Prop :=
  exists added, grows b b' added /\ calls_edges added = [].

(** A function definition, [def] or [async def]. *)
Definition function_def (is_async : bool) (fname : string) (children : list ast)
  (lineno : Z) : ast :=
  if is_async then AsyncFunctionDef fname children lineno
  else FunctionDef fname children lineno.

(** The dotted expression [root.a1.a2...]. *)
Definition attr_chain (root : ast) (attrs : list string) : ast :=
  fold_left Attribute attrs root.

(** A node that opens no class. *)
Definition classless (t : ast) : Prop :=
  match t with
  | ClassDef _ _ _ _ => False
  | _ => True
  end.

(** What [visit_Import] and [visit_ImportFrom] write into the alias table,
    one imported name at a time. *)
Definition bind_import (tbl : gmap string string) (a : string * option string)
  : gmap string string :=
  <[bound_name a := fst a]> tbl.

Definition bind_import_from (m : string) (tbl : gmap string string)
  (a : string * option string) : gmap string string :=
  <[bound_name a := m ++ "." ++ fst a]> tbl.

(** The alias table after the visit of a tree, read off the tree: the
    import statements of the tree, in the order of the visit, write into
    the table; nothing else does. *)
Fixpoint aliases (t : ast) (tbl : gmap string string) {struct t}
  : gmap string string :=
  match t with
  | Name _ => tbl
  | Attribute v _ => aliases v tbl
  | Call func args _ =>
      fold_left (fun acc c => aliases c acc) args (aliases func tbl)
  | Import names _ => fold_left bind_import names tbl
  | ImportFrom m names _ =>
      if truthy m then fold_left (bind_import_from (default "" m)) names tbl
      else tbl
  | ClassDef _ bases rest _ =>
      fold_left (fun acc c => aliases c acc) rest
        (fold_left (fun acc c => aliases c acc) bases tbl)
  | FunctionDef _ cs _ | AsyncFunctionDef _ cs _ | Other cs =>
      fold_left (fun acc c => aliases c acc) cs tbl
  end.

Definition aliases_all (ts : list ast) (tbl : gmap string string)
  : gmap string string :=
  fold_left (fun acc c => aliases c acc) ts tbl.

(** [located P ts tbl x tbl']: the node [x] is one of the siblings [ts], or
    lies below one of them under nodes that satisfy [P] only; and when the
    visit of [ts] starts with the alias table [tbl], it comes to [x] with
    the alias table [tbl']: the imports of everything that is visited
    before [x] have been written, the imports behind [x] have not. *)
Inductive located (P : ast -> Prop)
  : list ast -> gmap string string -> ast -> gmap string string -> Prop :=
| located_here pre x post tbl :
    located P (pre ++ x :: post) tbl x (aliases_all pre tbl)
| located_below pre t post tbl x tbl' :
    P t ->
    located P (children t) (aliases_all pre tbl) x tbl' ->
    located P (pre ++ t :: post) tbl x tbl'.

(** The names of the function definitions of a tree, and of its class
    definitions. *)
Fixpoint def_names (t : ast) : list string :=
  match t with
  | Name _ | Import _ _ | ImportFrom _ _ _ => []
  | Attribute v _ => def_names v
  | Call func args _ => (def_names func ++ flat_map def_names args)%list
  | ClassDef _ bases rest _ =>
      (flat_map def_names bases ++ flat_map def_names rest)%list
  | FunctionDef f cs _ | AsyncFunctionDef f cs _ => f :: flat_map def_names cs
  | Other cs => flat_map def_names cs
  end.

Fixpoint class_names (t : ast) : list string :=
  match t with
  | Name _ | Import _ _ | ImportFrom _ _ _ => []
  | Attribute v _ => class_names v
  | Call func args _ => (class_names func ++ flat_map class_names args)%list
  | ClassDef c bases rest _ =>
      c :: (flat_map class_names bases ++ flat_map class_names rest)%list
  | FunctionDef _ cs _ | AsyncFunctionDef _ cs _ | Other cs =>
      flat_map class_names cs
  end.

(** A 'calls' edge whose source is the scope of a function: the module
    name, the name of a class or none, and the name of a function, which is
    not empty. Every edge of another type passes. *)
Definition from_function (m : string) (names classes : list string)
  (e : GraphEdge) : Prop :=
  edge_type e = "calls" ->
  exists f, In f names /\ f <> ""
    /\ (source e = m ++ "." ++ f
        \/ exists c, In c classes /\ source e = m ++ "." ++ c ++ "." ++ f).

(** A state of the visitor of module [m] whose current function and
    current class, if set, are among [names] and [classes]. *)
Definition known (m : string) (names classes : list string) (b : Builder)
  : Prop :=
  module_name b = m
  /\ (forall f, current_function b = Some f -> In f names)
  /\ (forall c, current_class b = Some c -> In c classes).

(** From a known state, [b'] is known and has the edges of [b] and then
    edges that come from functions. *)
Definition tame (m : string) (names classes : list string) (b b' : Builder)
  : Prop :=
  known m names classes b ->
  known m names classes b'
  /\ exists added, grows b b' added /\ Forall (from_function m names classes) added.

(** The builder state of [analyze_file] before the visit. *)
Definition file_init (g : CallGraph) (path fname module_name : string) : Builder :=
  init (add_node g {| name := fname; node_type := "module"; file := path;
                      line := 1; qualified_name := module_name |})
    path module_name.

(** *** The build loop, the indexes and the queries *)

(** A source file as [build_call_graph] meets it: [sf_path] is [str(path)],
    [sf_name] is [path.name], [sf_module] is the module name computed from
    the path, and [sf_tree] is the list of the top-level statements
    [ast.parse] returns, or [None] when the file cannot be read or parsed
    (the [except] clauses skip the file, before its module node is
    added). *)
Record SourceFile := {
  sf_path : string;
  sf_name : string;
  sf_module : string;
  sf_tree : option (list ast)
}.

(** The body of the loop of [build_call_graph] over the files. *)
Definition build_step (g : CallGraph) (f : SourceFile) : CallGraph :=
  match sf_tree f with
  | Some body => analyze_file g (sf_path f) (sf_name f) (sf_module f) body
  | None => g
  end.

(** [build_call_graph], on the files found under the root [r]. *)
Definition build_call_graph (r : string) (files : list SourceFile) : CallGraph :=
  fold_left build_step files (empty r).

(** The list an index holds for a key, empty for a missing key. *)
Definition index_of (ix : gmap string (list string)) (k : string) : list string :=
  default [] (ix !! k).

(** Some edge of the graph goes from [s] to [t]. *)
Definition linked (g : CallGraph) (s t : string) : Prop :=
  exists e, e ∈ edges g /\ source e = s /\ target e = t.

(** The two indexes say what the edge list says: [callers[t]] holds the
    sources of the edges into [t] and [callees[s]] the targets of the edges
    out of [s], each once, and no key stands for an empty list. *)
Record coherent (g : CallGraph) : Prop := {
  callers_linked : forall s t, s ∈ index_of (callers g) t <-> linked g s t;
  callees_linked : forall s t, t ∈ index_of (callees g) s <-> linked g s t;
  callers_nodup : forall t, NoDup (index_of (callers g) t);
  callees_nodup : forall s, NoDup (index_of (callees g) s);
  callers_nonempty : forall t, callers g !! t <> Some [];
  callees_nonempty : forall s, callees g !! s <> Some []
}.

(** [visited b ts bc x]: while the siblings [ts] are visited from the state
    [b], the node [x] is visited from the state [bc]; [x] is one of [ts] or
    lies below one of them, at any depth. *)
Inductive visited : Builder -> list ast -> Builder -> ast -> Prop :=
| visited_here b pre x post :
    visited b (pre ++ x :: post) (visit_all pre b) x
| visited_below b pre t post bc x :
    visited (enter (visit_all pre b) t) (children t) bc x ->
    visited b (pre ++ t :: post) bc x.

(** An edge of the file [path] whose source lies in the module [m]. *)
Definition local_edge (path m : string) (e : GraphEdge) : Prop :=
  edge_file e = path /\ String.prefix m (source e) = true.

(** A node of the file [path] whose qualified name lies in the module
    [m]. *)
Definition local_node (path m : string) (n : GraphNode) : Prop :=
  file n = path /\ String.prefix m (qualified_name n) = true.

(** [g'] comes from [g] by adding nodes that satisfy [PN] and edges that
    satisfy [PE], in some order. *)
Inductive built_by (PN : GraphNode -> Prop) (PE : GraphEdge -> Prop)
  : CallGraph -> CallGraph -> Prop :=
| built_refl g : built_by PN PE g g
| built_node g g' n : built_by PN PE g g' -> PN n -> built_by PN PE g (add_node g' n)
| built_edge g g' e : built_by PN PE g g' -> PE e -> built_by PN PE g (add_edge g' e).

(** A node, or an edge, of one of the parsed files of a list. *)
Definition node_of (files : list SourceFile) (n : GraphNode) : Prop :=
  exists f, f ∈ files /\ is_Some (sf_tree f)
            /\ local_node (sf_path f) (sf_module f) n.

Definition edge_of (files : list SourceFile) (e : GraphEdge) : Prop :=
  exists f, f ∈ files /\ is_Some (sf_tree f)
            /\ local_edge (sf_path f) (sf_module f) e.

(** An expression that is neither a name nor an attribute. *)
Definition unnamed (e : ast) : Prop :=
  match e with
  | Name _ | Attribute _ _ => False
  | _ => True
  end.

(** The state of a builder at work on the file [path] of the module [m]. *)
Definition at_file (path m : string) (b : Builder) : Prop :=
  file_path b = path /\ module_name b = m.

(** What a builder at work on a file does to the graph: it adds nodes and
    edges of that file. *)
Definition step (path m : string) : CallGraph -> CallGraph -> Prop :=
  built_by (local_node path m) (local_edge path m).

(** From [b] to [b'] the builder stays on its file and takes such a
    step. *)
Definition works (path m : string) (b b' : Builder) : Prop :=
  at_file path m b -> at_file path m b' /\ step path m (graph b) (graph b').

(** The items of the three dictionaries of a graph, each in the order in
    which the dictionary is iterated at the time of a query. *)
Record Listing := {
  node_items : list (string * GraphNode);
  caller_items : list (string * list string);
  callee_items : list (string * list string)
}.

(** The listing [o] holds the items of the dictionaries of [g]. *)
Definition lists (o : Listing) (g : CallGraph) : Prop :=
  node_items o ≡ₚ map_to_list (nodes g)
  /\ caller_items o ≡ₚ map_to_list (callers g)
  /\ callee_items o ≡ₚ map_to_list (callees g).

(** The listing that iterates every dictionary by key. *)
Definition by_key (g : CallGraph) : Listing :=
  {| node_items := map_to_list (nodes g);
     caller_items := map_to_list (callers g);
     callee_items := map_to_list (callees g) |}.

(** [qualified_name.endswith('.' + name) or qualified_name == name]. *)
Definition name_matches (name qualified_name : string) : bool :=
  PyStr.endswith ("." ++ name) qualified_name || String.eqb qualified_name name.

(** The loop of the partial match over the items of an index. *)
Definition partial_matches (items : list (string * list string)) (name : string)
  : list string :=
  fold_left
    (fun matches kv =>
       if name_matches name (fst kv) then (matches ++ snd kv)%list else matches)
    items [].

(** Some edge of the graph goes into [name], or out of it. *)
Definition has_target (g : CallGraph) (name : string) : bool :=
  existsb (fun e => String.eqb (target e) name) (edges g).

Definition has_source (g : CallGraph) (name : string) : bool :=
  existsb (fun e => String.eqb (source e) name) (edges g).

Section Queries.
Context `{R : PyRuntime}.

(** [CallGraph.get_callers]. *)
Definition get_callers (o : Listing) (g : CallGraph) (name : string) : list string :=
  match callers g !! name with
  | Some l => l
  | None => set_iter (set_of_list (partial_matches (caller_items o) name))
  end.

(** [CallGraph.get_callees]. *)
Definition get_callees (o : Listing) (g : CallGraph) (name : string) : list string :=
  match callees g !! name with
  | Some l => l
  | None => set_iter (set_of_list (partial_matches (callee_items o) name))
  end.

(** [CallGraph.find_node]. *)
Definition find_node (o : Listing) (g : CallGraph) (name : string)
  : option GraphNode :=
  match nodes g !! name with
  | Some n => Some n
  | None =>
      option_map snd
        (List.find
           (fun kv => PyStr.endswith ("." ++ name) (fst kv)
                      || String.eqb (CallGraph.name (snd kv)) name)
           (node_items o))
  end.

(** An entry of the [callers] and [callees] lists of a query result. *)
Record Ref := { ref_name : string; ref_file : string; ref_line : Z }.

(** The result of [query_graph]. *)
Record QueryResult := {
  res_query : string;
  res_node : option GraphNode;
  res_callers : list Ref;
  res_callees : list Ref;
  res_related_files : list string
}.

(** One of the two loops of [query_graph] over names: the entries of the
    names that are nodes, and their files added to the set. *)
Definition add_ref (g : CallGraph) (st : list Ref * pyset) (n : string)
  : list Ref * pyset :=
  match nodes g !! n with
  | Some cn =>
      ((fst st ++ [{| ref_name := n; ref_file := file cn; ref_line := line cn |}])%list,
       set_add (file cn) (snd st))
  | None => st
  end.

(** The entry of a name that is a node. *)
Definition ref_of (g : CallGraph) (n : string) : option Ref :=
  option_map (fun cn => {| ref_name := n; ref_file := file cn; ref_line := line cn |})
    (nodes g !! n).

(** [query_graph]. *)
Definition query_graph (o : Listing) (g : CallGraph) (query : string) : QueryResult :=
  let node := find_node o g query in
  let files0 :=
    match node with
    | Some n => set_add (file n) set_new
    | None => set_new
    end in
  let st1 := fold_left (add_ref g) (get_callers o g query) ([], files0) in
  let st2 := fold_left (add_ref g) (get_callees o g query) ([], snd st1) in
  {| res_query := query; res_node := node;
     res_callers := fst st1; res_callees := fst st2;
     res_related_files := set_iter (snd st2) |}.

(** [predict_files_from_graph] of predict_context.py, on the call graph
    [load_call_graph] returns, if it returns one: the related files of all
    the keywords, in one set. *)
Definition predict_files_from_graph (o : Listing) (graph : option CallGraph)
  (keywords : list string) : pyset :=
  match graph with
  | Some g =>
      fold_left
        (fun related keyword =>
           fold_left (fun s f => set_add f s)
             (res_related_files (query_graph o g keyword)) related)
        keywords set_new
  | None => set_new
  end.

End Queries.

End CallGraph.

(** ** hybrid_graph.py: the fusion graph *)

Module Hybrid.

(** [HybridNode]. *)
Record HybridNode := {
  id : string;
  node_type : string;
  path : string;
  name : string;
  semantic_embedding : list float;
  structural_score : float;
  temporal_score : float;
  comod_score : float;
  last_accessed : string;
  access_count : Z;
  last_modified : string
}.

(** [HybridEdge]. *)
Record HybridEdge := {
  source : string;
  target : string;
  structural_weight : float;
  temporal_weight : float;
  comod_weight : float;
  semantic_weight : float;
  relationship_types : list string;
  last_updated : string
}.

Section Graph.
Context `{R : PyRuntime}.

(** [HybridGraph]. [nodes] keeps its insertion order, which [search]
    observes; [neighbors] and [comod_matrix] are the two default
    dictionaries, a missing key standing for the empty set and for 0. *)
Record HybridGraph := {
  root : string;
  nodes : list (string * HybridNode);
  edges : gmap string HybridEdge;
  neighbors : gmap string pyset;
  access_history : list (string * string);
  comod_matrix : gmap string (gmap string Z)
}.

Definition empty (r : string) : HybridGraph :=
  {| root := r; nodes := []; edges := ∅; neighbors := ∅;
     access_history := []; comod_matrix := ∅ |}.

(** A node with the defaults of the dataclass. *)
Definition new_node (i kind p n : string) : HybridNode :=
  {| id := i; node_type := kind; path := p; name := n;
     semantic_embedding := [];
     structural_score := 0; temporal_score := 0; comod_score := 0;
     last_accessed := ""; access_count := 0; last_modified := "" |}.

(** An edge with the defaults of the dataclass. *)
Definition new_edge (s t : string) : HybridEdge :=
  {| source := s; target := t;
     structural_weight := 0; temporal_weight := 0;
     comod_weight := 0; semantic_weight := 0;
     relationship_types := []; last_updated := "" |}.

(** [HybridEdge.get_combined_weight]. *)
Definition get_combined_weight (e : HybridEdge) : float :=
  (structural_weight e * 0.3 + temporal_weight e * 0.2
   + comod_weight e * 0.3 + semantic_weight e * 0.2)%float.

(** The key of an edge: the two ids around a bar. *)
Definition edge_id (s t : string) : string := s ++ "|" ++ t.

(** [self.neighbors.get(k, set())] and [self.comod_matrix[a][b]]. *)
Definition neighbors_of (g : HybridGraph) (k : string) : pyset :=
  default set_new (neighbors g !! k).

Definition comod_row (m : gmap string (gmap string Z)) (a : string) : gmap string Z :=
  default ∅ (m !! a).

Definition comod_get (m : gmap string (gmap string Z)) (a b : string) : Z :=
  default 0 (comod_row m a !! b).

(** [self.comod_matrix[a][b] += 1]. *)
Definition comod_incr (m : gmap string (gmap string Z)) (a b : string)
  : gmap string (gmap string Z) :=
  <[a := <[b := comod_get m a b + 1]> (comod_row m a)]> m.

(** [HybridGraph.add_node]. *)
Definition add_node (g : HybridGraph) (n : HybridNode) : HybridGraph :=
  {| root := root g;
     nodes := PyDict.set (id n) n (nodes g);
     edges := edges g;
     neighbors := neighbors g;
     access_history := access_history g;
     comod_matrix := comod_matrix g |}.

(** The weight slot [add_edge] routes an observation to. *)
Definition update_weight (e : HybridEdge) (relationship_type : string)
  (weight : float) : HybridEdge :=
  let types := relationship_types e in
  let upd sw tw cw mw :=
    {| source := source e; target := target e;
       structural_weight := sw; temporal_weight := tw;
       comod_weight := cw; semantic_weight := mw;
       relationship_types := types; last_updated := last_updated e |} in
  if String.eqb relationship_type "calls"
     || String.eqb relationship_type "imports"
     || String.eqb relationship_type "inherits"
  then upd (PyFloat.pymax (structural_weight e) weight) (temporal_weight e)
           (comod_weight e) (semantic_weight e)
  else if String.eqb relationship_type "accessed_together"
  then upd (structural_weight e)
           (PyFloat.pymin 1 (temporal_weight e + weight * 0.1)%float)
           (comod_weight e) (semantic_weight e)
  else if String.eqb relationship_type "modified_together"
  then upd (structural_weight e) (temporal_weight e)
           (PyFloat.pymin 1 (comod_weight e + weight * 0.1)%float)
           (semantic_weight e)
  else if String.eqb relationship_type "similar"
  then upd (structural_weight e) (temporal_weight e) (comod_weight e)
           (PyFloat.pymax (semantic_weight e) weight)
  else e.

(** The edge [add_edge] finds or creates, stamped and tagged. *)
Definition touch_edge (now : string) (e : HybridEdge) (relationship_type : string)
  : HybridEdge :=
  {| source := source e; target := target e;
     structural_weight := structural_weight e;
     temporal_weight := temporal_weight e;
     comod_weight := comod_weight e;
     semantic_weight := semantic_weight e;
     relationship_types :=
       if bool_decide (relationship_type ∈ relationship_types e)
       then relationship_types e
       else (relationship_types e ++ [relationship_type])%list;
     last_updated := now |}.

(** [self.neighbors[a].add(b)]. *)
Definition neighbors_add (nb : gmap string pyset) (a b : string)
  : gmap string pyset :=
  <[a := set_add b (default set_new (nb !! a))]> nb.

(** [HybridGraph.add_edge]; [now] is the reading of the clock. *)
Definition add_edge (now : string) (g : HybridGraph)
  (src tgt relationship_type : string) (weight : float) : HybridGraph :=
  let eid := edge_id src tgt in
  let e0 := default (new_edge src tgt) (edges g !! eid) in
  let e1 := update_weight (touch_edge now e0 relationship_type)
              relationship_type weight in
  {| root := root g;
     nodes := nodes g;
     edges := <[eid := e1]> (edges g);
     neighbors := neighbors_add (neighbors_add (neighbors g) src tgt) tgt src;
     access_history := access_history g;
     comod_matrix := comod_matrix g |}.

(** [self.nodes[node_id].last_accessed = timestamp] and
    [self.nodes[node_id].access_count += 1], on the node in place. *)
Definition touch_node (timestamp : string) (n : HybridNode) : HybridNode :=
  {| id := id n; node_type := node_type n; path := path n; name := name n;
     semantic_embedding := semantic_embedding n;
     structural_score := structural_score n;
     temporal_score := temporal_score n;
     comod_score := comod_score n;
     last_accessed := timestamp;
     access_count := access_count n + 1;
     last_modified := last_modified n |}.

(** The bound of the access history. *)
Definition history_cap : nat := 1000.

(** [HybridGraph.record_access]. The clock is read three ways: [timestamp]
    is the time of the access, [cutoff] the time five minutes before, both
    in ISO format and compared as strings; [now] stamps the edges. *)
Definition record_access (timestamp cutoff now : string) (g : HybridGraph)
  (node_id : string) : HybridGraph :=
  let h1 := (access_history g ++ [(node_id, timestamp)])%list in
  let h2 := if (history_cap <? List.length h1)%nat
            then PyDict.last_n history_cap h1 else h1 in
  let nodes' :=
    match PyDict.get node_id (nodes g) with
    | Some n => PyDict.set node_id (touch_node timestamp n) (nodes g)
    | None => nodes g
    end in
  let recent :=
    map fst
      (List.filter
         (fun e => String.ltb cutoff (snd e) && negb (String.eqb (fst e) node_id))
         h2) in
  let g1 := {| root := root g; nodes := nodes'; edges := edges g;
               neighbors := neighbors g; access_history := h2;
               comod_matrix := comod_matrix g |} in
  fold_left
    (fun acc other_id => add_edge now acc node_id other_id "accessed_together" 0.5)
    (PyDict.last_n 5 recent) g1.

(** The body of the inner loop of [record_comodification]. *)
Definition comod_step (now : string) (g : HybridGraph) (f1 f2 : string)
  : HybridGraph :=
  let m1 := comod_incr (comod_matrix g) f1 f2 in
  let m2 := comod_incr m1 f2 f1 in
  let count := comod_get m2 f1 f2 in
  let weight := PyFloat.pymin 1 (PyFloat.float_of_int count * 0.2)%float in
  add_edge now
    {| root := root g; nodes := nodes g; edges := edges g;
       neighbors := neighbors g; access_history := access_history g;
       comod_matrix := m2 |}
    f1 f2 "modified_together" weight.

(** [HybridGraph.record_comodification]: for each file, the files behind
    it in the list. *)
Fixpoint record_comodification (now : string) (g : HybridGraph)
  (files : list string) : HybridGraph :=
  match files with
  | [] => g
  | f1 :: rest =>
      record_comodification now
        (fold_left (fun acc f2 => comod_step now acc f1 f2) rest g) rest
  end.

(** The loop of [get_related_nodes] over the neighbours: [scores] is the
    dictionary it fills, in insertion order. *)
Definition score_neighbor (g : HybridGraph) (query_id : string)
  (scores : list (string * float)) (neighbor_id : string)
  : list (string * float) :=
  let eid :=
    if bool_decide (is_Some (edges g !! edge_id query_id neighbor_id))
    then edge_id query_id neighbor_id
    else edge_id neighbor_id query_id in
  match edges g !! eid with
  | Some e => PyDict.set neighbor_id (get_combined_weight e) scores
  | None => scores
  end.

(** [HybridGraph.get_related_nodes]. *)
Definition get_related_nodes (g : HybridGraph) (query_id : string)
  (limit : Z) : list (string * float) :=
  if PyDict.mem query_id (nodes g)
  then
    let scores :=
      fold_left (score_neighbor g query_id)
        (set_iter (neighbors_of g query_id)) [] in
    PyDict.slice_to limit (PyDict.sorted_desc snd scores)
  else [].

(** The score [search] gives a node, statement by statement. *)
Definition search_score (query_lower : string) (n : HybridNode)
  : float :=
  let s0 := 0%float in
  let s1 := if PyStr.contains query_lower (str_lower (name n))
            then (s0 + 0.5)%float else s0 in
  let s2 := if PyStr.contains query_lower (str_lower (path n))
            then (s1 + 0.3)%float else s1 in
  let s3 := (s2 + structural_score n * 0.2)%float in
  let s4 := (s3 + temporal_score n * 0.1)%float in
  (s4 + comod_score n * 0.1)%float.

(** The loop of [search] over the nodes: the results before sorting. *)
Definition search_results (g : HybridGraph) (query : string)
  : list (HybridNode * float) :=
  let query_lower := str_lower query in
  List.filter (fun r => PyFloat.gt (snd r) 0)
    (map (fun kv => (snd kv, search_score query_lower (snd kv))) (nodes g)).

(** [HybridGraph.search]. *)
Definition search (g : HybridGraph) (query : string) (limit : Z)
  : list (HybridNode * float) :=
  PyDict.slice_to limit (PyDict.sorted_desc snd (search_results g query)).

(** The document [to_dict] returns. [asdict] and the dataclass
    constructors copy a record field by field, so a node or an edge of the
    document is the record itself; a neighbour set becomes the list of its
    elements in iteration order. The access history is not part of it. *)
Record Snapshot := {
  snap_root : string;
  snap_nodes : list (string * HybridNode);
  snap_edges : gmap string HybridEdge;
  snap_neighbors : gmap string (list string);
  snap_comod_matrix : gmap string (gmap string Z)
}.

(** [HybridGraph.to_dict]. *)
Definition to_dict (g : HybridGraph) : Snapshot :=
  {| snap_root := root g;
     snap_nodes := map (fun kv => (fst kv, snd kv)) (nodes g);
     snap_edges := edges g;
     snap_neighbors := set_iter <$> neighbors g;
     snap_comod_matrix := comod_matrix g |}.

(** [HybridGraph.from_dict]: a new graph filled key by key. *)
Definition from_dict (data : Snapshot) : HybridGraph :=
  {| root := snap_root data;
     nodes := fold_left (fun d kv => PyDict.set (fst kv) (snd kv) d)
                (snap_nodes data) [];
     edges := snap_edges data;
     neighbors := set_of_list <$> snap_neighbors data;
     access_history := [];
     comod_matrix := snap_comod_matrix data |}.

(** Step 1 of [build_hybrid_graph]: a file node per source file, given as
    [(str(path), path.name)]. *)
Definition add_file_node (g : HybridGraph) (f : string * string) : HybridGraph :=
  add_node g (new_node (fst f) "file" (fst f) (snd f)).

(** Step 2: a structural edge of the call graph between two symbols of
    different files becomes an edge between the files. *)
Definition add_structural_edge (now : string) (cg : CallGraph.CallGraph)
  (g : HybridGraph) (e : CallGraph.GraphEdge) : HybridGraph :=
  match CallGraph.nodes cg !! CallGraph.source e,
        CallGraph.nodes cg !! CallGraph.target e with
  | Some source_node, Some target_node =>
      let source_file := CallGraph.file source_node in
      let target_file := CallGraph.file target_node in
      if String.eqb source_file target_file then g
      else add_edge now g source_file target_file (CallGraph.edge_type e) 1
  | _, _ => g
  end.

(** Step 3, for one block of the log: the header line, then the changed
    files. [root_join f] is [str(root / f)]. *)
Definition replay_commit (now : string) (root_join : string -> string)
  (g : HybridGraph) (commit_block : string) : HybridGraph :=
  let lines := PyStr.split PyStr.nl (PyStr.strip commit_block) in
  if (1 <? List.length lines)%nat
  then
    let files_in_commit :=
      map root_join (List.filter (PyStr.endswith ".py") (tl lines)) in
    if (1 <? List.length files_in_commit)%nat
    then record_comodification now g files_in_commit
    else g
  else g.

(** Step 4, for one node under its key: the two scores recomputed from
    [neighbor_count], the size of the node's neighbour set, and
    [comod_total], the sum of its row of the co-modification matrix. *)
Definition neighbor_count (g : HybridGraph) (node_id : string) : Z :=
  Z.of_nat (List.length (set_iter (neighbors_of g node_id))).

Definition comod_total (g : HybridGraph) (node_id : string) : Z :=
  map_fold (fun _ v acc => v + acc) 0 (comod_row (comod_matrix g) node_id).

Definition score_node (g : HybridGraph) (kv : string * HybridNode)
  : string * HybridNode :=
  let node_id := fst kv in
  let n := snd kv in
  (node_id,
   {| id := id n; node_type := node_type n; path := path n; name := name n;
      semantic_embedding := semantic_embedding n;
      structural_score :=
        PyFloat.pymin 1 (PyFloat.float_of_int (neighbor_count g node_id) * 0.1)%float;
      temporal_score := temporal_score n;
      comod_score :=
        PyFloat.pymin 1 (PyFloat.float_of_int (comod_total g node_id) * 0.05)%float;
      last_accessed := last_accessed n;
      access_count := access_count n;
      last_modified := last_modified n |}).

(** Step 4: the loop over the nodes. *)
Definition calculate_node_scores (g : HybridGraph) : HybridGraph :=
  {| root := root g;
     nodes := map (score_node g) (nodes g);
     edges := edges g;
     neighbors := neighbors g;
     access_history := access_history g;
     comod_matrix := comod_matrix g |}.

(** [build_hybrid_graph], on what its collaborators return: the source files
    found under the root, the call graph loaded from disk if there is one,
    and the text of the commit log if the command gave any. *)
Definition build_hybrid_graph (now : string) (r : string)
  (root_join : string -> string) (files : list (string * string))
  (call_graph : option CallGraph.CallGraph) (git_output : option string)
  : HybridGraph :=
  let g1 := fold_left add_file_node files (empty r) in
  let g2 :=
    match call_graph with
    | Some cg => fold_left (add_structural_edge now cg) (CallGraph.edges cg) g1
    | None => g1
    end in
  let g3 :=
    match git_output with
    | Some output =>
        if String.eqb output "" then g2
        else fold_left (replay_commit now root_join)
               (PyStr.split PyStr.nlnl (PyStr.strip output)) g2
    | None => g2
    end in
  calculate_node_scores g3.

(** *** Notions the properties below are stated with *)

(** The edge [add_edge] works on: the stored one, or a new one. *)
Definition edge_or_new (g : HybridGraph) (s t : string) : HybridEdge :=
  default (new_edge s t) (edges g !! edge_id s t).

(** The structural kinds. *)
Definition structural_kind (rel : string) : Prop :=
  rel = "calls" \/ rel = "imports" \/ rel = "inherits".

(** [add_edge(x, y, 'calls', 1.0)] once per clock reading of [nows]. *)
Definition add_calls (g : HybridGraph) (x y : string) (nows : list string)
  : HybridGraph :=
  fold_left (fun acc now => add_edge now acc x y "calls" 1) nows g.

(** The four weights of an edge are in the range of the data model. *)
Definition weights_in_range (e : HybridEdge) : bool :=
  PyFloat.in_unit (structural_weight e) && PyFloat.in_unit (temporal_weight e)
  && PyFloat.in_unit (comod_weight e) && PyFloat.in_unit (semantic_weight e).

(** The three intrinsic scores of a node are in the range of the data
    model. *)
Definition scores_in_range (n : HybridNode) : bool :=
  PyFloat.in_unit (structural_score n) && PyFloat.in_unit (temporal_score n)
  && PyFloat.in_unit (comod_score n).

(** Whether the lower-cased query occurs in the lower-cased name of a
    node, and whether it occurs in neither its name nor its path. *)
Definition name_match (query : string) (n : HybridNode) : bool :=
  PyStr.contains (str_lower query) (str_lower (name n)).

Definition unmatched (query : string) (n : HybridNode) : bool :=
  negb (PyStr.contains (str_lower query) (str_lower (name n)))
  && negb (PyStr.contains (str_lower query) (str_lower (path n))).

(** The combined weight of an edge as the specification writes it. *)
Definition combined_weight_spec (e : HybridEdge) : float :=
  (0.3 * structural_weight e + 0.2 * temporal_weight e
   + 0.3 * comod_weight e + 0.2 * semantic_weight e)%float.

(** The edge [get_related_nodes] reads for the neighbour [b] of [a]: the one
    from [a] to [b] if it is stored, else the one from [b] to [a]. *)
Definition edge_between (g : HybridGraph) (a b : string) : option HybridEdge :=
  match edges g !! edge_id a b with
  | Some e => Some e
  | None => edges g !! edge_id b a
  end.

(** The neighbours of [query_id] that have an edge, in the iteration order of
    its neighbour set, each with the combined weight of its edge. *)
Definition related_scored (g : HybridGraph) (query_id : string)
  : list (string * float) :=
  omap (fun n => option_map (fun e => (n, combined_weight_spec e))
                   (edge_between g query_id n))
    (set_iter (neighbors_of g query_id)).

(** The score of a node for a query as the specification writes it. *)
Definition search_score_spec (query : string) (n : HybridNode) : float :=
  ((if PyStr.contains (str_lower query) (str_lower (name n)) then 0.5 else 0)
   + (if PyStr.contains (str_lower query) (str_lower (path n)) then 0.3 else 0)
   + 0.2 * structural_score n + 0.1 * temporal_score n
   + 0.1 * comod_score n)%float.

(** The nodes with a score above 0, in the order of [nodes], each with its
    score. *)
Definition search_scored (g : HybridGraph) (query : string)
  : list (HybridNode * float) :=
  List.filter (fun r => PyFloat.gt (snd r) 0)
    (map (fun kv => (snd kv, search_score_spec query (snd kv))) (nodes g)).

(** The [recent] list of [record_access(a)]: the ids of the history entries
    inside the window, [a]'s own left out. *)
Definition recent_of (cutoff a : string) (h : list (string * string)) : list string :=
  map fst
    (List.filter
       (fun e => String.ltb cutoff (snd e) && negb (String.eqb (fst e) a)) h).

(** The temporal weight of the edge from [a] to [b], 0 while there is no
    such edge. *)
Definition tw (g : HybridGraph) (a b : string) : float :=
  temporal_weight (edge_or_new g a b).

(** Successive calls of [record_access(a)], one per triple of clock readings
    [(timestamp, cutoff, now)]. *)
Definition access_many (g : HybridGraph) (a : string)
  (clock : list (string * string * string)) : HybridGraph :=
  fold_left
    (fun acc c => record_access (fst (fst c)) (snd (fst c)) (snd c) acc a)
    clock g.

(** One co-occurrence observation on a temporal weight: 0.5 scaled by 0.1 is
    added, and the sum is capped at 1.0. *)
Definition observe (w : float) : float := PyFloat.pymin 1 (w + 0.5 * 0.1)%float.

(** The temporal weight after [n] observations, starting from 0. *)
Fixpoint saturate (n : nat) : float :=
  match n with
  | O => 0%float
  | S k => observe (saturate k)
  end.

(** *** Invariants of the graph, and [hybrid_search] *)

(** The graphs the operations of the class produce from an empty graph,
    a graph read back from what [to_dict] wrote included. *)
Inductive reachable : HybridGraph -> Prop :=
| reachable_empty r : reachable (empty r)
| reachable_add_node g n : reachable g -> reachable (add_node g n)
| reachable_add_edge now g s t rel w :
    reachable g -> reachable (add_edge now g s t rel w)
| reachable_access ts cutoff now g a :
    reachable g -> reachable (record_access ts cutoff now g a)
| reachable_comod now g files :
    reachable g -> reachable (record_comodification now g files)
| reachable_scores g : reachable g -> reachable (calculate_node_scores g)
| reachable_reload g : reachable g -> reachable (from_dict (to_dict g)).

(** What the operations keep true of a graph: no node id twice and every
    node under its id; every edge under the key of its two ends; the
    neighbour index symmetric, with an edge behind every neighbour; at most
    1000 entries of history; a symmetric matrix of counts that are not
    negative. *)
Record sound (g : HybridGraph) : Prop := {
  nodes_wf : PyDict.wf (nodes g);
  nodes_keyed : forall k n, (k, n) ∈ nodes g -> id n = k;
  edges_keyed : forall k e, edges g !! k = Some e -> k = edge_id (source e) (target e);
  neighbors_sym : forall a b,
    b ∈ set_iter (neighbors_of g a) <-> a ∈ set_iter (neighbors_of g b);
  neighbors_edge : forall a b,
    b ∈ set_iter (neighbors_of g a) -> is_Some (edge_between g a b);
  history_bound : (List.length (access_history g) <= history_cap)%nat;
  matrix_sym : forall x y,
    comod_get (comod_matrix g) x y = comod_get (comod_matrix g) y x;
  matrix_nonneg : forall x y, 0 <= comod_get (comod_matrix g) x y
}.

(** Every edge has weights between 0 and 1. *)
Definition edges_in_range (g : HybridGraph) : Prop :=
  map_Forall (fun _ e => weights_in_range e = true) (edges g).

(** The part of [sound] that speaks of the edges and the neighbour index. *)
Definition links_ok (g : HybridGraph) : Prop :=
  (forall k e, edges g !! k = Some e -> k = edge_id (source e) (target e))
  /\ (forall a b, b ∈ set_iter (neighbors_of g a) <-> a ∈ set_iter (neighbors_of g b))
  /\ (forall a b, b ∈ set_iter (neighbors_of g a) -> is_Some (edge_between g a b)).

(** No structural weight is above 1. *)
Definition structural_capped (g : HybridGraph) : Prop :=
  map_Forall (fun _ e => PrimFloat.leb (structural_weight e) 1 = true) (edges g).

(** The edge from [s] to [t] is a structural edge of kind [rel]: its
    structural weight is 1.0, [rel] is one of its relationship types, and
    [t] is a neighbour of [s]. *)
Definition structural_link (s t rel : string) (g : HybridGraph) : Prop :=
  (exists he, edges g !! edge_id s t = Some he
              /\ structural_weight he = 1%float
              /\ rel ∈ relationship_types he)
  /\ t ∈ set_iter (neighbors_of g s).

(** An observation with weight 1.0, or of a kind that is not structural:
    it leaves a structural weight of 1.0 as it is. *)
Definition gentle (rel : string) (w : float) : Prop :=
  w = 1%float
  \/ (String.eqb rel "calls" || String.eqb rel "imports" || String.eqb rel "inherits")
     = false.

(** The counts of the co-modification matrix are below 2^63, and not
    negative. *)
Definition counts_small (g : HybridGraph) : Prop :=
  forall x y, comod_get (comod_matrix g) x y < 2 ^ 63.

Definition counts_nonneg (g : HybridGraph) : Prop :=
  forall x y, 0 <= comod_get (comod_matrix g) x y.

(** The loop of [hybrid_search] over the edges, for one result: the
    relationship types of the edges whose key contains the node's id. *)
Definition rel_types_step (node : HybridNode) (rel_types : pyset)
  (kv : string * HybridEdge) : pyset :=
  if PyStr.contains (id node) (fst kv)
  then fold_left (fun s t => set_add t s) (relationship_types (snd kv)) rel_types
  else rel_types.

(** [hybrid_search], from the graph it has loaded or built; [edge_items] are
    the items of [graph.edges] in the order in which the dictionary is
    iterated. *)
Definition hybrid_search (graph : HybridGraph)
  (edge_items : list (string * HybridEdge)) (query : string) (limit : Z)
  : list (string * float * list string) :=
  map (fun r => (path (fst r), snd r,
                 set_iter (fold_left (rel_types_step (fst r)) edge_items set_new)))
    (search graph query limit).

End Graph.

End Hybrid.

(** ** correlation_tracker.py: the co-modification miner *)

Module Correlation.

(** [CorrelationData], the fields the miner writes: the symmetric table of
    counts and the number of commits analyzed. *)
Record CorrelationData := {
  root : string;
  comod_counts : gmap string (gmap string Z);
  commits_analyzed : Z
}.


(** The body of the inner loop: both directions of one pair. *)
Definition count_pair (m : gmap string (gmap string Z)) (f1 f2 : string)
  : gmap string (gmap string Z) :=
  Hybrid.comod_incr (Hybrid.comod_incr m f1 f2) f2 f1.

(** The two nested loops over [py_files]. *)
Fixpoint count_pairs (m : gmap string (gmap string Z)) (py_files : list string)
  : gmap string (gmap string Z) :=
  match py_files with
  | [] => m
  | f1 :: rest => count_pairs (fold_left (fun acc f2 => count_pair acc f1 f2) rest m) rest
  end.

(** The non-blank lines behind the header of a block. *)
Definition commit_files (lines : list string) : list string :=
  List.filter (fun f => negb (String.eqb (PyStr.strip f) "")) (tl lines).

(** The source files among them. *)
Definition commit_py_files (lines : list string) : list string :=
  List.filter (PyStr.endswith ".py") (commit_files lines).

(** One round of the loop over the commit blocks, on the table and the
    counter [new_commits]. *)
Definition analyze_commit (st : gmap string (gmap string Z) * Z)
  (commit_block : string) : gmap string (gmap string Z) * Z :=
  let lines := PyStr.split PyStr.nl (PyStr.strip commit_block) in
  if (List.length (commit_files lines) <? 2)%nat then st
  else (count_pairs (fst st) (commit_py_files lines), snd st + 1).

(** [analyze_git_history], on the stored data and the text of the log. *)
Definition analyze_git_history (data : CorrelationData) (output : option string)
  : CorrelationData :=
  match output with
  | None => data
  | Some out =>
      if String.eqb out "" then data
      else
        let st := fold_left analyze_commit
                    (PyStr.split PyStr.nlnl (PyStr.strip out))
                    (comod_counts data, 0) in
        {| root := root data;
           comod_counts := fst st;
           commits_analyzed := commits_analyzed data + snd st |}
  end.

(** *** Notions the properties below are stated with *)

(** The lines of a commit block. *)
Definition block_lines (commit_block : string) : list string :=
  PyStr.split PyStr.nl (PyStr.strip commit_block).

(** What one commit block contributes to the entry of [x] and [y]: nothing
    when it lists fewer than two files, else the pairs of its source
    files. *)
Definition commit_pairs (x y : string) (commit_block : string) : Z :=
  if (List.length (commit_files (block_lines commit_block)) <? 2)%nat then 0
  else Pairs.pair_count x y (commit_py_files (block_lines commit_block)).

(** What a whole log contributes. *)
Fixpoint log_pairs (x y : string) (blocks : list string) : Z :=
  match blocks with
  | [] => 0
  | b :: rest => commit_pairs x y b + log_pairs x y rest
  end.

(** *** The analyzed commits, and [record_file_access] *)

(** The blocks of a log that [analyze_git_history] counts as analyzed: the
    ones that list at least two files, of any kind. *)
Definition multi_file_blocks (blocks : list string) : list string :=
  List.filter
    (fun b => negb (List.length (commit_files (block_lines b)) <? 2)%nat) blocks.

(** [access_counts] is a dictionary of dictionaries of counts. The inner
    dictionaries keep their insertion order, which [record_file_access]
    reads off the one under [recent_key]. *)
Definition recent_key : string := "_recent_accesses".

(** [access_counts[a]], created empty when it is missing, and
    [access_counts[a][b]], 0 when it is missing. *)
Definition access_row (ac : gmap string (list (string * Z))) (a : string)
  : list (string * Z) :=
  default [] (ac !! a).

Definition access_get (ac : gmap string (list (string * Z))) (a b : string) : Z :=
  default 0 (PyDict.get b (access_row ac a)).

(** [access_counts[a][b] += 1]. *)
Definition access_incr (ac : gmap string (list (string * Z))) (a b : string)
  : gmap string (list (string * Z)) :=
  <[a := PyDict.set b (access_get ac a b + 1) (access_row ac a)]> ac.

(** [record_file_access], on the table it has loaded and then saves. *)
Definition record_file_access (ac : gmap string (list (string * Z))) (file_path : string)
  : gmap string (list (string * Z)) :=
  let ac1 :=
    match ac !! recent_key with
    | Some _ => ac
    | None => <[recent_key := []]> ac
    end in
  let recent :=
    PyDict.last_n 5
      (List.filter (fun f => negb (String.eqb f file_path))
         (PyDict.keys (access_row ac1 recent_key))) in
  let ac2 :=
    fold_left
      (fun acc recent_file =>
         access_incr (access_incr acc file_path recent_file) recent_file file_path)
      recent ac1 in
  <[recent_key := PyDict.set file_path 1 (access_row ac2 recent_key)]> ac2.

(** The files of a list in the order of their first occurrence. *)
Definition first_seen_from (seen fs : list string) : list string :=
  fold_left (fun acc f => if bool_decide (f ∈ acc) then acc else (acc ++ [f])%list)
    fs seen.

Definition first_seen (fs : list string) : list string := first_seen_from [] fs.

(** What [record_file_access] keeps true of a table: the key of the recent
    list is not in the recent list, and the counts of two files are the same
    in both directions, with no count of a file with itself. *)
Definition tidy (ac : gmap string (list (string * Z))) : Prop :=
  (recent_key ∉ PyDict.keys (access_row ac recent_key))
  /\ (forall x y, x <> recent_key -> y <> recent_key ->
        access_get ac x y = access_get ac y x)
  /\ (forall x, x <> recent_key -> access_get ac x x = 0).

(** The files an access is correlated with: the last five of the recent
    list, the accessed file left out. *)
Definition window (ac : gmap string (list (string * Z))) (file_path : string)
  : list string :=
  PyDict.last_n 5
    (List.filter (fun f => negb (String.eqb f file_path))
       (PyDict.keys (access_row ac recent_key))).

(** The number of times [y] stands in [l]. *)
Definition occ (y : string) (l : list string) : Z :=
  Z.of_nat (List.length (List.filter (String.eqb y) l)).

(** *** [get_correlations_for_file] *)

(** [file_name in key or file_path in key]. *)
Definition key_matches (file_name file_path key : string) : bool :=
  PyStr.contains file_name key || PyStr.contains file_path key.

(** The body of the loop of [get_correlations_for_file] over a row of
    [comod_counts]. *)
Definition comod_entry (results : list (string * Z * string)) (rc : string * Z)
  : list (string * Z * string) :=
  if (0 <? snd rc)%Z then (results ++ [(fst rc, snd rc, "co-modified")])%list
  else results.

(** [next((r for r in results if r[0] == related), None)]. *)
Definition existing_entry (related : string) (results : list (string * Z * string))
  : option (string * Z * string) :=
  List.find (fun r => String.eqb (fst (fst r)) related) results.

(** [results.index(existing)]: the position of the first entry equal to
    [existing]. *)
Fixpoint index_of_entry (existing : string * Z * string)
  (results : list (string * Z * string)) : option nat :=
  match results with
  | [] => None
  | r :: rest =>
      if bool_decide (r = existing) then Some 0%nat
      else option_map S (index_of_entry existing rest)
  end.

(** The body of the loop over a row of [access_counts]. [existing] is taken
    from [results], so [index] finds it. *)
Definition access_entry (results : list (string * Z * string)) (rc : string * Z)
  : list (string * Z * string) :=
  let related := fst rc in
  let count := snd rc in
  if (0 <? count)%Z
  then
    match existing_entry related results with
    | Some existing =>
        match index_of_entry existing results with
        | Some idx =>
            <[idx := (related, snd (fst existing) + count, "co-modified+accessed")]>
              results
        | None => results
        end
    | None => (results ++ [(related, count, "co-accessed")])%list
    end
  else results.

(** One of the two loops over the keys of a table: the rows of the keys that
    match are passed to [entry]. *)
Definition table_loop (entry : list (string * Z * string) -> string * Z
                               -> list (string * Z * string))
  (file_name file_path : string) (items : list (string * list (string * Z)))
  (results : list (string * Z * string)) : list (string * Z * string) :=
  fold_left
    (fun acc kv =>
       if key_matches file_name file_path (fst kv)
       then fold_left entry (snd kv) acc
       else acc)
    items results.

(** The results of [get_correlations_for_file] before they are sorted. *)
Definition correlations_found (file_name file_path : string)
  (comod_items access_items : list (string * list (string * Z)))
  : list (string * Z * string) :=
  table_loop access_entry file_name file_path access_items
    (table_loop comod_entry file_name file_path comod_items []).

(** [get_correlations_for_file]: [file_name] is [Path(file_path).name], and
    [comod_items] and [access_items] are the items of [data.comod_counts] and
    of [data.access_counts], each key with the items of its row, in the order
    in which the dictionaries are iterated. *)
Definition get_correlations_for_file (file_name file_path : string)
  (comod_items access_items : list (string * list (string * Z))) (limit : Z)
  : list (string * Z * string) :=
  PyDict.slice_to limit
    (PyDict.sorted_desc_int (fun r => snd (fst r))
       (correlations_found file_name file_path comod_items access_items)).

(** The strengths of the entries of [results] that name [related], added
    up. *)
Definition strength_of (related : string) (results : list (string * Z * string)) : Z :=
  fold_right
    (fun r acc => (if String.eqb (fst (fst r)) related then snd (fst r) else 0) + acc)
    0 results.

(** What one count adds to the strength of [related], in either loop. *)
Definition adds (related : string) (rc : string * Z) : Z :=
  if String.eqb (fst rc) related && (0 <? snd rc)%Z then snd rc else 0.

(** The positive counts a row holds for [related], added up, and the same
    over the rows of the keys of a table that match. *)
Definition row_mass (related : string) (row : list (string * Z)) : Z :=
  fold_right (fun rc acc => adds related rc + acc) 0 row.

Definition table_mass (file_name file_path related : string)
  (items : list (string * list (string * Z))) : Z :=
  fold_right
    (fun kv acc =>
       (if key_matches file_name file_path (fst kv) then row_mass related (snd kv) else 0)
       + acc)
    0 items.

(** A positive count of [related] in the row of a key that matches. *)
Definition counted (file_name file_path related : string)
  (items : list (string * list (string * Z))) : Prop :=
  exists key row count,
    (key, row) ∈ items /\ key_matches file_name file_path key = true
    /\ (related, count) ∈ row /\ 0 < count.

(** The three reasons an entry can carry. *)
Definition reason_ok (reason : string) : Prop :=
  reason = "co-modified" \/ reason = "co-accessed" \/ reason = "co-modified+accessed".

(** What holds of every entry of the results, at every point of the two
    loops. *)
Definition entry_ok (file_name file_path : string)
  (comod_items access_items : list (string * list (string * Z)))
  (r : string * Z * string) : Prop :=
  (0 < snd (fst r))%Z /\ reason_ok (snd r)
  /\ (counted file_name file_path (fst (fst r)) comod_items
      \/ counted file_name file_path (fst (fst r)) access_items).

(** *** The commit log the miner is given

    The log is plain text: one block for each commit, the blocks separated
    by a blank line; the first line of a block is the header of the commit,
    the lines behind it are the paths of the files the commit changed. *)

(** A commit of the log. *)
Record Commit := {
  commit_header : string;
  commit_changed : list string
}.




(** The block of a commit, and the text of a log. *)
Definition commit_text (c : Commit) : string :=
  PyStr.lines (commit_header c :: commit_changed c).

Definition log_text (commits : list Commit) : string :=
  String.concat PyStr.nlnl (map commit_text commits).



End Correlation.

(** ** Concrete inputs

    Small graphs, logs and files on which the properties below are run. *)

Module Examples.
Import Hybrid.

(** Three file nodes. *)
Definition three_files `{R : PyRuntime} : HybridGraph :=
  add_node
    (add_node (add_node (empty "/repo") (new_node "a.py" "file" "a.py" "a.py"))
       (new_node "b.py" "file" "b.py" "b.py"))
    (new_node "c.py" "file" "c.py" "c.py").

(** [a.py] calls into [b.py] and was accessed together with [c.py]. *)
Definition mixed `{R : PyRuntime} : HybridGraph :=
  add_edge "t2" (add_edge "t1" three_files "a.py" "b.py" "calls" 1)
    "a.py" "c.py" "accessed_together" 0.5.

(** [a.py] calls into [b.py], then into [c.py]: two edges of equal weight. *)
Definition two_calls `{R : PyRuntime} : HybridGraph :=
  add_edge "t2" (add_edge "t1" three_files "a.py" "b.py" "calls" 1)
    "a.py" "c.py" "calls" 1.

(** [b.py] has just been accessed. *)
Definition b_accessed `{R : PyRuntime} : HybridGraph :=
  record_access "2024-05-01T10:00:00Z" "2024-05-01T09:55:00Z" "2024-05-01T10:00:00Z"
    three_files "b.py".

(** Twenty accesses, thirty seconds later, of another file. *)
Definition twenty_accesses : list (string * string * string) :=
  repeat ("2024-05-01T10:00:30Z", "2024-05-01T09:55:30Z", "2024-05-01T10:00:30Z") 20.

(** A node the query "auth" matches by its path only, with no intrinsic
    score, and a node it does not match, with full intrinsic scores. *)
Definition readme : HybridNode :=
  new_node "docs/auth/readme.py" "file" "docs/auth/readme.py" "readme.py".

Definition core : HybridNode :=
  {| id := "src/core.py"; node_type := "file"; path := "src/core.py";
     name := "core.py"; semantic_embedding := [];
     structural_score := 1; temporal_score := 1; comod_score := 1;
     last_accessed := ""; access_count := 0; last_modified := "" |}.

Definition readme_and_core `{R : PyRuntime} : HybridGraph :=
  add_node (add_node (empty "/repo") readme) core.

(** A log of one commit that touches two source files and a text file. *)
Definition one_commit : string :=
  PyStr.lines ["0a1b2c|dev|change two files"; "a.py"; "notes.txt"; "b.py"].

(** A log of six commits that each touch [a.py] and [b.py]. *)
Definition six_commits : string :=
  String.concat PyStr.nlnl (repeat (PyStr.lines ["1f2e3d"; "a.py"; "b.py"]) 6).

(** The graph built over [a.py] and [b.py] from that log, with no call
    graph. *)
Definition built `{R : PyRuntime} : HybridGraph :=
  build_hybrid_graph "t" "" (fun f => f) [("a.py", "a.py"); ("b.py", "b.py")]
    None (Some six_commits).

(** The file
    [from helpers import fetch as f]
    [def g(): f()]
    [setup()]
    as its top-level statements. *)
Definition aliased_import : CallGraph.ast :=
  CallGraph.ImportFrom (Some "helpers") [("fetch", Some "f")] 1.

Definition g_body : list CallGraph.ast :=
  [CallGraph.Other [CallGraph.Call (CallGraph.Name "f") [] 3]].

Definition top_level_call : CallGraph.ast :=
  CallGraph.Other [CallGraph.Call (CallGraph.Name "setup") [] 4].

Definition sample_file : list CallGraph.ast :=
  [aliased_import; CallGraph.FunctionDef "g" g_body 2; top_level_call].

(** The call graph of [sample_file]. *)
Definition sample_graph : CallGraph.CallGraph :=
  CallGraph.analyze_file (CallGraph.empty "/repo") "pkg/mod.py" "mod.py" "pkg.mod"
    sample_file.

(** The file
    [class Repo(Base):]
    [    def load(self): fetch()]
    as its top-level statement. *)
Definition load_body : list CallGraph.ast :=
  [CallGraph.Other [CallGraph.Call (CallGraph.Name "fetch") [] 3]].

Definition sample_class : CallGraph.ast :=
  CallGraph.ClassDef "Repo" [CallGraph.Name "Base"]
    [CallGraph.FunctionDef "load" load_body 2] 1.

(** Two source files, the second one with a syntax error. *)
Definition sample_sources : list CallGraph.SourceFile :=
  [{| CallGraph.sf_path := "pkg/mod.py"; CallGraph.sf_name := "mod.py";
      CallGraph.sf_module := "pkg.mod"; CallGraph.sf_tree := Some sample_file |};
   {| CallGraph.sf_path := "pkg/bad.py"; CallGraph.sf_name := "bad.py";
      CallGraph.sf_module := "pkg.bad"; CallGraph.sf_tree := None |}].

(** A call graph of two functions in two files, the first calling the
    second. *)
Definition caller_node : CallGraph.GraphNode :=
  {| CallGraph.name := "run"; CallGraph.node_type := "function";
     CallGraph.file := "a.py"; CallGraph.line := 1;
     CallGraph.qualified_name := "a.run" |}.

Definition callee_node : CallGraph.GraphNode :=
  {| CallGraph.name := "help"; CallGraph.node_type := "function";
     CallGraph.file := "b.py"; CallGraph.line := 1;
     CallGraph.qualified_name := "b.help" |}.

Definition call_edge : CallGraph.GraphEdge :=
  {| CallGraph.source := "a.run"; CallGraph.target := "b.help";
     CallGraph.edge_type := "calls"; CallGraph.edge_file := "a.py";
     CallGraph.edge_line := 2 |}.

Definition two_file_graph : CallGraph.CallGraph :=
  CallGraph.add_edge
    (CallGraph.add_node (CallGraph.add_node (CallGraph.empty "/repo") caller_node)
       callee_node)
    call_edge.

(** The graph built over [a.py] and [b.py] from that call graph, with no
    commit log. *)
Definition built_structural `{R : PyRuntime} : HybridGraph :=
  build_hybrid_graph "t" "/repo" (fun f => f) [("a.py", "a.py"); ("b.py", "b.py")]
    (Some two_file_graph) None.

(** Three accesses: [a.py], [b.py], and [a.py] again. *)
Definition three_accesses : list string := ["a.py"; "b.py"; "a.py"].

(** A node the query "auth" matches by its name, with no intrinsic score,
    behind [core], which it does not match. *)
Definition auth_node : HybridNode :=
  new_node "src/auth.py" "file" "src/auth.py" "auth.py".

Definition core_and_auth `{R : PyRuntime} : HybridGraph :=
  add_node (add_node (empty "/repo") core) auth_node.

(** A log of two commits: the first touches two source files and a text
    file, the second one source file. *)
Definition two_commit_log : list Correlation.Commit :=
  [{| Correlation.commit_header := "0a1b2c|dev|change two files";
      Correlation.commit_changed := ["a.py"; "notes.txt"; "b.py"] |};
   {| Correlation.commit_header := "1f2e3d|dev|change one file";
      Correlation.commit_changed := ["a.py"] |}].

(** The file
    [from helpers import fetch as f]
    [def h():]
    [    def g(): f()]
    as its top-level statements. *)
Definition nested_file : list CallGraph.ast :=
  [aliased_import;
   CallGraph.FunctionDef "h" [CallGraph.FunctionDef "g" g_body 3] 2].

(** The file
    [@app.route("/")]
    [def index(): pass]
    as its top-level statement: the children of [index] are its arguments,
    its body and, last, its decorator, a call on line 1. *)
Definition decorated_file : list CallGraph.ast :=
  [CallGraph.FunctionDef "index"
     [CallGraph.Other []; CallGraph.Other [];
      CallGraph.Call (CallGraph.Attribute (CallGraph.Name "app") "route")
        [CallGraph.Other []] 1] 2].

End Examples.


(** * Properties *)

Local Close Scope string_scope.

(** ** Floats: the order of binary64 numbers *)

Module PyFloatFacts.
Import PyFloat.

Ltac sf_destruct :=
  repeat match goal with
  | x : spec_float |- _ => destruct x as [[|]|[|]| |[|] ? ?]
  end.

Ltac sf_compare :=
  unfold SFleb, SFltb, SFeqb, SFcompare in *;
  repeat match goal with
  | H : context [Pos.compare_cont Eq ?a ?b] |- _ =>
      change (Pos.compare_cont Eq a b) with (Pos.compare a b) in H
  | |- context [Pos.compare_cont Eq ?a ?b] =>
      change (Pos.compare_cont Eq a b) with (Pos.compare a b)
  end;
  repeat match goal with
  | H : context [Z.compare ?a ?b] |- _ => destruct (Z.compare_spec a b)
  | |- context [Z.compare ?a ?b] => destruct (Z.compare_spec a b)
  | H : context [Pos.compare ?a ?b] |- _ => destruct (Pos.compare_spec a b)
  | |- context [Pos.compare ?a ?b] => destruct (Pos.compare_spec a b)
  end;
  simpl in *; subst; try discriminate; try reflexivity; try lia.

Lemma SFleb_trans a b c :
  SFleb a b = true -> SFleb b c = true -> SFleb a c = true.
Proof. sf_destruct; intros; sf_compare. Qed.

Lemma SFltb_false_leb a b :
  a <> S754_nan -> b <> S754_nan -> SFltb a b = false -> SFleb b a = true.
Proof. sf_destruct; intros; try congruence; sf_compare. Qed.

Lemma SFleb_ltb_trans a b c :
  SFleb a b = true -> SFltb b c = true -> SFltb a c = true.
Proof. sf_destruct; intros; sf_compare. Qed.

Lemma SFltb_eqb_false a b c :
  SFltb a b = true -> SFeqb b c = true -> SFeqb a c = false.
Proof. sf_destruct; intros; sf_compare. Qed.

Lemma SFltb_number a b :
  SFltb a b = true -> a <> S754_nan /\ b <> S754_nan.
Proof. sf_destruct; intros; sf_compare; split; congruence. Qed.

Lemma SFeqb_refl a : a <> S754_nan -> SFeqb a a = true.
Proof. sf_destruct; intros; try congruence; sf_compare. Qed.

Lemma SFleb_antisym_pos a m e :
  SFleb a (S754_finite false m e) = true ->
  SFltb a (S754_finite false m e) = false ->
  a = S754_finite false m e.
Proof. sf_destruct; intros; sf_compare. Qed.

Lemma SFmul_comm a b : SFmul prec emax a b = SFmul prec emax b a.
Proof.
  destruct a as [[|]|[|]| |[|] ? ?], b as [[|]|[|]| |[|] ? ?]; simpl;
    try reflexivity.
  all: rewrite Pos.mul_comm, Z.add_comm; reflexivity.
Qed.

(** A float is a number exactly when its specification is not the NaN. *)
Lemma is_number_spec a : is_number a <-> Prim2SF a <> S754_nan.
Proof.
  unfold is_number, is_nan. rewrite FloatAxioms.eqb_spec. split.
  - intros H E. rewrite E in H. discriminate.
  - intros H. rewrite SFeqb_refl by assumption. reflexivity.
Qed.

Lemma leb_trans a b c :
  PrimFloat.leb a b = true -> PrimFloat.leb b c = true -> PrimFloat.leb a c = true.
Proof. rewrite !leb_spec. apply SFleb_trans. Qed.

Lemma ltb_false_leb a b :
  is_number a -> is_number b ->
  PrimFloat.ltb a b = false -> PrimFloat.leb b a = true.
Proof.
  rewrite !is_number_spec, ltb_spec, leb_spec. apply SFltb_false_leb.
Qed.

Lemma leb_ltb_trans a b c :
  PrimFloat.leb a b = true -> PrimFloat.ltb b c = true -> PrimFloat.ltb a c = true.
Proof. rewrite leb_spec, !ltb_spec. apply SFleb_ltb_trans. Qed.

Lemma ltb_eqb_false a b c :
  PrimFloat.ltb a b = true -> PrimFloat.eqb b c = true -> PrimFloat.eqb a c = false.
Proof. rewrite ltb_spec, !FloatAxioms.eqb_spec. apply SFltb_eqb_false. Qed.

Lemma ltb_number a b :
  PrimFloat.ltb a b = true -> is_number a /\ is_number b.
Proof. rewrite ltb_spec, !is_number_spec. apply SFltb_number. Qed.

(** A float that is at most 1 and not below 1 is the float 1. *)
Lemma leb_one_eq a :
  PrimFloat.leb a 1 = true -> PrimFloat.ltb a 1 = false -> a = 1%float.
Proof.
  rewrite leb_spec, ltb_spec. intros H1 H2. apply Prim2SF_inj.
  change (Prim2SF 1) with (S754_finite false 4503599627370496 (-52)) in *.
  apply SFleb_antisym_pos; assumption.
Qed.

(** Multiplication commutes, so [0.3 * w] and [w * 0.3] are one float. *)
Lemma mul_comm a b : (a * b = b * a)%float.
Proof. apply Prim2SF_inj. rewrite !mul_spec. apply SFmul_comm. Qed.

(** [min(1.0, x)] is never above 1. *)
Lemma pymin_one_le x : PrimFloat.leb (pymin 1 x) 1 = true.
Proof.
  unfold pymin. destruct (PrimFloat.ltb x 1) eqn:E.
  - rewrite ltb_spec in E. rewrite leb_spec.
    revert E. generalize (Prim2SF x) (Prim2SF 1). intros u v.
    sf_destruct; intros; sf_compare.
  - reflexivity.
Qed.

(** [max(a, 1.0)] is 1 as soon as [a] is at most 1. *)
Lemma pymax_one a : PrimFloat.leb a 1 = true -> pymax a 1 = 1%float.
Proof.
  intros H. unfold pymax. destruct (PrimFloat.ltb a 1) eqn:E.
  - reflexivity.
  - apply leb_one_eq; assumption.
Qed.

(** Rounding a mantissa that is not negative gives no NaN and no negative
    float: the shifts and the rounding keep the mantissa at or above 0. *)
Lemma shr_1_nonneg mrs : 0 <= shr_m mrs -> 0 <= shr_m (shr_1 mrs).
Proof.
  destruct mrs as [m r s]. simpl. intros H.
  destruct m as [|[p|p|]|p]; simpl; lia.
Qed.

Lemma iter_shr_1_nonneg p :
  forall mrs, 0 <= shr_m mrs -> 0 <= shr_m (SpecFloat.iter_pos shr_1 p mrs).
Proof.
  induction p as [p IH|p IH|]; intros mrs H; simpl.
  - apply IH, IH, shr_1_nonneg, H.
  - apply IH, IH, H.
  - apply shr_1_nonneg, H.
Qed.

Lemma shr_fexp_nonneg m e l :
  0 <= m -> 0 <= shr_m (fst (shr_fexp prec emax m e l)).
Proof.
  intros H. unfold shr_fexp, shr.
  assert (H0 : 0 <= shr_m (shr_record_of_loc m l)).
  { destruct l as [|[| |]]; simpl; exact H. }
  destruct (fexp prec emax (Zdigits2 m + e) - e); simpl; try exact H0.
  apply iter_shr_1_nonneg, H0.
Qed.

Lemma round_nearest_even_nonneg m l : 0 <= m -> 0 <= round_nearest_even m l.
Proof.
  intros H. destruct l as [|[| |]]; simpl; try lia.
  destruct (Z.even m); lia.
Qed.

Lemma binary_round_aux_nonneg m e l :
  0 <= m -> SFnonneg (binary_round_aux prec emax false m e l).
Proof.
  intros H. unfold binary_round_aux.
  pose proof (shr_fexp_nonneg m e l H) as H1.
  destruct (shr_fexp prec emax m e l) as [mrs' e']. simpl in H1.
  pose proof (shr_fexp_nonneg _ e' loc_Exact
                (round_nearest_even_nonneg _ (loc_of_shr_record mrs') H1)) as H2.
  destruct (shr_fexp prec emax _ e' loc_Exact) as [mrs'' e'']. simpl in H2.
  destruct (shr_m mrs'') as [|p|p]; simpl; [exact I | | lia].
  destruct (e'' <=? emax - prec); exact I.
Qed.

Lemma SFmul_nonneg x y : SFunit x -> SFunit y -> SFnonneg (SFmul prec emax x y).
Proof.
  destruct x as [[|]|[|]| |[|] mx ex], y as [[|]|[|]| |[|] my ey]; simpl;
    try tauto; intros _ _.
  apply binary_round_aux_nonneg. lia.
Qed.

Lemma SFadd_nonneg x y :
  SFnonneg x -> SFnonneg y -> SFnonneg (SFadd prec emax x y).
Proof.
  destruct x as [[|]|[|]| |[|] mx ex], y as [[|]|[|]| |[|] my ey]; simpl;
    try tauto; intros _ _.
  unfold binary_normalize.
  destruct (shl_align mx ex (Z.min ex ey)) as [a ea].
  destruct (shl_align my ey (Z.min ex ey)) as [b eb]. simpl.
  unfold binary_round.
  destruct (shl_align _ _ _) as [mz ez].
  apply binary_round_aux_nonneg. lia.
Qed.

Lemma SFnonneg_number x : SFnonneg x -> x <> S754_nan.
Proof. destruct x; simpl; [| | tauto |]; congruence. Qed.

Lemma in_unit_spec a : in_unit a = true -> SFunit (Prim2SF a).
Proof.
  unfold in_unit. rewrite andb_true_iff, !leb_spec.
  change (Prim2SF 0) with (S754_zero false).
  change (Prim2SF 1) with (S754_finite false 4503599627370496 (-52)).
  generalize (Prim2SF a). intros x [H1 H2].
  sf_destruct; simpl; try exact I; sf_compare.
Qed.

(** A product of two floats of the unit range, and a sum of two floats
    that are not negative, is a float that is not negative. *)
Lemma mul_nonneg a b :
  SFunit (Prim2SF a) -> SFunit (Prim2SF b) -> SFnonneg (Prim2SF (a * b)).
Proof. rewrite mul_spec. apply SFmul_nonneg. Qed.

Lemma add_nonneg a b :
  SFnonneg (Prim2SF a) -> SFnonneg (Prim2SF b) -> SFnonneg (Prim2SF (a + b)).
Proof. rewrite add_spec. apply SFadd_nonneg. Qed.

End PyFloatFacts.

(** ** Floats: sums and products keep the order

    Binary64 addition and multiplication round to nearest, ties to even.
    On floats that are not negative both are monotone: rounding never
    reverses an order. The proof reads the definitions of [SpecFloat]. *)

Module PyFloatOrderFacts.
Import PyFloat PyFloatFacts.


Lemma pow2_pos n : 0 < 2 ^ n \/ (n < 0 /\ 2 ^ n = 0).
Proof.
  destruct (Z.le_gt_cases 0 n) as [H|H].
  - left. apply Z.pow_pos_nonneg; lia.
  - right. split; [lia|]. apply Z.pow_neg_r. exact H.
Qed.

Lemma pow2_gt0 n : 0 <= n -> 0 < 2 ^ n.
Proof. intros. apply Z.pow_pos_nonneg; lia. Qed.

Lemma rne_bounds v n : 2 * v / 2 ^ n / 2 <= rne v n <= 2 * v / 2 ^ n / 2 + 1.
Proof.
  unfold rne.
  repeat match goal with |- context [if ?b then _ else _] => destruct b end; lia.
Qed.

Lemma rne_mono v1 v2 n : 0 <= n -> v1 <= v2 -> rne v1 n <= rne v2 n.
Proof.
  intros Hn Hv.
  pose proof (pow2_gt0 n Hn) as HP.
  assert (Hc : 2 * v1 / 2 ^ n <= 2 * v2 / 2 ^ n) by (apply Z.div_le_mono; lia).
  pose proof (rne_bounds v1 n) as B1. pose proof (rne_bounds v2 n) as B2.
  destruct (Z.eq_dec (2 * v1 / 2 ^ n) (2 * v2 / 2 ^ n)) as [E|NE].
  - unfold rne. rewrite <- E.
    pose proof (Z.div_mod (2 * v1) (2 ^ n) ltac:(lia)) as D1.
    pose proof (Z.div_mod (2 * v2) (2 ^ n) ltac:(lia)) as D2.
    pose proof (Z.mod_pos_bound (2 * v1) (2 ^ n) HP) as M1.
    pose proof (Z.mod_pos_bound (2 * v2) (2 ^ n) HP) as M2.
    rewrite <- E in D2.
    destruct (_ mod 2 =? 0); [lia|].
    destruct (Z.eqb_spec ((2 * v1) mod 2 ^ n) 0) as [Z1|Z1];
      destruct (Z.eqb_spec ((2 * v2) mod 2 ^ n) 0) as [Z2|Z2]; cbn [negb];
      try destruct (Z.even (2 * v1 / 2 ^ n / 2)); lia.
  - assert (Hq : 2 * v1 / 2 ^ n / 2 <= 2 * v2 / 2 ^ n / 2) by (apply Z.div_le_mono; lia).
    destruct (Z.eq_dec (2 * v1 / 2 ^ n / 2) (2 * v2 / 2 ^ n / 2)) as [E|NE2]; [|lia].
    unfold rne in *. rewrite <- E in *.
    assert (Hm : (2 * v1 / 2 ^ n) mod 2 = 0 /\ (2 * v2 / 2 ^ n) mod 2 = 1).
    { pose proof (Z.div_mod (2 * v1 / 2 ^ n) 2 ltac:(lia)).
      pose proof (Z.div_mod (2 * v2 / 2 ^ n) 2 ltac:(lia)).
      pose proof (Z.mod_pos_bound (2 * v1 / 2 ^ n) 2 ltac:(lia)).
      pose proof (Z.mod_pos_bound (2 * v2 / 2 ^ n) 2 ltac:(lia)). lia. }
    destruct Hm as [-> ->]. cbn [Z.eqb].
    repeat match goal with |- context [if ?b then _ else _] => destruct b end; lia.
Qed.

Lemma rne_exact m k : 0 < k -> rne (m * 2 ^ k) k = m.
Proof.
  intros Hk. unfold rne.
  pose proof (pow2_gt0 k ltac:(lia)) as HP.
  replace (2 * (m * 2 ^ k)) with ((2 * m) * 2 ^ k) by ring.
  rewrite Z.div_mul by lia.
  replace (2 * m) with (m * 2) by ring.
  rewrite Z.mod_mul, Z.div_mul by lia. reflexivity.
Qed.

(** Scaling the number and the shift together changes nothing. *)
Lemma rne_scale m n k : 0 <= n -> 0 <= k -> rne (m * 2 ^ k) (n + k) = rne m n.
Proof.
  intros Hn Hk. unfold rne.
  pose proof (pow2_gt0 n Hn) as HP. pose proof (pow2_gt0 k Hk) as HK.
  rewrite Z.pow_add_r by lia.
  replace (2 * (m * 2 ^ k)) with ((2 * m) * 2 ^ k) by ring.
  rewrite Z.div_mul_cancel_r by lia.
  rewrite Z.mul_mod_distr_r by lia.
  replace (((2 * m) mod 2 ^ n * 2 ^ k =? 0)) with ((2 * m) mod 2 ^ n =? 0); [reflexivity|].
  destruct (Z.eqb_spec ((2 * m) mod 2 ^ n) 0) as [->|NE]; [reflexivity|].
  symmetry. apply Z.eqb_neq. nia.
Qed.

Lemma rne_ge_pow v n L : 0 <= n <= L -> 2 ^ L <= v -> 2 ^ L <= rne v n * 2 ^ n.
Proof.
  intros Hn Hv.
  pose proof (pow2_gt0 n ltac:(lia)) as HP.
  pose proof (rne_bounds v n) as Bd.
  assert (2 ^ (L - n) <= 2 * v / 2 ^ n / 2).
  { rewrite Z.div_div by lia.
    apply Z.div_le_lower_bound; [lia|].
    replace (2 ^ n * 2 * 2 ^ (L - n)) with (2 * (2 ^ n * 2 ^ (L - n))) by ring.
    rewrite <- Z.pow_add_r by lia. replace (n + (L - n)) with L by ring. lia. }
  replace (2 ^ L) with (2 ^ (L - n) * 2 ^ n).
  - apply Z.mul_le_mono_nonneg_r; lia.
  - rewrite <- Z.pow_add_r by lia. f_equal. ring.
Qed.

Lemma rne_le_pow v n L : 0 <= n <= L -> v < 2 ^ L -> rne v n * 2 ^ n <= 2 ^ L.
Proof.
  intros Hn Hv.
  pose proof (pow2_gt0 n ltac:(lia)) as HP.
  pose proof (pow2_gt0 (L - n) ltac:(lia)) as HQ.
  pose proof (rne_bounds v n) as Bd.
  assert (2 * v / 2 ^ n / 2 < 2 ^ (L - n)).
  { rewrite Z.div_div by lia.
    apply Z.div_lt_upper_bound; [lia|].
    replace (2 ^ n * 2 * 2 ^ (L - n)) with (2 * (2 ^ n * 2 ^ (L - n))) by ring.
    rewrite <- Z.pow_add_r by lia. replace (n + (L - n)) with L by ring. lia. }
  replace (2 ^ L) with (2 ^ (L - n) * 2 ^ n).
  - apply Z.mul_le_mono_nonneg_r; lia.
  - rewrite <- Z.pow_add_r by lia. f_equal. ring.
Qed.

Lemma rne_nonneg v n : 0 <= v -> 0 <= rne v n.
Proof.
  intros Hv. pose proof (rne_bounds v n) as Bd.
  assert (0 <= 2 * v / 2 ^ n / 2); [|lia].
  destruct (pow2_pos n) as [H|[_ H]].
  - apply Z.div_pos; [|lia]. apply Z.div_pos; lia.
  - rewrite H, Z.div_0_r. change (0 / 2) with 0. lia.
Qed.

Lemma round_even_nonneg B v : 0 <= round_even B v.
Proof.
  unfold round_even. destruct (Z.leb_spec v 0); [lia|].
  destruct (Z.leb_spec (round_exp B v - B) 0); [lia|].
  apply Z.mul_nonneg_nonneg; [apply rne_nonneg; lia|].
  apply Z.pow_nonneg. lia.
Qed.

Lemma round_even_mono B v1 v2 : B <= -1074 -> v1 <= v2 -> round_even B v1 <= round_even B v2.
Proof.
  intros HB Hv. unfold round_even at 1.
  destruct (Z.leb_spec v1 0) as [H1|H1]; [apply round_even_nonneg|].
  unfold round_even. destruct (Z.leb_spec v2 0) as [H2|H2]; [lia|].
  pose proof (Z.log2_le_mono v1 v2 Hv) as HL.
  pose proof (Z.log2_spec v1 H1) as S1. pose proof (Z.log2_spec v2 H2) as S2.
  pose proof (Z.log2_nonneg v1) as N1.
  unfold round_exp.
  set (L1 := Z.log2 v1) in *. set (L2 := Z.log2 v2) in *.
  set (n1 := Z.max (L1 + 1 + B - 53) (-1074) - B).
  set (n2 := Z.max (L2 + 1 + B - 53) (-1074) - B).
  assert (Hn : 0 <= n1 <= n2) by lia.
  destruct (Z.eq_dec n1 n2) as [E|NE].
  - rewrite <- E. destruct (Z.leb_spec n1 0); [lia|].
    apply Z.mul_le_mono_nonneg_r; [apply Z.pow_nonneg; lia|].
    apply rne_mono; lia.
  - assert (Hn2 : n2 = L2 - 52 /\ L1 < L2) by lia.
    destruct Hn2 as [Hn2 HL12].
    assert (Hv1 : v1 < 2 ^ L2).
    { eapply Z.lt_le_trans; [apply S1|]. apply Z.pow_le_mono_r; lia. }
    destruct (Z.leb_spec n2 0); [lia|].
    transitivity (2 ^ L2).
    + destruct (Z.leb_spec n1 0); [lia|]. apply rne_le_pow; lia.
    + apply rne_ge_pow; lia.
Qed.

Lemma digits2_pos_size p : digits2_pos p = Pos.size p.
Proof. induction p as [p IH|p IH|]; simpl; congruence. Qed.

Lemma digits2_pos_log2 p : Z.pos (digits2_pos p) = Z.log2 (Z.pos p) + 1.
Proof.
  rewrite digits2_pos_size. destruct p as [p|p|]; cbn [Pos.size Z.log2]; lia.
Qed.

Lemma shr_1_shifted mrs : 0 <= shr_m mrs -> shr_shifted 1 mrs (shr_1 mrs).
Proof.
  destruct mrs as [m r s]. unfold shr_shifted, shr_code. cbn [shr_m shr_r shr_s].
  intros Hm. change (2 ^ 1) with 2.
  destruct m as [|[p|p|]|p]; try lia; destruct r; cbn [shr_1 shr_m shr_r shr_s Z.b2z orb].
  all: repeat split; try lia.
  all: try (Z.div_mod_to_equations; lia).
  all: match goal with |- _ = negb (?x =? 0) || _ =>
         let H := fresh in
         destruct (Z.eqb_spec x 0) as [H|H]; cbn [negb orb];
         try reflexivity; exfalso; revert H; Z.div_mod_to_equations; lia end.
Qed.

Lemma shr_shifted_trans k1 k2 a b c :
  0 < k1 -> 0 < k2 -> 0 <= shr_code a ->
  shr_shifted k1 a b -> shr_shifted k2 b c -> shr_shifted (k1 + k2) a c.
Proof.
  intros H1 H2 Ha (Hb & Eb & Sb) (Hc & Ec & Sc).
  pose proof (pow2_gt0 k1 ltac:(lia)) as P1.
  pose proof (pow2_gt0 k2 ltac:(lia)) as P2.
  unfold shr_shifted. split; [exact Hc|].
  rewrite Z.pow_add_r by lia. split.
  - rewrite Ec, Eb. apply Z.div_div; lia.
  - rewrite Sc, Sb, Eb. rewrite Z.rem_mul_r by lia.
    pose proof (Z.mod_pos_bound (shr_code a) (2 ^ k1) P1).
    pose proof (Z.mod_pos_bound (shr_code a / 2 ^ k1) (2 ^ k2) P2).
    destruct (Z.eqb_spec (shr_code a mod 2 ^ k1) 0) as [E1|E1];
      destruct (Z.eqb_spec ((shr_code a / 2 ^ k1) mod 2 ^ k2) 0) as [E2|E2];
      match goal with |- context [?x =? 0] => destruct (Z.eqb_spec x 0) end;
      cbn [negb orb]; try reflexivity; try (destruct (shr_s a); reflexivity);
      exfalso; nia.
Qed.

Lemma shr_shifted_code_nonneg k a b : 0 <= shr_code a -> shr_shifted k a b -> 0 <= shr_code b.
Proof.
  intros Ha (Hb & _). unfold shr_code. destruct (shr_r b); cbn [Z.b2z]; lia.
Qed.

Lemma iter_shr_1_shifted p :
  forall mrs, 0 <= shr_m mrs -> shr_shifted (Z.pos p) mrs (SpecFloat.iter_pos shr_1 p mrs).
Proof.
  assert (C : forall mrs, 0 <= shr_m mrs -> 0 <= shr_code mrs).
  { intros mrs H. unfold shr_code. destruct (shr_r mrs); cbn [Z.b2z]; lia. }
  induction p as [p IH|p IH|]; intros mrs H; cbn [SpecFloat.iter_pos].
  - pose proof (shr_1_shifted mrs H) as S1.
    pose proof (IH _ (proj1 S1)) as S2.
    pose proof (IH _ (proj1 S2)) as S3.
    replace (Z.pos p~1) with (1 + (Z.pos p + Z.pos p)) by lia.
    eapply shr_shifted_trans; [lia|lia|auto|exact S1|].
    eapply shr_shifted_trans; [lia|lia|apply C, S1|exact S2|exact S3].
  - pose proof (IH _ H) as S2.
    pose proof (IH _ (proj1 S2)) as S3.
    replace (Z.pos p~0) with (Z.pos p + Z.pos p) by lia.
    eapply shr_shifted_trans; [lia|lia|auto|exact S2|exact S3].
  - apply shr_1_shifted, H.
Qed.

Lemma shr_shifted_round m n rec :
  shr_shifted n {| shr_m := m; shr_r := false; shr_s := false |} rec ->
  round_nearest_even (shr_m rec) (loc_of_shr_record rec) = rne m n
  /\ shr_m rec = 2 * m / 2 ^ n / 2.
Proof.
  intros (Hm & Ec & Es). unfold shr_code in Ec, Es. cbn [shr_m shr_r shr_s Z.b2z] in *.
  rewrite Z.add_0_r, orb_false_r in *.
  unfold rne. rewrite <- Ec, <- Es.
  assert (Q : (2 * shr_m rec + Z.b2z (shr_r rec)) / 2 = shr_m rec).
  { destruct (shr_r rec); cbn [Z.b2z]; Z.div_mod_to_equations; lia. }
  assert (M : (2 * shr_m rec + Z.b2z (shr_r rec)) mod 2 = Z.b2z (shr_r rec)).
  { destruct (shr_r rec); cbn [Z.b2z]; Z.div_mod_to_equations; lia. }
  rewrite Q, M. split; [|reflexivity].
  destruct rec as [m' r' s']. cbn [shr_m shr_r shr_s loc_of_shr_record Z.b2z].
  destruct r', s'; reflexivity.
Qed.

(** One pass of [shr_fexp] over an exact positive mantissa. *)
Lemma shr_fexp_exact m e :
  0 < m ->
  let n := Z.max (Z.log2 m + 1 + e - 53) (-1074) - e in
  let rec := fst (shr_fexp prec emax m e loc_Exact) in
  snd (shr_fexp prec emax m e loc_Exact) = e + Z.max n 0
  /\ shr_m rec = m / 2 ^ Z.max n 0
  /\ round_nearest_even (shr_m rec) (loc_of_shr_record rec)
     = (if n <=? 0 then m else rne m n).
Proof.
  intros Hm n rec. subst rec. unfold shr_fexp.
  assert (E : fexp prec emax (Zdigits2 m + e) - e = n).
  { destruct m as [|p|p]; try lia. unfold Zdigits2. rewrite digits2_pos_log2.
    unfold fexp, SpecFloat.emin, prec, emax. subst n. lia. }
  rewrite E. clearbody n. cbn [shr_record_of_loc]. unfold shr.
  destruct n as [|p|p]; cbn [fst snd shr_m loc_of_shr_record round_nearest_even].
  - change (Z.max 0 0) with 0. rewrite Z.div_1_r. repeat split; lia.
  - pose proof (iter_shr_1_shifted p {| shr_m := m; shr_r := false; shr_s := false |}
                  ltac:(simpl; lia)) as S.
    apply shr_shifted_round in S. destruct S as [S1 S2].
    replace (Z.max (Z.pos p) 0) with (Z.pos p) by lia.
    repeat split; [|exact S1].
    rewrite S2. rewrite Z.div_div by (try apply pow2_gt0; lia).
    rewrite (Z.mul_comm (2 ^ _) 2). rewrite Z.div_mul_cancel_l; try lia.
  - replace (Z.max (Z.neg p) 0) with 0 by lia. change (2 ^ 0) with 1.
    rewrite Z.div_1_r. repeat split; lia.
Qed.

Lemma pow2_split a b : 0 <= b <= a -> 2 ^ a = 2 ^ (a - b) * 2 ^ b.
Proof. intros H. rewrite <- Z.pow_add_r by lia. f_equal. ring. Qed.

Lemma pow2_le a b : 0 <= a <= b -> 2 ^ a <= 2 ^ b.
Proof. intros H. apply Z.pow_le_mono_r; lia. Qed.

(** What the first pass of the rounding leaves is the rounded value. *)
Lemma round_even_scaled B m e :
  0 < m -> B <= e ->
  let c := Z.max (Z.log2 m + 1 + e - 53) (-1074) in
  let n := c - e in
  0 <= n ->
  round_even B (m * 2 ^ (e - B)) = (if n <=? 0 then m else rne m n) * 2 ^ (c - B).
Proof.
  intros Hm HB c n Hn.
  pose proof (pow2_gt0 (e - B) ltac:(lia)) as HP.
  unfold round_even. destruct (Z.leb_spec (m * 2 ^ (e - B)) 0) as [H|_]; [nia|].
  assert (Ec : round_exp B (m * 2 ^ (e - B)) = c).
  { unfold round_exp. rewrite Z.log2_mul_pow2 by lia. subst c. f_equal. ring. }
  rewrite Ec.
  destruct (Z.leb_spec n 0) as [H0|H0].
  - assert (c = e) by lia.
    destruct (Z.leb_spec (c - B) 0) as [H1|H1].
    + replace (c - B) with 0 by lia. replace (e - B) with 0 by lia. reflexivity.
    + replace (c - B) with (e - B) by lia. rewrite rne_exact by lia. reflexivity.
  - destruct (Z.leb_spec (c - B) 0) as [H1|H1]; [lia|].
    replace (c - B) with (n + (e - B)) by (subst n; ring).
    rewrite rne_scale by lia. reflexivity.
Qed.

Lemma log2_53 q : 0 < q <= 2 ^ 53 -> Z.log2 q <= 53 /\ (Z.log2 q = 53 -> q = 2 ^ 53).
Proof.
  intros H. assert (L : Z.log2 q <= 53).
  { pose proof (Z.log2_le_mono q (2 ^ 53) ltac:(lia)) as L.
    rewrite Z.log2_pow2 in L by lia. exact L. }
  split; [exact L|]. intros E.
  pose proof (Z.log2_spec q ltac:(lia)) as S. rewrite E in S. lia.
Qed.

Lemma round_key B m e :
  B <= -1074 -> B <= e ->
  e <= Z.max (Z.log2 (Z.pos m) + 1 + e - 53) (-1074) ->
  order_key B (binary_round_aux prec emax false (Z.pos m) e loc_Exact)
  = Z.min (round_even B (Z.pos m * 2 ^ (e - B))) (2 ^ (1024 - B)).
Proof.
  intros HB He Hc.
  rewrite round_even_scaled by lia.
  set (M := Z.pos m) in *.
  set (c := Z.max (Z.log2 M + 1 + e - 53) (-1074)) in *.
  set (n := c - e).
  assert (HM : 0 < M) by (subst M; lia).
  pose proof (Z.log2_spec M HM) as SM.
  pose proof (Z.log2_nonneg M) as LM.
  unfold binary_round_aux.
  pose proof (shr_fexp_exact M e HM) as (E1 & _ & R1).
  fold c in E1, R1. fold n in E1, R1.
  destruct (shr_fexp prec emax M e loc_Exact) as [rec1 e1]. cbn [fst snd] in E1, R1.
  rewrite R1. replace e1 with c by (subst n; lia). clear E1 R1 rec1 e1.
  set (q := if n <=? 0 then M else rne M n).
  assert (Hq : 0 <= q <= 2 ^ 53).
  { subst q. destruct (Z.leb_spec n 0) as [H0|H0].
    - split; [lia|]. assert (Z.log2 M + 1 <= 53) by (subst n; lia).
      transitivity (2 ^ (Z.log2 M + 1)); [lia|apply pow2_le; lia].
    - split; [apply rne_nonneg; lia|].
      pose proof (rne_le_pow M n (n + 53) ltac:(lia)) as U.
      pose proof (pow2_gt0 n ltac:(lia)) as Pn.
      rewrite Z.pow_add_r in U by lia.
      assert (M < 2 ^ n * 2 ^ 53).
      { rewrite <- Z.pow_add_r by lia.
        eapply Z.lt_le_trans; [apply SM|]. apply pow2_le. subst n. lia. }
      specialize (U H). nia. }
  assert (Hlow : -1074 < c -> 2 ^ 52 <= q).
  { intros Hn. assert (En : n = Z.log2 M - 52) by (subst n; lia).
    subst q. destruct (Z.leb_spec n 0) as [H0|H0].
    - replace 52 with (Z.log2 M) by lia. lia.
    - pose proof (rne_ge_pow M n (Z.log2 M) ltac:(lia) ltac:(lia)) as U.
      pose proof (pow2_gt0 n ltac:(lia)) as Pn.
      rewrite (pow2_split (Z.log2 M) n) in U by lia.
      replace (Z.log2 M - n) with 52 in U by lia. nia. }
  clearbody q.
  pose proof (pow2_gt0 (c - B) ltac:(lia)) as Pc.
  pose proof (pow2_gt0 (1024 - B) ltac:(lia)) as Ph.
  assert (Hhuge : 2 ^ (1024 - B) = 2 ^ 53 * 2 ^ (971 - B)).
  { rewrite <- Z.pow_add_r by lia. f_equal. ring. }
  destruct (Z.eq_dec q 0) as [Q0|Q0].
  - subst q. unfold shr_fexp. cbn [Zdigits2 shr_record_of_loc round_nearest_even].
    unfold shr.
    assert (F : fexp prec emax (0 + c) - c <= 0).
    { unfold fexp, SpecFloat.emin, prec, emax. lia. }
    destruct (fexp prec emax (0 + c) - c) as [|p|p]; try lia; cbn [shr_m order_key]; lia.
  - pose proof (shr_fexp_exact q c ltac:(lia)) as (E2 & M2 & _).
    destruct (shr_fexp prec emax q c loc_Exact) as [rec2 e2]. cbn [fst snd] in E2, M2.
    set (n2 := Z.max (Z.log2 q + 1 + c - 53) (-1074) - c) in *.
    destruct (log2_53 q ltac:(lia)) as [L53 L53'].
    assert (Hn2 : n2 <= 0 \/ (n2 = 1 /\ q = 2 ^ 53)) by (subst n2; lia).
    destruct Hn2 as [Hn2|[Hn2 Eq53]].
    + replace (Z.max n2 0) with 0 in * by lia. change (2 ^ 0) with 1 in M2.
      rewrite Z.div_1_r in M2. rewrite Z.add_0_r in E2. subst e2. rewrite M2.
      destruct q as [|p|p]; try lia.
      assert (Hlt : Z.pos p < 2 ^ 53).
      { assert (Z.log2 (Z.pos p) < 53) by (subst n2; lia).
        apply Z.log2_lt_pow2; lia. }
      unfold prec, emax. change (1024 - 53) with 971.
      destruct (Z.leb_spec c 971) as [Hf|Hf]; cbn [order_key].
      * rewrite Z.min_l; [reflexivity|]. rewrite Hhuge.
        pose proof (pow2_le (c - B) (971 - B) ltac:(lia)). nia.
      * rewrite Z.min_r; [reflexivity|].
        specialize (Hlow ltac:(lia)).
        rewrite (pow2_split (1024 - B) 52) by lia.
        pose proof (pow2_le (1024 - B - 52) (c - B) ltac:(lia)).
        pose proof (pow2_gt0 (1024 - B - 52) ltac:(lia)). nia.
    + replace (Z.max n2 0) with 1 in * by lia. subst e2. subst q.
      change (2 ^ 53 / 2 ^ 1) with (2 ^ 52) in M2. rewrite M2.
      change (2 ^ 52) with (Z.pos 4503599627370496).
      unfold prec, emax. change (1024 - 53) with 971.
      assert (Hv : Z.pos 4503599627370496 * 2 ^ (c + 1 - B) = 2 ^ 53 * 2 ^ (c - B)).
      { replace (c + 1 - B) with (1 + (c - B)) by ring.
        rewrite Z.pow_add_r by lia. change (2 ^ 53) with (Z.pos 4503599627370496 * 2 ^ 1). ring. }
      destruct (Z.leb_spec (c + 1) 971) as [Hf|Hf]; cbn [order_key].
      * rewrite Hv. rewrite Z.min_l; [reflexivity|]. rewrite Hhuge.
        pose proof (pow2_le (c - B) (971 - B) ltac:(lia)).
        apply Z.mul_le_mono_nonneg_l; lia.
      * rewrite Z.min_r; [reflexivity|]. rewrite Hhuge.
        pose proof (pow2_le (971 - B) (c - B) ltac:(lia)).
        apply Z.mul_le_mono_nonneg_l; lia.
Qed.

Lemma valid_finite s m e :
  valid_binary (S754_finite s m e) = true ->
  -1074 <= e <= 971
  /\ e = Z.max (Z.log2 (Z.pos m) + 1 + e - 53) (-1074).
Proof.
  unfold valid_binary, bounded, canonical_mantissa.
  rewrite andb_true_iff, Z.eqb_eq, Z.leb_le, digits2_pos_log2.
  unfold fexp, SpecFloat.emin, prec, emax. lia.
Qed.

Lemma finite_bounds m e :
  e = Z.max (Z.log2 (Z.pos m) + 1 + e - 53) (-1074) ->
  Z.pos m < 2 ^ 53 /\ (-1074 < e -> 2 ^ 52 <= Z.pos m).
Proof.
  intros H. pose proof (Z.log2_spec (Z.pos m) ltac:(lia)) as S.
  pose proof (Z.log2_nonneg (Z.pos m)). split.
  - eapply Z.lt_le_trans; [apply S|]. apply pow2_le. lia.
  - intros He. replace 52 with (Z.log2 (Z.pos m)) by lia. lia.
Qed.

Lemma order_key_nonneg B f : 0 <= order_key B f.
Proof.
  destruct f as [s|[|]| |[|] m e]; cbn [order_key]; try lia.
  all: try (apply Z.pow_nonneg; lia).
  all: apply Z.mul_nonneg_nonneg; [lia|]; apply Z.pow_nonneg; lia.
Qed.

Lemma finite_key_lt B m1 e1 m2 e2 :
  B <= -1074 ->
  valid_binary (S754_finite false m1 e1) = true ->
  valid_binary (S754_finite false m2 e2) = true ->
  e1 < e2 ->
  Z.pos m1 * 2 ^ (e1 - B) < Z.pos m2 * 2 ^ (e2 - B).
Proof.
  intros HB V1 V2 He.
  apply valid_finite in V1, V2. destruct V1 as [R1 C1], V2 as [R2 C2].
  apply finite_bounds in C1, C2. destruct C1 as [U1 _], C2 as [_ L2].
  specialize (L2 ltac:(lia)).
  replace (e2 - B) with ((e2 - e1) + (e1 - B)) by ring.
  rewrite Z.pow_add_r by lia.
  pose proof (pow2_gt0 (e1 - B) ltac:(lia)) as P.
  pose proof (pow2_le 1 (e2 - e1) ltac:(lia)) as Q. change (2 ^ 1) with 2 in Q.
  rewrite Z.mul_assoc. apply Z.mul_lt_mono_pos_r; [exact P|]. nia.
Qed.

Lemma finite_key_lt_huge B m e :
  B <= -1074 ->
  valid_binary (S754_finite false m e) = true ->
  Z.pos m * 2 ^ (e - B) < 2 ^ (1024 - B).
Proof.
  intros HB V. apply valid_finite in V. destruct V as [R C].
  apply finite_bounds in C. destruct C as [U _].
  replace (1024 - B) with (53 + (971 - B)) by ring.
  rewrite Z.pow_add_r by lia.
  pose proof (pow2_le (e - B) (971 - B) ltac:(lia)).
  pose proof (pow2_gt0 (e - B) ltac:(lia)). nia.
Qed.

(** On valid floats that are not negative, the order of the floats is the
    order of their keys. *)
Lemma SFleb_key B x y :
  B <= -1074 ->
  valid_binary x = true -> valid_binary y = true ->
  SFnonneg x -> SFnonneg y ->
  SFleb x y = true <-> order_key B x <= order_key B y.
Proof.
  intros HB Vx Vy Nx Ny.
  destruct x as [sx|[|]| |[|] m1 e1]; try (exfalso; exact Nx);
    destruct y as [sy|[|]| |[|] m2 e2]; try (exfalso; exact Ny);
    unfold SFleb, SFcompare; cbn [order_key].
  - destruct sx, sy; split; intros; try reflexivity; lia.
  - destruct sx; split; intros; try reflexivity; apply Z.pow_nonneg; lia.
  - pose proof (pow2_gt0 (e2 - B) ltac:(apply valid_finite in Vy; lia)).
    destruct sx; split; intros; try reflexivity; nia.
  - pose proof (pow2_gt0 (1024 - B) ltac:(lia)).
    destruct sy; split; intros; try discriminate; lia.
  - split; intros; [lia|reflexivity].
  - pose proof (finite_key_lt_huge B m2 e2 HB Vy).
    split; intros; [discriminate|lia].
  - pose proof (pow2_gt0 (e1 - B) ltac:(apply valid_finite in Vx; lia)).
    destruct sy; split; intros; try discriminate; nia.
  - pose proof (finite_key_lt_huge B m1 e1 HB Vx).
    split; intros; [lia|reflexivity].
  - destruct (Z.compare_spec e1 e2) as [E|L|G].
    + subst e2. change (Pos.compare_cont Eq m1 m2) with (Pos.compare m1 m2).
      pose proof (pow2_gt0 (e1 - B) ltac:(apply valid_finite in Vx; lia)) as P.
      destruct (Pos.compare_spec m1 m2) as [E|L|G]; split; intros;
        try reflexivity; try discriminate; try nia.
    + pose proof (finite_key_lt B m1 e1 m2 e2 HB Vx Vy L).
      split; intros; [lia|reflexivity].
    + pose proof (finite_key_lt B m2 e2 m1 e1 HB Vy Vx G).
      split; intros; [discriminate|lia].
Qed.

Lemma round_even_finite B m e :
  B <= -1074 ->
  valid_binary (S754_finite false m e) = true ->
  round_even B (Z.pos m * 2 ^ (e - B)) = Z.pos m * 2 ^ (e - B).
Proof.
  intros HB V. apply valid_finite in V. destruct V as [R C].
  rewrite round_even_scaled by lia. rewrite <- C.
  replace (e - e) with 0 by ring. reflexivity.
Qed.

Lemma round_even_0 B : round_even B 0 = 0.
Proof. reflexivity. Qed.

(** The key of a product is the rounded product of the keys. *)
Lemma SFmul_key B x y :
  B <= -1074 ->
  valid_binary x = true -> valid_binary y = true ->
  SFunit x -> SFunit y ->
  order_key (2 * B) (SFmul prec emax x y)
  = Z.min (round_even (2 * B) (order_key B x * order_key B y)) (2 ^ (1024 - 2 * B)).
Proof.
  intros HB Vx Vy Ux Uy.
  pose proof (pow2_gt0 (1024 - 2 * B) ltac:(lia)) as PH.
  destruct x as [sx|[|]| |[|] m1 e1]; try (exfalso; exact Ux);
    destruct y as [sy|[|]| |[|] m2 e2]; try (exfalso; exact Uy);
    cbn [SFmul order_key xorb].
  - rewrite Z.mul_0_l, round_even_0. lia.
  - rewrite Z.mul_0_l, round_even_0. lia.
  - rewrite Z.mul_0_r, round_even_0. lia.
  - pose proof (valid_finite _ _ _ Vx) as [R1 C1].
    pose proof (valid_finite _ _ _ Vy) as [R2 C2].
    pose proof (Z.log2_mul_below (Z.pos m1) (Z.pos m2) ltac:(lia) ltac:(lia)) as LB.
    pose proof (Z.log2_nonneg (Z.pos m1)). pose proof (Z.log2_nonneg (Z.pos m2)).
    rewrite round_key; rewrite ?Pos2Z.inj_mul; try lia.
    f_equal. f_equal.
    replace (e1 + e2 - 2 * B) with ((e1 - B) + (e2 - B)) by ring.
    rewrite Z.pow_add_r by lia. ring.
Qed.

Lemma iter_xO m d : Z.pos (Pos.iter xO m d) = Z.pos m * 2 ^ Z.pos d.
Proof.
  induction d as [|d IH] using Pos.peano_ind.
  - cbn [Pos.iter]. rewrite Pos2Z.inj_xO. change (2 ^ 1) with 2. ring.
  - rewrite Pos.iter_succ, Pos2Z.inj_xO, IH, Pos2Z.inj_succ, Z.pow_succ_r by lia. ring.
Qed.

Lemma shl_align_spec m e e' :
  let r := shl_align m e e' in
  snd r = Z.min e e' /\ Z.pos (fst r) = Z.pos m * 2 ^ (e - Z.min e e').
Proof.
  unfold shl_align. destruct (e' - e) as [|d|d] eqn:E; cbn [fst snd].
  - replace (Z.min e e') with e by lia. replace (e - e) with 0 by ring.
    change (2 ^ 0) with 1. lia.
  - replace (Z.min e e') with e by lia. replace (e - e) with 0 by ring.
    change (2 ^ 0) with 1. lia.
  - replace (Z.min e e') with e' by lia. split; [reflexivity|].
    rewrite iter_xO. f_equal. f_equal. lia.
Qed.

Lemma shl_align_log2 m e e' :
  let r := shl_align m e e' in
  Z.log2 (Z.pos (fst r)) + snd r = Z.log2 (Z.pos m) + e.
Proof.
  intros r. destruct (shl_align_spec m e e') as [E1 E2]. fold r in E1, E2.
  rewrite E2, E1, Z.log2_mul_pow2 by lia. ring.
Qed.

Lemma binary_round_key B m e :
  B <= -1074 -> -1074 <= e ->
  order_key B (binary_round prec emax false m e)
  = Z.min (round_even B (Z.pos m * 2 ^ (e - B))) (2 ^ (1024 - B)).
Proof.
  intros HB He. unfold binary_round.
  rewrite digits2_pos_log2.
  set (c := fexp prec emax (Z.log2 (Z.pos m) + 1 + e)).
  assert (Ec : c = Z.max (Z.log2 (Z.pos m) + 1 + e - 53) (-1074)).
  { subst c. unfold fexp, SpecFloat.emin, prec, emax. lia. }
  destruct (shl_align_spec m e c) as [E1 E2].
  pose proof (shl_align_log2 m e c) as E3.
  destruct (shl_align m e c) as [mz ez]. cbn [fst snd] in *.
  rewrite round_key; try lia.
  f_equal. f_equal. rewrite E2, E1.
  rewrite <- Z.mul_assoc, <- Z.pow_add_r by lia. f_equal. f_equal. ring.
Qed.

(** The key of a sum is the rounded sum of the keys. *)
Lemma SFadd_key B x y :
  B <= -1074 ->
  valid_binary x = true -> valid_binary y = true ->
  SFunit x -> SFunit y ->
  order_key B (SFadd prec emax x y)
  = Z.min (round_even B (order_key B x + order_key B y)) (2 ^ (1024 - B)).
Proof.
  intros HB Vx Vy Ux Uy.
  pose proof (pow2_gt0 (1024 - B) ltac:(lia)) as PH.
  destruct x as [sx|[|]| |[|] m1 e1]; try (exfalso; exact Ux);
    destruct y as [sy|[|]| |[|] m2 e2]; try (exfalso; exact Uy);
    cbn [SFadd].
  - assert (E : order_key B (match sx, sy with
                       | true, true | false, false => S754_zero sx
                       | _, _ => S754_zero false end) = 0)
      by (destruct sx, sy; reflexivity).
    rewrite E. cbn [order_key]. rewrite round_even_0. lia.
  - cbn [order_key]. rewrite Z.add_0_l, round_even_finite by assumption.
    pose proof (finite_key_lt_huge B m2 e2 HB Vy). lia.
  - cbn [order_key]. rewrite Z.add_0_r, round_even_finite by assumption.
    pose proof (finite_key_lt_huge B m1 e1 HB Vx). lia.
  - pose proof (valid_finite _ _ _ Vx) as [R1 C1].
    pose proof (valid_finite _ _ _ Vy) as [R2 C2].
    destruct (shl_align_spec m1 e1 (Z.min e1 e2)) as [_ A1].
    destruct (shl_align_spec m2 e2 (Z.min e1 e2)) as [_ A2].
    cbn [cond_Zopp]. rewrite A1, A2.
    replace (Z.min e1 (Z.min e1 e2)) with (Z.min e1 e2) by lia.
    replace (Z.min e2 (Z.min e1 e2)) with (Z.min e1 e2) by lia.
    set (ez := Z.min e1 e2).
    pose proof (pow2_gt0 (e1 - ez) ltac:(lia)) as P1.
    pose proof (pow2_gt0 (e2 - ez) ltac:(lia)) as P2.
    destruct (Z.pos m1 * 2 ^ (e1 - ez) + Z.pos m2 * 2 ^ (e2 - ez)) as [|p|p] eqn:S;
      try lia.
    cbn [binary_normalize]. rewrite binary_round_key by lia.
    f_equal. f_equal. rewrite <- S. cbn [order_key].
    rewrite Z.mul_add_distr_r, <- !Z.mul_assoc, <- !Z.pow_add_r by lia.
    f_equal; f_equal; f_equal; ring.
Qed.

Lemma min_mono a b h : a <= b -> Z.min a h <= Z.min b h.
Proof. lia. Qed.

Lemma SFunit_nonneg x : SFunit x -> SFnonneg x.
Proof. destruct x as [s|[|]| |[|] m e]; simpl; tauto. Qed.

Lemma order_key_le x y :
  valid_binary x = true -> valid_binary y = true -> SFunit x -> SFunit y ->
  SFleb x y = true -> order_key (-1074) x <= order_key (-1074) y.
Proof.
  intros Vx Vy Ux Uy H.
  apply (SFleb_key (-1074)); auto using SFunit_nonneg. lia.
Qed.

Lemma SFmul_mono a a' b b' :
  valid_binary a = true -> valid_binary a' = true ->
  valid_binary b = true -> valid_binary b' = true ->
  valid_binary (SFmul prec emax a b) = true ->
  valid_binary (SFmul prec emax a' b') = true ->
  SFunit a -> SFunit a' -> SFunit b -> SFunit b' ->
  SFleb a a' = true -> SFleb b b' = true ->
  SFleb (SFmul prec emax a b) (SFmul prec emax a' b') = true.
Proof.
  intros Va Va' Vb Vb' Vm Vm' Ua Ua' Ub Ub' Ha Hb.
  apply (SFleb_key (2 * -1074)); try assumption; try lia;
    try (apply SFmul_nonneg; assumption).
  rewrite !SFmul_key by (assumption || lia).
  apply min_mono, round_even_mono; [lia|].
  apply Z.mul_le_mono_nonneg; try apply order_key_nonneg;
    apply order_key_le; assumption.
Qed.

Lemma SFadd_mono a a' b b' :
  valid_binary a = true -> valid_binary a' = true ->
  valid_binary b = true -> valid_binary b' = true ->
  valid_binary (SFadd prec emax a b) = true ->
  valid_binary (SFadd prec emax a' b') = true ->
  SFunit a -> SFunit a' -> SFunit b -> SFunit b' ->
  SFleb a a' = true -> SFleb b b' = true ->
  SFleb (SFadd prec emax a b) (SFadd prec emax a' b') = true.
Proof.
  intros Va Va' Vb Vb' Vm Vm' Ua Ua' Ub Ub' Ha Hb.
  apply (SFleb_key (-1074)); try assumption; try lia;
    try (apply SFadd_nonneg; apply SFunit_nonneg; assumption).
  rewrite !SFadd_key by (assumption || lia).
  apply min_mono, round_even_mono; [lia|].
  apply Z.add_le_mono; apply order_key_le; assumption.
Qed.

Lemma SFadd_ge_l a b :
  valid_binary a = true -> valid_binary b = true ->
  valid_binary (SFadd prec emax a b) = true ->
  SFunit a -> SFunit b ->
  SFleb a (SFadd prec emax a b) = true.
Proof.
  intros Va Vb Vs Ua Ub.
  apply (SFleb_key (-1074)); try assumption; try lia;
    try (apply SFunit_nonneg; assumption);
    try (apply SFadd_nonneg; apply SFunit_nonneg; assumption).
  rewrite SFadd_key by (assumption || lia).
  assert (E : order_key (-1074) a
              = Z.min (round_even (-1074) (order_key (-1074) a)) (2 ^ (1024 - -1074))).
  { destruct a as [s|[|]| |[|] m e]; try (exfalso; exact Ua); cbn [order_key].
    - reflexivity.
    - rewrite round_even_finite by (assumption || lia).
      pose proof (finite_key_lt_huge (-1074) m e ltac:(lia) Va). lia. }
  rewrite E at 1.
  apply min_mono, round_even_mono; [lia|].
  pose proof (order_key_nonneg (-1074) b). lia.
Qed.

Lemma SFltb_leb_trans a b c :
  SFltb a b = true -> SFleb b c = true -> SFltb a c = true.
Proof. sf_destruct; intros; sf_compare. Qed.

Lemma SFleb_unit a k : SFnonneg a -> SFunit k -> SFleb a k = true -> SFunit a.
Proof. sf_destruct; simpl; intros; try tauto; sf_compare. Qed.

(** The same over Python's floats. A float is of the unit kind when it is
    a zero or a positive finite number. *)
Lemma mul_le_mono a a' b b' :
  SFunit (Prim2SF a) -> SFunit (Prim2SF a') ->
  SFunit (Prim2SF b) -> SFunit (Prim2SF b') ->
  PrimFloat.leb a a' = true -> PrimFloat.leb b b' = true ->
  PrimFloat.leb (a * b) (a' * b') = true.
Proof.
  intros Ua Ua' Ub Ub'. rewrite !leb_spec.
  pose proof (Prim2SF_valid (a * b)) as V1.
  pose proof (Prim2SF_valid (a' * b')) as V2.
  rewrite mul_spec in V1, V2. rewrite !mul_spec.
  apply SFmul_mono; auto using Prim2SF_valid.
Qed.

Lemma add_le_mono a a' b b' :
  SFunit (Prim2SF a) -> SFunit (Prim2SF a') ->
  SFunit (Prim2SF b) -> SFunit (Prim2SF b') ->
  PrimFloat.leb a a' = true -> PrimFloat.leb b b' = true ->
  PrimFloat.leb (a + b) (a' + b') = true.
Proof.
  intros Ua Ua' Ub Ub'. rewrite !leb_spec.
  pose proof (Prim2SF_valid (a + b)) as V1.
  pose proof (Prim2SF_valid (a' + b')) as V2.
  rewrite add_spec in V1, V2. rewrite !add_spec.
  apply SFadd_mono; auto using Prim2SF_valid.
Qed.

Lemma add_ge_l a b :
  SFunit (Prim2SF a) -> SFunit (Prim2SF b) -> PrimFloat.leb a (a + b) = true.
Proof.
  intros Ua Ub. rewrite leb_spec.
  pose proof (Prim2SF_valid (a + b)) as V. rewrite add_spec in V.
  rewrite add_spec. apply SFadd_ge_l; auto using Prim2SF_valid.
Qed.

Lemma ltb_leb_trans a b c :
  PrimFloat.ltb a b = true -> PrimFloat.leb b c = true -> PrimFloat.ltb a c = true.
Proof. rewrite !ltb_spec, leb_spec. apply SFltb_leb_trans. Qed.

Lemma leb_unit a k :
  SFnonneg (Prim2SF a) -> SFunit (Prim2SF k) -> PrimFloat.leb a k = true ->
  SFunit (Prim2SF a).
Proof. rewrite leb_spec. apply SFleb_unit. Qed.

(** A weight [k] of the unit kind times a score between 0 and 1 is of the
    unit kind and at most [k * 1]. *)
Lemma scaled_score k s :
  SFunit (Prim2SF k) -> SFunit (Prim2SF (k * 1)) -> in_unit s = true ->
  SFunit (Prim2SF (k * s)) /\ PrimFloat.leb (k * s) (k * 1) = true.
Proof.
  intros Uk Uk1 Hs. pose proof (in_unit_spec s Hs) as Us.
  unfold in_unit in Hs. apply andb_true_iff in Hs. destruct Hs as [_ H1].
  assert (L : PrimFloat.leb (k * s) (k * 1) = true).
  { apply mul_le_mono; try assumption; try exact I.
    rewrite leb_spec. destruct (Prim2SF k) as [z|[|]| |[|] m e];
      try (exfalso; exact Uk); sf_compare. }
  split; [|exact L].
  eapply leb_unit; [apply mul_nonneg; assumption|exact Uk1|exact L].
Qed.

(** A sum of two floats of the unit kind that stays below a float of the
    unit kind is of the unit kind. *)
Lemma add_unit a a' b b' :
  SFunit (Prim2SF a) -> SFunit (Prim2SF a') ->
  SFunit (Prim2SF b) -> SFunit (Prim2SF b') ->
  SFunit (Prim2SF (a' + b')) ->
  PrimFloat.leb a a' = true -> PrimFloat.leb b b' = true ->
  SFunit (Prim2SF (a + b)) /\ PrimFloat.leb (a + b) (a' + b') = true.
Proof.
  intros Ua Ua' Ub Ub' Us Ha Hb.
  assert (L : PrimFloat.leb (a + b) (a' + b') = true)
    by (apply add_le_mono; assumption).
  split; [|exact L].
  eapply leb_unit; [|exact Us|exact L].
  apply add_nonneg; apply SFunit_nonneg; assumption.
Qed.

End PyFloatOrderFacts.

(** ** Dictionaries, slices and the stable descending sort *)

Module PyDictFacts.
Import PyFloat PyFloatFacts PyDict.

Lemma slice_to_nonneg {A} (limit : Z) (l : list A) :
  0 <= limit -> slice_to limit l = firstn (Z.to_nat limit) l.
Proof.
  intros H. unfold slice_to.
  destruct (0 <=? limit)%Z eqn:E; [reflexivity | lia].
Qed.

Lemma get_None_notin {V} k (d : list (string * V)) :
  get k d = None -> k ∉ keys d.
Proof.
  induction d as [|[k' v] d IH]; simpl; intros H.
  - apply not_elem_of_nil.
  - destruct (String.eqb_spec k k'); [discriminate|].
    rewrite not_elem_of_cons. split; auto.
Qed.

(** Assigning to a key that is not in the dictionary appends it. *)
Lemma set_fresh {V} k (v : V) d : k ∉ keys d -> set k v d = d ++ [(k, v)].
Proof.
  induction d as [|[k' v'] d IH]; simpl; intros H.
  - reflexivity.
  - rewrite not_elem_of_cons in H. destruct H as [Hne H].
    destruct (String.eqb_spec k k'); [contradiction|].
    rewrite IH by assumption. reflexivity.
Qed.

(** Filling an empty dictionary with the items of a well-formed one gives it
    back, in the same order. *)
Lemma refill {V} (d acc : list (string * V)) :
  NoDup (keys (acc ++ d)) ->
  fold_left (fun a kv => set (fst kv) (snd kv) a) d acc = acc ++ d.
Proof.
  revert acc. induction d as [|[k v] d IH]; intros acc H; simpl.
  - rewrite app_nil_r. reflexivity.
  - assert (Hk : k ∉ keys acc).
    { unfold keys in *. rewrite map_app in H. simpl in H.
      apply NoDup_app in H. destruct H as (_ & H & _).
      intros Hin. apply (H k Hin). left. }
    rewrite set_fresh by assumption.
    rewrite IH; rewrite <- app_assoc; simpl; [reflexivity | assumption].
Qed.

(** Assigning to a key that is in the dictionary changes the value at its
    place and nothing else; what the old and the new value agree on stays. *)
Lemma set_existing_lookup {V A} (f : V -> A) k v v0 (d : list (string * V)) :
  get k d = Some v0 -> f v = f v0 ->
  forall (i : nat) k' v', d !! i = Some (k', v') ->
    exists v'', set k v d !! i = Some (k', v'') /\ f v'' = f v'.
Proof.
  induction d as [|[k1 v1] d IH]; simpl; intros Hget Hf i k' v' Hi.
  - discriminate.
  - destruct (String.eqb_spec k k1) as [->|Hne].
    + injection Hget as ->. destruct i as [|i]; simpl in *.
      * injection Hi as <- <-. eexists. split; [reflexivity | exact Hf].
      * eexists. split; [exact Hi | reflexivity].
    + destruct i as [|i]; simpl in *.
      * eexists. split; [exact Hi | reflexivity].
      * apply IH; assumption.
Qed.

Lemma filter_none {A} (p : A -> bool) (l : list A) :
  (forall z, In z l -> p z = false) -> List.filter p l = [].
Proof.
  induction l as [|y l IH]; simpl; intros H.
  - reflexivity.
  - rewrite (H y) by (left; reflexivity). apply IH. intros z Hz. apply H. right. exact Hz.
Qed.

Section Sorting.
Context {A : Type} (key : A -> float).

Lemma insert_desc_perm x l : insert_desc key x l ≡ₚ x :: l.
Proof.
  induction l as [|y l IH]; simpl.
  - reflexivity.
  - destruct (PrimFloat.ltb (key y) (key x)).
    + reflexivity.
    + rewrite IH. apply Permutation_swap.
Qed.

Lemma sorted_desc_snoc l x :
  sorted_desc key (l ++ [x]) = insert_desc key x (sorted_desc key l).
Proof. unfold sorted_desc. rewrite fold_left_app. reflexivity. Qed.

Lemma sorted_desc_perm l : sorted_desc key l ≡ₚ l.
Proof.
  induction l as [|x l IH] using rev_ind.
  - reflexivity.
  - rewrite sorted_desc_snoc, insert_desc_perm, IH.
    apply Permutation_cons_append.
Qed.

Lemma insert_desc_sorted x l :
  is_number (key x) -> Forall (fun y => is_number (key y)) l ->
  StronglySorted (desc key) l -> StronglySorted (desc key) (insert_desc key x l).
Proof.
  intros Hx Hl Hs. induction Hs as [|y l Hs IH Hy]; simpl.
  - repeat constructor.
  - inversion Hl as [|? ? Hny Hnl]; subst.
    destruct (PrimFloat.ltb (key y) (key x)) eqn:E.
    + constructor; [constructor; assumption|].
      constructor.
      * unfold desc. apply ltb_false_leb; auto.
        destruct (PrimFloat.ltb (key x) (key y)) eqn:E2; [|reflexivity].
        rewrite ltb_spec in E, E2.
        revert E E2. generalize (Prim2SF (key x)) (Prim2SF (key y)).
        intros u v. sf_destruct; intros; sf_compare.
      * rewrite Forall_forall in Hy |- *. intros z Hz.
        unfold desc in *. specialize (Hy z Hz).
        rewrite ltb_spec in E. rewrite leb_spec in Hy |- *.
        revert E Hy.
        generalize (Prim2SF (key x)) (Prim2SF (key y)) (Prim2SF (key z)).
        intros u v w. sf_destruct; intros; sf_compare.
    + constructor; [apply IH; assumption|].
      assert (Hyx : desc key y x) by (apply ltb_false_leb; assumption).
      rewrite Forall_forall. intros z Hz.
      rewrite insert_desc_perm in Hz. apply elem_of_cons in Hz.
      destruct Hz as [->|Hz]; [assumption|].
      rewrite Forall_forall in Hy. apply Hy. assumption.
Qed.

(** The sort returns a list in descending key order. *)
Lemma sorted_desc_sorted l :
  Forall (fun y => is_number (key y)) l -> StronglySorted (desc key) (sorted_desc key l).
Proof.
  induction l as [|x l IH] using rev_ind; intros H.
  - constructor.
  - rewrite sorted_desc_snoc. apply Forall_app in H. destruct H as [Hl Hx].
    inversion Hx; subst. apply insert_desc_sorted; auto.
    rewrite sorted_desc_perm. assumption.
Qed.

Lemma insert_desc_stable v x l :
  StronglySorted (desc key) l ->
  with_key key v (insert_desc key x l) = with_key key v l ++ with_key key v [x].
Proof.
  intros Hs. induction Hs as [|y l Hs IH Hy]; simpl.
  - reflexivity.
  - destruct (PrimFloat.ltb (key y) (key x)) eqn:E.
    + unfold with_key. simpl.
      destruct (PrimFloat.eqb (key x) v) eqn:Ex.
      * assert (Hnone : List.filter (fun z => PrimFloat.eqb (key z) v) (y :: l) = []).
        { apply filter_none. intros z Hz.
          apply (ltb_eqb_false _ (key x)); [|assumption].
          destruct Hz as [<-|Hz]; [assumption|].
          apply (leb_ltb_trans _ (key y)); [|assumption].
          rewrite Forall_forall in Hy. apply Hy.
          apply list_elem_of_In. assumption. }
        simpl in Hnone. rewrite Hnone. reflexivity.
      * rewrite app_nil_r. reflexivity.
    + unfold with_key in *. simpl.
      destruct (PrimFloat.eqb (key y) v); rewrite IH; reflexivity.
Qed.

(** The sort is stable: items of equal key keep their relative order. *)
Lemma sorted_desc_stable v l :
  Forall (fun y => is_number (key y)) l ->
  with_key key v (sorted_desc key l) = with_key key v l.
Proof.
  induction l as [|x l IH] using rev_ind; intros H.
  - reflexivity.
  - apply Forall_app in H. destruct H as [Hl Hx].
    rewrite sorted_desc_snoc, insert_desc_stable by (apply sorted_desc_sorted; assumption).
    rewrite IH by assumption. unfold with_key. rewrite List.filter_app. reflexivity.
Qed.

End Sorting.

End PyDictFacts.

(** ** The fusion graph: edges and their weights *)

Module HybridEdgeFacts.
Import PyFloat PyFloatFacts PyDict PyDictFacts Hybrid.

Section Facts.
Context `{R : PyRuntime}.

Lemma add_edge_lookup now g s t rel w :
  edges (add_edge now g s t rel w) !! edge_id s t
  = Some (update_weight (touch_edge now (edge_or_new g s t) rel) rel w).
Proof. unfold add_edge. simpl. apply lookup_insert_eq. Qed.

Lemma add_edge_lookup_ne now g s t rel w k :
  k <> edge_id s t ->
  edges (add_edge now g s t rel w) !! k = edges g !! k.
Proof. intros H. unfold add_edge. simpl. apply lookup_insert_ne. congruence. Qed.

Lemma add_edge_nodes now g s t rel w : nodes (add_edge now g s t rel w) = nodes g.
Proof. reflexivity. Qed.

Lemma add_edge_comod now g s t rel w :
  comod_matrix (add_edge now g s t rel w) = comod_matrix g.
Proof. reflexivity. Qed.

Lemma add_edge_history now g s t rel w :
  access_history (add_edge now g s t rel w) = access_history g.
Proof. reflexivity. Qed.

Lemma update_structural e rel w :
  structural_kind rel ->
  structural_weight (update_weight e rel w) = pymax (structural_weight e) w
  /\ temporal_weight (update_weight e rel w) = temporal_weight e
  /\ comod_weight (update_weight e rel w) = comod_weight e
  /\ semantic_weight (update_weight e rel w) = semantic_weight e.
Proof. intros [->|[->| ->]]; repeat split. Qed.

Lemma update_similar e w :
  semantic_weight (update_weight e "similar" w) = pymax (semantic_weight e) w
  /\ structural_weight (update_weight e "similar" w) = structural_weight e
  /\ temporal_weight (update_weight e "similar" w) = temporal_weight e
  /\ comod_weight (update_weight e "similar" w) = comod_weight e.
Proof. repeat split. Qed.

Lemma update_accessed e w :
  temporal_weight (update_weight e "accessed_together" w)
  = pymin 1 (temporal_weight e + w * 0.1)%float.
Proof. reflexivity. Qed.

Lemma add_calls_weight g x y nows :
  PrimFloat.leb (structural_weight (edge_or_new g x y)) 1 = true ->
  nows <> [] ->
  exists e, edges (add_calls g x y nows) !! edge_id x y = Some e
            /\ structural_weight e = 1%float.
Proof.
  revert g. induction nows as [|now nows IH]; intros g Hle Hne; [congruence|].
  unfold add_calls. simpl. fold (add_calls (add_edge now g x y "calls" 1) x y nows).
  pose proof (add_edge_lookup now g x y "calls" 1) as Hl.
  assert (Hw : structural_weight
                 (update_weight (touch_edge now (edge_or_new g x y) "calls") "calls" 1)
               = 1%float).
  { simpl. apply pymax_one. exact Hle. }
  destruct nows as [|now' nows].
  - simpl. eexists. split; [exact Hl | exact Hw].
  - apply IH; [|congruence].
    unfold edge_or_new. rewrite Hl. simpl. rewrite pymax_one by exact Hle.
    reflexivity.
Qed.

(** C3. [addEdge] is idempotent on the structural slot. For ids [x] and [y]
    whose edge is new or carries a structural weight of at most 1, calling
    [add_edge(x, y, 'calls', 1.0)] once, twice or any number of times leaves
    the edge with structural weight exactly 1.0. In general an observation
    [w] of a structural kind sets the structural weight to the maximum of the
    old weight and [w], and an observation of kind 'similar' does the same to
    the semantic weight; the other three weights stay as they were, so
    nothing is summed. *)
Theorem add_edge_structural_idempotent (g : HybridGraph) (x y : string)
  (nows : list string) :
  nows <> [] ->
  (forall e, edges g !! edge_id x y = Some e ->
             PrimFloat.leb (structural_weight e) 1 = true) ->
  (exists e, edges (add_calls g x y nows) !! edge_id x y = Some e
             /\ structural_weight e = 1%float)
  /\ (forall now rel w, structural_kind rel ->
        exists e, edges (add_edge now g x y rel w) !! edge_id x y = Some e
          /\ structural_weight e = pymax (structural_weight (edge_or_new g x y)) w
          /\ temporal_weight e = temporal_weight (edge_or_new g x y)
          /\ comod_weight e = comod_weight (edge_or_new g x y)
          /\ semantic_weight e = semantic_weight (edge_or_new g x y))
  /\ (forall now w,
        exists e, edges (add_edge now g x y "similar" w) !! edge_id x y = Some e
          /\ semantic_weight e = pymax (semantic_weight (edge_or_new g x y)) w
          /\ structural_weight e = structural_weight (edge_or_new g x y)
          /\ temporal_weight e = temporal_weight (edge_or_new g x y)
          /\ comod_weight e = comod_weight (edge_or_new g x y)).
Proof.
  intros Hne Hold. split; [|split].
  - apply add_calls_weight; [|exact Hne].
    unfold edge_or_new. destruct (edges g !! edge_id x y) as [e|] eqn:E; simpl.
    + apply Hold. reflexivity.
    + reflexivity.
  - intros now rel w Hk. eexists. split; [apply add_edge_lookup|].
    apply (update_structural (touch_edge now (edge_or_new g x y) rel) rel w Hk).
  - intros now w. eexists. split; [apply add_edge_lookup|].
    apply (update_similar (touch_edge now (edge_or_new g x y) "similar") w).
Qed.

End Facts.
End HybridEdgeFacts.

(** ** The fusion graph: temporal co-access *)

Module HybridAccessFacts.
Import PyFloat PyFloatFacts PyDict PyDictFacts Hybrid HybridEdgeFacts.

Section Facts.
Context `{R : PyRuntime}.

Lemma recent_of_own cutoff a h :
  Forall (fun e => fst e = a) h -> recent_of cutoff a h = [].
Proof.
  unfold recent_of. induction 1 as [|e h He _ IH]; simpl; [reflexivity|].
  rewrite He, String.eqb_refl, andb_false_r. exact IH.
Qed.

Lemma saturate_20 : saturate 20 = 1%float.
Proof. vm_compute. reflexivity. Qed.

Lemma observe_one : observe 1 = 1%float.
Proof. vm_compute. reflexivity. Qed.

Lemma saturate_min k : observe (saturate (Nat.min k 20)) = saturate (Nat.min (S k) 20).
Proof.
  destruct (Nat.le_gt_cases 20 k) as [H|H].
  - rewrite !Nat.min_r by lia. rewrite saturate_20. apply observe_one.
  - rewrite !Nat.min_l by lia. reflexivity.
Qed.

Lemma saturate_le_one n : PrimFloat.leb (saturate n) 1 = true.
Proof. destruct n; [reflexivity | apply pymin_one_le]. Qed.

(** What one access does once the history is cut and the node touched. *)
Lemma record_access_edges ts cutoff now g a :
  let h1 := (access_history g ++ [(a, ts)])%list in
  let h2 := if (history_cap <? List.length h1)%nat then last_n history_cap h1 else h1 in
  access_history (record_access ts cutoff now g a) = h2
  /\ forall b,
       recent_of cutoff a h2 = [] \/ recent_of cutoff a h2 = [b] ->
       tw (record_access ts cutoff now g a) a b
       = match recent_of cutoff a h2 with
         | [] => tw g a b
         | _ => observe (tw g a b)
         end.
Proof.
  intros h1 h2. unfold record_access. fold h1. fold h2.
  fold (recent_of cutoff a h2).
  set (g1 := {| root := root g; nodes := _; edges := edges g;
                neighbors := neighbors g; access_history := h2;
                comod_matrix := comod_matrix g |}).
  split.
  - generalize (last_n 5 (recent_of cutoff a h2)). intros l.
    assert (G : forall g0, access_history (fold_left
                (fun acc other_id => add_edge now acc a other_id "accessed_together" 0.5)
                l g0) = access_history g0).
    { induction l as [|o l IH]; intros g0; simpl; [reflexivity|].
      rewrite IH. reflexivity. }
    rewrite G. reflexivity.
  - intros b [E|E]; rewrite E; simpl.
    + reflexivity.
    + unfold tw. unfold edge_or_new at 1. rewrite add_edge_lookup. simpl.
      reflexivity.
Qed.

(** While [b]'s access is in the history and inside the window, an access of
    [a] is one observation on the edge from [a] to [b]. *)
Lemma access_observes ts cutoff now g a b tb l :
  a <> b -> String.ltb cutoff tb = true ->
  access_history g = (b, tb) :: l -> Forall (fun e => fst e = a) l ->
  (List.length l <= 998)%nat ->
  access_history (record_access ts cutoff now g a) = (b, tb) :: (l ++ [(a, ts)])
  /\ tw (record_access ts cutoff now g a) a b = observe (tw g a b).
Proof.
  intros Hab Hin Hh Hl Hlen.
  destruct (record_access_edges ts cutoff now g a) as [H1 H2].
  rewrite Hh in H1, H2. simpl in H1, H2.
  assert (Hcap : (history_cap <? S (List.length (l ++ [(a, ts)])))%nat = false).
  { apply Nat.ltb_ge. rewrite length_app. simpl. unfold history_cap. lia. }
  rewrite Hcap in H1, H2.
  assert (Hrec : recent_of cutoff a ((b, tb) :: l ++ [(a, ts)]) = [b]).
  { unfold recent_of. simpl. rewrite Hin.
    destruct (String.eqb_spec b a) as [->|_]; [congruence|]. simpl.
    fold (recent_of cutoff a (l ++ [(a, ts)])).
    rewrite recent_of_own; [reflexivity|].
    apply Forall_app. split; [assumption|]. repeat constructor. }
  split; [exact H1|].
  rewrite (H2 b) by (right; exact Hrec). rewrite Hrec. reflexivity.
Qed.

(** Once no other id is left in the history, accesses of [a] change no edge
    weight. *)
Lemma access_alone ts cutoff now g a b :
  (Forall (fun e => fst e = a) (access_history g)
   \/ exists e l, access_history g = e :: l /\ Forall (fun e => fst e = a) l
                  /\ (999 <= List.length l)%nat) ->
  Forall (fun e => fst e = a) (access_history (record_access ts cutoff now g a))
  /\ tw (record_access ts cutoff now g a) a b = tw g a b.
Proof.
  intros H.
  destruct (record_access_edges ts cutoff now g a) as [H1 H2].
  set (h1 := (access_history g ++ [(a, ts)])%list) in *.
  set (h2 := if (history_cap <? List.length h1)%nat then last_n history_cap h1 else h1) in *.
  assert (Hown : Forall (fun e => fst e = a) h2).
  { destruct H as [H|(e & l & Hh & Hl & Hlen)].
    - assert (Forall (fun e => fst e = a) h1).
      { apply Forall_app. split; [assumption|]. repeat constructor. }
      unfold h2. destruct (history_cap <? List.length h1)%nat; [|assumption].
      unfold last_n. apply Forall_drop. assumption.
    - unfold h2, h1. rewrite Hh. simpl.
      assert (Hcap : (history_cap <? S (List.length (l ++ [(a, ts)])))%nat = true).
      { apply Nat.ltb_lt. rewrite length_app. simpl. unfold history_cap. lia. }
      rewrite Hcap. unfold last_n. simpl List.length.
      rewrite length_app. simpl List.length. unfold history_cap.
      replace (S (List.length l + 1) - 1000)%nat
        with (S (List.length l - 999))%nat by lia.
      simpl. apply Forall_drop. apply Forall_app. split; [assumption|].
      repeat constructor. }
  rewrite H1. split; [exact Hown|].
  rewrite (H2 b); rewrite (recent_of_own _ _ _ Hown); auto.
Qed.

Lemma access_many_cons g a c clock :
  access_many g a (c :: clock)
  = access_many (record_access (fst (fst c)) (snd (fst c)) (snd c) g a) a clock.
Proof. reflexivity. Qed.

Lemma access_many_alone g a b clock :
  Forall (fun e => fst e = a) (access_history g) ->
  tw (access_many g a clock) a b = tw g a b.
Proof.
  revert g. induction clock as [|c clock IH]; intros g H; [reflexivity|].
  destruct (access_alone (fst (fst c)) (snd (fst c)) (snd c) g a b) as [H1 H2]; [left; exact H|].
  rewrite access_many_cons, IH by exact H1. exact H2.
Qed.

Lemma access_many_saturates g a b tb l clock :
  a <> b ->
  Forall (fun c => String.ltb (snd (fst c)) tb = true) clock ->
  access_history g = (b, tb) :: l -> Forall (fun e => fst e = a) l ->
  tw g a b = saturate (Nat.min (List.length l) 20) ->
  tw (access_many g a clock) a b
  = saturate (Nat.min (List.length l + List.length clock) 20).
Proof.
  intros Hab. revert g l.
  induction clock as [|c clock IH]; intros g l Hwin Hh Hl Hw.
  - simpl. rewrite Nat.add_0_r. exact Hw.
  - inversion Hwin as [|? ? Hc Hwin']; subst.
    destruct (Nat.le_gt_cases (List.length l) 998) as [Hlen|Hlen].
    + destruct (access_observes (fst (fst c)) (snd (fst c)) (snd c) g a b tb l
                  Hab Hc Hh Hl Hlen) as [H1 H2].
      rewrite access_many_cons.
      rewrite (IH _ (l ++ [(a, fst (fst c))])%list Hwin' H1).
      * rewrite length_app. simpl List.length. f_equal. f_equal. lia.
      * apply Forall_app. split; [assumption|]. repeat constructor.
      * rewrite H2, Hw, length_app. simpl.
        rewrite Nat.add_1_r. apply saturate_min.
    + destruct (access_alone (fst (fst c)) (snd (fst c)) (snd c) g a b) as [H1 H2].
      { right. exists (b, tb), l. repeat split; [assumption..|lia]. }
      rewrite access_many_cons, access_many_alone by exact H1. rewrite H2, Hw.
      simpl List.length. rewrite !Nat.min_r by lia. reflexivity.
Qed.

(** C4. Temporal saturation. Let [b] have been accessed (its entry is the
    history), let the temporal weight from [a] to [b] be 0, and let [a] be
    accessed again and again, each time with [b]'s access still inside the
    trailing window. Every such access is one co-occurrence observation: it
    adds 0.5 scaled by 0.1 to the weight and caps the sum at 1.0. After 20 of
    them the weight is exactly 1.0 (after 19 it is still below), and however
    many follow it stays exactly 1.0, so it is never beyond 1.0. No
    observation on any edge can leave its temporal weight above 1.0. *)
Theorem temporal_saturation (g : HybridGraph) (a b tb : string)
  (clock : list (string * string * string)) :
  a <> b ->
  access_history g = [(b, tb)] ->
  tw g a b = 0%float ->
  Forall (fun c => String.ltb (snd (fst c)) tb = true) clock ->
  tw (access_many g a clock) a b = saturate (Nat.min (List.length clock) 20)
  /\ (List.length clock = 20%nat -> tw (access_many g a clock) a b = 1%float)
  /\ ((20 <= List.length clock)%nat -> tw (access_many g a clock) a b = 1%float)
  /\ PrimFloat.leb (tw (access_many g a clock) a b) 1 = true
  /\ PrimFloat.ltb (saturate 19) 1 = true
  /\ (forall e w,
        PrimFloat.leb (temporal_weight (update_weight e "accessed_together" w)) 1
        = true).
Proof.
  intros Hab Hh H0 Hwin.
  assert (E : tw (access_many g a clock) a b
              = saturate (Nat.min (List.length clock) 20)).
  { rewrite (access_many_saturates g a b tb [] clock Hab Hwin Hh);
      [reflexivity | constructor | exact H0]. }
  split; [exact E|]. split; [|split; [|split; [|split]]].
  - intros H. rewrite E, H. apply saturate_20.
  - intros H. rewrite E, Nat.min_r by exact H. apply saturate_20.
  - rewrite E. apply saturate_le_one.
  - vm_compute. reflexivity.
  - intros e w. rewrite update_accessed. apply pymin_one_le.
Qed.

End Facts.
End HybridAccessFacts.

(** ** The co-modification table *)

Module ComodFacts.
Import Pairs Hybrid.

Lemma comod_get_incr m a b x y :
  comod_get (comod_incr m a b) x y
  = comod_get m x y + one_if (String.eqb x a && String.eqb y b).
Proof.
  unfold comod_incr, comod_get at 1, comod_row at 1.
  destruct (String.eqb_spec x a) as [->|Hx]; simpl.
  - rewrite lookup_insert_eq. simpl.
    destruct (String.eqb_spec y b) as [->|Hy]; simpl.
    + rewrite lookup_insert_eq. reflexivity.
    + rewrite lookup_insert_ne by congruence. unfold comod_get. lia.
  - rewrite lookup_insert_ne by congruence. unfold comod_get, comod_row. lia.
Qed.

Lemma count_pair_get m f1 f2 x y :
  comod_get (Correlation.count_pair m f1 f2) x y = comod_get m x y + hit x y f1 f2.
Proof.
  unfold Correlation.count_pair, hit. rewrite !comod_get_incr. lia.
Qed.

Lemma count_row_get m f1 rest x y :
  comod_get (fold_left (fun acc f2 => Correlation.count_pair acc f1 f2) rest m) x y
  = comod_get m x y + hits x y f1 rest.
Proof.
  revert m. induction rest as [|f2 rest IH]; intros m; simpl.
  - lia.
  - rewrite IH, count_pair_get. lia.
Qed.

(** What the two loops add to an entry. *)
Lemma count_pairs_get m files x y :
  comod_get (Correlation.count_pairs m files) x y
  = comod_get m x y + pair_count x y files.
Proof.
  revert m. induction files as [|f1 rest IH]; intros m; simpl.
  - lia.
  - rewrite IH, count_row_get. lia.
Qed.

Lemma hits_notin x y f1 rest :
  x ∉ rest -> y ∉ rest -> hits x y f1 rest = 0.
Proof.
  induction rest as [|f2 rest IH]; simpl; intros Hx Hy; [reflexivity|].
  rewrite not_elem_of_cons in Hx, Hy. destruct Hx as [Hx1 Hx2], Hy as [Hy1 Hy2].
  rewrite IH by assumption. unfold hit.
  destruct (String.eqb_spec x f2); [contradiction|].
  destruct (String.eqb_spec y f2); [contradiction|].
  rewrite !andb_false_r. simpl. destruct (String.eqb x f1); reflexivity.
Qed.

Lemma hits_other x y f1 rest : x <> f1 -> y <> f1 -> hits x y f1 rest = 0.
Proof.
  intros Hx Hy. induction rest as [|f2 rest IH]; simpl; [reflexivity|].
  rewrite IH. unfold hit.
  destruct (String.eqb_spec x f1); [contradiction|].
  destruct (String.eqb_spec y f1); [contradiction|].
  rewrite !andb_false_r. reflexivity.
Qed.

Lemma hits_same x f1 rest : f1 ∉ rest -> hits x x f1 rest = 0.
Proof.
  induction rest as [|f2 rest IH]; simpl; intros H; [reflexivity|].
  rewrite not_elem_of_cons in H. destruct H as [H1 H2]. rewrite IH by assumption.
  unfold hit. destruct (String.eqb_spec x f1) as [->|]; simpl.
  - destruct (String.eqb_spec f1 f2); [contradiction|]. reflexivity.
  - rewrite !andb_false_r. reflexivity.
Qed.

(** In a list without repetition, [f1] in front of [rest] meets [y] once if
    [y] is in [rest], in one of the two orientations. *)
Lemma hits_first x y rest :
  x <> y -> NoDup rest -> x ∉ rest ->
  hits x y x rest = one_if (bool_decide (y ∈ rest))
  /\ hits y x x rest = one_if (bool_decide (y ∈ rest)).
Proof.
  intros Hxy Hnd Hx. induction Hnd as [|f2 rest Hf2 Hnd IH]; simpl.
  - split; reflexivity.
  - rewrite not_elem_of_cons in Hx. destruct Hx as [Hx1 Hx2].
    destruct (IH Hx2) as [IH1 IH2]. rewrite IH1, IH2. unfold hit.
    rewrite String.eqb_refl.
    destruct (String.eqb_spec x f2); [contradiction|].
    destruct (String.eqb_spec y x); [congruence|].
    destruct (String.eqb_spec y f2) as [->|Hy]; simpl.
    + rewrite (bool_decide_eq_true_2 (f2 ∈ f2 :: rest)) by left.
      rewrite (bool_decide_eq_false_2 (f2 ∈ rest)) by assumption.
      split; reflexivity.
    + destruct (decide (y ∈ rest)) as [E|E].
      * rewrite (bool_decide_eq_true_2 (y ∈ f2 :: rest)) by (right; exact E).
        rewrite (bool_decide_eq_true_2 (y ∈ rest)) by exact E.
        split; reflexivity.
      * rewrite (bool_decide_eq_false_2 (y ∈ f2 :: rest))
          by (rewrite not_elem_of_cons; auto).
        rewrite (bool_decide_eq_false_2 (y ∈ rest)) by exact E.
        split; reflexivity.
Qed.

(** In a list without repetition every pair of distinct members is met once,
    and nothing else is. *)
Lemma pair_count_nodup x y files :
  NoDup files ->
  pair_count x y files
  = one_if (bool_decide (x <> y /\ x ∈ files /\ y ∈ files)).
Proof.
  intros Hnd. induction Hnd as [|f1 rest Hf1 Hnd IH]; simpl.
  - rewrite bool_decide_eq_false_2; [reflexivity|].
    intros (_ & H & _). apply elem_of_nil in H. exact H.
  - rewrite IH. clear IH.
    destruct (decide (x = y)) as [->|Hxy].
    { rewrite hits_same by assumption.
      rewrite !bool_decide_eq_false_2 by tauto. reflexivity. }
    destruct (decide (x = f1)) as [->|Hx].
    { destruct (hits_first f1 y rest Hxy Hnd Hf1) as [H1 _]. rewrite H1.
      rewrite (bool_decide_eq_false_2 (f1 <> y /\ f1 ∈ rest /\ y ∈ rest)) by tauto.
      destruct (decide (y ∈ rest)) as [Hy|Hy].
      - rewrite (bool_decide_eq_true_2 (y ∈ rest)) by assumption.
        rewrite bool_decide_eq_true_2; [reflexivity|].
        split; [assumption|]. split; [left | right; assumption].
      - rewrite (bool_decide_eq_false_2 (y ∈ rest)) by assumption.
        rewrite bool_decide_eq_false_2; [reflexivity|].
        intros (_ & _ & H). apply elem_of_cons in H. destruct H; congruence. }
    destruct (decide (y = f1)) as [->|Hy].
    { assert (Hne : f1 <> x) by congruence.
      destruct (hits_first f1 x rest Hne Hnd Hf1) as [_ H2]. rewrite H2.
      rewrite (bool_decide_eq_false_2 (x <> f1 /\ x ∈ rest /\ f1 ∈ rest)) by tauto.
      destruct (decide (x ∈ rest)) as [Hx'|Hx'].
      - rewrite (bool_decide_eq_true_2 (x ∈ rest)) by assumption.
        rewrite bool_decide_eq_true_2; [reflexivity|].
        split; [assumption|]. split; [right; assumption | left].
      - rewrite (bool_decide_eq_false_2 (x ∈ rest)) by assumption.
        rewrite bool_decide_eq_false_2; [reflexivity|].
        intros (_ & H & _). apply elem_of_cons in H. destruct H; congruence. }
    rewrite hits_other by assumption. rewrite Z.add_0_l.
    f_equal. apply bool_decide_ext. rewrite !elem_of_cons. tauto.
Qed.

End ComodFacts.

(** ** The fusion graph: co-modification *)

Module HybridComodFacts.
Import Pairs Hybrid ComodFacts.

Section Facts.
Context `{R : PyRuntime}.

Lemma comod_step_matrix now g f1 f2 :
  comod_matrix (comod_step now g f1 f2)
  = Correlation.count_pair (comod_matrix g) f1 f2.
Proof. reflexivity. Qed.

Lemma comod_row_matrix now g f1 rest :
  comod_matrix (fold_left (fun acc f2 => comod_step now acc f1 f2) rest g)
  = fold_left (fun acc f2 => Correlation.count_pair acc f1 f2) rest (comod_matrix g).
Proof.
  revert g. induction rest as [|f2 rest IH]; intros g; simpl; [reflexivity|].
  rewrite IH, comod_step_matrix. reflexivity.
Qed.

(** On the matrix, [record_comodification] is the two counting loops. *)
Lemma record_comodification_matrix now g files :
  comod_matrix (record_comodification now g files)
  = Correlation.count_pairs (comod_matrix g) files.
Proof.
  revert g. induction files as [|f1 rest IH]; intros g; simpl; [reflexivity|].
  rewrite IH, comod_row_matrix. reflexivity.
Qed.

(** C6. For three distinct files [a], [b], [c],
    [record_comodification([a, b, c])] adds exactly 1 to each of the six
    entries [a][b], [b][a], [a][c], [c][a], [b][c], [c][b] of the
    co-modification matrix, and leaves every entry of a pair whose two files
    are not both in the list as it was. *)
Theorem record_comodification_three (now : string) (g : HybridGraph)
  (a b c : string) :
  a <> b -> a <> c -> b <> c ->
  let m := comod_matrix g in
  let m' := comod_matrix (record_comodification now g [a; b; c]) in
  comod_get m' a b = comod_get m a b + 1
  /\ comod_get m' b a = comod_get m b a + 1
  /\ comod_get m' a c = comod_get m a c + 1
  /\ comod_get m' c a = comod_get m c a + 1
  /\ comod_get m' b c = comod_get m b c + 1
  /\ comod_get m' c b = comod_get m c b + 1
  /\ (forall x y, ~ (x ∈ [a; b; c] /\ y ∈ [a; b; c]) ->
        comod_get m' x y = comod_get m x y).
Proof.
  intros Hab Hac Hbc m m'. unfold m', m.
  rewrite record_comodification_matrix.
  assert (Hnd : NoDup [a; b; c]).
  { repeat constructor; rewrite ?elem_of_cons, ?elem_of_nil; tauto. }
  assert (Hin : forall x y, x <> y -> x ∈ [a; b; c] -> y ∈ [a; b; c] ->
                comod_get (Correlation.count_pairs (comod_matrix g) [a; b; c]) x y
                = comod_get (comod_matrix g) x y + 1).
  { intros x y Hxy Hx Hy. rewrite count_pairs_get, pair_count_nodup by exact Hnd.
    rewrite bool_decide_eq_true_2 by tauto. reflexivity. }
  assert (Ia : a ∈ [a; b; c]) by (rewrite !elem_of_cons; tauto).
  assert (Ib : b ∈ [a; b; c]) by (rewrite !elem_of_cons; tauto).
  assert (Ic : c ∈ [a; b; c]) by (rewrite !elem_of_cons; tauto).
  repeat split; try (apply Hin; (assumption || congruence)).
  intros x y Hout. rewrite count_pairs_get, pair_count_nodup by exact Hnd.
  rewrite bool_decide_eq_false_2 by tauto. simpl. lia.
Qed.

End Facts.
End HybridComodFacts.

(** ** The co-modification miner *)

Module CorrelationFacts.
Import Pairs Hybrid ComodFacts Correlation.

Lemma hit_sym x y f1 f2 : hit x y f1 f2 = hit y x f1 f2.
Proof.
  unfold hit.
  rewrite (andb_comm (String.eqb y f1)), (andb_comm (String.eqb y f2)). lia.
Qed.

Lemma hits_sym x y f1 rest : hits x y f1 rest = hits y x f1 rest.
Proof.
  induction rest as [|f2 rest IH]; simpl; [reflexivity|].
  rewrite IH, hit_sym. reflexivity.
Qed.

Lemma pair_count_sym x y files : pair_count x y files = pair_count y x files.
Proof.
  induction files as [|f1 rest IH]; simpl; [reflexivity|].
  rewrite IH, hits_sym. reflexivity.
Qed.

Lemma pair_count_short x y files : (List.length files < 2)%nat -> pair_count x y files = 0.
Proof.
  destruct files as [|f1 [|f2 rest]]; simpl; intros H; (reflexivity || lia).
Qed.

Lemma analyze_commit_get st commit_block x y :
  comod_get (fst (analyze_commit st commit_block)) x y
  = comod_get (fst st) x y + commit_pairs x y commit_block.
Proof.
  unfold analyze_commit, commit_pairs, block_lines.
  destruct (List.length _ <? 2)%nat; simpl.
  - lia.
  - apply count_pairs_get.
Qed.

Lemma analyze_log_get blocks st x y :
  comod_get (fst (fold_left analyze_commit blocks st)) x y
  = comod_get (fst st) x y + log_pairs x y blocks.
Proof.
  revert st. induction blocks as [|b blocks IH]; intros st; simpl.
  - lia.
  - rewrite IH, analyze_commit_get. lia.
Qed.

Lemma commit_py_files_length lines :
  (List.length (commit_py_files lines) <= List.length (commit_files lines))%nat.
Proof. unfold commit_py_files. apply List.filter_length_le. Qed.

End CorrelationFacts.

(** ** The fusion graph: the scores of a build *)

Module HybridBuildFacts.
Import PyFloat PyFloatFacts PyDict PyDictFacts Hybrid.

Section Facts.
Context `{R : PyRuntime}.

Lemma fold_add_edge_nodes {A} (f : HybridGraph -> A -> HybridGraph) (l : list A) g :
  (forall g0 x, nodes (f g0 x) = nodes g0) -> nodes (fold_left f l g) = nodes g.
Proof.
  intros Hf. revert g. induction l as [|x l IH]; intros g; simpl; [reflexivity|].
  rewrite IH. apply Hf.
Qed.

Lemma record_comodification_nodes now g files :
  nodes (record_comodification now g files) = nodes g.
Proof.
  revert g. induction files as [|f1 rest IH]; intros g; simpl; [reflexivity|].
  rewrite IH. apply fold_add_edge_nodes. reflexivity.
Qed.

Lemma replay_commit_nodes now root_join g commit_block :
  nodes (replay_commit now root_join g commit_block) = nodes g.
Proof.
  unfold replay_commit.
  destruct (1 <? _)%nat; [|reflexivity].
  destruct (1 <? _)%nat; [|reflexivity].
  apply record_comodification_nodes.
Qed.

Lemma add_structural_edge_nodes now cg g e :
  nodes (add_structural_edge now cg g e) = nodes g.
Proof.
  unfold add_structural_edge.
  destruct (CallGraph.nodes cg !! CallGraph.source e); [|reflexivity].
  destruct (CallGraph.nodes cg !! CallGraph.target e); [|reflexivity].
  destruct (String.eqb _ _); reflexivity.
Qed.

Lemma set_Forall {V} (P : V -> Prop) k v (d : list (string * V)) :
  P v -> Forall (fun kv => P (snd kv)) d -> Forall (fun kv => P (snd kv)) (set k v d).
Proof.
  intros Hv. induction 1 as [|[k' v'] d Hx Hd IH]; simpl.
  - repeat constructor. exact Hv.
  - destruct (String.eqb k k'); constructor; auto.
Qed.

(** Every node [build] creates starts with temporal score 0. *)
Lemma file_nodes_fresh files g :
  Forall (fun kv => temporal_score (snd kv) = 0%float) (nodes g) ->
  Forall (fun kv => temporal_score (snd kv) = 0%float)
    (nodes (fold_left add_file_node files g)).
Proof.
  revert g. induction files as [|f files IH]; intros g H; simpl; [exact H|].
  apply IH. unfold add_file_node, add_node. simpl.
  apply (set_Forall (fun n => temporal_score n = 0%float)); [reflexivity | exact H].
Qed.

(** The graph of a build before its scoring step. *)
Lemma build_unfold now r root_join files call_graph git_output :
  exists g3,
    build_hybrid_graph now r root_join files call_graph git_output
    = calculate_node_scores g3
    /\ Forall (fun kv => temporal_score (snd kv) = 0%float) (nodes g3).
Proof.
  unfold build_hybrid_graph. eexists. split; [reflexivity|].
  assert (H1 : Forall (fun kv => temporal_score (snd kv) = 0%float)
                 (nodes (fold_left add_file_node files (empty r)))).
  { apply file_nodes_fresh. constructor. }
  assert (H2 : Forall (fun kv => temporal_score (snd kv) = 0%float)
                 (nodes (match call_graph with
                         | Some cg => fold_left (add_structural_edge now cg)
                                        (CallGraph.edges cg)
                                        (fold_left add_file_node files (empty r))
                         | None => fold_left add_file_node files (empty r)
                         end))).
  { destruct call_graph as [cg|]; [|exact H1].
    rewrite fold_add_edge_nodes; [exact H1|].
    intros; apply add_structural_edge_nodes. }
  destruct git_output as [output|]; [|exact H2].
  destruct (String.eqb output ""); [exact H2|].
  rewrite fold_add_edge_nodes; [exact H2|].
  intros; apply replay_commit_nodes.
Qed.

(** The scoring step, node by node. *)
Lemma calculate_node_scores_lookup g i k n :
  nodes g !! i = Some (k, n) ->
  exists n',
    nodes (calculate_node_scores g) !! i = Some (k, n')
    /\ structural_score n' = pymin 1 (0.1 * float_of_int (neighbor_count g k))%float
    /\ comod_score n' = pymin 1 (0.05 * float_of_int (comod_total g k))%float
    /\ temporal_score n' = temporal_score n.
Proof.
  intros H. unfold calculate_node_scores. simpl.
  rewrite list_lookup_fmap, H. simpl. eexists. split; [reflexivity|].
  simpl. rewrite (mul_comm 0.1), (mul_comm 0.05). repeat split.
Qed.

Lemma calculate_node_scores_inv g i k n' :
  nodes (calculate_node_scores g) !! i = Some (k, n') ->
  exists n, nodes g !! i = Some (k, n).
Proof.
  unfold calculate_node_scores. simpl. rewrite list_lookup_fmap.
  destruct (nodes g !! i) as [[k0 n]|] eqn:E; simpl; [|discriminate].
  intros [= <- _]. eexists. reflexivity.
Qed.

(** An access touches the access metadata of its node and the edges; it
    leaves every node its temporal score. *)
Lemma record_access_temporal_score ts cutoff now g node_id i k n :
  nodes g !! i = Some (k, n) ->
  exists n',
    nodes (record_access ts cutoff now g node_id) !! i = Some (k, n')
    /\ temporal_score n' = temporal_score n.
Proof.
  intros H. unfold record_access.
  rewrite fold_add_edge_nodes by reflexivity. simpl.
  destruct (get node_id (nodes g)) as [n0|] eqn:E.
  - apply (set_existing_lookup temporal_score node_id (touch_node ts n0) n0);
      [exact E | reflexivity | exact H].
  - eexists. split; [exact H | reflexivity].
Qed.

Lemma six_commits_score :
  pymin 1 (0.05 * float_of_int 6)%float = 0.30000000000000004%float
  /\ exact_value 0.30000000000000004%float = Some (5404319552844596, -54).
Proof. split; vm_compute; reflexivity. Qed.

Lemma comod_total_single g k other c :
  comod_row (comod_matrix g) k = {[other := c]} -> comod_total g k = c.
Proof.
  intros H. unfold comod_total. rewrite H, map_fold_singleton. lia.
Qed.

(** C7, as the code has it. After one build every node has
    [structural_score = min(1, 0.1 * neighbor count)] and
    [comod_score = min(1, 0.05 * sum of its row of the co-modification
    matrix)], both computed on the built graph. A file whose row holds one
    other file with count 6 gets [min(1, 0.05 * 6)], which is 0.3 as binary64
    arithmetic gives it: the float 0.30000000000000004, that is
    5404319552844596 * 2^-54, less than 2^-54 away from 3/10. The scoring
    step assigns the two scores and nothing else: on any graph it leaves each
    node's temporal score as it finds it, and in a build, where every node is
    new, that is the initial 0. [record_access] does not assign it either: an
    access leaves every node's temporal score as it was. *)
Theorem build_scores (now r : string) (root_join : string -> string)
  (files : list (string * string)) (call_graph : option CallGraph.CallGraph)
  (git_output : option string) :
  let g := build_hybrid_graph now r root_join files call_graph git_output in
  (forall i k n, nodes g !! i = Some (k, n) ->
     structural_score n = pymin 1 (0.1 * float_of_int (neighbor_count g k))%float
     /\ comod_score n = pymin 1 (0.05 * float_of_int (comod_total g k))%float
     /\ temporal_score n = 0%float
     /\ (forall other, comod_row (comod_matrix g) k = {[other := 6]} ->
           comod_score n = pymin 1 (0.05 * float_of_int 6)%float
           /\ exists m, exact_value (comod_score n) = Some (m, -54)
                        /\ Z.abs (10 * m - 3 * 2 ^ 54) < 10))
  /\ (forall g0 i k n, nodes g0 !! i = Some (k, n) ->
        exists n',
          nodes (calculate_node_scores g0) !! i = Some (k, n')
          /\ structural_score n'
             = pymin 1 (0.1 * float_of_int (neighbor_count g0 k))%float
          /\ comod_score n' = pymin 1 (0.05 * float_of_int (comod_total g0 k))%float
          /\ temporal_score n' = temporal_score n)
  /\ (forall timestamp cutoff now' g0 node_id i k n,
        nodes g0 !! i = Some (k, n) ->
        exists n',
          nodes (record_access timestamp cutoff now' g0 node_id) !! i = Some (k, n')
          /\ temporal_score n' = temporal_score n).
Proof.
  intros g.
  split; [|split; [intros g0 i k n H; apply calculate_node_scores_lookup; exact H
                  |intros; apply record_access_temporal_score; assumption]].
  destruct (build_unfold now r root_join files call_graph git_output)
    as (g3 & E & Hfresh).
  fold g in E. intros i k n H.
  assert (Hnc : neighbor_count g k = neighbor_count g3 k) by (rewrite E; reflexivity).
  assert (Hct : comod_total g k = comod_total g3 k) by (rewrite E; reflexivity).
  rewrite E in H.
  destruct (calculate_node_scores_inv g3 i k n H) as (n0 & H0).
  destruct (calculate_node_scores_lookup g3 i k n0 H0) as (n' & H1 & Hs & Hc & Ht).
  rewrite H in H1. injection H1 as <-.
  assert (Hz : temporal_score n0 = 0%float).
  { rewrite Forall_forall in Hfresh.
    apply (Hfresh (k, n0)). apply list_elem_of_lookup. exists i. exact H0. }
  rewrite Hnc, Hct. repeat split; [exact Hs | exact Hc | congruence | |].
  - rewrite Hc, <- Hct, (comod_total_single g k other 6 H1). reflexivity.
  - exists 5404319552844596. rewrite Hc, <- Hct, (comod_total_single g k other 6 H1).
    destruct six_commits_score as [-> ->]. split; [reflexivity | vm_compute; reflexivity].
Qed.

End Facts.
End HybridBuildFacts.

(** ** The fusion graph: queries *)

Module HybridQueryFacts.
Import PyFloat PyFloatFacts PyDict PyDictFacts Hybrid.

Section Facts.
Context `{R : PyRuntime}.

Lemma mem_keys {V} k (d : list (string * V)) : mem k d = true <-> k ∈ keys d.
Proof.
  unfold mem. induction d as [|[k' v] d IH]; simpl.
  - rewrite elem_of_nil. split; [discriminate | tauto].
  - rewrite elem_of_cons. destruct (String.eqb_spec k k') as [->|Hne].
    + split; auto.
    + rewrite IH. split; [auto | intros [?|?]; [contradiction | assumption]].
Qed.

Lemma combined_weight_ok e : get_combined_weight e = combined_weight_spec e.
Proof.
  unfold get_combined_weight, combined_weight_spec.
  rewrite !(mul_comm 0.3), !(mul_comm 0.2). reflexivity.
Qed.

Lemma search_score_ok query n :
  search_score (str_lower query) n = search_score_spec query n.
Proof.
  unfold search_score, search_score_spec.
  rewrite (mul_comm 0.2), !(mul_comm 0.1).
  destruct (PyStr.contains _ (str_lower (name n)));
    destruct (PyStr.contains _ (str_lower (path n))); reflexivity.
Qed.

Lemma score_neighbor_ok g query_id scores n :
  n ∉ keys scores ->
  score_neighbor g query_id scores n
  = scores ++ match option_map (fun e => (n, combined_weight_spec e))
                      (edge_between g query_id n) with
              | Some p => [p]
              | None => []
              end.
Proof.
  intros Hn. unfold score_neighbor, edge_between.
  destruct (edges g !! edge_id query_id n) as [e|] eqn:E.
  - rewrite bool_decide_eq_true_2 by (eexists; reflexivity).
    rewrite E. simpl. rewrite set_fresh by exact Hn.
    rewrite combined_weight_ok. reflexivity.
  - rewrite bool_decide_eq_false_2 by (intros [? ?]; discriminate).
    destruct (edges g !! edge_id n query_id) as [e|]; simpl.
    + rewrite set_fresh by exact Hn. rewrite combined_weight_ok. reflexivity.
    + rewrite app_nil_r. reflexivity.
Qed.

Lemma score_neighbors_ok g query_id l scores :
  NoDup l -> (forall n, n ∈ l -> n ∉ keys scores) ->
  fold_left (score_neighbor g query_id) l scores
  = scores ++ omap (fun n => option_map (fun e => (n, combined_weight_spec e))
                               (edge_between g query_id n)) l.
Proof.
  intros Hnd. revert scores.
  induction Hnd as [|n l Hn Hnd IH]; intros scores Hfresh; simpl.
  - rewrite app_nil_r. reflexivity.
  - rewrite score_neighbor_ok by (apply Hfresh; left).
    rewrite IH.
    + rewrite <- app_assoc. f_equal.
      destruct (option_map _ (edge_between g query_id n)); reflexivity.
    + intros x Hx. unfold keys. rewrite map_app, elem_of_app.
      intros [Hk|Hk]; [apply (Hfresh x); [right; exact Hx | exact Hk]|].
      unfold edge_between in Hk.
      destruct (option_map _ _) as [p|] eqn:Ep; simpl in Hk.
      * apply list_elem_of_singleton in Hk.
        destruct (match edges g !! edge_id query_id n with
                  | Some e => Some e | None => edges g !! edge_id n query_id end);
          simpl in Ep; [|discriminate].
        injection Ep as <-. simpl in Hk. subst x. contradiction.
      * apply elem_of_nil in Hk. exact Hk.
Qed.

(** The dictionary [scores] that [get_related_nodes] sorts. *)
Lemma related_scores_ok g query_id :
  fold_left (score_neighbor g query_id) (set_iter (neighbors_of g query_id)) []
  = related_scored g query_id.
Proof.
  rewrite score_neighbors_ok.
  - reflexivity.
  - apply set_iter_nodup.
  - intros n _. apply not_elem_of_nil.
Qed.

Lemma get_related_nodes_unfold g query_id limit :
  get_related_nodes g query_id limit
  = if mem query_id (nodes g)
    then slice_to limit (sorted_desc snd (related_scored g query_id))
    else [].
Proof. unfold get_related_nodes. rewrite related_scores_ok. reflexivity. Qed.

(** With weights in the range of the data model a combined weight is a
    number, so the ranking compares no NaN. *)
Lemma combined_weight_number e :
  weights_in_range e = true -> is_number (combined_weight_spec e).
Proof.
  unfold weights_in_range. rewrite !andb_true_iff.
  intros [[[H1 H2] H3] H4].
  apply is_number_spec, SFnonneg_number. unfold combined_weight_spec.
  repeat apply add_nonneg; apply mul_nonneg;
    try (apply in_unit_spec; assumption); exact I.
Qed.

Lemma related_scored_numbers g query_id :
  map_Forall (fun _ e => weights_in_range e = true) (edges g) ->
  Forall (fun p => is_number (snd p)) (related_scored g query_id).
Proof.
  intros H. unfold related_scored. rewrite Forall_forall. intros p Hp.
  apply list_elem_of_omap in Hp. destruct Hp as (n & _ & Hn).
  unfold edge_between in Hn.
  destruct (edges g !! edge_id query_id n) as [e|] eqn:E1; simpl in Hn.
  - injection Hn as <-. simpl. apply combined_weight_number. exact (H _ _ E1).
  - destruct (edges g !! edge_id n query_id) as [e|] eqn:E2; simpl in Hn;
      [|discriminate].
    injection Hn as <-. simpl. apply combined_weight_number. exact (H _ _ E2).
Qed.

Lemma search_results_ok g query : search_results g query = search_scored g query.
Proof.
  unfold search_results, search_scored. f_equal.
  apply map_ext. intros kv. rewrite search_score_ok. reflexivity.
Qed.

Lemma search_scored_numbers g query :
  Forall (fun r => is_number (snd r)) (search_scored g query).
Proof.
  unfold search_scored. rewrite Forall_forall. intros r Hr.
  apply list_elem_of_In, List.filter_In in Hr. destruct Hr as [_ Hr].
  unfold gt in Hr. apply ltb_number in Hr. apply Hr.
Qed.

Lemma search_scored_elem g query n s :
  (n, s) ∈ search_scored g query
  <-> (exists k, (k, n) ∈ nodes g)
      /\ s = search_score_spec query n /\ PrimFloat.ltb 0 s = true.
Proof.
  unfold search_scored. rewrite list_elem_of_In, List.filter_In, <- list_elem_of_In.
  rewrite list_elem_of_fmap. unfold gt. simpl. split.
  - intros [([k n0] & E & Hin) Hpos]. simpl in E. injection E as -> ->.
    split; [exists k; exact Hin|]. split; [reflexivity | exact Hpos].
  - intros ([k Hin] & -> & Hpos). split; [|exact Hpos].
    exists (k, n). split; [reflexivity | exact Hin].
Qed.

Lemma search_score_zero_intrinsic query n :
  structural_score n = 0%float -> temporal_score n = 0%float ->
  comod_score n = 0%float ->
  search_score_spec query n
  = match PyStr.contains (str_lower query) (str_lower (name n)),
          PyStr.contains (str_lower query) (str_lower (path n)) with
    | true, false => 0.5%float
    | false, true => 0.3%float
    | true, true => 0.8%float
    | false, false => 0%float
    end.
Proof.
  intros H1 H2 H3. unfold search_score_spec. rewrite H1, H2, H3.
  destruct (PyStr.contains _ (str_lower (name n)));
    destruct (PyStr.contains _ (str_lower (path n))); vm_compute; reflexivity.
Qed.

(** The intrinsic part of a score: with scores between 0 and 1 it is at
    most [0.2 + 0.1 + 0.1], which is the float 0.4, and adding it to a base
    never gives less than the base. *)
Lemma intrinsic_sum b b' n :
  SFunit (Prim2SF b) -> SFunit (Prim2SF b') ->
  SFunit (Prim2SF (b' + 0.2 * 1)) ->
  SFunit (Prim2SF (b' + 0.2 * 1 + 0.1 * 1)) ->
  SFunit (Prim2SF (b' + 0.2 * 1 + 0.1 * 1 + 0.1 * 1)) ->
  PrimFloat.leb b b' = true ->
  scores_in_range n = true ->
  let s := (b + 0.2 * structural_score n + 0.1 * temporal_score n
            + 0.1 * comod_score n)%float in
  PrimFloat.leb s (b' + 0.2 * 1 + 0.1 * 1 + 0.1 * 1) = true
  /\ PrimFloat.leb b s = true.
Proof.
  intros Ub Ub' U1 U2 U3 Hb Hr s. subst s.
  unfold scores_in_range in Hr. rewrite !andb_true_iff in Hr.
  destruct Hr as [[Hs Ht] Hc].
  destruct (PyFloatOrderFacts.scaled_score 0.2 (structural_score n)) as [P1 L1];
    [exact I|exact I|exact Hs|].
  destruct (PyFloatOrderFacts.scaled_score 0.1 (temporal_score n)) as [P2 L2];
    [exact I|exact I|exact Ht|].
  destruct (PyFloatOrderFacts.scaled_score 0.1 (comod_score n)) as [P3 L3];
    [exact I|exact I|exact Hc|].
  assert (K2 : SFunit (Prim2SF (0.2 * 1))) by exact I.
  assert (K1 : SFunit (Prim2SF (0.1 * 1))) by exact I.
  destruct (PyFloatOrderFacts.add_unit _ _ _ _ Ub Ub' P1 K2 U1 Hb L1) as [Q1 M1].
  destruct (PyFloatOrderFacts.add_unit _ _ _ _ Q1 U1 P2 K1 U2 M1 L2) as [Q2 M2].
  destruct (PyFloatOrderFacts.add_unit _ _ _ _ Q2 U2 P3 K1 U3 M2 L3) as [Q3 M3].
  split; [exact M3|].
  eapply leb_trans; [apply (PyFloatOrderFacts.add_ge_l b _ Ub P1)|].
  eapply leb_trans; [apply (PyFloatOrderFacts.add_ge_l _ _ Q1 P2)|].
  apply (PyFloatOrderFacts.add_ge_l _ _ Q2 P3).
Qed.

(** A node that matches neither by name nor by path scores at most 0.4
    when its intrinsic scores are between 0 and 1. *)
Lemma unmatched_score_le query n :
  unmatched query n = true -> scores_in_range n = true ->
  PrimFloat.leb (search_score_spec query n) 0.4 = true.
Proof.
  unfold unmatched. rewrite andb_true_iff, !negb_true_iff. intros [E1 E2] Hr.
  unfold search_score_spec. rewrite E1, E2.
  change (0 + 0)%float with 0%float.
  exact (proj1 (intrinsic_sum 0 0 n I I I I I eq_refl Hr)).
Qed.

(** A node that matches by name scores at least 0.5 when its intrinsic
    scores are between 0 and 1. *)
Lemma name_match_score_ge query n :
  name_match query n = true -> scores_in_range n = true ->
  PrimFloat.leb 0.5 (search_score_spec query n) = true.
Proof.
  unfold name_match. intros E1 Hr. unfold search_score_spec. rewrite E1.
  destruct (PyStr.contains _ (str_lower (path n))).
  - change (0.5 + 0.3)%float with 0.8%float.
    eapply leb_trans; [|exact (proj2 (intrinsic_sum 0.8 0.8 n I I I I I eq_refl Hr))].
    reflexivity.
  - change (0.5 + 0)%float with 0.5%float.
    exact (proj2 (intrinsic_sum 0.5 0.5 n I I I I I eq_refl Hr)).
Qed.

Lemma name_match_outscores query n1 n2 :
  name_match query n1 = true -> scores_in_range n1 = true ->
  unmatched query n2 = true -> scores_in_range n2 = true ->
  PrimFloat.ltb (search_score_spec query n2) (search_score_spec query n1) = true.
Proof.
  intros H1 R1 H2 R2.
  eapply leb_ltb_trans; [apply unmatched_score_le; assumption|].
  eapply PyFloatOrderFacts.ltb_leb_trans; [|apply name_match_score_ge; assumption].
  reflexivity.
Qed.

Lemma ltb_not_leb a b : PrimFloat.ltb a b = true -> PrimFloat.leb b a = false.
Proof.
  rewrite ltb_spec, leb_spec. generalize (Prim2SF a) (Prim2SF b). intros u v.
  sf_destruct; intros; sf_compare.
Qed.

Lemma StronglySorted_lookup {A} (rel : A -> A -> Prop) l i j x y :
  StronglySorted rel l -> (i < j)%nat -> l !! i = Some x -> l !! j = Some y ->
  rel x y.
Proof.
  intros Hs. revert i j. induction Hs as [|a l Hs IH Hall]; intros i j Hij Hi Hj.
  - discriminate.
  - destruct j as [|j]; [lia|]. destruct i as [|i].
    + injection Hi as <-. rewrite List.Forall_forall in Hall.
      apply Hall. apply list_elem_of_In. eapply list_elem_of_lookup_2. exact Hj.
    + apply (IH i j); [lia|exact Hi|exact Hj].
Qed.

Lemma slice_to_take {A} limit (l : list A) : exists k, slice_to limit l = firstn k l.
Proof. unfold slice_to. destruct (0 <=? limit); eexists; reflexivity. Qed.

(** In the answer of [search], a node that matches by name stands before
    every node that matches neither by name nor by path. *)
Lemma search_name_match_first g query limit i n2 s2 k1 n1 :
  search g query limit !! i = Some (n2, s2) ->
  unmatched query n2 = true -> scores_in_range n2 = true ->
  (k1, n1) ∈ nodes g ->
  name_match query n1 = true -> scores_in_range n1 = true ->
  exists j, (j < i)%nat
            /\ search g query limit !! j = Some (n1, search_score_spec query n1).
Proof.
  intros Hi U2 R2 Hin M1 R1. unfold search in *. rewrite search_results_ok in *.
  set (ranked := sorted_desc snd (search_scored g query)) in *.
  assert (Hperm : ranked ≡ₚ search_scored g query) by apply sorted_desc_perm.
  assert (Hsort : StronglySorted (desc snd) ranked)
    by (apply sorted_desc_sorted, search_scored_numbers).
  destruct (slice_to_take limit ranked) as [k Ek]. rewrite Ek in *.
  apply lookup_take_Some in Hi. destruct Hi as [Hi Hik].
  assert (E2 : s2 = search_score_spec query n2).
  { apply list_elem_of_lookup_2 in Hi. rewrite Hperm in Hi.
    apply search_scored_elem in Hi. apply Hi. }
  subst s2.
  pose proof (name_match_outscores query n1 n2 M1 R1 U2 R2) as Hlt.
  assert (H1 : (n1, search_score_spec query n1) ∈ ranked).
  { rewrite Hperm. apply search_scored_elem. split; [exists k1; exact Hin|].
    split; [reflexivity|].
    eapply PyFloatOrderFacts.ltb_leb_trans; [|apply name_match_score_ge; assumption].
    reflexivity. }
  apply list_elem_of_lookup_1 in H1. destruct H1 as [j Hj].
  exists j. destruct (Nat.lt_trichotomy j i) as [Hji|[->|Hij]].
  - split; [exact Hji|]. apply lookup_take_Some. split; [exact Hj|lia].
  - exfalso. rewrite Hi in Hj. injection Hj as ->.
    unfold unmatched, name_match in *. rewrite M1 in U2. discriminate.
  - exfalso. pose proof (StronglySorted_lookup _ _ _ _ _ _ Hsort Hij Hi Hj) as D.
    unfold desc in D. cbn [snd] in D. rewrite (ltb_not_leb _ _ Hlt) in D.
    discriminate.
Qed.

(** C2, as the code has it. [search(query, limit)] gives each node the score
    (0.5 if the lower-cased query occurs in the lower-cased name, else 0) +
    (0.3 if it occurs in the lower-cased path, else 0) + 0.2 * structural
    score + 0.1 * temporal score + 0.1 * comod score, drops the nodes whose
    score is not above 0, and returns the first [limit] of the others in
    descending score order, equal scores in the order of [nodes]. A node whose
    three intrinsic scores are 0 scores 0.5 on a match of the name alone, 0.3
    on a match of the path alone and 0.8 on both, so it is returned, and
    scores 0, so it is dropped, when it matches neither. With intrinsic scores
    in the range of the data model, between 0 and 1, a node that matches by
    name scores at least 0.5 and a node that matches neither by name nor by
    path at most 0.4: whenever a node that matches neither is in the answer,
    every node of the graph that matches by name is in the answer too, at an
    earlier place. A match of the path alone gives no such rank. *)
Theorem search_ranked (g : HybridGraph) (query : string) (limit : Z) :
  (forall n, search_score (str_lower query) n = search_score_spec query n)
  /\ (0 <= limit ->
      exists ranked,
        search g query limit = firstn (Z.to_nat limit) ranked
        /\ ranked ≡ₚ search_scored g query
        /\ StronglySorted (desc snd) ranked
        /\ forall v, with_key snd v ranked = with_key snd v (search_scored g query))
  /\ (forall n s,
        (n, s) ∈ search_scored g query
        <-> (exists k, (k, n) ∈ nodes g)
            /\ s = search_score_spec query n /\ PrimFloat.ltb 0 s = true)
  /\ (forall n,
        structural_score n = 0%float -> temporal_score n = 0%float ->
        comod_score n = 0%float ->
        search_score_spec query n
        = match PyStr.contains (str_lower query) (str_lower (name n)),
                PyStr.contains (str_lower query) (str_lower (path n)) with
          | true, false => 0.5%float
          | false, true => 0.3%float
          | true, true => 0.8%float
          | false, false => 0%float
          end)
  /\ (forall n1 n2,
        name_match query n1 = true -> scores_in_range n1 = true ->
        unmatched query n2 = true -> scores_in_range n2 = true ->
        PrimFloat.leb 0.5 (search_score_spec query n1) = true
        /\ PrimFloat.leb (search_score_spec query n2) 0.4 = true
        /\ PrimFloat.ltb (search_score_spec query n2) (search_score_spec query n1)
           = true)
  /\ (forall i n2 s2 k1 n1,
        search g query limit !! i = Some (n2, s2) ->
        unmatched query n2 = true -> scores_in_range n2 = true ->
        (k1, n1) ∈ nodes g ->
        name_match query n1 = true -> scores_in_range n1 = true ->
        exists j, (j < i)%nat
                  /\ search g query limit !! j
                     = Some (n1, search_score_spec query n1)).
Proof.
  split; [intros n; apply search_score_ok|].
  split; [|split; [intros n s; apply search_scored_elem|split;
                   [intros n; apply search_score_zero_intrinsic|split]]].
  - intros Hlim. unfold search. rewrite search_results_ok.
    exists (sorted_desc snd (search_scored g query)).
    split; [apply slice_to_nonneg; exact Hlim|].
    split; [apply sorted_desc_perm|].
    split; [apply sorted_desc_sorted; apply search_scored_numbers|].
    intros v. apply sorted_desc_stable. apply search_scored_numbers.
  - intros n1 n2 M1 R1 U2 R2.
    split; [apply name_match_score_ge; assumption|].
    split; [apply unmatched_score_le; assumption|].
    apply name_match_outscores; assumption.
  - intros i n2 s2 k1 n1. apply search_name_match_first.
Qed.

Lemma from_to_nodes g : wf (nodes g) -> nodes (from_dict (to_dict g)) = nodes g.
Proof.
  intros Hwf. unfold from_dict, to_dict. simpl.
  assert (E : map (fun kv : string * HybridNode => (fst kv, snd kv)) (nodes g) = nodes g).
  { rewrite <- (map_id (nodes g)) at 2. apply map_ext. intros [k v]. reflexivity. }
  rewrite E. apply (refill (nodes g) []). exact Hwf.
Qed.

Lemma from_to_neighbors g k :
  neighbors_of (from_dict (to_dict g)) k
  = match neighbors g !! k with
    | Some s => set_of_list (set_iter s)
    | None => set_new
    end.
Proof.
  unfold neighbors_of, from_dict, to_dict. simpl.
  rewrite !lookup_fmap. destruct (neighbors g !! k); reflexivity.
Qed.

Lemma from_to_iter g k :
  set_iter (neighbors_of (from_dict (to_dict g)) k) ≡ₚ set_iter (neighbors_of g k).
Proof.
  rewrite from_to_neighbors. unfold neighbors_of.
  destruct (neighbors g !! k) as [s|]; simpl; [|reflexivity].
  apply NoDup_Permutation; try apply set_iter_nodup.
  intros x. apply set_of_list_spec.
Qed.

Lemma related_scored_iter g g' query_id :
  edges g' = edges g ->
  related_scored g' query_id
  = omap (fun n => option_map (fun e => (n, combined_weight_spec e))
                     (edge_between g query_id n))
      (set_iter (neighbors_of g' query_id)).
Proof.
  intros E. unfold related_scored, edge_between. rewrite E. reflexivity.
Qed.

(** C5, as the code has it. Reading back what [to_dict] wrote gives a graph
    whose [search] results are those of [g], for every query and limit. Its
    [relatedNodes] results are those of [g] for an unknown id (both empty),
    and for every id whose neighbour set, rebuilt by [set(...)] from the
    list [to_dict] made of it, is iterated in the order of the original. In
    general the neighbours and their scores are the same and, with edge
    weights between 0 and 1, both rankings are sorted, but the neighbour sets
    are rebuilt and their iteration order decides between equal scores. *)
Theorem round_trip_queries (g : HybridGraph) :
  wf (nodes g) ->
  (forall query limit,
     search (from_dict (to_dict g)) query limit = search g query limit)
  /\ (forall query_id limit,
        query_id ∉ keys (nodes g) ->
        get_related_nodes (from_dict (to_dict g)) query_id limit = []
        /\ get_related_nodes g query_id limit = [])
  /\ (forall query_id limit,
        set_iter (neighbors_of (from_dict (to_dict g)) query_id)
        = set_iter (neighbors_of g query_id) ->
        get_related_nodes (from_dict (to_dict g)) query_id limit
        = get_related_nodes g query_id limit)
  /\ (forall query_id limit,
        query_id ∈ keys (nodes g) ->
        exists ranked ranked',
          get_related_nodes g query_id limit = slice_to limit ranked
          /\ get_related_nodes (from_dict (to_dict g)) query_id limit
             = slice_to limit ranked'
          /\ ranked ≡ₚ related_scored g query_id
          /\ ranked' ≡ₚ ranked
          /\ (map_Forall (fun _ e => weights_in_range e = true) (edges g) ->
              StronglySorted (desc snd) ranked
              /\ StronglySorted (desc snd) ranked')).
Proof.
  intros Hwf. pose proof (from_to_nodes g Hwf) as Hn.
  assert (He : edges (from_dict (to_dict g)) = edges g) by reflexivity.
  assert (Hp : forall q, related_scored (from_dict (to_dict g)) q ≡ₚ related_scored g q).
  { intros q. rewrite (related_scored_iter g _ q He). unfold related_scored.
    rewrite (from_to_iter g q). reflexivity. }
  split; [|split; [|split]].
  - intros query limit. unfold search, search_results. rewrite Hn. reflexivity.
  - intros q limit Hq. rewrite !get_related_nodes_unfold, Hn.
    destruct (mem q (nodes g)) eqn:E; [apply mem_keys in E; contradiction|].
    split; reflexivity.
  - intros q limit Hi. rewrite !get_related_nodes_unfold, Hn.
    rewrite (related_scored_iter g _ q He), Hi. reflexivity.
  - intros q limit Hq. apply mem_keys in Hq.
    rewrite !get_related_nodes_unfold, Hn, Hq.
    exists (sorted_desc snd (related_scored g q)),
           (sorted_desc snd (related_scored (from_dict (to_dict g)) q)).
    split; [reflexivity|]. split; [reflexivity|].
    split; [apply sorted_desc_perm|].
    split; [rewrite !sorted_desc_perm; apply Hp|].
    intros Hw. pose proof (related_scored_numbers g q Hw) as Hnum.
    split; apply sorted_desc_sorted; [exact Hnum|].
    rewrite (Hp q). exact Hnum.
Qed.

End Facts.
End HybridQueryFacts.

(** ** The structural extractor *)

Module CallGraphFacts.
Import CallGraph.

(** Induction over syntax trees, with the hypothesis on every child. *)
Lemma ast_ind_children (P : ast -> Prop) :
  (forall t, Forall P (children t) -> P t) -> forall t, P t.
Proof.
  intros H. fix IH 1. intros t. apply H.
  destruct t as [i|v a|func args l|names l|m names l|c bases rest l
                |f cs l|f cs l|cs]; simpl.
  - constructor.
  - constructor; [apply IH | constructor].
  - constructor; [apply IH|].
    induction args as [|x args IHargs]; constructor; [apply IH | exact IHargs].
  - constructor.
  - constructor.
  - apply Forall_app. split.
    + induction bases as [|x bases IHb]; constructor; [apply IH | exact IHb].
    + induction rest as [|x rest IHr]; constructor; [apply IH | exact IHr].
  - induction cs as [|x cs IHcs]; constructor; [apply IH | exact IHcs].
  - induction cs as [|x cs IHcs]; constructor; [apply IH | exact IHcs].
  - induction cs as [|x cs IHcs]; constructor; [apply IH | exact IHcs].
Qed.

(** A visit is: enter the node, visit the children, leave. *)
Lemma visit_unfold t b : visit t b = leave b t (visit_all (children t) (enter b t)).
Proof.
  destruct t; simpl; try reflexivity.
  unfold visit_all. rewrite fold_left_app. reflexivity.
Qed.

Lemma visit_all_app l1 l2 b : visit_all (l1 ++ l2) b = visit_all l2 (visit_all l1 b).
Proof. unfold visit_all. apply fold_left_app. Qed.

Lemma visit_all_cons t l b : visit_all (t :: l) b = visit_all l (visit t b).
Proof. reflexivity. Qed.

(** A relation between states that every step of a list of visits keeps. *)
Lemma visit_all_keeps (Q : Builder -> Builder -> Prop) l :
  (forall b, Q b b) -> (forall a b c, Q a b -> Q b c -> Q a c) ->
  Forall (fun t => forall b, Q b (visit t b)) l ->
  forall b, Q b (visit_all l b).
Proof.
  intros Hrefl Htrans H. induction H as [|t l Ht _ IH]; intros b.
  - apply Hrefl.
  - rewrite visit_all_cons. apply (Htrans _ (visit t b)); [apply Ht | apply IH].
Qed.

Lemma fold_keeps {A} (Q : Builder -> Builder -> Prop) (f : Builder -> A -> Builder) l :
  (forall b, Q b b) -> (forall a b c, Q a b -> Q b c -> Q a c) ->
  (forall b x, Q b (f b x)) -> forall b, Q b (fold_left f l b).
Proof.
  intros Hrefl Htrans Hf. induction l as [|x l IH]; intros b; simpl.
  - apply Hrefl.
  - apply (Htrans _ (f b x)); [apply Hf | apply IH].
Qed.

Lemma same_scope_refl b : same_scope b b.
Proof. repeat split. Qed.

Lemma same_scope_trans a b c : same_scope a b -> same_scope b c -> same_scope a c.
Proof. unfold same_scope. intros (?&?&?&?) (?&?&?&?). repeat split; congruence. Qed.

Lemma enter_call_scope b func l : same_scope b (enter_call b func l).
Proof.
  unfold enter_call. destruct (truthy (current_function b)); [|apply same_scope_refl].
  destruct (truthy _); repeat split.
Qed.

Lemma import_scope b names l : same_scope b (fold_left (import_step l) names b).
Proof.
  apply fold_keeps; [apply same_scope_refl | apply same_scope_trans |].
  intros; repeat split.
Qed.

Lemma import_from_scope b m names l :
  same_scope b (fold_left (import_from_step m l) names b).
Proof.
  apply fold_keeps; [apply same_scope_refl | apply same_scope_trans |].
  intros; repeat split.
Qed.

Lemma base_scope b q l bases : same_scope b (fold_left (base_step q l) bases b).
Proof.
  apply fold_keeps; [apply same_scope_refl | apply same_scope_trans |].
  intros b0 x. unfold base_step. destruct (truthy _); repeat split.
Qed.

Lemma enter_class_scope b c bases l :
  current_function (enter_class b c bases l) = current_function b
  /\ module_name (enter_class b c bases l) = module_name b
  /\ file_path (enter_class b c bases l) = file_path b.
Proof.
  unfold enter_class. simpl.
  set (b1 := with_graph b _).
  destruct (base_scope b1 (module_name b ++ "." ++ c) l bases) as (_ & B2 & B3 & B4).
  repeat split; assumption.
Qed.

(** A visit returns in the scope it started in. *)
Lemma visit_scope t : forall b, same_scope b (visit t b).
Proof.
  induction t as [t IH] using ast_ind_children. intros b.
  rewrite visit_unfold.
  pose proof (visit_all_keeps same_scope (children t)
                same_scope_refl same_scope_trans IH) as Hkids.
  destruct t as [i|v a|func args l|names l|m names l|c bases rest l
                |f cs l|f cs l|cs]; simpl leave; simpl enter.
  - apply Hkids.
  - apply Hkids.
  - eapply same_scope_trans; [apply enter_call_scope | apply Hkids].
  - eapply same_scope_trans; [apply import_scope | apply Hkids].
  - destruct (truthy m); [|apply Hkids].
    eapply same_scope_trans; [apply import_from_scope | apply Hkids].
  - specialize (Hkids (enter_class b c bases l)).
    destruct Hkids as (_ & H2 & H3 & H4).
    destruct (enter_class_scope b c bases l) as (E2 & E3 & E4).
    cbn [children] in H2, H3, H4.
    repeat split; simpl; congruence.
  - specialize (Hkids (enter_function b f l)).
    destruct Hkids as (H1 & _ & H3 & H4). repeat split; simpl; assumption.
  - specialize (Hkids (enter_function b f l)).
    destruct Hkids as (H1 & _ & H3 & H4). repeat split; simpl; assumption.
  - apply Hkids.
Qed.

Lemma visit_all_scope l b : same_scope b (visit_all l b).
Proof.
  apply visit_all_keeps; [apply same_scope_refl | apply same_scope_trans |].
  rewrite Forall_forall. intros t _. apply visit_scope.
Qed.

Lemma grows_refl b : grows b b [].
Proof. unfold grows. rewrite app_nil_r. reflexivity. Qed.

Lemma grows_trans a b c l1 l2 : grows a b l1 -> grows b c l2 -> grows a c (l1 ++ l2).
Proof. unfold grows. intros H1 H2. rewrite H2, H1, app_assoc. reflexivity. Qed.

Lemma extends_refl b : extends b b.
Proof. eexists. apply grows_refl. Qed.

Lemma extends_trans a b c : extends a b -> extends b c -> extends a c.
Proof. intros [l1 H1] [l2 H2]. eexists. eapply grows_trans; eassumption. Qed.

Lemma extends_in a b e :
  extends a b -> In e (edges (graph a)) -> In e (edges (graph b)).
Proof. intros [l H] Hin. rewrite H. apply in_or_app. left. exact Hin. Qed.

Lemma emit_grows b e : grows b (emit b e) [e].
Proof. reflexivity. Qed.

Lemma enter_extends b t : extends b (enter b t).
Proof.
  destruct t as [i|v a|func args l|names l|m names l|c bases rest l
                |f cs l|f cs l|cs]; simpl; try apply extends_refl.
  - unfold enter_call. destruct (truthy (current_function b)); [|apply extends_refl].
    destruct (truthy _); [|apply extends_refl]. eexists. apply emit_grows.
  - apply fold_keeps; [apply extends_refl | apply extends_trans |].
    intros b0 x. eexists. unfold grows. reflexivity.
  - destruct (truthy m); [|apply extends_refl].
    apply fold_keeps; [apply extends_refl | apply extends_trans |].
    intros b0 x. eexists. unfold grows. reflexivity.
  - unfold enter_class.
    set (b1 := with_graph b _).
    assert (H : extends b1 (fold_left (base_step (module_name b ++ "." ++ c) l) bases b1)).
    { apply fold_keeps; [apply extends_refl | apply extends_trans |].
      intros b0 x. unfold base_step. destruct (truthy _); [|apply extends_refl].
      eexists. apply emit_grows. }
    destruct H as [added H]. exists added. unfold grows in *. simpl in *. exact H.
  - exists []. unfold grows. simpl. rewrite app_nil_r. reflexivity.
  - exists []. unfold grows. simpl. rewrite app_nil_r. reflexivity.
Qed.

Lemma leave_edges b t after : edges (graph (leave b t after)) = edges (graph after).
Proof. destruct t; reflexivity. Qed.

(** A visit only adds edges. *)
Lemma visit_extends t : forall b, extends b (visit t b).
Proof.
  induction t as [t IH] using ast_ind_children. intros b.
  rewrite visit_unfold.
  pose proof (visit_all_keeps extends (children t) extends_refl extends_trans IH
                (enter b t)) as Hkids.
  pose proof (enter_extends b t) as Hent.
  destruct (extends_trans _ _ _ Hent Hkids) as [added H].
  exists added. unfold grows in *. rewrite leave_edges. exact H.
Qed.

Lemma visit_all_extends l b : extends b (visit_all l b).
Proof.
  apply visit_all_keeps; [apply extends_refl | apply extends_trans |].
  rewrite Forall_forall. intros t _. apply visit_extends.
Qed.

Lemma enter_plain_scope b t : plain t -> same_scope b (enter b t).
Proof.
  destruct t as [i|v a|func args l|names l|m names l|c bases rest l
                |f cs l|f cs l|cs]; simpl; intros H; try contradiction;
    try apply same_scope_refl.
  - apply enter_call_scope.
  - apply import_scope.
  - destruct (truthy m); [apply import_from_scope | apply same_scope_refl].
Qed.

(** A node reached under plain nodes is visited in the scope of the
    siblings it was reached from. *)
Lemma reach_scope b ts bc x : reach b ts bc x -> same_scope b bc.
Proof.
  induction 1 as [b pre x post | b pre t post bc x Hp _ IH].
  - apply visit_all_scope.
  - eapply same_scope_trans; [apply visit_all_scope|].
    eapply same_scope_trans; [apply enter_plain_scope; exact Hp | exact IH].
Qed.

(** What the visit of a reached node adds is in the graph in the end. *)
Lemma reach_extends b ts bc x :
  reach b ts bc x -> extends (visit x bc) (visit_all ts b).
Proof.
  induction 1 as [b pre x post | b pre t post bc x Hp _ IH].
  - rewrite visit_all_app, visit_all_cons. apply visit_all_extends.
  - rewrite visit_all_app, visit_all_cons.
    eapply extends_trans; [|apply visit_all_extends].
    rewrite (visit_unfold t).
    destruct IH as [added IH]. exists added. unfold grows in *.
    rewrite leave_edges. exact IH.
Qed.

(** [visit_Call] inside a function: the edge it appends. *)
Lemma enter_call_emits b func l fname callee :
  current_function b = Some fname -> fname <> ""%string ->
  _get_call_name b func = Some callee -> callee <> ""%string ->
  grows b (enter_call b func l)
    [mk_edge b (get_current_scope b) callee "calls" l].
Proof.
  intros Hf Hne Hc Hce. unfold enter_call. rewrite Hf, Hc. simpl.
  destruct (String.eqb_spec fname ""); [contradiction|].
  destruct (String.eqb_spec callee ""); [contradiction|]. simpl.
  apply emit_grows.
Qed.

Lemma chain_parts_chain b root attrs :
  chain_parts b (attr_chain root attrs) = (rev attrs ++ chain_parts b root)%list.
Proof.
  unfold attr_chain. revert root.
  induction attrs as [|a attrs IH]; intros root; simpl; [reflexivity|].
  rewrite IH. simpl. rewrite <- app_assoc. reflexivity.
Qed.

Lemma attr_chain_attribute attrs t :
  (exists v a, t = Attribute v a) ->
  exists v a, fold_left Attribute attrs t = Attribute v a.
Proof.
  revert t. induction attrs as [|x attrs IH]; intros t H; simpl.
  - exact H.
  - apply IH. eauto.
Qed.

(** [_get_name] on a bare name and on a dotted chain over a name: the name,
    or the root of the chain, goes through the alias table. *)
Lemma get_name_name b f : _get_call_name b (Name f) = Some (default f (imports b !! f)).
Proof. reflexivity. Qed.

Lemma get_name_chain b r a attrs :
  _get_call_name b (attr_chain (Name r) (a :: attrs))
  = Some (join_dot (default r (imports b !! r) :: a :: attrs)).
Proof.
  unfold _get_call_name, _get_name.
  destruct (attr_chain_attribute attrs (Attribute (Name r) a)) as (v & a' & E);
    [eauto|].
  change (attr_chain (Name r) (a :: attrs))
    with (fold_left Attribute attrs (Attribute (Name r) a)).
  rewrite E, <- E.
  change (fold_left Attribute attrs (Attribute (Name r) a))
    with (attr_chain (Name r) (a :: attrs)).
  rewrite chain_parts_chain. simpl chain_parts.
  rewrite rev_app_distr, rev_involutive. reflexivity.
Qed.

Lemma analyze_file_unfold g path fname m body :
  analyze_file g path fname m body = graph (visit_all body (file_init g path fname m)).
Proof. reflexivity. Qed.

Lemma scope_top_function b gname gl :
  current_class b = None -> gname <> ""%string ->
  get_current_scope (enter_function b gname gl)
  = (module_name b ++ "." ++ gname)%string
  /\ current_function (enter_function b gname gl) = Some gname
  /\ current_class (enter_function b gname gl) = None.
Proof.
  intros Hc Hg. unfold get_current_scope, enter_function. simpl. rewrite Hc. simpl.
  destruct (String.eqb_spec gname ""); [contradiction|]. simpl.
  repeat split.
Qed.

(** The alias table of a state is the table the import statements visited
    so far have written: a visit changes it as [aliases] says. *)
Lemma import_step_imports l names b :
  imports (fold_left (import_step l) names b) = fold_left bind_import names (imports b).
Proof.
  revert b. induction names as [|a names IH]; intros b; simpl; [reflexivity|].
  rewrite IH. reflexivity.
Qed.

Lemma import_from_step_imports m l names b :
  imports (fold_left (import_from_step m l) names b)
  = fold_left (bind_import_from m) names (imports b).
Proof.
  revert b. induction names as [|a names IH]; intros b; simpl; [reflexivity|].
  rewrite IH. reflexivity.
Qed.

Lemma base_fold_imports q l bases b :
  imports (fold_left (base_step q l) bases b) = imports b.
Proof.
  revert b. induction bases as [|x bases IH]; intros b; simpl; [reflexivity|].
  rewrite IH. unfold base_step. destruct (truthy _); reflexivity.
Qed.

Lemma enter_call_imports b func l : imports (enter_call b func l) = imports b.
Proof.
  unfold enter_call. destruct (truthy (current_function b)); [|reflexivity].
  destruct (truthy _); reflexivity.
Qed.

Lemma enter_class_imports b c bases l : imports (enter_class b c bases l) = imports b.
Proof. unfold enter_class. simpl. rewrite base_fold_imports. reflexivity. Qed.

Lemma visit_all_imports_of l :
  Forall (fun t => forall b, imports (visit t b) = aliases t (imports b)) l ->
  forall b, imports (visit_all l b) = aliases_all l (imports b).
Proof.
  induction 1 as [|t l Ht _ IH]; intros b; [reflexivity|].
  rewrite visit_all_cons, IH, Ht. reflexivity.
Qed.

Lemma visit_imports t : forall b, imports (visit t b) = aliases t (imports b).
Proof.
  induction t as [t IH] using ast_ind_children. intros b.
  pose proof (visit_all_imports_of _ IH) as Hkids.
  destruct t as [i|v a|func args l|names l|m names l|c bases rest l
                |f cs l|f cs l|cs]; cbn [children] in Hkids.
  - reflexivity.
  - apply (Hkids b).
  - specialize (Hkids (enter_call b func l)).
    rewrite visit_all_cons, enter_call_imports in Hkids. exact Hkids.
  - apply import_step_imports.
  - simpl. destruct (truthy m); [apply import_from_step_imports | reflexivity].
  - specialize (Hkids (enter_class b c bases l)).
    rewrite enter_class_imports in Hkids.
    rewrite visit_all_app in Hkids. unfold aliases_all in Hkids.
    rewrite fold_left_app in Hkids. exact Hkids.
  - apply (Hkids (enter_function b f l)).
  - apply (Hkids (enter_function b f l)).
  - apply (Hkids b).
Qed.

Lemma visit_all_imports l b : imports (visit_all l b) = aliases_all l (imports b).
Proof.
  apply visit_all_imports_of. rewrite Forall_forall. intros t _. apply visit_imports.
Qed.

Lemma located_not_nil P tbl x tbl' : ~ located P [] tbl x tbl'.
Proof.
  intros H. inversion H as [pre y post t E|pre t post t0 y t1 _ _ E];
    destruct pre; discriminate.
Qed.

(** Entering a node that has children leaves the alias table as it is. *)
Lemma enter_imports b t : children t <> [] -> imports (enter b t) = imports b.
Proof.
  destruct t as [i|v a|func args l|names l|m names l|c bases rest l
                |f cs l|f cs l|cs]; simpl; intros H; try congruence.
  - apply enter_call_imports.
  - apply enter_class_imports.
Qed.

Lemma enter_classless b t :
  classless t ->
  current_class (enter b t) = current_class b
  /\ module_name (enter b t) = module_name b
  /\ file_path (enter b t) = file_path b.
Proof.
  destruct t as [i|v a|func args l|names l|m names l|c bases rest l
                |f cs l|f cs l|cs]; simpl; intros H; try contradiction;
    try (repeat split; fail).
  - destruct (enter_call_scope b func l) as (H1 & _ & H3 & H4). auto.
  - destruct (import_scope b names l) as (H1 & _ & H3 & H4). auto.
  - destruct (truthy m); [|auto].
    destruct (import_from_scope b (default "" m) names l) as (H1 & _ & H3 & H4). auto.
Qed.

Lemma enter_module b t :
  module_name (enter b t) = module_name b /\ file_path (enter b t) = file_path b.
Proof.
  destruct t as [i|v a|func args l|names l|m names l|c bases rest l
                |f cs l|f cs l|cs]; cbn [enter]; try (split; reflexivity).
  - destruct (enter_call_scope b func l) as (_ & _ & H3 & H4). auto.
  - destruct (import_scope b names l) as (_ & _ & H3 & H4). auto.
  - destruct (truthy m); [|auto].
    destruct (import_from_scope b (default "" m) names l) as (_ & _ & H3 & H4). auto.
  - destruct (enter_class_scope b c bases l) as (_ & H3 & H4). auto.
Qed.

(** The state in which a located node is visited: its alias table is the
    one [located] gives, what its visit adds stays in the graph, and it is
    in the module and the file of the start; in the class of the start if
    no class is opened on the way, and in the function of the start if no
    scope at all is opened on the way. *)
Lemma located_state P ts tbl x tbl' :
  located P ts tbl x tbl' ->
  forall b, imports b = tbl ->
  exists bc,
    imports bc = tbl'
    /\ extends (visit x bc) (visit_all ts b)
    /\ module_name bc = module_name b /\ file_path bc = file_path b
    /\ ((forall t, P t -> classless t) -> current_class bc = current_class b)
    /\ ((forall t, P t -> plain t) -> current_function bc = current_function b).
Proof.
  induction 1 as [pre x post tbl|pre t post tbl x tbl' Hp Hl IH]; intros b Hb.
  - exists (visit_all pre b).
    destruct (visit_all_scope pre b) as (S1 & S2 & S3 & S4).
    split; [rewrite visit_all_imports, Hb; reflexivity|].
    split; [rewrite visit_all_app, visit_all_cons; apply visit_all_extends|].
    auto.
  - set (b1 := visit_all pre b).
    destruct (visit_all_scope pre b) as (S1 & S2 & S3 & S4). fold b1 in S1, S2, S3, S4.
    assert (Hne : children t <> []).
    { intros E. rewrite E in Hl. exact (located_not_nil _ _ _ _ Hl). }
    destruct (IH (enter b1 t)) as (bc & I1 & I2 & I3 & I4 & I5 & I6).
    { rewrite enter_imports by exact Hne. unfold b1.
      rewrite visit_all_imports, Hb. reflexivity. }
    exists bc. split; [exact I1|]. split.
    { rewrite visit_all_app, visit_all_cons. fold b1.
      eapply extends_trans; [|apply visit_all_extends].
      rewrite (visit_unfold t). destruct I2 as [added I2]. exists added.
      unfold grows in *. rewrite leave_edges. exact I2. }
    destruct (enter_module b1 t) as (M1 & M2).
    split; [congruence|]. split; [congruence|]. split.
    + intros HP. rewrite (I5 HP).
      destruct (enter_classless b1 t (HP t Hp)) as (E & _). rewrite E. exact S1.
    + intros HP. rewrite (I6 HP).
      destruct (enter_plain_scope b1 t (HP t Hp)) as (_ & E & _). rewrite E. exact S2.
Qed.

Lemma join_dot_cons_nonempty x y l : join_dot (x :: y :: l) <> ""%string.
Proof.
  unfold join_dot. cbn [String.concat].
  destruct x; simpl; discriminate.
Qed.

(** The edge of a call that is located in a function of a file. *)
Lemma located_call_edge g0 path fname m body is_async gname kids gl tbl_g
  func args cl tbl callee :
  gname <> ""%string ->
  located classless body ∅ (function_def is_async gname kids gl) tbl_g ->
  located plain kids tbl_g (Call func args cl) tbl ->
  (forall b, imports b = tbl -> _get_call_name b func = Some callee) ->
  callee <> ""%string ->
  In {| source := (m ++ "." ++ gname)%string; target := callee;
        edge_type := "calls"; edge_file := path; edge_line := cl |}
     (edges (analyze_file g0 path fname m body)).
Proof.
  intros Hg Hlg Hlc Hname Hcallee.
  rewrite analyze_file_unfold.
  destruct (located_state _ _ _ _ _ Hlg (file_init g0 path fname m) eq_refl)
    as (bg & G1 & G2 & G3 & G4 & G5 & _).
  specialize (G5 (fun t H => H)). simpl in G3, G4, G5.
  apply (extends_in (visit (function_def is_async gname kids gl) bg)); [exact G2|].
  rewrite visit_unfold, leave_edges.
  replace (children (function_def is_async gname kids gl)) with kids
    by (destruct is_async; reflexivity).
  replace (enter bg (function_def is_async gname kids gl))
    with (enter_function bg gname gl) by (destruct is_async; reflexivity).
  destruct (scope_top_function bg gname gl G5 Hg) as (Hscope & Hfun & Hcls).
  destruct (located_state _ _ _ _ _ Hlc (enter_function bg gname gl) G1)
    as (bc & C1 & C2 & C3 & C4 & C5 & C6).
  specialize (C5 (fun t H => match t return plain t -> classless t with
                             | ClassDef _ _ _ _ => fun H => H
                             | _ => fun _ => I
                             end H)).
  specialize (C6 (fun t H => H)).
  apply (extends_in (visit (Call func args cl) bc)); [exact C2|].
  rewrite visit_unfold. cbn [leave children enter].
  apply (extends_in (enter_call bc func cl)); [apply visit_all_extends|].
  assert (Hfc : current_function bc = Some gname) by congruence.
  rewrite (enter_call_emits bc func cl gname callee Hfc Hg (Hname bc C1) Hcallee).
  apply in_or_app. right. left.
  assert (Hsc : get_current_scope bc = (m ++ "." ++ gname)%string).
  { transitivity (get_current_scope (enter_function bg gname gl)).
    - unfold get_current_scope. rewrite C5, C6, C3. reflexivity.
    - rewrite Hscope, G3. reflexivity. }
  assert (Hp : file_path bc = path).
  { rewrite C4. simpl. exact G4. }
  unfold mk_edge. rewrite Hsc, Hp. reflexivity.
Qed.

(** C9. Let a parsed file of module [m] hold a function [g] ([def] or
    [async def]) in no class: among its top-level statements, or nested in
    other statements and functions. Let a call lie in [g], in its body or
    elsewhere among its children, under nodes that open no further class or
    function. [located] gives the alias table [tbl] with which the visitor
    comes to the call: the table that the import statements written before
    the call, in the order of the visit, have filled, starting from the
    empty table at the top of the file; an import behind the call is not in
    it. Then the graph built from the file has a 'calls' edge from [m.g], on
    the line of the call: for a called name [f], to the entry of [f] in
    [tbl], or to [f] itself if it has none; for a called dotted chain
    [r.a1...an], to the chain with the root [r] replaced by its entry in
    [tbl], if it has one. The code drops a callee whose resolved name is
    empty. *)
Theorem calls_edge_emitted (g0 : CallGraph) (path fname m : string)
  (body kids : list ast) (is_async : bool) (gname : string) (gl : Z)
  (tbl_g tbl : gmap string string) (func : ast) (args : list ast) (cl : Z) :
  gname <> ""%string ->
  located classless body ∅ (function_def is_async gname kids gl) tbl_g ->
  located plain kids tbl_g (Call func args cl) tbl ->
  (forall f, func = Name f -> default f (tbl !! f) <> ""%string ->
     In {| source := (m ++ "." ++ gname)%string; target := default f (tbl !! f);
           edge_type := "calls"; edge_file := path; edge_line := cl |}
        (edges (analyze_file g0 path fname m body)))
  /\ (forall r a attrs, func = attr_chain (Name r) (a :: attrs) ->
        In {| source := (m ++ "." ++ gname)%string;
              target := join_dot (default r (tbl !! r) :: a :: attrs);
              edge_type := "calls"; edge_file := path; edge_line := cl |}
           (edges (analyze_file g0 path fname m body)))
  /\ (forall pre t post, body = (pre ++ t :: post)%list ->
        imports (visit_all pre (file_init g0 path fname m)) = aliases_all pre ∅).
Proof.
  intros Hg Hlg Hlc. split; [|split].
  - intros f -> Hne.
    apply (located_call_edge g0 path fname m body is_async gname kids gl tbl_g
             (Name f) args cl tbl); try assumption.
    intros b <-. apply get_name_name.
  - intros r a attrs ->.
    apply (located_call_edge g0 path fname m body is_async gname kids gl tbl_g
             (attr_chain (Name r) (a :: attrs)) args cl tbl); try assumption.
    + intros b <-. apply get_name_chain.
    + apply join_dot_cons_nonempty.
  - intros pre t post _. rewrite visit_all_imports. reflexivity.
Qed.

Lemma calls_edges_app l1 l2 : calls_edges (l1 ++ l2) = (calls_edges l1 ++ calls_edges l2)%list.
Proof. unfold calls_edges. apply List.filter_app. Qed.

Lemma quiet_refl b : quiet b b.
Proof. exists []. split; [apply grows_refl | reflexivity]. Qed.

Lemma quiet_trans a b c : quiet a b -> quiet b c -> quiet a c.
Proof.
  intros (l1 & H1 & Q1) (l2 & H2 & Q2). exists (l1 ++ l2)%list.
  split; [eapply grows_trans; eassumption|].
  rewrite calls_edges_app, Q1, Q2. reflexivity.
Qed.

Lemma quiet_calls b b' :
  quiet b b' -> calls_edges (edges (graph b')) = calls_edges (edges (graph b)).
Proof.
  intros (l & H & Q). rewrite H, calls_edges_app, Q, app_nil_r. reflexivity.
Qed.

(** Outside a function, entering a node that is no function definition adds
    no 'calls' edge and leaves the visitor outside a function. *)
Lemma enter_quiet b t :
  no_function_def t = true -> truthy (current_function b) = false ->
  quiet b (enter b t) /\ current_function (enter b t) = current_function b.
Proof.
  intros Hnf Hcf.
  destruct t as [i|v a|func args l|names l|m names l|c bases rest l
                |f cs l|f cs l|cs]; simpl in *; try discriminate;
    try (split; [apply quiet_refl | reflexivity]).
  - unfold enter_call. rewrite Hcf. split; [apply quiet_refl | reflexivity].
  - split; [|apply import_scope].
    apply fold_keeps; [apply quiet_refl | apply quiet_trans |].
    intros b0 x. eexists. split; [unfold grows; reflexivity | reflexivity].
  - destruct (truthy m); [|split; [apply quiet_refl | reflexivity]].
    split; [|apply import_from_scope].
    apply fold_keeps; [apply quiet_refl | apply quiet_trans |].
    intros b0 x. eexists. split; [unfold grows; reflexivity | reflexivity].
  - split; [|apply enter_class_scope].
    unfold enter_class. set (b1 := with_graph b _).
    assert (H : quiet b1 (fold_left (base_step (module_name b ++ "." ++ c) l) bases b1)).
    { apply fold_keeps; [apply quiet_refl | apply quiet_trans |].
      intros b0 x. unfold base_step.
      destruct (truthy (_get_name b0 x)); [|apply quiet_refl].
      eexists. split; [apply emit_grows | reflexivity]. }
    destruct H as (added & H & Q). exists added. split; [|exact Q].
    unfold grows in *. simpl in *. exact H.
Qed.

Lemma visit_all_quiet l :
  Forall (fun t => no_function_def t = true ->
                   forall b, truthy (current_function b) = false ->
                             quiet b (visit t b)) l ->
  forallb no_function_def l = true ->
  forall b, truthy (current_function b) = false -> quiet b (visit_all l b).
Proof.
  induction 1 as [|t l Ht _ IH]; intros Hnf b Hcf.
  - apply quiet_refl.
  - simpl in Hnf. apply andb_true_iff in Hnf. destruct Hnf as [Hnt Hnl].
    rewrite visit_all_cons.
    apply (quiet_trans _ (visit t b)); [apply Ht; assumption|].
    apply IH; [exact Hnl|].
    destruct (visit_scope t b) as (_ & Hf & _). rewrite Hf. exact Hcf.
Qed.

Lemma no_function_def_children t :
  no_function_def t = true -> forallb no_function_def (children t) = true.
Proof.
  destruct t as [i|v a|func args l|names l|m names l|c bases rest l
                |f cs l|f cs l|cs]; simpl; intros H; try discriminate; auto.
  - rewrite H. reflexivity.
  - apply andb_true_iff in H. destruct H as [H1 H2].
    rewrite forallb_app, H1, H2. reflexivity.
Qed.

(** Outside a function, the visit of a tree with no function definition in
    it adds no 'calls' edge. *)
Lemma visit_quiet t :
  no_function_def t = true ->
  forall b, truthy (current_function b) = false -> quiet b (visit t b).
Proof.
  induction t as [t IH] using ast_ind_children. intros Hnf b Hcf.
  rewrite visit_unfold.
  destruct (enter_quiet b t Hnf Hcf) as [Hent Hef].
  assert (Hkids : quiet (enter b t) (visit_all (children t) (enter b t))).
  { apply visit_all_quiet; [exact IH | apply no_function_def_children; exact Hnf|].
    rewrite Hef. exact Hcf. }
  destruct (quiet_trans _ _ _ Hent Hkids) as (added & H & Q).
  exists added. split; [|exact Q]. unfold grows in *. rewrite leave_edges. exact H.
Qed.

(** *** Edges of calls come from functions *)

Lemma def_names_children t :
  incl (flat_map def_names (children t)) (def_names t).
Proof.
  destruct t as [i|v a|func args l|names l|m names l|c bases rest l
                |f cs l|f cs l|cs]; simpl; try apply incl_refl.
  - rewrite app_nil_r. apply incl_refl.
  - rewrite flat_map_app. apply incl_refl.
  - apply incl_tl, incl_refl.
  - apply incl_tl, incl_refl.
Qed.

Lemma class_names_children t :
  incl (flat_map class_names (children t)) (class_names t).
Proof.
  destruct t as [i|v a|func args l|names l|m names l|c bases rest l
                |f cs l|f cs l|cs]; simpl; try apply incl_refl.
  - rewrite app_nil_r. apply incl_refl.
  - rewrite flat_map_app. apply incl_tl, incl_refl.
Qed.

Lemma incl_flat_map_elem {A B} (f : A -> list B) x l :
  In x l -> incl (f x) (flat_map f l).
Proof. intros Hx y Hy. apply in_flat_map. exists x. split; assumption. Qed.

Section Scoped.
Variables (m : string) (names classes : list string).

Lemma tame_refl b : tame m names classes b b.
Proof. intros H. split; [exact H|]. exists []. split; [apply grows_refl|constructor]. Qed.

Lemma tame_trans a b c :
  tame m names classes a b -> tame m names classes b c ->
  tame m names classes a c.
Proof.
  intros H1 H2 Ha. destruct (H1 Ha) as (Hb & l1 & G1 & F1).
  destruct (H2 Hb) as (Hc & l2 & G2 & F2).
  split; [exact Hc|]. exists (l1 ++ l2)%list.
  split; [eapply grows_trans; eassumption|]. apply Forall_app. split; assumption.
Qed.

Lemma scope_of_function b f :
  module_name b = m -> current_function b = Some f -> f <> ""%string ->
  get_current_scope b = (m ++ "." ++ f)%string
  \/ exists c, current_class b = Some c
               /\ get_current_scope b = (m ++ "." ++ c ++ "." ++ f)%string.
Proof.
  intros Hm Hf Hne. unfold get_current_scope. rewrite Hm, Hf. simpl.
  destruct (String.eqb_spec f ""); [contradiction|]. simpl.
  destruct (current_class b) as [c|]; simpl.
  - destruct (String.eqb_spec c ""); simpl.
    + left. reflexivity.
    + right. exists c. split; reflexivity.
  - left. reflexivity.
Qed.

Lemma enter_call_tame b func l : tame m names classes b (enter_call b func l).
Proof.
  intros Hk. split.
  - destruct Hk as (K1 & K2 & K3).
    destruct (enter_call_scope b func l) as (S1 & S2 & S3 & _).
    split; [congruence|]. split; intros x Hx; [apply K2|apply K3]; congruence.
  - unfold enter_call.
    destruct (current_function b) as [f|] eqn:Hf; simpl;
      [|exists []; split; [apply grows_refl|constructor]].
    destruct (String.eqb_spec f "") as [|Hne]; simpl;
      [exists []; split; [apply grows_refl|constructor]|].
    destruct (truthy (_get_call_name b func));
      [|exists []; split; [apply grows_refl|constructor]].
    eexists. split; [apply emit_grows|]. constructor; [|constructor].
    intros _. exists f. destruct Hk as (K1 & K2 & K3).
    split; [apply K2; exact Hf|]. split; [exact Hne|].
    cbn [mk_edge source].
    destruct (scope_of_function b f K1 Hf Hne) as [E|(c & Hc & E)].
    + left. exact E.
    + right. exists c. split; [apply K3; exact Hc|exact E].
Qed.

Lemma other_edge_tame b b' e :
  same_scope b b' -> grows b b' [e] -> edge_type e <> "calls"%string ->
  tame m names classes b b'.
Proof.
  intros (S1 & S2 & S3 & _) Hg Hne (K1 & K2 & K3). split.
  - split; [congruence|]. split; intros x Hx; [apply K2|apply K3]; congruence.
  - exists [e]. split; [exact Hg|]. constructor; [|constructor].
    intros E. contradiction.
Qed.

Lemma import_tame b names0 l :
  tame m names classes b (fold_left (import_step l) names0 b).
Proof.
  apply fold_keeps; [apply tame_refl|apply tame_trans|].
  intros b0 x. eapply other_edge_tame; [repeat split|reflexivity|discriminate].
Qed.

Lemma import_from_tame b mo names0 l :
  tame m names classes b (fold_left (import_from_step mo l) names0 b).
Proof.
  apply fold_keeps; [apply tame_refl|apply tame_trans|].
  intros b0 x. eapply other_edge_tame; [repeat split|reflexivity|discriminate].
Qed.

Lemma base_tame b q l bases :
  tame m names classes b (fold_left (base_step q l) bases b).
Proof.
  apply fold_keeps; [apply tame_refl|apply tame_trans|].
  intros b0 x. unfold base_step. destruct (truthy _); [|apply tame_refl].
  eapply other_edge_tame; [repeat split|apply emit_grows|discriminate].
Qed.

Lemma enter_tame b t :
  incl (def_names t) names -> incl (class_names t) classes ->
  tame m names classes b (enter b t).
Proof.
  intros Hd Hc.
  destruct t as [i|v a|func args l|names0 l|mo names0 l|c bases rest l
                |f cs l|f cs l|cs]; cbn [enter]; try apply tame_refl.
  - apply enter_call_tame.
  - apply import_tame.
  - destruct (truthy mo); [apply import_from_tame|apply tame_refl].
  - intros Hk. unfold enter_class.
    set (b1 := with_graph b _).
    assert (K1 : known m names classes b1) by exact Hk.
    destruct (base_tame b1 (module_name b ++ "." ++ c) l bases K1)
      as ((B1 & B2 & B3) & added & G & F).
    split.
    + split; [exact B1|]. split; [exact B2|].
      intros c0 E. simpl in E. injection E as <-. apply Hc. left. reflexivity.
    + exists added. split; [|exact F]. unfold grows in *. simpl in *. exact G.
  - intros (K1 & K2 & K3). split.
    + split; [exact K1|]. split; [|exact K3].
      intros f0 E. simpl in E. injection E as <-. apply Hd. left. reflexivity.
    + exists []. split; [|constructor]. unfold grows. simpl.
      rewrite app_nil_r. reflexivity.
  - intros (K1 & K2 & K3). split.
    + split; [exact K1|]. split; [|exact K3].
      intros f0 E. simpl in E. injection E as <-. apply Hd. left. reflexivity.
    + exists []. split; [|constructor]. unfold grows. simpl.
      rewrite app_nil_r. reflexivity.
Qed.

Lemma leave_tame b t after :
  known m names classes b -> tame m names classes b after ->
  tame m names classes b (leave b t after).
Proof.
  intros Hk Ht _. destruct (Ht Hk) as ((A1 & A2 & A3) & added & G & F).
  destruct Hk as (K1 & K2 & K3). split.
  - destruct t; simpl; repeat split; auto.
  - exists added. split; [|exact F]. unfold grows in *.
    rewrite leave_edges. exact G.
Qed.

Lemma visit_tame t :
  incl (def_names t) names -> incl (class_names t) classes ->
  forall b, tame m names classes b (visit t b).
Proof.
  induction t as [t IH] using ast_ind_children. intros Hd Hc b Hk.
  rewrite visit_unfold. apply leave_tame; [exact Hk| |exact Hk].
  apply (tame_trans _ (enter b t)); [exact (enter_tame b t Hd Hc)|].
  apply visit_all_keeps; [apply tame_refl|apply tame_trans|].
  rewrite Forall_forall in IH. apply Forall_forall. intros x Hx.
  apply IH; [exact Hx| |].
  - eapply incl_tran; [|exact Hd]. eapply incl_tran; [|apply def_names_children].
    apply incl_flat_map_elem. apply list_elem_of_In. exact Hx.
  - eapply incl_tran; [|exact Hc]. eapply incl_tran; [|apply class_names_children].
    apply incl_flat_map_elem. apply list_elem_of_In. exact Hx.
Qed.

End Scoped.

(** Every 'calls' edge the analysis of a file adds has the scope of a
    function of the file as its source. *)
Lemma analyze_file_calls g0 path fname m body :
  exists added,
    edges (analyze_file g0 path fname m body) = (edges g0 ++ added)%list
    /\ Forall (from_function m (flat_map def_names body)
                 (flat_map class_names body)) added.
Proof.
  rewrite analyze_file_unfold.
  assert (H : tame m (flat_map def_names body) (flat_map class_names body)
                (file_init g0 path fname m)
                (visit_all body (file_init g0 path fname m))).
  { apply visit_all_keeps; [apply tame_refl|apply tame_trans|].
    apply Forall_forall. intros t Ht. apply visit_tame.
    - apply incl_flat_map_elem. apply list_elem_of_In. exact Ht.
    - apply incl_flat_map_elem. apply list_elem_of_In. exact Ht. }
  destruct H as (_ & added & G & F).
  { split; [reflexivity|]. split; intros x Hx; discriminate. }
  exists added. split; [exact G|exact F].
Qed.

(** C10, as the code has it. The extractor adds a 'calls' edge only while
    [current_function] is set. Whenever the visitor is outside a function,
    the visit of a tree that holds no function definition -- whatever calls
    it holds -- adds no 'calls' edge. That is the state in which every
    top-level statement of a file is visited, and every statement of the
    body of a top-level class, so a file with no function definition yields
    no 'calls' edge at all. And every 'calls' edge that the analysis of a
    file adds has as its source the scope of a function defined in the file:
    the module name, the name of a class of the file or none, and the name
    of a function of the file. This does not say that the call stands in the
    body of that function: [_visit_function] sets [current_function] before
    it visits the children of the definition, which are its arguments with
    their defaults and annotations, its body and its decorators, and all of
    them are visited with [current_function] set to that function; so a call
    in a decorator of a function at module level or in a class body has an
    edge too. *)
Theorem no_calls_edge_outside_functions (g0 : CallGraph) (path fname m : string) :
  (forall t b, no_function_def t = true -> truthy (current_function b) = false ->
     exists added,
       edges (graph (visit t b)) = (edges (graph b) ++ added)%list
       /\ calls_edges added = [])
  /\ (forall pre,
        current_function (visit_all pre (file_init g0 path fname m)) = None)
  /\ (forall pre c bases l rpre,
        current_function
          (visit_all (bases ++ rpre)
             (enter_class (visit_all pre (file_init g0 path fname m)) c bases l))
        = None)
  /\ (forall body, forallb no_function_def body = true ->
        calls_edges (edges (analyze_file g0 path fname m body))
        = calls_edges (edges g0))
  /\ (forall body,
        exists added,
          edges (analyze_file g0 path fname m body) = (edges g0 ++ added)%list
          /\ forall e, In e added -> edge_type e = "calls"%string ->
               exists f, In f (flat_map def_names body) /\ f <> ""%string
                 /\ (source e = (m ++ "." ++ f)%string
                     \/ exists c, In c (flat_map class_names body)
                          /\ source e = (m ++ "." ++ c ++ "." ++ f)%string))
  /\ (forall b f l pre,
        current_function (visit_all pre (enter_function b f l)) = Some f).
Proof.
  assert (Htop : forall pre,
            current_function (visit_all pre (file_init g0 path fname m)) = None).
  { intros pre. destruct (visit_all_scope pre (file_init g0 path fname m))
      as (_ & H & _). exact H. }
  split; [|split; [exact Htop|split; [|split; [|split]]]].
  - intros t b Hnf Hcf. destruct (visit_quiet t Hnf b Hcf) as (added & H & Q).
    exists added. split; assumption.
  - intros pre c bases l rpre.
    destruct (visit_all_scope (bases ++ rpre)
                (enter_class (visit_all pre (file_init g0 path fname m)) c bases l))
      as (_ & H & _).
    rewrite H. destruct (enter_class_scope
                           (visit_all pre (file_init g0 path fname m)) c bases l)
      as (E & _). rewrite E. apply Htop.
  - intros body Hnf. rewrite analyze_file_unfold.
    rewrite (quiet_calls (file_init g0 path fname m)); [reflexivity|].
    apply visit_all_quiet; [|exact Hnf | reflexivity].
    rewrite Forall_forall. intros t _ Ht. apply visit_quiet. exact Ht.
  - intros body. destruct (analyze_file_calls g0 path fname m body) as (added & E & F).
    exists added. split; [exact E|]. intros e He.
    rewrite List.Forall_forall in F. exact (F e He).
  - intros b f l pre.
    destruct (visit_all_scope pre (enter_function b f l)) as (_ & H & _).
    rewrite H. reflexivity.
Qed.

End CallGraphFacts.

(** ** Dictionaries: assignment, slices and the sort by integer keys *)

Module PyDictSetFacts.
Import PyDict PyDictFacts HybridQueryFacts.

Lemma keys_set {V} k (v : V) d :
  keys (set k v d) = if mem k d then keys d else (keys d ++ [k])%list.
Proof.
  unfold mem. induction d as [|[k' v'] d IH]; simpl; [reflexivity|].
  destruct (String.eqb_spec k k') as [->|Hne]; simpl; [reflexivity|].
  rewrite IH. destruct (get k d); reflexivity.
Qed.

Lemma get_set {V} k (v : V) d k' :
  get k' (set k v d) = if String.eqb k' k then Some v else get k' d.
Proof.
  induction d as [|[k1 v1] d IH]; simpl.
  - destruct (String.eqb k' k); reflexivity.
  - destruct (String.eqb_spec k k1) as [->|Hne]; simpl.
    + destruct (String.eqb_spec k' k1); reflexivity.
    + rewrite IH. destruct (String.eqb_spec k' k1) as [->|]; [|reflexivity].
      destruct (String.eqb_spec k1 k); [congruence | reflexivity].
Qed.

Lemma wf_set {V} k (v : V) d : wf d -> wf (set k v d).
Proof.
  unfold wf. rewrite keys_set. destruct (mem k d) eqn:E; [auto|].
  intros H. apply NoDup_app. split; [exact H|]. split; [|apply NoDup_singleton].
  intros x Hx Hx'. apply list_elem_of_singleton in Hx'. subst x.
  apply mem_keys in Hx. congruence.
Qed.

Lemma elem_of_set {V} k (v : V) d k' v' :
  (k', v') ∈ set k v d -> (k' = k /\ v' = v) \/ (k', v') ∈ d.
Proof.
  induction d as [|[k1 v1] d IH]; simpl.
  - intros H. apply list_elem_of_singleton in H. injection H as -> ->. auto.
  - destruct (String.eqb_spec k k1) as [->|Hne].
    + rewrite !elem_of_cons. intros [[= -> ->]|H]; auto.
    + rewrite !elem_of_cons. intros [H|H]; [auto|].
      destruct (IH H); auto.
Qed.

Lemma last_n_elem {A} n (l : list A) x : x ∈ last_n n l -> x ∈ l.
Proof.
  unfold last_n. intros H. apply list_elem_of_In in H. apply list_elem_of_In.
  rewrite <- (firstn_skipn (List.length l - n) l). apply in_or_app. right.
  exact H.
Qed.

Lemma last_n_length {A} n (l : list A) : (List.length (last_n n l) <= n)%nat.
Proof. unfold last_n. rewrite length_skipn. lia. Qed.

Lemma slice_to_length {A} limit (l : list A) :
  List.length (slice_to limit l)
  = if (0 <=? limit)%Z then Nat.min (Z.to_nat limit) (List.length l)
    else (List.length l - Z.to_nat (- limit))%nat.
Proof.
  unfold slice_to. destruct (0 <=? limit)%Z; rewrite length_firstn; lia.
Qed.

Lemma slice_to_sublist {A} limit (l : list A) : slice_to limit l `sublist_of` l.
Proof. unfold slice_to. destruct (0 <=? limit)%Z; apply sublist_take. Qed.

Section Sorting.
Context {A : Type} (key : A -> Z).

Lemma insert_desc_int_perm x l : insert_desc_int key x l ≡ₚ x :: l.
Proof.
  induction l as [|y l IH]; simpl; [reflexivity|].
  destruct (key y <? key x); [reflexivity|].
  rewrite IH. apply Permutation_swap.
Qed.

Lemma sorted_desc_int_snoc l x :
  sorted_desc_int key (l ++ [x]) = insert_desc_int key x (sorted_desc_int key l).
Proof. unfold sorted_desc_int. rewrite fold_left_app. reflexivity. Qed.

Lemma sorted_desc_int_perm l : sorted_desc_int key l ≡ₚ l.
Proof.
  induction l as [|x l IH] using rev_ind; [reflexivity|].
  rewrite sorted_desc_int_snoc, insert_desc_int_perm, IH.
  apply Permutation_cons_append.
Qed.

Lemma insert_desc_int_sorted x l :
  StronglySorted (desc_int key) l -> StronglySorted (desc_int key) (insert_desc_int key x l).
Proof.
  induction l as [|y l IH]; intros Hs; simpl.
  - constructor; constructor.
  - inversion Hs as [|? ? Hs' Hall]; subst.
    destruct (Z.ltb_spec (key y) (key x)) as [Hlt|Hge].
    + constructor; [exact Hs|]. constructor; [unfold desc_int; lia|].
      eapply Forall_impl; [exact Hall|]. unfold desc_int. simpl. intros z Hz. lia.
    + constructor; [apply IH, Hs'|].
      rewrite Forall_forall. intros z Hz.
      rewrite insert_desc_int_perm in Hz.
      apply elem_of_cons in Hz. destruct Hz as [->|Hz]; [unfold desc_int; lia|].
      rewrite Forall_forall in Hall. apply Hall, Hz.
Qed.

Lemma sorted_desc_int_sorted l : StronglySorted (desc_int key) (sorted_desc_int key l).
Proof.
  induction l as [|x l IH] using rev_ind; [constructor|].
  rewrite sorted_desc_int_snoc. apply insert_desc_int_sorted, IH.
Qed.

Lemma insert_desc_int_stable v x l :
  StronglySorted (desc_int key) l ->
  List.filter (fun y => key y =? v) (insert_desc_int key x l)
  = (List.filter (fun y => key y =? v) l
     ++ List.filter (fun y => key y =? v) [x])%list.
Proof.
  induction l as [|y l IH]; intros Hs; simpl; [reflexivity|].
  inversion Hs as [|? ? Hs' Hall]; subst.
  destruct (Z.ltb_spec (key y) (key x)) as [Hlt|Hge]; simpl.
  - destruct (Z.eqb_spec (key x) v) as [Hx|Hx]; simpl.
    + destruct (Z.eqb_spec (key y) v) as [Hy|Hy]; [lia|].
      assert (E : List.filter (fun y0 => key y0 =? v) l = []).
      { apply PyDictFacts.filter_none. intros z Hz. rewrite Forall_forall in Hall.
        apply list_elem_of_In in Hz.
        specialize (Hall z Hz). unfold desc_int in Hall. apply Z.eqb_neq. lia. }
      rewrite E. reflexivity.
    + rewrite app_nil_r. reflexivity.
  - rewrite (IH Hs'). destruct (key y =? v); reflexivity.
Qed.

Lemma sorted_desc_int_stable v l :
  List.filter (fun y => key y =? v) (sorted_desc_int key l)
  = List.filter (fun y => key y =? v) l.
Proof.
  induction l as [|x l IH] using rev_ind; [reflexivity|].
  rewrite sorted_desc_int_snoc, insert_desc_int_stable by apply sorted_desc_int_sorted.
  rewrite IH, List.filter_app. reflexivity.
Qed.
End Sorting.

End PyDictSetFacts.

(** ** Strings: blank lines *)

Module PyStrFacts.
Import PyStr.
Local Open Scope string_scope.

Lemma lstrip_empty s : lstrip s = "" <-> has_nonspace s = false.
Proof.
  induction s as [|c s IH]; simpl; [tauto|].
  destruct (is_space c); simpl; [exact IH|]. split; discriminate.
Qed.

Lemma has_nonspace_lstrip s : has_nonspace (lstrip s) = has_nonspace s.
Proof.
  induction s as [|c s IH]; simpl; [reflexivity|].
  destruct (is_space c) eqn:E; simpl; [exact IH|]. rewrite E. reflexivity.
Qed.

Lemma has_nonspace_rev_acc s acc :
  has_nonspace (rev_acc s acc) = has_nonspace s || has_nonspace acc.
Proof.
  revert acc. induction s as [|c s IH]; intros acc; simpl; [reflexivity|].
  rewrite IH. simpl. destruct (is_space c), (has_nonspace s), (has_nonspace acc); reflexivity.
Qed.

Lemma has_nonspace_rev s : has_nonspace (rev s) = has_nonspace s.
Proof. unfold rev. rewrite has_nonspace_rev_acc. simpl. apply orb_false_r. Qed.

Lemma rev_acc_empty s acc : rev_acc s acc = "" -> s = "" /\ acc = "".
Proof.
  revert acc. induction s as [|c s IH]; intros acc; simpl; [auto|].
  intros H. apply IH in H. destruct H as [_ H]. discriminate.
Qed.

(** [s.strip()] is empty exactly when [s] is all white space. *)
Lemma strip_empty s : strip s = "" <-> has_nonspace s = false.
Proof.
  unfold strip. split.
  - intros H. unfold rev at 1 in H. apply rev_acc_empty in H. destruct H as [H _].
    apply lstrip_empty in H. rewrite has_nonspace_rev, has_nonspace_lstrip in H. exact H.
  - intros H.
    assert (E : lstrip (rev (lstrip s)) = "").
    { apply lstrip_empty. rewrite has_nonspace_rev, has_nonspace_lstrip. exact H. }
    rewrite E. reflexivity.
Qed.

Lemma substring_occurs c t : forall s i k,
  String.substring i k s = String c t -> occurs c s = true.
Proof.
  induction s as [|c' s IH]; intros i k H.
  - destruct i, k; discriminate.
  - destruct i as [|i]; simpl in H.
    + destruct k as [|k]; [discriminate|]. injection H as -> _. simpl.
      rewrite Ascii.eqb_refl. reflexivity.
    + simpl. rewrite (IH _ _ H). apply orb_true_r.
Qed.

Lemma occurs_nonspace c s : occurs c s = true -> is_space c = false -> has_nonspace s = true.
Proof.
  intros H Hc. induction s as [|c' s IH]; simpl in *; [discriminate|].
  destruct (Ascii.eqb_spec c c') as [<-|_]; [rewrite Hc; reflexivity|].
  simpl in H. rewrite (IH H). apply orb_true_r.
Qed.

(** A line that ends in [.py] is not blank. *)
Lemma endswith_py_nonblank f :
  endswith ".py" f = true -> negb (String.eqb (strip f) "") = true.
Proof.
  unfold endswith. intros H. apply andb_true_iff in H. destruct H as [_ H].
  apply String.eqb_eq in H. apply substring_occurs in H.
  apply occurs_nonspace in H; [|reflexivity].
  destruct (String.eqb_spec (strip f) "") as [E|]; [|reflexivity].
  apply strip_empty in E. congruence.
Qed.

Lemma filter_filter_implied {A} (p q : A -> bool) l :
  (forall x, p x = true -> q x = true) ->
  List.filter p (List.filter q l) = List.filter p l.
Proof.
  intros H. induction l as [|x l IH]; simpl; [reflexivity|].
  destruct (q x) eqn:Q; simpl.
  - rewrite IH. reflexivity.
  - destruct (p x) eqn:P; [rewrite (H x P) in Q; discriminate | exact IH].
Qed.

End PyStrFacts.

(** ** The structural graph: its indexes, its build and its queries *)

Module CallGraphIndexFacts.
Import CallGraph CallGraphFacts.
Local Open Scope string_scope.

Lemma index_of_add k v ix k' :
  index_of (index_add k v ix) k'
  = if String.eqb k' k
    then (if bool_decide (v ∈ index_of ix k) then index_of ix k
          else index_of ix k ++ [v])%list
    else index_of ix k'.
Proof.
  unfold index_of, index_add.
  destruct (String.eqb_spec k' k) as [->|Hne].
  - rewrite lookup_insert_eq. reflexivity.
  - rewrite lookup_insert_ne by congruence. reflexivity.
Qed.

Lemma index_add_elem k v ix k' x :
  x ∈ index_of (index_add k v ix) k' <-> (k' = k /\ x = v) \/ x ∈ index_of ix k'.
Proof.
  rewrite index_of_add. destruct (String.eqb_spec k' k) as [->|Hne].
  - case_bool_decide as Hin.
    + split; [auto|]. intros [[_ ->]|H]; assumption.
    + rewrite elem_of_app, list_elem_of_singleton. tauto.
  - split; [auto|]. intros [[H _]|H]; [contradiction | exact H].
Qed.

Lemma index_add_nodup k v ix k' :
  NoDup (index_of ix k') -> NoDup (index_of (index_add k v ix) k').
Proof.
  intros H. rewrite index_of_add. destruct (String.eqb_spec k' k) as [->|]; [|exact H].
  case_bool_decide as Hin; [exact H|].
  apply NoDup_app. split; [exact H|]. split.
  - intros x Hx Hx'. apply list_elem_of_singleton in Hx'. subst x. contradiction.
  - apply NoDup_singleton.
Qed.

Lemma index_add_nonempty k v ix k' :
  ix !! k' <> Some [] -> index_add k v ix !! k' <> Some [].
Proof.
  intros H. unfold index_add.
  destruct (String.eqb_spec k' k) as [->|Hne].
  - rewrite lookup_insert_eq. case_bool_decide as Hin.
    + intros [= E]. rewrite E in Hin. apply elem_of_nil in Hin. exact Hin.
    + intros [= E]. destruct (default [] (ix !! k)); discriminate.
  - rewrite lookup_insert_ne by congruence. exact H.
Qed.

Lemma linked_add_edge g e s t :
  linked (add_edge g e) s t <-> (s = source e /\ t = target e) \/ linked g s t.
Proof.
  unfold linked. simpl. split.
  - intros (e' & Hin & Hs & Ht). apply elem_of_app in Hin. destruct Hin as [Hin|Hin].
    + right. eauto.
    + apply list_elem_of_singleton in Hin. subst e'. left. split; congruence.
  - intros [[-> ->]|(e' & Hin & Hs & Ht)].
    + exists e. rewrite elem_of_app, list_elem_of_singleton. auto.
    + exists e'. rewrite elem_of_app. auto.
Qed.

Lemma coherent_empty r : coherent (empty r).
Proof.
  split; simpl; unfold index_of; intros; rewrite ?lookup_empty; simpl;
    try apply NoDup_nil_2; try discriminate.
  - split; [intros H; apply elem_of_nil in H; contradiction|].
    intros (e & H & _). apply elem_of_nil in H. contradiction.
  - split; [intros H; apply elem_of_nil in H; contradiction|].
    intros (e & H & _). apply elem_of_nil in H. contradiction.
Qed.

Lemma coherent_add_edge g e : coherent g -> coherent (add_edge g e).
Proof.
  intros [H1 H2 H3 H4 H5 H6]. split.
  - intros s t. rewrite linked_add_edge. simpl. rewrite index_add_elem, H1. tauto.
  - intros s t. rewrite linked_add_edge. simpl. rewrite index_add_elem, H2. tauto.
  - intros t. simpl. apply index_add_nodup, H3.
  - intros s. simpl. apply index_add_nodup, H4.
  - intros t. simpl. apply index_add_nonempty, H5.
  - intros s. simpl. apply index_add_nonempty, H6.
Qed.

Lemma coherent_add_node g n : coherent g -> coherent (add_node g n).
Proof. intros [H1 H2 H3 H4 H5 H6]. split; assumption. Qed.

Lemma built_trans PN PE a b c :
  built_by PN PE a b -> built_by PN PE b c -> built_by PN PE a c.
Proof.
  intros H1 H2. induction H2 as [|g g' n _ IH Hn|g g' e _ IH He].
  - exact H1.
  - apply built_node; auto.
  - apply built_edge; auto.
Qed.

Lemma prefix_app m s : String.prefix m (m ++ s) = true.
Proof.
  induction m as [|c m IH]; simpl; [destruct s; reflexivity|].
  destruct (ascii_dec c c) as [_|N]; [exact IH | contradiction].
Qed.

Lemma prefix_self m : String.prefix m m = true.
Proof.
  induction m as [|c m IH]; simpl; [reflexivity|].
  destruct (ascii_dec c c) as [_|N]; [exact IH | contradiction].
Qed.

Lemma scope_prefix b : String.prefix (module_name b) (get_current_scope b) = true.
Proof.
  unfold get_current_scope, join_dot.
  destruct (truthy (current_class b)), (truthy (current_function b)); simpl;
    first [apply prefix_self | apply prefix_app].
Qed.

Section Locality.
Variables path m : string.

Lemma works_refl b : (works path m) b b.
Proof. intros H. split; [exact H | apply built_refl]. Qed.

Lemma works_trans a b c : (works path m) a b -> (works path m) b c -> (works path m) a c.
Proof.
  intros H1 H2 Ha. destruct (H1 Ha) as [Hb S1]. destruct (H2 Hb) as [Hc S2].
  split; [exact Hc | eapply built_trans; eassumption].
Qed.

Lemma emit_works b src tgt kind l :
  String.prefix (module_name b) src = true ->
  (works path m) b (emit b (mk_edge b src tgt kind l)).
Proof.
  intros Hp [Hf Hm]. split; [split; assumption|]. simpl.
  apply built_edge; [apply built_refl|]. split; simpl; [exact Hf|].
  rewrite <- Hm. exact Hp.
Qed.

Lemma enter_works b t : (works path m) b (enter b t).
Proof.
  destruct t as [i|v a|func args l|names l|mo names l|c bases rest l
                |f cs l|f cs l|cs]; simpl; try apply works_refl.
  - unfold enter_call. destruct (truthy (current_function b)); [|apply works_refl].
    destruct (truthy _); [|apply works_refl]. apply emit_works, scope_prefix.
  - apply fold_keeps; [apply works_refl | apply works_trans |].
    intros b0 x. unfold import_step.
    eapply works_trans; [|apply emit_works; apply prefix_self].
    intros H. split; [exact H | apply built_refl].
  - destruct (truthy mo); [|apply works_refl].
    apply fold_keeps; [apply works_refl | apply works_trans |].
    intros b0 x. unfold import_from_step.
    eapply works_trans; [|apply emit_works; apply prefix_self].
    intros H. split; [exact H | apply built_refl].
  - unfold enter_class. intros [Hf Hm].
    assert (Hq : String.prefix m (module_name b ++ "." ++ c) = true)
      by (rewrite <- Hm; apply prefix_app).
    set (b1 := with_graph b _).
    assert (H1 : at_file path m b1 /\ (step path m) (graph b) (graph b1)).
    { split; [split; assumption|]. simpl.
      apply built_node; [apply built_refl|]. split; [exact Hf | exact Hq]. }
    destruct H1 as [Ha1 S1].
    destruct (fold_keeps (works path m) (base_step (module_name b ++ "." ++ c) l) bases
                works_refl works_trans) with (b := b1) as [Ha2 S2].
    + intros b0 x. unfold base_step. destruct (truthy _); [|apply works_refl].
      intros [Hf0 Hm0]. split; [split; assumption|]. simpl.
      apply built_edge; [apply built_refl|]. split; [exact Hf0 | exact Hq].
    + exact Ha1.
    + split; [exact Ha2|]. simpl. eapply built_trans; eassumption.
  - unfold enter_function. intros [Hf Hm]. split; [split; assumption|]. simpl.
    apply built_node; [apply built_refl|]. split; simpl; [exact Hf|].
    rewrite <- Hm. destruct (truthy (current_class b)); apply prefix_app.
  - unfold enter_function. intros [Hf Hm]. split; [split; assumption|]. simpl.
    apply built_node; [apply built_refl|]. split; simpl; [exact Hf|].
    rewrite <- Hm. destruct (truthy (current_class b)); apply prefix_app.
Qed.

Lemma leave_works b t after : (works path m) after (leave b t after).
Proof. destruct t; intros H; (split; [exact H | apply built_refl]). Qed.

Lemma visit_works t : forall b, (works path m) b (visit t b).
Proof.
  induction t as [t IH] using ast_ind_children. intros b.
  rewrite visit_unfold.
  eapply works_trans; [apply enter_works|].
  eapply works_trans; [|apply leave_works].
  apply visit_all_keeps; [apply works_refl | apply works_trans | exact IH].
Qed.

Lemma analyze_file_step g fname body :
  (step path m) g (analyze_file g path fname m body).
Proof.
  unfold analyze_file.
  destruct (visit_works (Other body) (init (add_node g
      {| name := fname; node_type := "module"; file := path; line := 1;
         qualified_name := m |}) path m)) as [_ S]; [split; reflexivity|].
  eapply built_trans; [|exact S]. simpl.
  apply built_node; [apply built_refl|]. split; [reflexivity | apply prefix_self].
Qed.
End Locality.

Lemma built_weaken (PN PN' : GraphNode -> Prop) (PE PE' : GraphEdge -> Prop) g g' :
  (forall n, PN n -> PN' n) -> (forall e, PE e -> PE' e) ->
  built_by PN PE g g' -> built_by PN' PE' g g'.
Proof.
  intros Hn He. induction 1; [apply built_refl | apply built_node | apply built_edge]; auto.
Qed.

Lemma built_coherent PN PE g g' : built_by PN PE g g' -> coherent g -> coherent g'.
Proof.
  induction 1; intros Hc; auto using coherent_add_node, coherent_add_edge.
Qed.

Lemma built_edges PN PE g g' :
  built_by PN PE g g' ->
  exists added, edges g' = (edges g ++ added)%list /\ Forall PE added.
Proof.
  induction 1 as [g|g g' n _ IH Hn|g g' e _ IH He].
  - exists []. rewrite app_nil_r. split; [reflexivity | constructor].
  - exact IH.
  - destruct IH as (added & E & F). exists (added ++ [e])%list. simpl.
    rewrite E, app_assoc. split; [reflexivity|].
    apply Forall_app. split; [exact F | repeat constructor; exact He].
Qed.

Lemma built_nodes PN PE g g' k n :
  built_by PN PE g g' -> nodes g' !! k = Some n ->
  nodes g !! k = Some n \/ (PN n /\ qualified_name n = k).
Proof.
  induction 1 as [g|g g' n0 _ IH Hn|g g' e _ IH He]; intros H.
  - left. exact H.
  - simpl in H. destruct (decide (qualified_name n0 = k)) as [<-|Hne].
    + rewrite lookup_insert_eq in H. injection H as <-. right. auto.
    + rewrite lookup_insert_ne in H by exact Hne. apply IH, H.
  - apply IH, H.
Qed.

Lemma built_nodes_kept PN PE g g' k :
  built_by PN PE g g' -> is_Some (nodes g !! k) -> is_Some (nodes g' !! k).
Proof.
  induction 1 as [g|g g' n0 _ IH Hn|g g' e _ IH He]; intros H; auto.
  simpl. destruct (decide (qualified_name n0 = k)) as [<-|Hne].
  - rewrite lookup_insert_eq. eauto.
  - rewrite lookup_insert_ne by exact Hne. auto.
Qed.

Lemma build_fold files0 files : forall g,
  (forall f, f ∈ files -> f ∈ files0) ->
  built_by (node_of files0) (edge_of files0) g (fold_left build_step files g).
Proof.
  induction files as [|f files IH]; intros g Hsub; simpl; [apply built_refl|].
  eapply built_trans; [|apply IH; intros f' Hf'; apply Hsub; right; exact Hf'].
  unfold build_step. destruct (sf_tree f) as [body|] eqn:E; [|apply built_refl].
  eapply built_weaken; [| |apply analyze_file_step].
  - intros n Hn. exists f. split; [apply Hsub; left|]. rewrite E. eauto.
  - intros e He. exists f. split; [apply Hsub; left|]. rewrite E. eauto.
Qed.

Lemma build_call_graph_built r files :
  built_by (node_of files) (edge_of files) (empty r) (build_call_graph r files).
Proof. apply build_fold. auto. Qed.

Lemma build_step_built files0 g f :
  f ∈ files0 -> built_by (node_of files0) (edge_of files0) g (build_step g f).
Proof.
  intros Hf. apply (build_fold files0 [f] g). intros f' Hf'.
  apply list_elem_of_singleton in Hf'. subst f'. exact Hf.
Qed.

Lemma build_module_nodes m files : forall g,
  is_Some (nodes g !! m)
  \/ (exists f, f ∈ files /\ is_Some (sf_tree f) /\ sf_module f = m) ->
  is_Some (nodes (fold_left build_step files g) !! m).
Proof.
  induction files as [|f0 files IH]; intros g H; simpl.
  - destruct H as [H|(f & Hin & _)]; [exact H|].
    apply elem_of_nil in Hin. contradiction.
  - apply IH. destruct H as [H|(f & Hin & Hp & Hm)].
    + left. eapply built_nodes_kept; [|exact H].
      apply (build_step_built [f0]). left.
    + apply elem_of_cons in Hin. destruct Hin as [->|Hin]; [|right; eauto].
      left. unfold build_step. destruct Hp as [body Hp]. rewrite Hp.
      unfold analyze_file.
      set (g1 := add_node g _).
      destruct (visit_works (sf_path f0) (sf_module f0) (Other body)
                  (init g1 (sf_path f0) (sf_module f0))) as [_ S1]; [split; reflexivity|].
      eapply built_nodes_kept; [exact S1|].
      simpl. rewrite Hm, lookup_insert_eq. eauto.
Qed.

(** X1. The graph [build_call_graph] returns, over any list of files, has
    indexes that say what its edge list says: [callers[t]] holds exactly the
    sources of the edges into [t] and [callees[s]] exactly the targets of the
    edges out of [s], each name once, and no key of an index holds an empty
    list. Every node is stored under its qualified name, and every node and
    every edge belongs to one of the files that could be parsed: it carries
    that file's path, and the qualified name of the node, or the source of
    the edge, begins with that file's module name. Every file that could be
    parsed has a node under its module name. *)
Theorem build_call_graph_coherent (r : string) (files : list SourceFile) :
  let g := build_call_graph r files in
  coherent g
  /\ (forall k n, nodes g !! k = Some n -> qualified_name n = k /\ node_of files n)
  /\ (forall e, e ∈ edges g -> edge_of files e)
  /\ (forall f, f ∈ files -> is_Some (sf_tree f) -> is_Some (nodes g !! sf_module f)).
Proof.
  intros g. pose proof (build_call_graph_built r files) as S. fold g in S.
  split; [eapply built_coherent; [exact S | apply coherent_empty]|].
  split; [|split].
  - intros k n H. destruct (built_nodes _ _ _ _ k n S H) as [H0|[Hn Hk]].
    + simpl in H0. rewrite lookup_empty in H0. discriminate.
    + auto.
  - intros e He. destruct (built_edges _ _ _ _ S) as (added & E & F).
    simpl in E. rewrite E in He. rewrite Forall_forall in F. apply F, He.
  - intros f Hin Hp. apply build_module_nodes. right. eauto.
Qed.

(** X2. What the analysis of one file does to a graph. The edge list only
    grows at its end, and every edge added carries the path of the file and
    has a source that begins with the file's module name. A node of the
    result is a node the graph had under the same key, or a node of this file
    (its path, a qualified name that begins with the module name) stored
    under its qualified name. No key of [nodes] is lost, the module name is
    a key afterwards, and indexes that agreed with the edge list before
    agree with it afterwards. *)
Theorem analyze_file_local (g : CallGraph) (path fname m : string) (body : list ast) :
  let g' := analyze_file g path fname m body in
  (exists added, edges g' = (edges g ++ added)%list
                 /\ Forall (local_edge path m) added)
  /\ (forall k n, nodes g' !! k = Some n ->
        nodes g !! k = Some n \/ (local_node path m n /\ qualified_name n = k))
  /\ (forall k, is_Some (nodes g !! k) -> is_Some (nodes g' !! k))
  /\ is_Some (nodes g' !! m)
  /\ (coherent g -> coherent g').
Proof.
  intros g'. pose proof (analyze_file_step path m g fname body) as S.
  split; [eapply built_edges; exact S|].
  split; [intros k n; eapply built_nodes; exact S|].
  split; [intros k; eapply built_nodes_kept; exact S|].
  split; [|eapply built_coherent; exact S].
  subst g'. unfold analyze_file.
  set (g1 := add_node g _).
  destruct (visit_works path m (Other body) (init g1 path m)) as [_ S1];
    [split; reflexivity|].
  eapply built_nodes_kept; [exact S1|].
  simpl. rewrite lookup_insert_eq. eauto.
Qed.

(** *** Queries *)

Lemma partial_matches_elem items name y :
  y ∈ partial_matches items name
  <-> exists q l, (q, l) ∈ items /\ name_matches name q = true /\ y ∈ l.
Proof.
  unfold partial_matches.
  assert (G : forall acc,
    y ∈ fold_left (fun matches kv =>
                     if name_matches name (fst kv) then (matches ++ snd kv)%list
                     else matches) items acc
    <-> y ∈ acc \/ exists q l, (q, l) ∈ items /\ name_matches name q = true /\ y ∈ l).
  { induction items as [|[q l] items IH]; intros acc; simpl.
    - split; [auto|]. intros [H|(q & l & H & _)]; [exact H|].
      apply elem_of_nil in H. contradiction.
    - rewrite IH. destruct (name_matches name q) eqn:E.
      + rewrite elem_of_app. split.
        * intros [[H|H]|(q' & l' & Hin & Hm & Hy)]; [auto| |].
          -- right. exists q, l. rewrite elem_of_cons. auto.
          -- right. exists q', l'. rewrite elem_of_cons. auto.
        * intros [H|(q' & l' & Hin & Hm & Hy)]; [auto|].
          apply elem_of_cons in Hin. destruct Hin as [[= -> ->]|Hin]; [auto|].
          right. eauto.
      + split.
        * intros [H|(q' & l' & Hin & Hm & Hy)]; [auto|].
          right. exists q', l'. rewrite elem_of_cons. auto.
        * intros [H|(q' & l' & Hin & Hm & Hy)]; [auto|].
          apply elem_of_cons in Hin. destruct Hin as [[= -> ->]|Hin]; [congruence|].
          right. eauto. }
  rewrite G. split; [intros [H|H]; [apply elem_of_nil in H; contradiction | exact H] | auto].
Qed.

Lemma items_lookup {V} (items : list (string * V)) (m : gmap string V) q v :
  items ≡ₚ map_to_list m -> (q, v) ∈ items <-> m !! q = Some v.
Proof. intros H. rewrite H. apply elem_of_map_to_list. Qed.

Section QueryFacts.
Context `{R : PyRuntime}.

(** What a lookup in an index gives: the entry of [name] if there is one,
    else the members of the entries whose key ends in [.name]. *)
Lemma index_lookup_spec items (ix : gmap string (list string)) name y :
  items ≡ₚ map_to_list ix -> ix !! name = None ->
  y ∈ set_iter (set_of_list (partial_matches items name))
  <-> exists q, PyStr.endswith ("." ++ name) q = true /\ y ∈ index_of ix q.
Proof.
  intros Hl Hn. rewrite set_of_list_spec, partial_matches_elem. split.
  - intros (q & l & Hin & Hm & Hy). apply (items_lookup _ _ _ _ Hl) in Hin.
    exists q. unfold index_of. rewrite Hin. split; [|exact Hy].
    unfold name_matches in Hm. apply orb_true_iff in Hm. destruct Hm as [Hm|Hm]; [exact Hm|].
    apply String.eqb_eq in Hm. subst q. congruence.
  - intros (q & Hm & Hy). unfold index_of in Hy.
    destruct (ix !! q) as [l|] eqn:E; simpl in Hy; [|apply elem_of_nil in Hy; contradiction].
    exists q, l. split; [apply (items_lookup _ _ _ _ Hl); exact E|].
    split; [|exact Hy]. unfold name_matches. rewrite Hm. reflexivity.
Qed.

Lemma has_target_spec g name :
  has_target g name = true <-> exists e, e ∈ edges g /\ target e = name.
Proof.
  unfold has_target. rewrite existsb_exists. split.
  - intros (e & He & Ht). apply String.eqb_eq in Ht. exists e.
    rewrite list_elem_of_In. auto.
  - intros (e & He & Ht). exists e. rewrite <- list_elem_of_In.
    split; [exact He | apply String.eqb_eq; exact Ht].
Qed.

Lemma has_source_spec g name :
  has_source g name = true <-> exists e, e ∈ edges g /\ source e = name.
Proof.
  unfold has_source. rewrite existsb_exists. split.
  - intros (e & He & Ht). apply String.eqb_eq in Ht. exists e.
    rewrite list_elem_of_In. auto.
  - intros (e & He & Ht). exists e. rewrite <- list_elem_of_In.
    split; [exact He | apply String.eqb_eq; exact Ht].
Qed.

Lemma coherent_callers_key g name :
  coherent g ->
  is_Some (callers g !! name) <-> has_target g name = true.
Proof.
  intros Hc. rewrite has_target_spec. split.
  - intros [l Hl]. destruct l as [|s l].
    + exfalso. exact (callers_nonempty g Hc name Hl).
    + destruct (proj1 (callers_linked g Hc s name)) as (e & He & _ & Ht).
      * unfold index_of. rewrite Hl. left.
      * eauto.
  - intros (e & He & Ht).
    assert (H : source e ∈ index_of (callers g) name).
    { apply (callers_linked g Hc). exists e. auto. }
    unfold index_of in H. destruct (callers g !! name); [eauto|].
    apply elem_of_nil in H. contradiction.
Qed.

Lemma coherent_callees_key g name :
  coherent g ->
  is_Some (callees g !! name) <-> has_source g name = true.
Proof.
  intros Hc. rewrite has_source_spec. split.
  - intros [l Hl]. destruct l as [|t l].
    + exfalso. exact (callees_nonempty g Hc name Hl).
    + destruct (proj1 (callees_linked g Hc name t)) as (e & He & Hs & _).
      * unfold index_of. rewrite Hl. left.
      * eauto.
  - intros (e & He & Hs).
    assert (H : target e ∈ index_of (callees g) name).
    { apply (callees_linked g Hc). exists e. auto. }
    unfold index_of in H. destruct (callees g !! name); [eauto|].
    apply elem_of_nil in H. contradiction.
Qed.

(** X3. [get_callers] and [get_callees] on a graph whose indexes agree with
    its edge list (as every graph [build_call_graph] returns), whatever the
    order in which the dictionaries and sets are iterated. Both lists hold
    no name twice. When some edge goes into [name], [get_callers(name)] holds
    exactly the sources of the edges into [name], and the partial match is
    not tried. Otherwise it holds exactly the sources of the edges into a
    target that ends with a dot and [name]. [get_callees] is the same with
    sources and targets exchanged. *)
Theorem get_callers_callees_spec (o : Listing) (g : CallGraph) (name : string) :
  coherent g -> lists o g ->
  NoDup (get_callers o g name)
  /\ NoDup (get_callees o g name)
  /\ (forall y, y ∈ get_callers o g name
        <-> if has_target g name
            then linked g y name
            else exists t, PyStr.endswith ("." ++ name) t = true /\ linked g y t)
  /\ (forall y, y ∈ get_callees o g name
        <-> if has_source g name
            then linked g name y
            else exists s, PyStr.endswith ("." ++ name) s = true /\ linked g s y).
Proof.
  intros Hc (_ & Hl1 & Hl2). unfold get_callers, get_callees.
  pose proof (coherent_callers_key g name Hc) as K1.
  pose proof (coherent_callees_key g name Hc) as K2.
  split; [|split; [|split]].
  - destruct (callers g !! name) as [l|] eqn:E; [|apply set_iter_nodup].
    pose proof (callers_nodup g Hc name) as H. unfold index_of in H.
    rewrite E in H. exact H.
  - destruct (callees g !! name) as [l|] eqn:E; [|apply set_iter_nodup].
    pose proof (callees_nodup g Hc name) as H. unfold index_of in H.
    rewrite E in H. exact H.
  - intros y. destruct (callers g !! name) as [l|] eqn:E.
    + rewrite (proj1 K1) by eauto.
      rewrite <- (callers_linked g Hc). unfold index_of. rewrite E. reflexivity.
    + destruct (has_target g name);
        [destruct (proj2 K1 eq_refl) as [? H]; discriminate|].
      rewrite (index_lookup_spec _ (callers g)) by assumption.
      split; intros (t & Ht & H); exists t; (split; [exact Ht|]);
        apply (callers_linked g Hc); exact H.
  - intros y. destruct (callees g !! name) as [l|] eqn:E.
    + rewrite (proj1 K2) by eauto.
      rewrite <- (callees_linked g Hc). unfold index_of. rewrite E. reflexivity.
    + destruct (has_source g name);
        [destruct (proj2 K2 eq_refl) as [? H]; discriminate|].
      rewrite (index_lookup_spec _ (callees g)) by assumption.
      split; intros (t & Ht & H); exists t; (split; [exact Ht|]);
        apply (callees_linked g Hc); exact H.
Qed.

Lemma find_none_iff {A} (f : A -> bool) l :
  List.find f l = None <-> forall x, x ∈ l -> f x = false.
Proof.
  induction l as [|a l IH]; simpl.
  - split; [|reflexivity]. intros _ x H. apply elem_of_nil in H. contradiction.
  - destruct (f a) eqn:E.
    + split; [discriminate|]. intros H. rewrite (H a) in E by left. discriminate.
    + rewrite IH. split.
      * intros H x Hx. apply elem_of_cons in Hx. destruct Hx as [->|Hx]; auto.
      * intros H x Hx. apply H. right. exact Hx.
Qed.

Lemma find_node_sound (o : Listing) (g : CallGraph) (name : string) n :
  node_items o ≡ₚ map_to_list (nodes g) ->
  find_node o g name = Some n ->
  exists q, nodes g !! q = Some n
            /\ (q = name \/ PyStr.endswith ("." ++ name) q = true
                \/ CallGraph.name n = name).
Proof.
  intros Hl H. unfold find_node in H. destruct (nodes g !! name) as [n0|] eqn:E.
  - injection H as <-. exists name. auto.
  - destruct (List.find _ (node_items o)) as [[q n1]|] eqn:F; simpl in H; [|discriminate].
    injection H as <-. apply find_some in F. destruct F as [Hin Hf]. simpl in Hf.
    apply list_elem_of_In, (items_lookup _ _ _ _ Hl) in Hin.
    exists q. split; [exact Hin|]. right.
    apply orb_true_iff in Hf. destruct Hf as [Hf|Hf]; [left; exact Hf|].
    right. apply String.eqb_eq. exact Hf.
Qed.

(** X4. [find_node(name)], whatever the order in which [nodes] is iterated.
    A node stored under [name] itself is the answer, before any partial
    match. The answer is [None] exactly when no node is stored under [name],
    no key of [nodes] ends with a dot and [name], and no node has the short
    name [name]. A node that is returned is a node of the graph, stored
    under [name], or under a key that ends with a dot and [name], or with the
    short name [name]. *)
Theorem find_node_spec (o : Listing) (g : CallGraph) (name : string) :
  lists o g ->
  (forall n, nodes g !! name = Some n -> find_node o g name = Some n)
  /\ (find_node o g name = None
      <-> forall q n, nodes g !! q = Some n ->
            q <> name /\ PyStr.endswith ("." ++ name) q = false
            /\ CallGraph.name n <> name)
  /\ (forall n, find_node o g name = Some n ->
        exists q, nodes g !! q = Some n
                  /\ (q = name \/ PyStr.endswith ("." ++ name) q = true
                      \/ CallGraph.name n = name)).
Proof.
  intros (Hl & _ & _). unfold find_node. split; [|split].
  - intros n H. rewrite H. reflexivity.
  - destruct (nodes g !! name) as [n0|] eqn:E.
    + split; [discriminate|]. intros H. destruct (H name n0 E) as [H1 _]. congruence.
    + destruct (List.find _ (node_items o)) as [kv|] eqn:F; simpl.
      * split; [discriminate|]. intros H. exfalso.
        apply find_some in F. destruct F as [Hin Hf].
        destruct kv as [q n]. apply list_elem_of_In, (items_lookup _ _ _ _ Hl) in Hin.
        destruct (H q n Hin) as (_ & H2 & H3). simpl in Hf. rewrite H2 in Hf.
        simpl in Hf. apply String.eqb_eq in Hf. contradiction.
      * split; [|reflexivity]. intros _ q n Hq.
        apply (items_lookup _ _ _ _ Hl) in Hq.
        pose proof (proj1 (find_none_iff _ _) F (q, n) Hq) as Hf. simpl in Hf.
        apply orb_false_iff in Hf. destruct Hf as [H2 H3].
        split; [intros ->; apply (items_lookup _ _ _ _ Hl) in Hq; congruence|].
        split; [exact H2|]. intros H. apply String.eqb_neq in H3. contradiction.
  - intros n H. apply (find_node_sound o g name n Hl H).
Qed.

Lemma add_refs_spec g names acc s :
  fst (fold_left (add_ref g) names (acc, s)) = (acc ++ omap (ref_of g) names)%list
  /\ forall f, f ∈ set_iter (snd (fold_left (add_ref g) names (acc, s)))
       <-> f ∈ set_iter s
           \/ exists c cn, c ∈ names /\ nodes g !! c = Some cn /\ file cn = f.
Proof.
  revert acc s. induction names as [|n names IH]; intros acc s; simpl.
  - rewrite app_nil_r. split; [reflexivity|]. intros f. split; [auto|].
    intros [H|(c & cn & H & _)]; [exact H | apply elem_of_nil in H; contradiction].
  - unfold add_ref at 2 4, ref_of at 1. destruct (nodes g !! n) as [cn|] eqn:E; simpl.
    + destruct (IH (acc ++ [{| ref_name := n; ref_file := file cn; ref_line := line cn |}])%list
                  (set_add (file cn) s)) as [H1 H2].
      split; [rewrite H1, <- app_assoc; reflexivity|].
      intros f. rewrite H2, set_add_spec. split.
      * intros [[->|H]|(c & cn' & Hc & Hn & Hf)]; [| auto |].
        -- right. exists n, cn. rewrite elem_of_cons. auto.
        -- right. exists c, cn'. rewrite elem_of_cons. auto.
      * intros [H|(c & cn' & Hc & Hn & Hf)]; [auto|].
        apply elem_of_cons in Hc. destruct Hc as [->|Hc].
        -- left. left. congruence.
        -- right. eauto.
    + destruct (IH acc s) as [H1 H2]. split; [exact H1|].
      intros f. rewrite H2. split.
      * intros [H|(c & cn' & Hc & Hn & Hf)]; [auto|].
        right. exists c, cn'. rewrite elem_of_cons. auto.
      * intros [H|(c & cn' & Hc & Hn & Hf)]; [auto|].
        apply elem_of_cons in Hc. destruct Hc as [->|Hc]; [congruence|].
        right. eauto.
Qed.

(** The files [query_graph] collects. *)
Lemma related_files_elem (o : Listing) (g : CallGraph) (query : string) (f : string) :
  f ∈ res_related_files (query_graph o g query)
  <-> (exists n, find_node o g query = Some n /\ file n = f)
      \/ (exists c cn, c ∈ get_callers o g query
                       /\ nodes g !! c = Some cn /\ file cn = f)
      \/ (exists c cn, c ∈ get_callees o g query
                       /\ nodes g !! c = Some cn /\ file cn = f).
Proof.
  unfold query_graph. simpl.
  set (files0 := match find_node o g query with
                 | Some n => set_add (file n) set_new
                 | None => set_new
                 end).
  destruct (add_refs_spec g (get_callers o g query) [] files0) as [_ A2].
  destruct (add_refs_spec g (get_callees o g query) []
              (snd (fold_left (add_ref g) (get_callers o g query) ([], files0))))
    as [_ B2].
  assert (F0 : f ∈ set_iter files0
               <-> exists n, find_node o g query = Some n /\ file n = f).
  { subst files0. destruct (find_node o g query) as [n|].
    - rewrite set_add_spec, set_new_spec. split.
      + intros [->|H]; [eauto | apply elem_of_nil in H; contradiction].
      + intros (n' & [= <-] & <-). auto.
    - rewrite set_new_spec. split; [intros H; apply elem_of_nil in H; contradiction|].
      intros (n' & H & _). discriminate. }
  rewrite B2, A2, F0. tauto.
Qed.

(** Every file [query_graph] collects is the file of a node. *)
Lemma related_files_nodes (o : Listing) (g : CallGraph) (query : string) (f : string) :
  lists o g ->
  f ∈ res_related_files (query_graph o g query) ->
  exists k n, nodes g !! k = Some n /\ file n = f.
Proof.
  intros Hl Hf. apply related_files_elem in Hf.
  destruct Hf as [(n & Hn & Hf)|[H|H]].
  - destruct (find_node_sound o g query n (proj1 Hl) Hn) as (q & Hq & _).
    eauto.
  - destruct H as (c & cn & _ & Hn & Hf). eauto.
  - destruct H as (c & cn & _ & Hn & Hf). eauto.
Qed.

(** X5. [query_graph], whatever the order of iteration. Its 'callers' are
    the names [get_callers] gives that are keys of [nodes], in the order of
    [get_callers], each with the file and the line of its node; the names
    that are no nodes (an imported module, a builtin) are left out; 'callees'
    likewise. 'related_files' holds no file twice, and holds exactly the file
    of the node found (if one is found) and the files of those callers and
    callees; every one of them is the file of a node of the graph. *)
Theorem query_graph_spec (o : Listing) (g : CallGraph) (query : string) :
  lists o g ->
  let r := query_graph o g query in
  res_callers r = omap (ref_of g) (get_callers o g query)
  /\ res_callees r = omap (ref_of g) (get_callees o g query)
  /\ (forall f, f ∈ res_related_files r
        <-> (exists n, find_node o g query = Some n /\ file n = f)
            \/ (exists c cn, c ∈ get_callers o g query
                             /\ nodes g !! c = Some cn /\ file cn = f)
            \/ (exists c cn, c ∈ get_callees o g query
                             /\ nodes g !! c = Some cn /\ file cn = f))
  /\ NoDup (res_related_files r)
  /\ (forall f, f ∈ res_related_files r ->
        exists k n, nodes g !! k = Some n /\ file n = f).
Proof.
  intros Hl r. subst r.
  split; [|split; [|split; [|split]]].
  - unfold query_graph. simpl. apply (add_refs_spec g (get_callers o g query) []).
  - unfold query_graph. simpl. apply (add_refs_spec g (get_callees o g query) []).
  - intros f. apply related_files_elem.
  - apply set_iter_nodup.
  - intros f. apply related_files_nodes, Hl.
Qed.

(** *** [predict_files_from_graph] *)

Lemma add_all_elem (l : list string) : forall s f,
  f ∈ set_iter (fold_left (fun s f => set_add f s) l s) <-> f ∈ l \/ f ∈ set_iter s.
Proof.
  induction l as [|x l IH]; intros s f; simpl.
  - rewrite elem_of_nil. tauto.
  - rewrite IH, set_add_spec, elem_of_cons. tauto.
Qed.

Lemma predict_loop_elem (o : Listing) (g : CallGraph) (keywords : list string) :
  forall related f,
    f ∈ set_iter
          (fold_left
             (fun related keyword =>
                fold_left (fun s f => set_add f s)
                  (res_related_files (query_graph o g keyword)) related)
             keywords related)
    <-> f ∈ set_iter related
        \/ exists keyword, keyword ∈ keywords
                           /\ f ∈ res_related_files (query_graph o g keyword).
Proof.
  induction keywords as [|k keywords IH]; intros related f; simpl.
  - split; [auto|]. intros [H|(k & H & _)]; [exact H|].
    apply elem_of_nil in H. contradiction.
  - rewrite IH, add_all_elem. split.
    + intros [[H|H]|(k' & Hk & H)]; [| auto |].
      * right. exists k. rewrite elem_of_cons. auto.
      * right. exists k'. rewrite elem_of_cons. auto.
    + intros [H|(k' & Hk & H)]; [auto|].
      apply elem_of_cons in Hk. destruct Hk as [->|Hk]; [auto|].
      right. eauto.
Qed.

(** X6. [predict_files_from_graph] of predict_context.py, whatever the order
    of iteration. With a call graph loaded, a file is predicted exactly when
    it is one of the related files [query_graph] gives for one of the
    keywords; every predicted file is the file of a node of the graph; and
    for a keyword that is the qualified name of a node, the file of that node
    is predicted. Without a call graph, or without keywords, nothing is
    predicted. *)
Theorem predict_files_from_graph_spec (o : Listing) (g : CallGraph)
  (keywords : list string) :
  lists o g ->
  (forall f, f ∈ set_iter (predict_files_from_graph o (Some g) keywords)
     <-> exists keyword, keyword ∈ keywords
                         /\ f ∈ res_related_files (query_graph o g keyword))
  /\ (forall f, f ∈ set_iter (predict_files_from_graph o (Some g) keywords) ->
        exists k n, nodes g !! k = Some n /\ file n = f)
  /\ (forall keyword n,
        keyword ∈ keywords -> nodes g !! keyword = Some n ->
        file n ∈ set_iter (predict_files_from_graph o (Some g) keywords))
  /\ set_iter (predict_files_from_graph o None keywords) = []
  /\ set_iter (predict_files_from_graph o (Some g) []) = [].
Proof.
  intros Hl.
  assert (M : forall f, f ∈ set_iter (predict_files_from_graph o (Some g) keywords)
     <-> exists keyword, keyword ∈ keywords
                         /\ f ∈ res_related_files (query_graph o g keyword)).
  { intros f. unfold predict_files_from_graph. rewrite predict_loop_elem, set_new_spec.
    rewrite elem_of_nil. tauto. }
  split; [exact M|]. split; [|split; [|split]].
  - intros f Hf. apply M in Hf. destruct Hf as (k & _ & Hf).
    exact (related_files_nodes o g k f Hl Hf).
  - intros k n Hk Hn. apply M. exists k. split; [exact Hk|].
    apply related_files_elem. left. exists n. split; [|reflexivity].
    unfold find_node. rewrite Hn. reflexivity.
  - simpl. apply set_new_spec.
  - simpl. apply set_new_spec.
Qed.

End QueryFacts.

(** *** Nodes visited at any depth *)

Lemma leave_graph b t after : graph (leave b t after) = graph after.
Proof. destruct t; reflexivity. Qed.

Section Visited.
Variables path m : string.

Lemma visit_all_works l b : (works path m) b (visit_all l b).
Proof.
  apply visit_all_keeps; [apply works_refl | apply works_trans |].
  rewrite Forall_forall. intros t _. apply visit_works.
Qed.

Lemma visited_step b ts bc x :
  visited b ts bc x -> at_file path m b ->
  at_file path m bc
  /\ (step path m) (graph b) (graph bc)
  /\ (step path m) (graph (visit x bc)) (graph (visit_all ts b)).
Proof.
  induction 1 as [b pre x post | b pre t post bc x _ IH]; intros Ha.
  - destruct (visit_all_works pre b Ha) as [Ha1 S1].
    split; [exact Ha1|]. split; [exact S1|].
    rewrite visit_all_app, visit_all_cons.
    destruct (visit_works path m x (visit_all pre b) Ha1) as [Ha2 _].
    apply (visit_all_works post _ Ha2).
  - destruct (visit_all_works pre b Ha) as [Ha1 S1].
    destruct (enter_works path m (visit_all pre b) t Ha1) as [Ha2 S2].
    destruct (IH Ha2) as (Ha3 & S3 & S4).
    split; [exact Ha3|].
    split; [eapply built_trans; [exact S1|]; eapply built_trans; eassumption|].
    rewrite visit_all_app, visit_all_cons.
    destruct (visit_works path m t (visit_all pre b) Ha1) as [Ha4 _].
    eapply built_trans; [|apply (visit_all_works post _ Ha4)].
    rewrite (visit_unfold t), leave_graph. exact S4.
Qed.
End Visited.

Lemma built_in PN PE g g' e :
  built_by PN PE g g' -> In e (edges g) -> In e (edges g').
Proof.
  intros H Hin. destruct (built_edges _ _ _ _ H) as (added & E & _).
  rewrite E. apply in_or_app. left. exact Hin.
Qed.

Lemma file_init_at g path fname m : at_file path m (file_init g path fname m).
Proof. split; reflexivity. Qed.

(** What the visit of a node adds to the graph is in the graph of the file
    in the end. *)
Lemma visited_final g0 path fname m body bc x e :
  visited (file_init g0 path fname m) body bc x ->
  In e (edges (graph (visit x bc))) ->
  In e (edges (analyze_file g0 path fname m body)).
Proof.
  intros Hv Hin. rewrite analyze_file_unfold.
  destruct (visited_step path m _ _ _ _ Hv (file_init_at g0 path fname m))
    as (_ & _ & S).
  eapply built_in; eassumption.
Qed.

Lemma visit_keeps_edges t b e :
  In e (edges (graph (enter b t))) -> In e (edges (graph (visit t b))).
Proof.
  intros H. rewrite visit_unfold, leave_edges.
  eapply extends_in; [apply visit_all_extends | exact H].
Qed.

(** The edges of an [import] statement, one per name. *)
Lemma import_grows l names b :
  grows b (fold_left (import_step l) names b)
    (map (fun a => {| source := module_name b; target := fst a;
                      edge_type := "imports"; edge_file := file_path b;
                      edge_line := l |}) names)
  /\ module_name (fold_left (import_step l) names b) = module_name b
  /\ file_path (fold_left (import_step l) names b) = file_path b.
Proof.
  revert b. induction names as [|a names IH]; intros b; simpl.
  - split; [apply grows_refl | split; reflexivity].
  - destruct (IH (import_step l b a)) as (G & Hm & Hf).
    split; [|split; [rewrite Hm | rewrite Hf]; reflexivity].
    unfold grows in *. rewrite G. simpl. rewrite <- app_assoc. reflexivity.
Qed.

Lemma import_from_grows mo l names b :
  grows b (fold_left (import_from_step mo l) names b)
    (map (fun _ => {| source := module_name b; target := mo;
                      edge_type := "imports"; edge_file := file_path b;
                      edge_line := l |}) names).
Proof.
  assert (G : forall b,
    grows b (fold_left (import_from_step mo l) names b)
      (map (fun _ => {| source := module_name b; target := mo;
                        edge_type := "imports"; edge_file := file_path b;
                        edge_line := l |}) names)
    /\ module_name (fold_left (import_from_step mo l) names b) = module_name b
    /\ file_path (fold_left (import_from_step mo l) names b) = file_path b).
  { induction names as [|a names IH]; intros b0; simpl.
    - split; [apply grows_refl | split; reflexivity].
    - destruct (IH (import_from_step mo l b0 a)) as (G & Hm & Hf).
      split; [|split; [rewrite Hm | rewrite Hf]; reflexivity].
      unfold grows in *. rewrite G. simpl. rewrite <- app_assoc. reflexivity. }
  apply G.
Qed.

Lemma find_app {A} (f : A -> bool) l1 l2 :
  List.find f (l1 ++ l2)
  = match List.find f l1 with Some x => Some x | None => List.find f l2 end.
Proof.
  induction l1 as [|a l1 IH]; simpl; [reflexivity|].
  destruct (f a); [reflexivity | exact IH].
Qed.

(** The alias table after an [import] statement: the last binding of a name
    wins, the other names keep their meaning. *)
Lemma import_aliases l names b k :
  imports (fold_left (import_step l) names b) !! k
  = match List.find (fun a => String.eqb (bound_name a) k) (rev names) with
    | Some a => Some (fst a)
    | None => imports b !! k
    end.
Proof.
  revert b. induction names as [|a names IH]; intros b; simpl; [reflexivity|].
  rewrite IH. rewrite find_app.
  destruct (List.find _ (rev names)); [reflexivity|]. simpl.
  destruct (String.eqb_spec (bound_name a) k) as [<-|Hne].
  - rewrite lookup_insert_eq. reflexivity.
  - rewrite lookup_insert_ne by exact Hne. reflexivity.
Qed.

Lemma import_from_aliases mo l names b k :
  imports (fold_left (import_from_step mo l) names b) !! k
  = match List.find (fun a => String.eqb (bound_name a) k) (rev names) with
    | Some a => Some (mo ++ "." ++ fst a)
    | None => imports b !! k
    end.
Proof.
  revert b. induction names as [|a names IH]; intros b; simpl; [reflexivity|].
  rewrite IH. rewrite find_app.
  destruct (List.find _ (rev names)); [reflexivity|]. simpl.
  destruct (String.eqb_spec (bound_name a) k) as [<-|Hne].
  - rewrite lookup_insert_eq. reflexivity.
  - rewrite lookup_insert_ne by exact Hne. reflexivity.
Qed.

(** X7. Imports, wherever they stand in a file (inside a function or a
    class as well). [import x] adds an 'imports' edge from the module to
    every imported name, at the line of the statement. [from mo import ...]
    with at least one name adds an 'imports' edge from the module to [mo],
    not to the imported name. A relative import without a module
    ([from . import x]) changes nothing at all: no edge and no alias. In the
    alias table the name an import binds ([asname], or the name itself)
    stands for the imported name, prefixed by [mo] and a dot for a
    [from mo import]; when one statement binds a name twice the last binding
    holds, and the names it does not bind keep what they stood for. *)
Theorem import_edges (g0 : CallGraph) (path fname m : string) (body : list ast)
  (bc : Builder) :
  (forall names l a,
     visited (file_init g0 path fname m) body bc (Import names l) ->
     In a names ->
     In {| source := m; target := fst a; edge_type := "imports";
           edge_file := path; edge_line := l |}
        (edges (analyze_file g0 path fname m body)))
  /\ (forall mo names l,
        visited (file_init g0 path fname m) body bc (ImportFrom (Some mo) names l) ->
        mo <> "" -> names <> [] ->
        In {| source := m; target := mo; edge_type := "imports";
              edge_file := path; edge_line := l |}
           (edges (analyze_file g0 path fname m body)))
  /\ (forall names l b, visit (ImportFrom None names l) b = b)
  /\ (forall names l b k,
        imports (visit (Import names l) b) !! k
        = match List.find (fun a => String.eqb (bound_name a) k) (rev names) with
          | Some a => Some (fst a)
          | None => imports b !! k
          end)
  /\ (forall mo names l b k,
        mo <> "" ->
        imports (visit (ImportFrom (Some mo) names l) b) !! k
        = match List.find (fun a => String.eqb (bound_name a) k) (rev names) with
          | Some a => Some (mo ++ "." ++ fst a)
          | None => imports b !! k
          end).
Proof.
  split; [|split; [|split; [|split]]].
  - intros names l a Hv Ha.
    destruct (visited_step path m _ _ _ _ Hv (file_init_at g0 path fname m))
      as ((Hf & Hm) & _ & _).
    eapply visited_final; [exact Hv|]. simpl.
    destruct (import_grows l names bc) as (G & _ & _). rewrite G.
    apply in_or_app. right. rewrite Hf, Hm.
    apply (in_map (fun a => {| source := m; target := fst a; edge_type := "imports";
                               edge_file := path; edge_line := l |})), Ha.
  - intros mo names l Hv Hmo Hn.
    destruct (visited_step path m _ _ _ _ Hv (file_init_at g0 path fname m))
      as ((Hf & Hm) & _ & _).
    eapply visited_final; [exact Hv|]. simpl.
    destruct (String.eqb_spec mo ""); [contradiction|]. simpl.
    rewrite (import_from_grows mo l names bc).
    apply in_or_app. right. rewrite Hf, Hm.
    destruct names as [|a names]; [contradiction|]. left. reflexivity.
  - reflexivity.
  - intros names l b k. apply import_aliases.
  - intros mo names l b k Hmo. simpl.
    destruct (String.eqb_spec mo ""); [contradiction|]. simpl.
    apply import_from_aliases.
Qed.

(** [_get_name] reads the alias table only. *)
Lemma chain_parts_imports b b' e :
  imports b' = imports b -> chain_parts b' e = chain_parts b e.
Proof.
  intros H. induction e; simpl; try reflexivity.
  - rewrite H. reflexivity.
  - rewrite IHe. reflexivity.
Qed.

Lemma get_name_imports b b' e :
  imports b' = imports b -> _get_name b' e = _get_name b e.
Proof.
  intros H. destruct e; simpl; try reflexivity.
  - rewrite H. reflexivity.
  - rewrite (chain_parts_imports b b') by exact H. reflexivity.
Qed.

Lemma base_step_imports q l b base : imports (base_step q l b base) = imports b.
Proof. unfold base_step. destruct (truthy _); reflexivity. Qed.

Lemma base_step_file q l b base : file_path (base_step q l b base) = file_path b.
Proof. unfold base_step. destruct (truthy _); reflexivity. Qed.

Lemma base_step_extends q l b base : extends b (base_step q l b base).
Proof.
  unfold base_step. destruct (truthy _); [|apply extends_refl].
  eexists. apply emit_grows.
Qed.

Lemma base_fold_extends q l bases b : extends b (fold_left (base_step q l) bases b).
Proof.
  apply fold_keeps; [apply extends_refl | apply extends_trans |].
  intros b0 x. apply base_step_extends.
Qed.

(** The loop over the bases of a class adds an edge for every base that has
    a name. *)
Lemma base_fold_in q l bases : forall b base tgt,
  In base bases -> _get_name b base = Some tgt -> tgt <> "" ->
  In {| source := q; target := tgt; edge_type := "inherits";
        edge_file := file_path b; edge_line := l |}
     (edges (graph (fold_left (base_step q l) bases b))).
Proof.
  induction bases as [|x bases IH]; intros b base tgt Hin Hn Hne; [contradiction|].
  simpl. destruct Hin as [->|Hin].
  - eapply extends_in; [apply base_fold_extends|].
    unfold base_step. rewrite Hn. simpl.
    destruct (String.eqb_spec tgt ""); [contradiction|]. simpl.
    apply in_or_app. right. left. reflexivity.
  - rewrite <- (base_step_file q l b x).
    apply (IH _ base tgt Hin); [|exact Hne].
    rewrite (get_name_imports b) by apply base_step_imports. exact Hn.
Qed.

(** X8. A class definition, wherever it stands in a file, adds an
    'inherits' edge for every base whose name [_get_name] resolves to a
    non-empty string, from the module name, a dot and the class name (also
    for a class nested in another class or in a function) to the resolved
    base, at the line of the class; the base is resolved through the aliases
    imported before the class. The class is a key of [nodes] under that
    qualified name when the analysis of the file is over. *)
Theorem inherits_edges (g0 : CallGraph) (path fname m : string) (body : list ast)
  (bc : Builder) (c : string) (bases rest : list ast) (l : Z) :
  visited (file_init g0 path fname m) body bc (ClassDef c bases rest l) ->
  (forall base tgt,
     In base bases -> _get_name bc base = Some tgt -> tgt <> "" ->
     In {| source := m ++ "." ++ c; target := tgt; edge_type := "inherits";
           edge_file := path; edge_line := l |}
        (edges (analyze_file g0 path fname m body)))
  /\ is_Some (nodes (analyze_file g0 path fname m body) !! (m ++ "." ++ c)).
Proof.
  intros Hv.
  destruct (visited_step path m _ _ _ _ Hv (file_init_at g0 path fname m))
    as ((Hf & Hm) & _ & S).
  split.
  - intros base tgt Hin Hn Hne.
    eapply visited_final; [exact Hv|]. apply visit_keeps_edges. simpl.
    unfold enter_class. simpl. rewrite Hm.
    set (b1 := with_graph bc _).
    replace path with (file_path b1) by exact Hf.
    apply (base_fold_in _ l bases b1 base tgt Hin); [|exact Hne].
    rewrite (get_name_imports bc) by reflexivity. exact Hn.
  - rewrite analyze_file_unfold.
    eapply built_nodes_kept; [exact S|].
    rewrite visit_unfold, leave_graph.
    destruct (enter_works path m bc (ClassDef c bases rest l)) as [Ha1 _];
      [split; assumption|].
    destruct (visit_all_works path m (children (ClassDef c bases rest l))
                (enter bc (ClassDef c bases rest l)) Ha1) as [_ S1].
    eapply built_nodes_kept; [exact S1|].
    simpl. unfold enter_class. simpl.
    set (b1 := with_graph bc _).
    destruct (fold_keeps (works path m) (base_step (module_name bc ++ "." ++ c) l) bases
                (works_refl path m) (works_trans path m)) with (b := b1) as [_ S2].
    + intros b0 x. unfold base_step. destruct (truthy _); [|apply works_refl].
      intros [Hf0 Hm0]. split; [split; assumption|]. simpl.
      apply built_edge; [apply built_refl|]. split; [exact Hf0|].
      simpl. rewrite Hm. apply prefix_app.
    + split; assumption.
    + eapply built_nodes_kept; [exact S2|].
      subst b1. simpl. rewrite Hm, lookup_insert_eq. eauto.
Qed.

Lemma join_dot_three a b c : join_dot [a; b; c] = a ++ "." ++ b ++ "." ++ c.
Proof. reflexivity. Qed.

Lemma function_def_visit is_async f kids fl b :
  edges (graph (visit (function_def is_async f kids fl) b))
  = edges (graph (visit_all kids (enter_function b f fl))).
Proof. destruct is_async; reflexivity. Qed.

(** X9. A call in a method. For a class [c] that stands in no other class
    and in no function, a function [f] (async or not) of [c] that stands in
    no further class or function, and a call in [f], in no nested class or
    function, whose callee resolves to a non-empty name, the analysis of
    the file adds the 'calls' edge from [module.c.f] to the resolved callee,
    at the line of the call; and when the body of [f] is entered,
    [module.c.f] is a node of type 'method' at the line of [f]. *)
Theorem method_call_edge (g0 : CallGraph) (path fname m : string) (body : list ast)
  (c : string) (bases rest : list ast) (cl : Z) (bcls : Builder)
  (is_async : bool) (f : string) (kids : list ast) (fl : Z) (bf : Builder)
  (bc : Builder) (func : ast) (args : list ast) (l : Z) (callee : string) :
  c <> "" -> f <> "" -> callee <> "" ->
  reach (file_init g0 path fname m) body bcls (ClassDef c bases rest cl) ->
  reach (enter_class bcls c bases cl) (bases ++ rest) bf
    (function_def is_async f kids fl) ->
  reach (enter_function bf f fl) kids bc (Call func args l) ->
  _get_call_name bc func = Some callee ->
  In {| source := m ++ "." ++ c ++ "." ++ f; target := callee;
        edge_type := "calls"; edge_file := path; edge_line := l |}
     (edges (analyze_file g0 path fname m body))
  /\ nodes (graph (enter_function bf f fl)) !! (m ++ "." ++ c ++ "." ++ f)
     = Some {| name := f; node_type := "method"; file := path; line := fl;
               qualified_name := m ++ "." ++ c ++ "." ++ f |}.
Proof.
  intros Hc Hf Hce H1 H2 H3 Hn.
  destruct (reach_scope _ _ _ _ H1) as (_ & _ & M1 & P1).
  destruct (enter_class_scope bcls c bases cl) as (_ & M2 & P2).
  assert (C2 : current_class (enter_class bcls c bases cl) = Some c) by reflexivity.
  destruct (reach_scope _ _ _ _ H2) as (C3 & _ & M3 & P3).
  rewrite C2 in C3. rewrite M2, M1 in M3. rewrite P2, P1 in P3.
  simpl in M3, P3.
  assert (T : truthy (current_class bf) = true).
  { rewrite C3. simpl. destruct (String.eqb_spec c ""); [contradiction | reflexivity]. }
  destruct (reach_scope _ _ _ _ H3) as (C4 & F4 & M4 & P4).
  simpl in C4, F4, M4, P4. rewrite C3 in C4. rewrite M3 in M4. rewrite P3 in P4.
  split.
  - rewrite analyze_file_unfold.
    eapply extends_in; [apply (reach_extends _ _ _ _ H1)|].
    rewrite visit_unfold, leave_edges. simpl children. simpl enter.
    eapply extends_in; [apply (reach_extends _ _ _ _ H2)|].
    apply list_elem_of_In. rewrite function_def_visit. apply list_elem_of_In.
    eapply extends_in; [apply (reach_extends _ _ _ _ H3)|].
    apply visit_keeps_edges. simpl enter.
    rewrite (enter_call_emits bc func l f callee F4 Hf Hn Hce).
    apply in_or_app. right. left. unfold mk_edge, get_current_scope.
    rewrite C4, F4, M4, P4. simpl.
    destruct (String.eqb_spec c ""); [contradiction|].
    destruct (String.eqb_spec f ""); [contradiction|]. reflexivity.
  - unfold enter_function. rewrite T, C3, M3, P3. simpl.
    rewrite lookup_insert_eq. reflexivity.
Qed.

Lemma get_name_chain_any b root a attrs :
  _get_name b (attr_chain root (a :: attrs))
  = Some (join_dot (rev (chain_parts b root) ++ a :: attrs)).
Proof.
  unfold _get_name.
  destruct (attr_chain_attribute attrs (Attribute root a)) as (v & a' & E); [eauto|].
  change (attr_chain root (a :: attrs)) with (fold_left Attribute attrs (Attribute root a)).
  rewrite E, <- E.
  change (fold_left Attribute attrs (Attribute root a)) with (attr_chain root (a :: attrs)).
  rewrite chain_parts_chain. rewrite rev_app_distr, rev_involutive. reflexivity.
Qed.

(** X10. Calls whose receiver is not a name. For a chain of attributes on an
    expression that is neither a name nor an attribute (a call, a subscript,
    a literal: [get().a.b]), [_get_call_name] gives the attributes alone,
    joined by dots ([a.b]): the receiver is dropped. A called expression that
    is itself neither a name nor an attribute ([f()()]) has no name, and
    visiting the call adds nothing. So inside a function, a call on such a
    chain adds exactly one edge, at the end of the edge list: a 'calls' edge
    from the current scope to the attributes alone. *)
Theorem call_on_unnamed_receiver (b : Builder) :
  (forall root a attrs,
     unnamed root ->
     _get_call_name b (attr_chain root (a :: attrs)) = Some (join_dot (a :: attrs)))
  /\ (forall func l, unnamed func -> enter_call b func l = b)
  /\ (forall root a attrs l fname,
        unnamed root -> current_function b = Some fname -> fname <> "" -> a <> "" ->
        edges (graph (enter_call b (attr_chain root (a :: attrs)) l))
        = (edges (graph b)
           ++ [{| source := get_current_scope b; target := join_dot (a :: attrs);
                  edge_type := "calls"; edge_file := file_path b;
                  edge_line := l |}])%list).
Proof.
  assert (G : forall root a attrs, unnamed root ->
    _get_call_name b (attr_chain root (a :: attrs)) = Some (join_dot (a :: attrs))).
  { intros root a attrs Hr. unfold _get_call_name. rewrite get_name_chain_any.
    destruct root; simpl in Hr; try contradiction; reflexivity. }
  split; [exact G|]. split.
  - intros func l Hu. unfold enter_call, _get_call_name.
    destruct func; simpl in Hu; try contradiction; simpl;
      destruct (truthy (current_function b)); reflexivity.
  - intros root a attrs l fname Hr Hf Hne Ha.
    apply (enter_call_emits b _ l fname (join_dot (a :: attrs)) Hf Hne (G _ _ _ Hr)).
    unfold join_dot. destruct a; [contradiction|]. simpl.
    destruct attrs; discriminate.
Qed.

End CallGraphIndexFacts.

(** ** The fusion graph: what its operations keep *)

Module HybridInvariantFacts.
Import PyFloat PyFloatFacts PyDict PyDictFacts Hybrid HybridEdgeFacts HybridAccessFacts.
Import Pairs ComodFacts HybridComodFacts CorrelationFacts HybridBuildFacts HybridQueryFacts.
Import PyDictSetFacts.
Local Close Scope string_scope.

Section Facts.
Context `{R : PyRuntime}.

(** *** [record_access] *)

Lemma record_access_history ts cutoff now g a :
  access_history (record_access ts cutoff now g a)
  = let h1 := (access_history g ++ [(a, ts)])%list in
    if (history_cap <? List.length h1)%nat then last_n history_cap h1 else h1.
Proof. apply (record_access_edges ts cutoff now g a). Qed.

Lemma record_access_nodes ts cutoff now g a :
  nodes (record_access ts cutoff now g a)
  = match get a (nodes g) with
    | Some n => set a (touch_node ts n) (nodes g)
    | None => nodes g
    end.
Proof. unfold record_access. rewrite fold_add_edge_nodes by reflexivity. reflexivity. Qed.

Lemma fold_add_edge_comod {A} (f : HybridGraph -> A -> HybridGraph) (l : list A) g :
  (forall g0 x, comod_matrix (f g0 x) = comod_matrix g0) ->
  comod_matrix (fold_left f l g) = comod_matrix g.
Proof.
  intros Hf. revert g. induction l as [|x l IH]; intros g; simpl; [reflexivity|].
  rewrite IH. apply Hf.
Qed.

Lemma last_skipn {A} n (l : list A) :
  (n < List.length l)%nat -> last (skipn n l) = last l.
Proof.
  revert n. induction l as [|x l IH]; intros n H; simpl in H; [lia|].
  destruct n as [|n]; [reflexivity|]. simpl skipn.
  rewrite IH by lia. destruct l; [simpl in H; lia | reflexivity].
Qed.

(** X11. What [record_access(a)] does besides the edges. The history grows
    by one entry and is cut to its last 1000, so its length is the smaller of
    1000 and the old length plus one, and its last entry is the access just
    made. The node ids and their order stay as they were; the node [a], if
    there is one, gets the time stamp and one more access, and for an id
    that is not a node no node is created; every other node is untouched;
    the co-modification matrix is untouched. *)
Theorem record_access_bookkeeping (ts cutoff now : string) (g : HybridGraph)
  (a : string) :
  let g' := record_access ts cutoff now g a in
  List.length (access_history g')
  = Nat.min history_cap (S (List.length (access_history g)))
  /\ last (access_history g') = Some (a, ts)
  /\ keys (nodes g') = keys (nodes g)
  /\ get a (nodes g') = option_map (touch_node ts) (get a (nodes g))
  /\ (forall k, k <> a -> get k (nodes g') = get k (nodes g))
  /\ comod_matrix g' = comod_matrix g.
Proof.
  intros g'. subst g'. rewrite record_access_history, record_access_nodes. cbv zeta.
  split; [|split; [|split; [|split; [|split]]]].
  - unfold last_n, history_cap.
    destruct (1000 <? _)%nat eqn:E.
    + apply Nat.ltb_lt in E. rewrite length_app in E. cbn [List.length] in E.
      rewrite length_skipn, length_app. cbn [List.length]. lia.
    + apply Nat.ltb_ge in E. rewrite length_app in *. cbn [List.length] in *. lia.
  - destruct (history_cap <? _)%nat eqn:E; [|apply last_snoc].
    unfold last_n. rewrite last_skipn; [apply last_snoc|].
    apply Nat.ltb_lt in E. rewrite length_app in *. cbn [List.length] in *.
    unfold history_cap in *. lia.
  - destruct (get a (nodes g)) as [n|] eqn:E; [|reflexivity].
    rewrite keys_set. unfold mem. rewrite E. reflexivity.
  - destruct (get a (nodes g)) as [n|] eqn:E; simpl; [|exact E].
    rewrite get_set, String.eqb_refl. reflexivity.
  - intros k Hk. destruct (get a (nodes g)) as [n|] eqn:E; [|reflexivity].
    rewrite get_set. destruct (String.eqb_spec k a); [contradiction | reflexivity].
  - unfold record_access. rewrite fold_add_edge_comod by reflexivity. reflexivity.
Qed.

(** *** The neighbour index and the edges under [add_edge] *)

Lemma neighbors_add_elem nb a b x y :
  y ∈ set_iter (default set_new (neighbors_add nb a b !! x))
  <-> (x = a /\ y = b) \/ y ∈ set_iter (default set_new (nb !! x)).
Proof.
  unfold neighbors_add. destruct (String.eqb_spec x a) as [->|Hne].
  - rewrite lookup_insert_eq. simpl. rewrite set_add_spec. tauto.
  - rewrite lookup_insert_ne by congruence.
    split; [auto|]. intros [[H _]|H]; [contradiction | exact H].
Qed.

Lemma add_edge_neighbors now g s t rel w x y :
  y ∈ set_iter (neighbors_of (add_edge now g s t rel w) x)
  <-> (x = s /\ y = t) \/ (x = t /\ y = s) \/ y ∈ set_iter (neighbors_of g x).
Proof.
  unfold neighbors_of, add_edge. simpl. rewrite !neighbors_add_elem. tauto.
Qed.

Lemma append_inj_r (s x y : string) : (s ++ x = s ++ y)%string -> x = y.
Proof. induction s as [|c s IH]; simpl; [auto|]. intros [= H]. auto. Qed.

Lemma edge_id_inj_r a x y : edge_id a x = edge_id a y -> x = y.
Proof. unfold edge_id. intros H. apply append_inj_r in H. injection H. auto. Qed.

Lemma update_weight_types e rel w :
  relationship_types (update_weight e rel w) = relationship_types e.
Proof.
  unfold update_weight.
  destruct (_ || _); [reflexivity|].
  destruct (String.eqb rel _); [reflexivity|].
  destruct (String.eqb rel _); [reflexivity|].
  destruct (String.eqb rel _); reflexivity.
Qed.

Lemma touched_types now e rel w :
  rel ∈ relationship_types (update_weight (touch_edge now e rel) rel w).
Proof.
  rewrite update_weight_types. simpl. case_bool_decide as H; [exact H|].
  rewrite elem_of_app, list_elem_of_singleton. auto.
Qed.

(** What a run of [add_edge] from one source to a list of targets does. *)
Lemma add_edges_from now rel w a os : forall g,
  let g' := fold_left (fun acc o => add_edge now acc a o rel w) os g in
  (forall k, (forall o, o ∈ os -> k <> edge_id a o) -> edges g' !! k = edges g !! k)
  /\ (forall o, o ∈ os ->
        exists e, edges g' !! edge_id a o = Some e /\ rel ∈ relationship_types e)
  /\ (forall x y, y ∈ set_iter (neighbors_of g' x)
        <-> (x = a /\ y ∈ os) \/ (y = a /\ x ∈ os)
            \/ y ∈ set_iter (neighbors_of g x)).
Proof.
  induction os as [|o os IH]; intros g; simpl.
  - split; [reflexivity|]. split.
    + intros o H. apply elem_of_nil in H. contradiction.
    + intros x y. rewrite !elem_of_nil. tauto.
  - destruct (IH (add_edge now g a o rel w)) as (I1 & I2 & I3). split; [|split].
    + intros k Hk. rewrite I1 by (intros o' Ho'; apply Hk; right; exact Ho').
      apply add_edge_lookup_ne. apply Hk. left.
    + intros o' Ho'. apply elem_of_cons in Ho'. destruct Ho' as [->|Ho']; [|auto].
      destruct (decide (o ∈ os)) as [Hin|Hnin]; [auto|].
      rewrite I1.
      * rewrite add_edge_lookup. eexists. split; [reflexivity | apply touched_types].
      * intros o' Ho' E. apply edge_id_inj_r in E. subst o'. contradiction.
    + intros x y. rewrite I3, add_edge_neighbors, !elem_of_cons. tauto.
Qed.

Lemma recent_of_not_self cutoff a h : a ∉ recent_of cutoff a h.
Proof.
  unfold recent_of. intros H. apply list_elem_of_fmap in H.
  destruct H as ([n t] & E & H). simpl in E. subst n.
  apply list_elem_of_In, List.filter_In in H. destruct H as [_ H]. simpl in H.
  rewrite String.eqb_refl, andb_false_r in H. discriminate.
Qed.

Lemma record_access_unfold ts cutoff now g a :
  record_access ts cutoff now g a
  = fold_left
      (fun acc o => add_edge now acc a o "accessed_together" 0.5)
      (last_n 5 (recent_of cutoff a (access_history (record_access ts cutoff now g a))))
      {| root := root g;
         nodes := match get a (nodes g) with
                  | Some n => set a (touch_node ts n) (nodes g)
                  | None => nodes g
                  end;
         edges := edges g; neighbors := neighbors g;
         access_history := access_history (record_access ts cutoff now g a);
         comod_matrix := comod_matrix g |}.
Proof. rewrite record_access_history. reflexivity. Qed.

(** X12. Which edges [record_access(a)] touches. The files it pairs [a] with
    are at most five, each of them another file than [a] with an entry of
    the history inside the time window. Every edge whose key is not the key
    of [a] and one of these files is left as it was, and so is the entry
    under the key of [a] and [a]: no edge from [a] to itself is made. Each
    of these files has an edge with [a] afterwards, of type
    'accessed_together', and the neighbour sets grow by exactly these pairs,
    in both directions. *)
Theorem record_access_touches (ts cutoff now : string) (g : HybridGraph)
  (a : string) :
  let g' := record_access ts cutoff now g a in
  let recent := last_n 5 (recent_of cutoff a (access_history g')) in
  (List.length recent <= 5)%nat
  /\ (forall o, o ∈ recent -> o <> a /\ exists t, (o, t) ∈ access_history g'
                                              /\ String.ltb cutoff t = true)
  /\ (forall k, (forall o, o ∈ recent -> k <> edge_id a o) ->
        edges g' !! k = edges g !! k)
  /\ edges g' !! edge_id a a = edges g !! edge_id a a
  /\ (forall o, o ∈ recent ->
        exists e, edges g' !! edge_id a o = Some e
                  /\ "accessed_together"%string ∈ relationship_types e)
  /\ (forall x y, y ∈ set_iter (neighbors_of g' x)
        <-> (x = a /\ y ∈ recent) \/ (y = a /\ x ∈ recent)
            \/ y ∈ set_iter (neighbors_of g x)).
Proof.
  intros g' recent.
  assert (Hself : forall o, o ∈ recent -> o <> a).
  { intros o Ho ->. apply last_n_elem in Ho. exact (recent_of_not_self _ _ _ Ho). }
  pose proof (record_access_unfold ts cutoff now g a) as U.
  fold g' in U. fold recent in U.
  destruct (add_edges_from now "accessed_together" 0.5%float a recent
              {| root := root g;
                 nodes := match get a (nodes g) with
                          | Some n => set a (touch_node ts n) (nodes g)
                          | None => nodes g
                          end;
                 edges := edges g; neighbors := neighbors g;
                 access_history := access_history g';
                 comod_matrix := comod_matrix g |}) as (I1 & I2 & I3).
  rewrite <- U in I1, I2, I3. simpl in I1.
  split; [apply last_n_length|]. split; [|split; [|split; [|split]]].
  - intros o Ho. split; [auto|]. apply last_n_elem in Ho.
    unfold recent_of in Ho. apply list_elem_of_fmap in Ho.
    destruct Ho as ([n t] & E & H). simpl in E. subst n.
    apply list_elem_of_In, List.filter_In in H. destruct H as [Hin H]. simpl in H.
    apply andb_true_iff in H. exists t. split; [apply list_elem_of_In; exact Hin | tauto].
  - exact I1.
  - apply I1. intros o Ho E. apply edge_id_inj_r in E. symmetry in E. exact (Hself o Ho E).
  - exact I2.
  - exact I3.
Qed.

(** *** A graph read back from disk *)

(** X13. The access history is not saved. A graph read back from what
    [to_dict] wrote has the edges and the co-modification matrix of the
    graph, and an empty history. So the first [record_access] after a reload
    finds no recent access, whatever was accessed before the graph was
    saved: it changes no edge and no neighbour set, and leaves a history of
    one entry. *)
Theorem reload_forgets_history (ts cutoff now : string) (g : HybridGraph)
  (a : string) :
  let g' := from_dict (to_dict g) in
  access_history g' = []
  /\ edges g' = edges g
  /\ comod_matrix g' = comod_matrix g
  /\ edges (record_access ts cutoff now g' a) = edges g
  /\ access_history (record_access ts cutoff now g' a) = [(a, ts)]
  /\ (forall x, set_iter (neighbors_of (record_access ts cutoff now g' a) x)
                ≡ₚ set_iter (neighbors_of g x)).
Proof.
  intros g'. split; [reflexivity|]. split; [reflexivity|]. split; [reflexivity|].
  assert (E : record_access ts cutoff now g' a
              = {| root := root g';
                   nodes := match get a (nodes g') with
                            | Some n => set a (touch_node ts n) (nodes g')
                            | None => nodes g'
                            end;
                   edges := edges g'; neighbors := neighbors g';
                   access_history := [(a, ts)];
                   comod_matrix := comod_matrix g' |}).
  { unfold record_access. simpl. rewrite String.eqb_refl, andb_false_r. reflexivity. }
  rewrite E. simpl. split; [reflexivity|]. split; [reflexivity|].
  intros x. apply (from_to_iter g x).
Qed.

(** *** The size and the members of [get_related_nodes] *)

Lemma related_scored_keys g q :
  map fst (related_scored g q) `sublist_of` set_iter (neighbors_of g q).
Proof.
  unfold related_scored. induction (set_iter (neighbors_of g q)) as [|n l IH]; simpl.
  - constructor.
  - destruct (edge_between g q n); simpl.
    + apply sublist_skip. exact IH.
    + apply sublist_cons. exact IH.
Qed.

Lemma related_scored_elem g q n s :
  (n, s) ∈ related_scored g q
  <-> n ∈ set_iter (neighbors_of g q)
      /\ exists e, edge_between g q n = Some e /\ s = get_combined_weight e.
Proof.
  unfold related_scored. rewrite list_elem_of_omap. split.
  - intros (n' & Hin & H). destruct (edge_between g q n') as [e|] eqn:E; [|discriminate].
    simpl in H. injection H as <- <-. split; [exact Hin|].
    exists e. split; [exact E | symmetry; apply combined_weight_ok].
  - intros (Hin & e & E & ->). exists n. split; [exact Hin|].
    rewrite E. simpl. rewrite combined_weight_ok. reflexivity.
Qed.

(** X14. The answer of [get_related_nodes(query_id, limit)], for every
    limit. No node id is in it twice; every entry is a neighbour of
    [query_id] that has an edge with it, with the combined weight of that
    edge as its score, and [query_id] is then a known node. For a known
    [query_id] and a limit that is not negative the answer has [limit]
    entries, or all the neighbours that have an edge when they are fewer; a
    negative limit, as the slice [[:limit]] has it, drops the last [-limit]
    entries of the ranking instead. *)
Theorem related_nodes_bounds (g : HybridGraph) (query_id : string) (limit : Z) :
  let r := get_related_nodes g query_id limit in
  NoDup (map fst r)
  /\ (forall n s, (n, s) ∈ r ->
        query_id ∈ keys (nodes g)
        /\ n ∈ set_iter (neighbors_of g query_id)
        /\ exists e, edge_between g query_id n = Some e
                     /\ s = get_combined_weight e)
  /\ (query_id ∈ keys (nodes g) ->
      List.length r
      = if (0 <=? limit)%Z
        then Nat.min (Z.to_nat limit) (List.length (related_scored g query_id))
        else (List.length (related_scored g query_id) - Z.to_nat (- limit))%nat).
Proof.
  intros r. subst r. rewrite get_related_nodes_unfold.
  destruct (mem query_id (nodes g)) eqn:E.
  - apply mem_keys in E.
    assert (Hsub : slice_to limit (sorted_desc snd (related_scored g query_id))
                   `sublist_of` sorted_desc snd (related_scored g query_id))
      by apply slice_to_sublist.
    split; [|split].
    + eapply sublist_NoDup; [|apply (fmap_sublist fst); exact Hsub].
      change (NoDup (map fst (sorted_desc snd (related_scored g query_id)))).
      rewrite sorted_desc_perm.
      eapply sublist_NoDup; [apply set_iter_nodup | apply related_scored_keys].
    + intros n s H. split; [exact E|]. apply related_scored_elem.
      rewrite <- (sorted_desc_perm snd). eapply elem_of_sublist; eassumption.
    + intros _. rewrite slice_to_length.
      rewrite (Permutation_length (sorted_desc_perm snd _)). reflexivity.
  - split; [constructor|]. split.
    + intros n s H. apply elem_of_nil in H. contradiction.
    + intros H. apply mem_keys in H. congruence.
Qed.

(** *** Weights between 0 and 1 *)

Lemma in_unit_pymax a w : in_unit a = true -> in_unit w = true -> in_unit (pymax a w) = true.
Proof. intros Ha Hw. unfold pymax. destruct (PrimFloat.ltb a w); assumption. Qed.

Lemma SFnonneg_below x m e :
  SFnonneg x -> SFltb x (S754_finite false m e) = true ->
  SFleb (S754_zero false) x = true /\ SFleb x (S754_finite false m e) = true.
Proof.
  intros Hn Hlt. sf_destruct; simpl in Hn; try contradiction; split; sf_compare.
Qed.

Lemma nonneg_pymin_unit x : SFnonneg (Prim2SF x) -> in_unit (pymin 1 x) = true.
Proof.
  intros Hn. unfold pymin. destruct (PrimFloat.ltb x 1) eqn:E; [|reflexivity].
  rewrite ltb_spec in E.
  change (Prim2SF 1) with (S754_finite false 4503599627370496 (-52)) in E.
  destruct (SFnonneg_below _ _ _ Hn E) as [H0 H1].
  unfold in_unit. rewrite !leb_spec.
  change (Prim2SF 0) with (S754_zero false).
  change (Prim2SF 1) with (S754_finite false 4503599627370496 (-52)).
  rewrite H0, H1. reflexivity.
Qed.

Lemma in_unit_nonneg a : in_unit a = true -> SFnonneg (Prim2SF a).
Proof.
  intros H. apply in_unit_spec in H. destruct (Prim2SF a) as [[|]|[|]| |[|] ? ?];
    simpl in *; tauto.
Qed.

Lemma in_unit_observe a w :
  in_unit a = true -> in_unit w = true -> in_unit (pymin 1 (a + w * 0.1)) = true.
Proof.
  intros Ha Hw. apply nonneg_pymin_unit, add_nonneg; [apply in_unit_nonneg, Ha|].
  apply mul_nonneg; [apply in_unit_spec, Hw | exact I].
Qed.

Lemma update_weight_range e rel w :
  in_unit w = true -> weights_in_range e = true ->
  weights_in_range (update_weight e rel w) = true.
Proof.
  intros Hw. unfold weights_in_range. rewrite !andb_true_iff.
  intros [[[H1 H2] H3] H4]. unfold update_weight.
  destruct (_ || _); simpl; [auto using in_unit_pymax|].
  destruct (String.eqb rel _); simpl; [auto using in_unit_observe|].
  destruct (String.eqb rel _); simpl; [auto using in_unit_observe|].
  destruct (String.eqb rel _); simpl; auto using in_unit_pymax.
Qed.

Lemma add_edge_range now g s t rel w :
  in_unit w = true -> edges_in_range g -> edges_in_range (add_edge now g s t rel w).
Proof.
  intros Hw Hg. unfold edges_in_range, add_edge. simpl.
  apply map_Forall_insert_2; [|exact Hg].
  apply update_weight_range; [exact Hw|].
  destruct (edges g !! edge_id s t) as [e|] eqn:E; simpl; [|reflexivity].
  exact (Hg _ _ E).
Qed.

Lemma fold_add_edge_range {A} (f : HybridGraph -> A -> HybridGraph) (l : list A) g :
  (forall g0 x, edges_in_range g0 -> edges_in_range (f g0 x)) ->
  edges_in_range g -> edges_in_range (fold_left f l g).
Proof.
  intros Hf. revert g. induction l as [|x l IH]; intros g H; simpl; [exact H|].
  apply IH, Hf, H.
Qed.

(** X15. The five weights of every edge stay between 0 and 1. That holds of
    an empty graph, and it is kept by [add_edge] with an observed weight
    between 0 and 1 (for every relationship type), by [record_access], and by
    writing the graph with [to_dict] and reading it back. On a graph where it
    holds, every score [get_related_nodes] ranks by is a number (not NaN). *)
Theorem weights_stay_in_range :
  (forall r, edges_in_range (empty r))
  /\ (forall now g s t rel w,
        in_unit w = true -> edges_in_range g ->
        edges_in_range (add_edge now g s t rel w))
  /\ (forall ts cutoff now g a,
        edges_in_range g -> edges_in_range (record_access ts cutoff now g a))
  /\ (forall g, edges_in_range g -> edges_in_range (from_dict (to_dict g)))
  /\ (forall g query_id,
        edges_in_range g ->
        Forall (fun p => is_number (snd p)) (related_scored g query_id)).
Proof.
  split; [|split; [|split; [|split]]].
  - intros r. apply map_Forall_empty.
  - intros. apply add_edge_range; assumption.
  - intros ts cutoff now g a H. unfold record_access.
    apply fold_add_edge_range; [|exact H].
    intros g0 x H0. apply add_edge_range; [reflexivity | exact H0].
  - intros g H. exact H.
  - intros g q H. apply related_scored_numbers. exact H.
Qed.

(** *** What every reachable graph satisfies *)

Lemma update_weight_ends e rel w :
  source (update_weight e rel w) = source e /\ target (update_weight e rel w) = target e.
Proof.
  unfold update_weight.
  destruct (_ || _); [split; reflexivity|].
  destruct (String.eqb rel _); [split; reflexivity|].
  destruct (String.eqb rel _); [split; reflexivity|].
  destruct (String.eqb rel _); split; reflexivity.
Qed.

Lemma edge_between_some g a b :
  is_Some (edge_between g a b)
  <-> is_Some (edges g !! edge_id a b) \/ is_Some (edges g !! edge_id b a).
Proof.
  unfold edge_between. destruct (edges g !! edge_id a b) as [e|].
  - split; eauto.
  - split; [auto|]. intros [[? H]|H]; [discriminate | exact H].
Qed.

Lemma links_ok_add_edge now g s t rel w :
  links_ok g -> links_ok (add_edge now g s t rel w).
Proof.
  intros (K & S & E). split; [|split].
  - intros k e. unfold add_edge. simpl.
    destruct (decide (k = edge_id s t)) as [->|Hne].
    + rewrite lookup_insert_eq. intros [= <-].
      destruct (update_weight_ends
                  (touch_edge now (default (new_edge s t) (edges g !! edge_id s t)) rel)
                  rel w) as [-> ->]. simpl.
      destruct (edges g !! edge_id s t) as [e0|] eqn:E0; simpl; [|reflexivity].
      apply K, E0.
    + rewrite lookup_insert_ne by congruence. apply K.
  - intros a b. rewrite !add_edge_neighbors, (S a b). tauto.
  - intros a b. rewrite add_edge_neighbors, edge_between_some.
    intros [[-> ->]|[[-> ->]|H]].
    + left. rewrite add_edge_lookup. eauto.
    + right. rewrite add_edge_lookup. eauto.
    + apply E, edge_between_some in H. unfold add_edge. simpl.
      destruct H as [H|H]; [left | right]; rewrite lookup_insert_is_Some'; tauto.
Qed.

Lemma links_ok_ext g g' :
  edges g' = edges g -> neighbors g' = neighbors g -> links_ok g -> links_ok g'.
Proof.
  unfold links_ok, edge_between, neighbors_of. intros -> ->. auto.
Qed.

Lemma links_ok_fold {A} (f : HybridGraph -> A -> HybridGraph) l g :
  (forall g0 x, links_ok g0 -> links_ok (f g0 x)) ->
  links_ok g -> links_ok (fold_left f l g).
Proof.
  intros Hf. revert g. induction l as [|x l IH]; intros g H; simpl; [exact H|].
  apply IH, Hf, H.
Qed.

Lemma links_ok_comod_step now g f1 f2 : links_ok g -> links_ok (comod_step now g f1 f2).
Proof.
  intros H. unfold comod_step. apply links_ok_add_edge.
  eapply links_ok_ext; [| |exact H]; reflexivity.
Qed.

Lemma links_ok_comod now files : forall g,
  links_ok g -> links_ok (record_comodification now g files).
Proof.
  induction files as [|f1 rest IH]; intros g H; simpl; [exact H|].
  apply IH, links_ok_fold; [|exact H]. intros g0 x. apply links_ok_comod_step.
Qed.

Lemma links_ok_access ts cutoff now g a :
  links_ok g -> links_ok (record_access ts cutoff now g a).
Proof.
  intros H. unfold record_access. apply links_ok_fold.
  - intros g0 x. apply links_ok_add_edge.
  - eapply links_ok_ext; [| |exact H]; reflexivity.
Qed.

Lemma links_ok_reload g : links_ok g -> links_ok (from_dict (to_dict g)).
Proof.
  intros (K & S & E).
  assert (M : forall a b, b ∈ set_iter (neighbors_of (from_dict (to_dict g)) a)
                          <-> b ∈ set_iter (neighbors_of g a)).
  { intros a b. rewrite (from_to_iter g a). reflexivity. }
  split; [exact K|]. split.
  - intros a b. rewrite !M. apply S.
  - intros a b Hb. apply M, E in Hb. exact Hb.
Qed.

Lemma fold_add_edge_history {A} (f : HybridGraph -> A -> HybridGraph) (l : list A) g :
  (forall g0 x, access_history (f g0 x) = access_history g0) ->
  access_history (fold_left f l g) = access_history g.
Proof.
  intros Hf. revert g. induction l as [|x l IH]; intros g; simpl; [reflexivity|].
  rewrite IH. apply Hf.
Qed.

Lemma record_comodification_history now files : forall g,
  access_history (record_comodification now g files) = access_history g.
Proof.
  induction files as [|f1 rest IH]; intros g; simpl; [reflexivity|].
  rewrite IH. apply fold_add_edge_history. reflexivity.
Qed.

Lemma hit_nonneg x y f1 f2 : 0 <= hit x y f1 f2.
Proof.
  unfold hit, one_if.
  destruct (_ && _); destruct (_ && _); lia.
Qed.

Lemma hits_nonneg x y f1 rest : 0 <= hits x y f1 rest.
Proof.
  induction rest as [|f2 rest IH]; simpl; [lia|].
  pose proof (hit_nonneg x y f1 f2). lia.
Qed.

Lemma pair_count_nonneg x y files : 0 <= pair_count x y files.
Proof.
  induction files as [|f1 rest IH]; simpl; [lia|].
  pose proof (hits_nonneg x y f1 rest). lia.
Qed.

Lemma score_node_keys g : keys (nodes (calculate_node_scores g)) = keys (nodes g).
Proof.
  unfold calculate_node_scores, keys. simpl. rewrite map_map.
  apply map_ext. intros [k n]. reflexivity.
Qed.

Lemma sound_empty r : sound (empty r).
Proof.
  split; simpl.
  - apply NoDup_nil_2.
  - intros k n H. apply elem_of_nil in H. contradiction.
  - intros k e H. rewrite lookup_empty in H. discriminate.
  - intros a b. unfold neighbors_of. simpl. rewrite !lookup_empty. simpl.
    rewrite set_new_spec, !elem_of_nil. tauto.
  - intros a b. unfold neighbors_of. simpl. rewrite lookup_empty. simpl.
    rewrite set_new_spec, elem_of_nil. tauto.
  - unfold history_cap. lia.
  - reflexivity.
  - intros x y. unfold comod_get, comod_row. rewrite lookup_empty. simpl.
    rewrite lookup_empty. simpl. lia.
Qed.

Lemma sound_links g : sound g -> links_ok g.
Proof. intros [? ? K S E ? ? ?]. split; [exact K | split; [exact S | exact E]]. Qed.

Lemma sound_step g g' :
  sound g ->
  wf (nodes g') -> (forall k n, (k, n) ∈ nodes g' -> id n = k) ->
  links_ok g' ->
  (List.length (access_history g') <= history_cap)%nat ->
  (forall x y, comod_get (comod_matrix g') x y = comod_get (comod_matrix g') y x) ->
  (forall x y, 0 <= comod_get (comod_matrix g') x y) ->
  sound g'.
Proof. intros _ ? ? (K & S & E) ? ? ?. split; assumption. Qed.

Lemma reachable_is_sound g : reachable g -> sound g.
Proof.
  induction 1 as [r|g n _ IH|now g s t rel w _ IH|ts cutoff now g a _ IH
                 |now g files _ IH|g _ IH|g _ IH].
  - apply sound_empty.
  - pose proof IH as [W Kn K S E Hb Ms Mn].
    apply (sound_step g); try assumption.
    + apply wf_set, W.
    + intros k n' H. apply elem_of_set in H. destruct H as [[-> ->]|H]; auto.
    + split; [exact K | split; [exact S | exact E]].
  - pose proof IH as [W Kn K S E Hb Ms Mn].
    apply (sound_step g); try assumption.
    apply links_ok_add_edge, sound_links, IH.
  - pose proof IH as [W Kn K S E Hb Ms Mn].
    apply (sound_step g); try assumption.
    + rewrite record_access_nodes. destruct (get a (nodes g)); [apply wf_set|]; exact W.
    + rewrite record_access_nodes. destruct (get a (nodes g)) as [n0|] eqn:G; [|exact Kn].
      intros k n' H. apply elem_of_set in H. destruct H as [[-> ->]|H]; [|auto].
      simpl. apply Kn. clear -G.
      induction (nodes g) as [|[k v] d IHd]; simpl in G; [discriminate|].
      destruct (String.eqb_spec a k) as [->|]; [injection G as ->; left | right; auto].
    + apply links_ok_access, sound_links, IH.
    + rewrite record_access_history. cbv zeta. unfold last_n.
      destruct (history_cap <? _)%nat eqn:L.
      * rewrite length_skipn. unfold history_cap in *. lia.
      * apply Nat.ltb_ge in L. exact L.
    + unfold record_access. rewrite fold_add_edge_comod by reflexivity. exact Ms.
    + unfold record_access. rewrite fold_add_edge_comod by reflexivity. exact Mn.
  - pose proof IH as [W Kn K S E Hb Ms Mn].
    apply (sound_step g); try assumption.
    + rewrite record_comodification_nodes. exact W.
    + rewrite record_comodification_nodes. exact Kn.
    + apply links_ok_comod, sound_links, IH.
    + rewrite record_comodification_history. exact Hb.
    + intros x y. rewrite record_comodification_matrix, !count_pairs_get.
      rewrite (Ms x y), (pair_count_sym x y). reflexivity.
    + intros x y. rewrite record_comodification_matrix, count_pairs_get.
      pose proof (Mn x y). pose proof (pair_count_nonneg x y files). lia.
  - pose proof IH as [W Kn K S E Hb Ms Mn].
    apply (sound_step g); try assumption.
    + unfold wf. rewrite score_node_keys. exact W.
    + intros k n H. unfold calculate_node_scores in H. simpl in H.
      apply list_elem_of_fmap in H. destruct H as ([k0 n0] & Eq & H).
      injection Eq as -> ->. simpl. apply Kn, H.
    + split; [exact K | split; [exact S | exact E]].
  - pose proof IH as [W Kn K S E Hb Ms Mn].
    apply (sound_step g); try assumption.
    + rewrite from_to_nodes by exact W. exact W.
    + rewrite from_to_nodes by exact W. exact Kn.
    + apply links_ok_reload, sound_links, IH.
    + simpl. unfold history_cap. lia.
Qed.

Lemma reachable_fold {A} (f : HybridGraph -> A -> HybridGraph) l g :
  (forall g0 x, reachable g0 -> reachable (f g0 x)) ->
  reachable g -> reachable (fold_left f l g).
Proof.
  intros Hf. revert g. induction l as [|x l IH]; intros g H; simpl; [exact H|].
  apply IH, Hf, H.
Qed.

Lemma build_reachable now r root_join files call_graph git_output :
  reachable (build_hybrid_graph now r root_join files call_graph git_output).
Proof.
  unfold build_hybrid_graph. apply reachable_scores.
  assert (H1 : reachable (fold_left add_file_node files (empty r))).
  { apply reachable_fold; [|apply reachable_empty].
    intros g0 x H. apply reachable_add_node, H. }
  assert (H2 : reachable
                 match call_graph with
                 | Some cg => fold_left (add_structural_edge now cg) (CallGraph.edges cg)
                                (fold_left add_file_node files (empty r))
                 | None => fold_left add_file_node files (empty r)
                 end).
  { destruct call_graph as [cg|]; [|exact H1].
    apply reachable_fold; [|exact H1]. intros g0 e H. unfold add_structural_edge.
    destruct (CallGraph.nodes cg !! _); [|exact H].
    destruct (CallGraph.nodes cg !! _); [|exact H].
    destruct (String.eqb _ _); [exact H|]. apply reachable_add_edge, H. }
  destruct git_output as [output|]; [|exact H2].
  destruct (String.eqb output ""); [exact H2|].
  apply reachable_fold; [|exact H2]. intros g0 b H. unfold replay_commit.
  destruct (1 <? _)%nat; [|exact H].
  destruct (1 <? _)%nat; [|exact H].
  apply reachable_comod, H.
Qed.

Lemma omap_all_some {A B} (f : A -> option B) (g : B -> A) l :
  (forall x, x ∈ l -> exists y, f x = Some y /\ g y = x) ->
  map g (omap f l) = l.
Proof.
  induction l as [|x l IH]; intros H; simpl; [reflexivity|].
  destruct (H x) as (y & E & Hy); [left|]. rewrite E. simpl.
  f_equal; [exact Hy|]. apply IH. intros x' Hx'. apply H. right. exact Hx'.
Qed.

(** X16. Every graph [build_hybrid_graph] returns, and every graph that
    comes from an empty one by [add_node], [add_edge], [record_access],
    [record_comodification], [calculate_node_scores] and a reload of what
    [to_dict] wrote, in any order and number, is sound: no node id twice and
    every node under its id; every edge under the key of its source and
    target; [b] a neighbour of [a] exactly when [a] is a neighbour of [b],
    and then there is an edge between them; at most 1000 entries of
    history; a symmetric co-modification matrix without a negative count. On
    such a graph [get_related_nodes] ranks every neighbour: no neighbour is
    skipped for want of an edge. *)
Theorem reachable_graphs_are_sound :
  (forall now r root_join files call_graph git_output,
     reachable (build_hybrid_graph now r root_join files call_graph git_output))
  /\ (forall g, reachable g ->
        sound g
        /\ forall query_id,
             map fst (related_scored g query_id)
             = set_iter (neighbors_of g query_id)).
Proof.
  split; [intros; apply build_reachable|].
  intros g Hr. pose proof (reachable_is_sound g Hr) as Hs. split; [exact Hs|].
  intros q. unfold related_scored. apply omap_all_some.
  intros n Hn. destruct (neighbors_edge g Hs q n Hn) as [e He].
  rewrite He. simpl. eauto.
Qed.

(** *** [build_hybrid_graph]: the nodes *)

Lemma add_file_nodes files : forall g,
  NoDup (keys (nodes g) ++ map fst files) ->
  nodes (fold_left add_file_node files g)
  = (nodes g ++ map (fun f => (fst f, new_node (fst f) "file" (fst f) (snd f))) files)%list.
Proof.
  induction files as [|f files IH]; intros g H; simpl.
  - rewrite app_nil_r. reflexivity.
  - assert (Hf : fst f ∉ keys (nodes g)).
    { apply NoDup_app in H. destruct H as (_ & H & _). intros Hin.
      apply (H _ Hin). left. }
    rewrite IH.
    + unfold add_file_node, add_node. simpl. rewrite set_fresh by exact Hf.
      rewrite <- app_assoc. reflexivity.
    + unfold add_file_node, add_node. simpl. rewrite set_fresh by exact Hf.
      unfold keys in *. rewrite map_app. simpl. rewrite <- app_assoc. exact H.
Qed.

Lemma build_nodes_unfold now r root_join files call_graph git_output :
  nodes (build_hybrid_graph now r root_join files call_graph git_output)
  = map (fun kv => (fst kv, snd (score_node
           (build_hybrid_graph now r root_join files call_graph git_output) kv)))
      (nodes (fold_left add_file_node files (empty r))).
Proof.
  unfold build_hybrid_graph.
  set (g1 := fold_left add_file_node files (empty r)).
  set (g2 := match call_graph with Some cg => _ | None => g1 end).
  set (g3 := match git_output with Some output => _ | None => g2 end).
  assert (N2 : nodes g2 = nodes g1).
  { subst g2. destruct call_graph as [cg|]; [|reflexivity].
    apply fold_add_edge_nodes. intros. apply add_structural_edge_nodes. }
  assert (N3 : nodes g3 = nodes g1).
  { subst g3. destruct git_output as [output|]; [|exact N2].
    destruct (String.eqb output ""); [exact N2|].
    rewrite fold_add_edge_nodes; [exact N2|]. intros. apply replay_commit_nodes. }
  unfold calculate_node_scores at 1. simpl. rewrite N3.
  apply map_ext. intros [k n]. reflexivity.
Qed.

(** X17. The nodes of a built graph are the files that were found, in the
    order in which they were found: when no path is found twice, the graph
    has one node for every file, with the path of the file as key, id and
    path, the file's name as name, the type 'file' and an access count
    of 0, whatever the call graph and the commit log hold. Neither adds a
    node. *)
Theorem build_nodes_are_files (now r : string) (root_join : string -> string)
  (files : list (string * string)) (call_graph : option CallGraph.CallGraph)
  (git_output : option string) :
  NoDup (map fst files) ->
  map (fun kv => (fst kv, id (snd kv), path (snd kv), name (snd kv),
                  node_type (snd kv), access_count (snd kv)))
    (nodes (build_hybrid_graph now r root_join files call_graph git_output))
  = map (fun f => (fst f, fst f, fst f, snd f, "file"%string, 0)) files.
Proof.
  intros Hnd. rewrite build_nodes_unfold, add_file_nodes by exact Hnd.
  simpl. rewrite !map_map. apply map_ext. intros [p nm]. reflexivity.
Qed.

(** *** [build_hybrid_graph]: the structural edges *)

Lemma update_weight_structural e rel w :
  structural_weight (update_weight e rel w)
  = if String.eqb rel "calls" || String.eqb rel "imports" || String.eqb rel "inherits"
    then pymax (structural_weight e) w
    else structural_weight e.
Proof.
  unfold update_weight.
  destruct (_ || _); [reflexivity|].
  destruct (String.eqb rel _); [reflexivity|].
  destruct (String.eqb rel _); [reflexivity|].
  destruct (String.eqb rel _); reflexivity.
Qed.

Lemma pymax_one_one : pymax 1 1 = 1%float.
Proof. reflexivity. Qed.

Lemma structural_capped_add_edge now g s t rel w :
  gentle rel w -> structural_capped g -> structural_capped (add_edge now g s t rel w).
Proof.
  intros Hg Hc. unfold structural_capped, add_edge. simpl.
  apply map_Forall_insert_2; [|exact Hc].
  rewrite update_weight_structural. simpl.
  assert (H0 : PrimFloat.leb
                 (structural_weight (default (new_edge s t) (edges g !! edge_id s t))) 1
               = true).
  { destruct (edges g !! edge_id s t) as [e|] eqn:E; simpl; [exact (Hc _ _ E)|reflexivity]. }
  destruct (_ || _) eqn:K; [|exact H0].
  destruct Hg as [->|Hg]; [|congruence].
  rewrite pymax_one by exact H0. reflexivity.
Qed.

Lemma structural_link_add_edge now g s t rel w a b kind :
  gentle rel w -> structural_link a b kind g ->
  structural_link a b kind (add_edge now g s t rel w).
Proof.
  intros Hg ((he & He & Hw & Hk) & Hn). split.
  - destruct (decide (edge_id a b = edge_id s t)) as [Eq|Hne].
    + rewrite Eq, add_edge_lookup. unfold edge_or_new. rewrite <- Eq, He. simpl.
      eexists. split; [reflexivity|]. split.
      * rewrite update_weight_structural. simpl. rewrite Hw.
        destruct (_ || _) eqn:K; [|reflexivity].
        destruct Hg as [->|Hg]; [reflexivity | congruence].
      * rewrite update_weight_types. simpl. case_bool_decide; [exact Hk|].
        rewrite elem_of_app. auto.
    + rewrite add_edge_lookup_ne by exact Hne. eauto.
  - rewrite add_edge_neighbors. auto.
Qed.

Lemma structural_link_new now g s t rel :
  structural_kind rel -> structural_capped g ->
  structural_link s t rel (add_edge now g s t rel 1).
Proof.
  intros Hk Hc. split.
  - rewrite add_edge_lookup. eexists. split; [reflexivity|]. split.
    + destruct (update_structural (touch_edge now (edge_or_new g s t) rel) rel 1 Hk)
        as (-> & _). simpl. apply pymax_one. unfold edge_or_new.
      destruct (edges g !! edge_id s t) as [e|] eqn:E; simpl; [exact (Hc _ _ E)|reflexivity].
    + apply touched_types.
  - rewrite add_edge_neighbors. auto.
Qed.

Lemma keeps_fold {A} (P : HybridGraph -> Prop) (f : HybridGraph -> A -> HybridGraph) l g :
  (forall g0 x, P g0 -> P (f g0 x)) -> P g -> P (fold_left f l g).
Proof.
  intros Hf. revert g. induction l as [|x l IH]; intros g H; simpl; [exact H|].
  apply IH, Hf, H.
Qed.

Lemma keeps_comod (P : HybridGraph -> Prop) now files :
  (forall g s t w m, P g ->
     P (add_edge now {| root := root g; nodes := nodes g; edges := edges g;
                        neighbors := neighbors g; access_history := access_history g;
                        comod_matrix := m |} s t "modified_together" w)) ->
  forall g, P g -> P (record_comodification now g files).
Proof.
  intros Hs. induction files as [|f1 rest IH]; intros g H; simpl; [exact H|].
  apply IH, keeps_fold; [|exact H]. intros g0 x H0. unfold comod_step. apply Hs, H0.
Qed.

Lemma structural_link_ext a b kind g m :
  structural_link a b kind g ->
  structural_link a b kind
    {| root := root g; nodes := nodes g; edges := edges g; neighbors := neighbors g;
       access_history := access_history g; comod_matrix := m |}.
Proof. intros H. exact H. Qed.

Lemma structural_link_step a b kind now cg g e :
  structural_link a b kind g -> structural_link a b kind (add_structural_edge now cg g e).
Proof.
  intros H. unfold add_structural_edge.
  destruct (CallGraph.nodes cg !! _); [|exact H].
  destruct (CallGraph.nodes cg !! _); [|exact H].
  destruct (String.eqb _ _); [exact H|].
  apply structural_link_add_edge; [left; reflexivity | exact H].
Qed.

Lemma structural_capped_step now cg g e :
  structural_capped g -> structural_capped (add_structural_edge now cg g e).
Proof.
  intros H. unfold add_structural_edge.
  destruct (CallGraph.nodes cg !! _); [|exact H].
  destruct (CallGraph.nodes cg !! _); [|exact H].
  destruct (String.eqb _ _); [exact H|].
  apply structural_capped_add_edge; [left; reflexivity | exact H].
Qed.

Lemma structural_link_replay a b kind now root_join g block :
  structural_link a b kind g -> structural_link a b kind (replay_commit now root_join g block).
Proof.
  intros H. unfold replay_commit.
  destruct (1 <? _)%nat; [|exact H].
  destruct (1 <? _)%nat; [|exact H].
  apply (keeps_comod (structural_link a b kind)); [|exact H].
  intros g0 s t w m H0.
  apply structural_link_add_edge; [right; reflexivity|].
  apply structural_link_ext, H0.
Qed.

(** X18. Every edge of the call graph between two nodes of different files,
    of kind 'calls', 'imports' or 'inherits', shows in the built graph: there
    is an edge between the two files, under the key of the source's file and
    the target's file, with structural weight exactly 1.0 and the kind among
    its relationship types, and the target's file is a neighbour of the
    source's file. This holds whether or not the two files are nodes of the
    graph, and whatever the commit log adds afterwards. *)
Theorem build_structural_edges (now r : string) (root_join : string -> string)
  (files : list (string * string)) (cg : CallGraph.CallGraph)
  (git_output : option string) (e : CallGraph.GraphEdge)
  (source_node target_node : CallGraph.GraphNode) :
  In e (CallGraph.edges cg) ->
  CallGraph.nodes cg !! CallGraph.source e = Some source_node ->
  CallGraph.nodes cg !! CallGraph.target e = Some target_node ->
  CallGraph.file source_node <> CallGraph.file target_node ->
  structural_kind (CallGraph.edge_type e) ->
  structural_link (CallGraph.file source_node) (CallGraph.file target_node)
    (CallGraph.edge_type e)
    (build_hybrid_graph now r root_join files (Some cg) git_output).
Proof.
  intros Hin Hs Ht Hne Hk. unfold build_hybrid_graph.
  set (g1 := fold_left add_file_node files (empty r)).
  assert (C1 : structural_capped g1).
  { subst g1. apply (keeps_fold structural_capped); [intros g0 x H; exact H|].
    apply map_Forall_empty. }
  assert (L2 : structural_link (CallGraph.file source_node) (CallGraph.file target_node)
                 (CallGraph.edge_type e)
                 (fold_left (add_structural_edge now cg) (CallGraph.edges cg) g1)).
  { revert Hin C1. generalize g1. induction (CallGraph.edges cg) as [|e' l IH];
      intros g Hin C; [contradiction|]. simpl.
    destruct Hin as [->|Hin].
    - apply keeps_fold; [intros; apply structural_link_step; assumption|].
      unfold add_structural_edge. rewrite Hs, Ht.
      destruct (String.eqb_spec (CallGraph.file source_node) (CallGraph.file target_node));
        [contradiction|].
      apply structural_link_new; assumption.
    - apply IH; [exact Hin|]. apply structural_capped_step, C. }
  assert (L3 : forall g, structural_link (CallGraph.file source_node)
                           (CallGraph.file target_node) (CallGraph.edge_type e) g ->
                         structural_link (CallGraph.file source_node)
                           (CallGraph.file target_node) (CallGraph.edge_type e)
                           (calculate_node_scores g)).
  { intros g H. exact H. }
  apply L3. destruct git_output as [output|]; [|exact L2].
  destruct (String.eqb output ""); [exact L2|].
  apply keeps_fold; [|exact L2]. intros. apply structural_link_replay. assumption.
Qed.

(** *** [build_hybrid_graph]: the co-modification matrix *)

Section Injective.
Variable root_join : string -> string.
Hypothesis root_join_inj : forall a b, root_join a = root_join b -> a = b.

Lemma eqb_root_join a b : String.eqb (root_join a) (root_join b) = String.eqb a b.
Proof.
  destruct (String.eqb_spec a b) as [->|Hne]; [apply String.eqb_refl|].
  apply String.eqb_neq. intros H. apply Hne, root_join_inj, H.
Qed.

Lemma pair_count_root_join x y files :
  pair_count (root_join x) (root_join y) (map root_join files) = pair_count x y files.
Proof.
  induction files as [|f1 rest IH]; simpl; [reflexivity|].
  rewrite IH. f_equal.
  clear IH. induction rest as [|f2 rest IH]; simpl; [reflexivity|].
  rewrite IH. unfold hit. rewrite !eqb_root_join. reflexivity.
Qed.

Lemma replay_commit_matrix now g block x y :
  comod_get (comod_matrix (replay_commit now root_join g block)) (root_join x) (root_join y)
  = comod_get (comod_matrix g) (root_join x) (root_join y)
    + Correlation.commit_pairs x y block.
Proof.
  unfold replay_commit, Correlation.commit_pairs, Correlation.block_lines,
    Correlation.commit_py_files, Correlation.commit_files.
  set (lines := PyStr.split PyStr.nl (PyStr.strip block)).
  rewrite (PyStrFacts.filter_filter_implied _ _ _ PyStrFacts.endswith_py_nonblank).
  set (py := List.filter (PyStr.endswith ".py") (tl lines)).
  assert (Hle : (List.length py
                 <= List.length (List.filter
                      (fun f => negb (String.eqb (PyStr.strip f) "")) (tl lines)))%nat).
  { subst py.
    rewrite <- (PyStrFacts.filter_filter_implied _ _ (tl lines)
                  PyStrFacts.endswith_py_nonblank).
    apply List.filter_length_le. }
  destruct (1 <? List.length lines)%nat eqn:L1.
  - rewrite length_map. destruct (1 <? List.length py)%nat eqn:L2.
    + apply Nat.ltb_lt in L2.
      destruct (_ <? 2)%nat eqn:L3; [apply Nat.ltb_lt in L3; lia|].
      rewrite record_comodification_matrix, count_pairs_get, pair_count_root_join.
      reflexivity.
    + apply Nat.ltb_ge in L2.
      rewrite (pair_count_short x y py) by lia.
      destruct (_ <? 2)%nat; lia.
  - apply Nat.ltb_ge in L1.
    assert (Hpy : py = []).
    { subst py. destruct lines as [|l0 [|l1 ls]]; simpl in *; try reflexivity; lia. }
    rewrite Hpy. simpl. destruct (_ <? 2)%nat; lia.
Qed.

Lemma replay_log_matrix now blocks : forall g x y,
  comod_get (comod_matrix (fold_left (replay_commit now root_join) blocks g))
    (root_join x) (root_join y)
  = comod_get (comod_matrix g) (root_join x) (root_join y)
    + Correlation.log_pairs x y blocks.
Proof.
  induction blocks as [|b blocks IH]; intros g x y; simpl; [lia|].
  rewrite IH, replay_commit_matrix. lia.
Qed.
End Injective.

Lemma comod_get_empty x y : comod_get ∅ x y = 0.
Proof.
  unfold comod_get, comod_row. rewrite lookup_empty. simpl. rewrite lookup_empty.
  reflexivity.
Qed.

(** X19. The two miners count the same on the same log. Replaying the text
    of a commit log, [build_hybrid_graph] leaves in its co-modification matrix,
    at the entry of the root-joined paths of [x] and [y], the count that
    [analyze_git_history] of correlation_tracker.py leaves at the entry of
    [x] and [y] when it starts from an empty table, for all [x] and [y],
    provided that joining the root to two different lines gives two
    different paths. The two read a block differently (the second
    drops the blank lines and asks for two files of any kind before it looks
    at the endings), and still count the same pairs. *)
Theorem miners_agree (now r : string) (root_join : string -> string)
  (files : list (string * string)) (call_graph : option CallGraph.CallGraph)
  (output : string) (x y : string) :
  (forall a b, root_join a = root_join b -> a = b) ->
  comod_get
    (comod_matrix (build_hybrid_graph now r root_join files call_graph (Some output)))
    (root_join x) (root_join y)
  = comod_get
      (Correlation.comod_counts
         (Correlation.analyze_git_history
            {| Correlation.root := r; Correlation.comod_counts := ∅;
               Correlation.commits_analyzed := 0 |} (Some output)))
      x y.
Proof.
  intros Hinj. unfold build_hybrid_graph, Correlation.analyze_git_history.
  set (g1 := fold_left add_file_node files (empty r)).
  set (g2 := match call_graph with Some cg => _ | None => g1 end).
  assert (M2 : comod_matrix g2 = ∅).
  { subst g2. assert (M1 : comod_matrix g1 = ∅).
    { subst g1. rewrite fold_add_edge_comod by reflexivity. reflexivity. }
    destruct call_graph as [cg|]; [|exact M1].
    rewrite fold_add_edge_comod; [exact M1|].
    intros g0 e. unfold add_structural_edge.
    destruct (CallGraph.nodes cg !! _); [|reflexivity].
    destruct (CallGraph.nodes cg !! _); [|reflexivity].
    destruct (String.eqb _ _); reflexivity. }
  destruct (String.eqb output ""); simpl.
  - rewrite M2. rewrite !comod_get_empty. reflexivity.
  - rewrite (replay_log_matrix root_join Hinj), M2, analyze_log_get. simpl.
    reflexivity.
Qed.

(** *** [hybrid_search] *)

Lemma set_update_elem (l : list string) (s : pyset) t :
  t ∈ set_iter (fold_left (fun s t => set_add t s) l s) <-> t ∈ l \/ t ∈ set_iter s.
Proof.
  revert s. induction l as [|x l IH]; intros s; simpl.
  - rewrite elem_of_nil. tauto.
  - rewrite IH, set_add_spec, elem_of_cons. tauto.
Qed.

Lemma rel_types_elem node items t : forall s,
  t ∈ set_iter (fold_left (rel_types_step node) items s)
  <-> t ∈ set_iter s
      \/ exists k e, (k, e) ∈ items /\ PyStr.contains (id node) k = true
                     /\ t ∈ relationship_types e.
Proof.
  induction items as [|[k e] items IH]; intros s; simpl.
  - split; [auto|]. intros [H|(k & e & H & _)]; [exact H|].
    apply elem_of_nil in H. contradiction.
  - rewrite IH. unfold rel_types_step. simpl.
    destruct (PyStr.contains (id node) k) eqn:C.
    + rewrite set_update_elem. split.
      * intros [[H|H]|(k' & e' & Hin & Hc & Ht)]; [|auto|].
        -- right. exists k, e. rewrite elem_of_cons. auto.
        -- right. exists k', e'. rewrite elem_of_cons. auto.
      * intros [H|(k' & e' & Hin & Hc & Ht)]; [auto|].
        apply elem_of_cons in Hin. destruct Hin as [[= -> ->]|Hin]; [auto|].
        right. eauto.
    + split.
      * intros [H|(k' & e' & Hin & Hc & Ht)]; [auto|].
        right. exists k', e'. rewrite elem_of_cons. auto.
      * intros [H|(k' & e' & Hin & Hc & Ht)]; [auto|].
        apply elem_of_cons in Hin. destruct Hin as [[= -> ->]|Hin]; [congruence|].
        right. eauto.
Qed.

(** X20. [hybrid_search], whatever the order in which the edges are
    iterated. Its results are those of [search], in the same order, each with
    the path of the node and its score. The 'relationship_types' of a result
    hold no type twice, and hold exactly the relationship types of the edges
    whose key contains the id of the node as a substring, so that an edge
    between two other files counts when its key contains the id. *)
Theorem hybrid_search_results (g : HybridGraph)
  (edge_items : list (string * HybridEdge)) (query : string) (limit : Z) :
  edge_items ≡ₚ map_to_list (edges g) ->
  map (fun x => (fst (fst x), snd (fst x))) (hybrid_search g edge_items query limit)
  = map (fun r => (path (fst r), snd r)) (search g query limit)
  /\ (forall p s types,
        (p, s, types) ∈ hybrid_search g edge_items query limit ->
        NoDup types
        /\ exists node,
             (node, s) ∈ search g query limit /\ path node = p
             /\ forall t, t ∈ types
                  <-> exists k e, edges g !! k = Some e
                                  /\ PyStr.contains (id node) k = true
                                  /\ t ∈ relationship_types e).
Proof.
  intros Hl. unfold hybrid_search. split.
  - rewrite map_map. apply map_ext. intros [node s]. reflexivity.
  - intros p s types H. apply list_elem_of_fmap in H.
    destruct H as ([node s'] & E & Hin). simpl in E. injection E as -> -> ->.
    split; [apply set_iter_nodup|]. exists node. split; [exact Hin|].
    split; [reflexivity|]. intros t. rewrite rel_types_elem, set_new_spec. split.
    + intros [H|(k & e & Hk & Hc & Ht)]; [apply elem_of_nil in H; contradiction|].
      exists k, e. rewrite Hl in Hk. apply elem_of_map_to_list in Hk. auto.
    + intros (k & e & Hk & Hc & Ht). right. exists k, e.
      rewrite Hl. rewrite elem_of_map_to_list. auto.
Qed.

(** *** Counts as floats *)

Lemma binary_normalize_nonneg n :
  0 <= n -> SFnonneg (binary_normalize prec emax n 0 false).
Proof.
  intros H. unfold binary_normalize. destruct n as [|p|p]; [exact I| |lia].
  unfold binary_round. destruct (shl_align _ _ _) as [mz ez].
  apply binary_round_aux_nonneg. lia.
Qed.

(** [float(n)] of a count below 2^63 is not negative. *)
Lemma float_of_int_nonneg n :
  0 <= n < 2 ^ 63 -> SFnonneg (Prim2SF (float_of_int n)).
Proof.
  intros H. unfold float_of_int.
  assert (E : binary_normalize prec emax n 0 false
              = Prim2SF (of_uint63 (Uint63Axioms.of_Z n))).
  { rewrite of_uint63_spec, Uint63.of_Z_spec. rewrite Z.mod_small; [reflexivity|].
    exact H. }
  rewrite E, SF2Prim_Prim2SF, <- E. apply binary_normalize_nonneg. lia.
Qed.

Lemma SFmul_nonneg_pos x y :
  SFnonneg x -> SFpos y -> SFnonneg (SFmul prec emax x y).
Proof.
  destruct x as [[|]|[|]| |[|] mx ex], y as [[|]|[|]| |[|] my ey]; simpl;
    try tauto; intros _ _.
  apply binary_round_aux_nonneg. lia.
Qed.

Lemma scaled_count_unit n c :
  0 <= n < 2 ^ 63 -> SFpos (Prim2SF c) ->
  in_unit (pymin 1 (float_of_int n * c)) = true.
Proof.
  intros Hn Hc. apply nonneg_pymin_unit. rewrite mul_spec.
  apply SFmul_nonneg_pos; [apply float_of_int_nonneg, Hn | exact Hc].
Qed.

(** A bound on every count of a matrix is a bound on every entry read,
    the missing ones included. *)
Lemma comod_get_below (m : gmap string (gmap string Z)) (N : Z) :
  0 < N ->
  map_Forall (fun _ row => map_Forall (fun _ c => c < N) row) m ->
  forall x y, comod_get m x y < N.
Proof.
  intros HN H x y. unfold comod_get, comod_row.
  destruct (m !! x) as [row|] eqn:Ex; simpl.
  - destruct (row !! y) as [c|] eqn:Ey; simpl; [|exact HN].
    exact (H x row Ex y c Ey).
  - rewrite lookup_empty. exact HN.
Qed.

(** *** Weights between 0 and 1 under co-modification *)

Lemma comod_step_counts now g f1 f2 x y :
  comod_get (comod_matrix (comod_step now g f1 f2)) x y
  = comod_get (comod_matrix g) x y + hit x y f1 f2.
Proof. rewrite comod_step_matrix. apply count_pair_get. Qed.

Lemma comod_row_counts now f1 rest g x y :
  comod_get (comod_matrix (fold_left (fun acc f2 => comod_step now acc f1 f2) rest g)) x y
  = comod_get (comod_matrix g) x y + hits x y f1 rest.
Proof. rewrite comod_row_matrix. apply count_row_get. Qed.

Lemma comod_counts_grow now files g x y :
  comod_get (comod_matrix g) x y
  <= comod_get (comod_matrix (record_comodification now g files)) x y.
Proof.
  rewrite record_comodification_matrix, count_pairs_get.
  pose proof (pair_count_nonneg x y files). lia.
Qed.

Lemma comod_step_range now g f1 f2 :
  edges_in_range g -> counts_nonneg g ->
  comod_get (comod_matrix (comod_step now g f1 f2)) f1 f2 < 2 ^ 63 ->
  edges_in_range (comod_step now g f1 f2).
Proof.
  intros He Hn Hs. unfold comod_step.
  apply (add_edge_range now
           {| root := root g; nodes := nodes g; edges := edges g;
              neighbors := neighbors g; access_history := access_history g;
              comod_matrix := comod_incr (comod_incr (comod_matrix g) f1 f2) f2 f1 |});
    [|exact He].
  apply scaled_count_unit; [|exact I].
  rewrite comod_step_counts in Hs.
  change (comod_incr (comod_incr (comod_matrix g) f1 f2) f2 f1)
    with (Correlation.count_pair (comod_matrix g) f1 f2).
  rewrite count_pair_get.
  pose proof (Hn f1 f2). pose proof (hit_nonneg f1 f2 f1 f2). lia.
Qed.

Lemma comod_step_nonneg now g f1 f2 :
  counts_nonneg g -> counts_nonneg (comod_step now g f1 f2).
Proof.
  intros Hn x y. rewrite comod_step_counts.
  pose proof (Hn x y). pose proof (hit_nonneg x y f1 f2). lia.
Qed.

Lemma comod_row_range now f1 rest : forall g,
  edges_in_range g -> counts_nonneg g ->
  counts_small (fold_left (fun acc f2 => comod_step now acc f1 f2) rest g) ->
  edges_in_range (fold_left (fun acc f2 => comod_step now acc f1 f2) rest g)
  /\ counts_nonneg (fold_left (fun acc f2 => comod_step now acc f1 f2) rest g).
Proof.
  induction rest as [|f2 rest IH]; intros g He Hn Hs; simpl; [auto|].
  simpl in Hs. apply IH; [|apply comod_step_nonneg, Hn | exact Hs].
  apply comod_step_range; [exact He | exact Hn|].
  pose proof (Hs f1 f2) as H. rewrite comod_row_counts in H.
  pose proof (hits_nonneg f1 f2 f1 rest). lia.
Qed.

Lemma record_comodification_range now files : forall g,
  edges_in_range g -> counts_nonneg g ->
  counts_small (record_comodification now g files) ->
  edges_in_range (record_comodification now g files)
  /\ counts_nonneg (record_comodification now g files).
Proof.
  induction files as [|f1 rest IH]; intros g He Hn Hs; simpl; [auto|].
  simpl in Hs.
  destruct (comod_row_range now f1 rest g He Hn) as [He1 Hn1].
  { intros x y. eapply Z.le_lt_trans; [|apply (Hs x y)]. apply comod_counts_grow. }
  apply IH; assumption.
Qed.

Lemma replay_commit_range now root_join g block :
  edges_in_range g -> counts_nonneg g ->
  counts_small (replay_commit now root_join g block) ->
  edges_in_range (replay_commit now root_join g block)
  /\ counts_nonneg (replay_commit now root_join g block).
Proof.
  unfold replay_commit.
  destruct (1 <? _)%nat; [|auto].
  destruct (1 <? _)%nat; [|auto].
  apply record_comodification_range.
Qed.

Lemma replay_commit_grow now root_join g block x y :
  comod_get (comod_matrix g) x y
  <= comod_get (comod_matrix (replay_commit now root_join g block)) x y.
Proof.
  unfold replay_commit.
  destruct (1 <? _)%nat; [|lia].
  destruct (1 <? _)%nat; [|lia].
  apply comod_counts_grow.
Qed.

Lemma replay_log_grow now root_join blocks : forall g x y,
  comod_get (comod_matrix g) x y
  <= comod_get (comod_matrix (fold_left (replay_commit now root_join) blocks g)) x y.
Proof.
  induction blocks as [|b blocks IH]; intros g x y; simpl; [lia|].
  eapply Z.le_trans; [apply (replay_commit_grow now root_join g b)|apply IH].
Qed.

Lemma replay_log_range now root_join blocks : forall g,
  edges_in_range g -> counts_nonneg g ->
  counts_small (fold_left (replay_commit now root_join) blocks g) ->
  edges_in_range (fold_left (replay_commit now root_join) blocks g).
Proof.
  induction blocks as [|b blocks IH]; intros g He Hn Hs; simpl; [exact He|].
  simpl in Hs.
  destruct (replay_commit_range now root_join g b He Hn) as [He1 Hn1].
  { intros x y. eapply Z.le_lt_trans; [|apply (Hs x y)]. apply replay_log_grow. }
  apply IH; assumption.
Qed.

Lemma map_fold_sum_nonneg (m : gmap string Z) :
  map_Forall (fun _ v => 0 <= v) m -> 0 <= map_fold (fun _ v acc => v + acc) 0 m.
Proof.
  induction m as [|k v m Hk Hfold IH] using map_first_key_ind; intros H.
  - rewrite map_fold_empty. lia.
  - rewrite map_fold_insert_first_key by assumption.
    apply map_Forall_insert in H; [|exact Hk]. destruct H as [Hv Hm].
    specialize (IH Hm). lia.
Qed.

Lemma comod_total_nonneg g k : counts_nonneg g -> 0 <= comod_total g k.
Proof.
  intros Hn. unfold comod_total. apply map_fold_sum_nonneg.
  intros y v Hv. specialize (Hn k y). unfold comod_get in Hn. rewrite Hv in Hn.
  exact Hn.
Qed.

(** X21. On a built graph whose co-modification counts are below 2^63,
    every edge has its five weights between 0 and 1, whatever the call graph
    and the commit log hold; and every node whose neighbour count and whose
    row total of the matrix are below 2^63 has a structural, a temporal and
    a co-modification score between 0 and 1. *)
Theorem build_weights_in_range (now r : string) (root_join : string -> string)
  (files : list (string * string)) (call_graph : option CallGraph.CallGraph)
  (git_output : option string) :
  let g := build_hybrid_graph now r root_join files call_graph git_output in
  counts_small g ->
  edges_in_range g
  /\ (forall k n, (k, n) ∈ nodes g ->
        neighbor_count g k < 2 ^ 63 -> comod_total g k < 2 ^ 63 ->
        in_unit (structural_score n) = true
        /\ in_unit (temporal_score n) = true
        /\ in_unit (comod_score n) = true).
Proof.
  intros g Hs.
  assert (Hr : reachable g) by apply build_reachable.
  assert (Hn : counts_nonneg g)
    by (intros x y; apply (matrix_nonneg g (reachable_is_sound g Hr))).
  split.
  - subst g. unfold build_hybrid_graph in *.
    set (g1 := fold_left add_file_node files (empty r)) in *.
    set (g2 := match call_graph with Some cg => _ | None => g1 end) in *.
    assert (E1 : edges_in_range g1).
    { subst g1. apply (keeps_fold edges_in_range); [intros g0 x H; exact H|].
      apply map_Forall_empty. }
    assert (M1 : comod_matrix g1 = ∅).
    { subst g1. rewrite fold_add_edge_comod by reflexivity. reflexivity. }
    assert (E2 : edges_in_range g2).
    { subst g2. destruct call_graph as [cg|]; [|exact E1].
      apply (keeps_fold edges_in_range); [|exact E1].
      intros g0 e H. unfold add_structural_edge.
      destruct (CallGraph.nodes cg !! _); [|exact H].
      destruct (CallGraph.nodes cg !! _); [|exact H].
      destruct (String.eqb _ _); [exact H|].
      apply add_edge_range; [reflexivity | exact H]. }
    assert (M2 : comod_matrix g2 = ∅).
    { subst g2. destruct call_graph as [cg|]; [|exact M1].
      rewrite fold_add_edge_comod; [exact M1|].
      intros g0 e. unfold add_structural_edge.
      destruct (CallGraph.nodes cg !! _); [|reflexivity].
      destruct (CallGraph.nodes cg !! _); [|reflexivity].
      destruct (String.eqb _ _); reflexivity. }
    assert (N2 : counts_nonneg g2).
    { intros x y. rewrite M2, comod_get_empty. lia. }
    unfold edges_in_range, calculate_node_scores. simpl.
    destruct git_output as [output|]; [|exact E2].
    destruct (String.eqb output ""); [exact E2|].
    apply replay_log_range; [exact E2 | exact N2 | exact Hs].
  - intros k n Hin Hk Hc.
    apply list_elem_of_lookup in Hin. destruct Hin as [i Hi].
    destruct (build_unfold now r root_join files call_graph git_output) as (g3 & E & T).
    fold g in E.
    assert (Hi' := Hi). rewrite E in Hi'.
    destruct (calculate_node_scores_inv g3 i k n Hi') as [n0 H0].
    destruct (calculate_node_scores_lookup g3 i k n0 H0) as (n' & H1 & S1 & S2 & S3).
    rewrite H1 in Hi'. injection Hi' as <-.
    rewrite Forall_forall in T. specialize (T (k, n0)). simpl in T.
    split; [|split].
    + rewrite S1, mul_comm. apply scaled_count_unit; [|exact I].
      split; [unfold neighbor_count; lia|].
      replace (neighbor_count g3 k) with (neighbor_count g k); [exact Hk|].
      rewrite E. reflexivity.
    + rewrite S3, T; [reflexivity|].
      apply list_elem_of_lookup. eauto.
    + rewrite S2, mul_comm. apply scaled_count_unit; [|exact I].
      replace (comod_total g3 k) with (comod_total g k) by (rewrite E; reflexivity).
      split; [apply comod_total_nonneg, Hn | exact Hc].
Qed.

End Facts.
End HybridInvariantFacts.

(** ** The fusion graph: the ranking of the neighbours *)

Module HybridRankingFacts.
Import PyFloat PyFloatFacts PyDict PyDictFacts Hybrid HybridQueryFacts
  HybridInvariantFacts.

Section Facts.
Context `{R : PyRuntime}.

(** What [get_related_nodes] ranks: the neighbours that have an edge, each
    with the combined weight of its edge. *)
Lemma related_scored_spec g query_id n s :
  (n, s) ∈ related_scored g query_id
  <-> n ∈ set_iter (neighbors_of g query_id)
      /\ exists e, edge_between g query_id n = Some e /\ s = combined_weight_spec e.
Proof.
  unfold related_scored. rewrite list_elem_of_omap. split.
  - intros (x & Hx & Hn).
    destruct (edge_between g query_id x) as [e|] eqn:E; simpl in Hn; [|discriminate].
    injection Hn as <- <-. split; [exact Hx|]. exists e. split; [exact E|reflexivity].
  - intros (Hn & e & E & ->). exists n. split; [exact Hn|].
    rewrite E. reflexivity.
Qed.

(** After [add_edge(s, t)] each end ranks the other. *)
Lemma add_edge_related now g s t rel w :
  exists e,
    edges (add_edge now g s t rel w) !! edge_id s t = Some e
    /\ (t, combined_weight_spec e) ∈ related_scored (add_edge now g s t rel w) s
    /\ exists e', (s, combined_weight_spec e')
                  ∈ related_scored (add_edge now g s t rel w) t.
Proof.
  assert (E : exists e, edges (add_edge now g s t rel w) !! edge_id s t = Some e).
  { eexists. unfold add_edge. simpl. apply lookup_insert_eq. }
  destruct E as [e E]. exists e. split; [exact E|]. split.
  - apply related_scored_spec. split.
    + apply add_edge_neighbors. left. split; reflexivity.
    + exists e. split; [|reflexivity]. unfold edge_between. rewrite E. reflexivity.
  - unfold edge_between.
    destruct (edges (add_edge now g s t rel w) !! edge_id t s) as [e'|] eqn:E'.
    + exists e'. apply related_scored_spec. split.
      * apply add_edge_neighbors. right. left. split; reflexivity.
      * exists e'. split; [|reflexivity]. unfold edge_between. rewrite E'. reflexivity.
    + exists e. apply related_scored_spec. split.
      * apply add_edge_neighbors. right. left. split; reflexivity.
      * exists e. split; [|reflexivity]. unfold edge_between. rewrite E'. exact E.
Qed.

(** C1, as the code has it. [relatedNodes(id, limit)] for an [id] that is
    not a key of [nodes] is the empty list. For a known [id] and a count
    [limit] it is the first [limit] entries of a ranking of [id]'s
    neighbours: the ranking holds exactly the neighbours that have an edge,
    each once, with the combined weight
    [0.3 * structural + 0.2 * temporal + 0.3 * comod + 0.2 * semantic] of its
    edge; when the scores are numbers it is in descending score order, and
    entries of equal score stand in the order in which the neighbour set of
    [id] is iterated, which is the order in which the loop inserts them into
    its score dictionary. That order is the interpreter's: a Python set does
    not keep the order in which [add_edge] inserted the neighbours. The
    scores are numbers when the weights of the edges are in the range of the
    data model, between 0 and 1. After [add_edge(s, t)] the two ends rank
    each other. *)
Theorem related_nodes_ranked (g : HybridGraph) (query_id : string) (limit : Z) :
  (query_id ∉ keys (nodes g) -> get_related_nodes g query_id limit = [])
  /\ (query_id ∈ keys (nodes g) -> 0 <= limit ->
      exists ranked,
        get_related_nodes g query_id limit = firstn (Z.to_nat limit) ranked
        /\ ranked ≡ₚ related_scored g query_id
        /\ (Forall (fun p => is_number (snd p)) (related_scored g query_id) ->
            StronglySorted (desc snd) ranked
            /\ forall v, with_key snd v ranked
                         = with_key snd v (related_scored g query_id)))
  /\ (map_Forall (fun _ e => weights_in_range e = true) (edges g) ->
      Forall (fun p => is_number (snd p)) (related_scored g query_id))
  /\ (forall n s,
        (n, s) ∈ related_scored g query_id
        <-> n ∈ set_iter (neighbors_of g query_id)
            /\ exists e, edge_between g query_id n = Some e
                         /\ s = combined_weight_spec e)
  /\ NoDup (map fst (related_scored g query_id))
  /\ (forall now s t rel w,
        exists e,
          edges (add_edge now g s t rel w) !! edge_id s t = Some e
          /\ (t, combined_weight_spec e) ∈ related_scored (add_edge now g s t rel w) s
          /\ exists e', (s, combined_weight_spec e')
                        ∈ related_scored (add_edge now g s t rel w) t).
Proof.
  rewrite get_related_nodes_unfold.
  split; [|split; [|split; [|split; [|split]]]].
  - intros H. destruct (mem query_id (nodes g)) eqn:E; [|reflexivity].
    apply mem_keys in E. contradiction.
  - intros H Hlim. apply mem_keys in H. rewrite H.
    exists (sorted_desc snd (related_scored g query_id)).
    split; [apply slice_to_nonneg; exact Hlim|].
    split; [apply sorted_desc_perm|].
    intros Hnum. split; [apply sorted_desc_sorted; exact Hnum|].
    intros v. apply sorted_desc_stable. exact Hnum.
  - apply related_scored_numbers.
  - intros n s. apply related_scored_spec.
  - eapply sublist_NoDup; [apply set_iter_nodup|apply related_scored_keys].
  - intros now s t rel w. apply add_edge_related.
Qed.

End Facts.
End HybridRankingFacts.

(** ** The co-modification miner: repeated runs and file accesses *)

Module CorrelationAccessFacts.
Import Pairs Hybrid ComodFacts Correlation CorrelationFacts PyDict.
Import HybridQueryFacts PyDictSetFacts.
Local Close Scope string_scope.

Lemma analyze_log_count blocks : forall st,
  snd (fold_left analyze_commit blocks st)
  = snd st + Z.of_nat (List.length (multi_file_blocks blocks)).
Proof.
  induction blocks as [|b blocks IH]; intros st; simpl; [lia|].
  rewrite IH. unfold analyze_commit, block_lines.
  destruct (_ <? 2)%nat; simpl; lia.
Qed.

Lemma commit_pairs_sym x y b : commit_pairs x y b = commit_pairs y x b.
Proof. unfold commit_pairs. rewrite pair_count_sym. reflexivity. Qed.

Lemma log_pairs_sym x y blocks : log_pairs x y blocks = log_pairs y x blocks.
Proof.
  induction blocks as [|b blocks IH]; simpl; [reflexivity|].
  rewrite IH, commit_pairs_sym. reflexivity.
Qed.

Lemma analyze_some data out :
  out <> ""%string ->
  analyze_git_history data (Some out)
  = let st := fold_left analyze_commit (PyStr.split PyStr.nlnl (PyStr.strip out))
                (comod_counts data, 0) in
    {| root := root data; comod_counts := fst st;
       commits_analyzed := commits_analyzed data + snd st |}.
Proof.
  intros H. unfold analyze_git_history.
  destruct (String.eqb_spec out ""); [contradiction | reflexivity].
Qed.

(** X22. [analyze_git_history] on a log that is not empty adds to
    [commits_analyzed] the number of blocks that list two files or more of
    any kind (a block with one source file and one text file counts, though
    it adds no pair). It does not remember which commits it has seen:
    analyzing the same log twice adds every pair twice and counts every such
    block twice. A symmetric table stays symmetric, the root stays, and
    without a log ([None], or the empty string) the data are returned as
    they are. *)
Theorem analyze_git_history_reruns (data : CorrelationData) (out : string)
  (x y : string) :
  out <> ""%string ->
  let blocks := PyStr.split PyStr.nlnl (PyStr.strip out) in
  let d1 := analyze_git_history data (Some out) in
  let d2 := analyze_git_history d1 (Some out) in
  commits_analyzed d1
  = commits_analyzed data + Z.of_nat (List.length (multi_file_blocks blocks))
  /\ comod_get (comod_counts d2) x y
     = comod_get (comod_counts data) x y + 2 * log_pairs x y blocks
  /\ commits_analyzed d2
     = commits_analyzed data + 2 * Z.of_nat (List.length (multi_file_blocks blocks))
  /\ ((forall a b, comod_get (comod_counts data) a b = comod_get (comod_counts data) b a) ->
      comod_get (comod_counts d1) x y = comod_get (comod_counts d1) y x)
  /\ root d1 = root data
  /\ analyze_git_history data None = data
  /\ analyze_git_history data (Some ""%string) = data.
Proof.
  intros Hne blocks d1 d2. subst d2 d1.
  rewrite !analyze_some by exact Hne. cbv zeta.
  cbn [root comod_counts commits_analyzed]. fold blocks.
  repeat first [rewrite analyze_log_get | rewrite analyze_log_count
               | progress cbn [fst snd]].
  split; [lia|]. split; [lia|]. split; [lia|].
  split; [|repeat split].
  intros Hs. rewrite (Hs x y), (log_pairs_sym x y). reflexivity.
Qed.

(** *** [record_file_access] *)

Lemma row_incr ac p q r :
  access_row (access_incr ac p q) r
  = if String.eqb r p then set q (access_get ac p q + 1) (access_row ac p)
    else access_row ac r.
Proof.
  unfold access_row at 1. unfold access_incr.
  destruct (String.eqb_spec r p) as [->|Hne].
  - rewrite lookup_insert_eq. reflexivity.
  - rewrite lookup_insert_ne by congruence. reflexivity.
Qed.

Lemma get_incr ac p q x y :
  access_get (access_incr ac p q) x y
  = access_get ac x y + one_if (String.eqb x p && String.eqb y q).
Proof.
  unfold access_get at 1. rewrite row_incr.
  destruct (String.eqb_spec x p) as [->|Hx]; simpl.
  - rewrite get_set. destruct (String.eqb_spec y q) as [->|Hy]; simpl.
    + lia.
    + unfold access_get. lia.
  - unfold access_get. lia.
Qed.

Lemma occ_cons y x l : occ y (x :: l) = one_if (String.eqb y x) + occ y l.
Proof.
  unfold occ. simpl. destruct (String.eqb y x); simpl; lia.
Qed.

Lemma occ_notin y l : y ∉ l -> occ y l = 0.
Proof.
  intros H. induction l as [|x l IH]; [reflexivity|].
  rewrite not_elem_of_cons in H. destruct H as [Hne H]. rewrite occ_cons, IH by exact H.
  destruct (String.eqb_spec y x); [contradiction | reflexivity].
Qed.

(** The loop of [record_file_access] over the recent files. *)
Lemma access_loop a L : forall ac,
  let ac' := fold_left
               (fun acc rf => access_incr (access_incr acc a rf) rf a) L ac in
  (forall x y, access_get ac' x y
     = access_get ac x y
       + (if String.eqb x a then occ y L else 0)
       + (if String.eqb y a then occ x L else 0))
  /\ (forall r, r <> a -> r ∉ L -> access_row ac' r = access_row ac r).
Proof.
  induction L as [|rf L IH]; intros ac; simpl.
  - split.
    + intros x y. unfold occ. simpl. destruct (String.eqb x a), (String.eqb y a); lia.
    + reflexivity.
  - destruct (IH (access_incr (access_incr ac a rf) rf a)) as [G Rw]. split.
    + intros x y. rewrite G, !get_incr, !occ_cons.
      destruct (String.eqb x a), (String.eqb y a), (String.eqb x rf), (String.eqb y rf);
        simpl; lia.
    + intros r Hr Hn. rewrite not_elem_of_cons in Hn. destruct Hn as [Hrf Hn].
      rewrite Rw by assumption. rewrite !row_incr.
      destruct (String.eqb_spec r rf); [contradiction|].
      destruct (String.eqb_spec r a); [contradiction | reflexivity].
Qed.

Lemma row_ensure ac r :
  access_row match ac !! recent_key with
             | Some _ => ac
             | None => <[recent_key := []]> ac
             end r
  = access_row ac r.
Proof.
  destruct (ac !! recent_key) eqn:E; [reflexivity|].
  unfold access_row. destruct (String.eqb_spec r recent_key) as [->|Hne].
  - rewrite lookup_insert_eq, E. reflexivity.
  - rewrite lookup_insert_ne by congruence. reflexivity.
Qed.

(** What one call does to a tidy table. *)
Lemma record_file_access_step ac a :
  tidy ac -> a <> recent_key ->
  keys (access_row (record_file_access ac a) recent_key)
  = (if bool_decide (a ∈ keys (access_row ac recent_key))
     then keys (access_row ac recent_key)
     else keys (access_row ac recent_key) ++ [a])%list
  /\ (forall k, get k (access_row (record_file_access ac a) recent_key)
                = if String.eqb k a then Some 1
                  else get k (access_row ac recent_key))
  /\ (forall x y, x <> recent_key -> y <> recent_key ->
        access_get (record_file_access ac a) x y
        = access_get ac x y
          + (if String.eqb x a then occ y (window ac a) else 0)
          + (if String.eqb y a then occ x (window ac a) else 0))
  /\ tidy (record_file_access ac a).
Proof.
  intros (Hk & Hs & Hd) Ha. unfold record_file_access.
  set (ac1 := match ac !! recent_key with Some _ => ac | None => _ end).
  assert (R1 : forall r, access_row ac1 r = access_row ac r) by (intros; apply row_ensure).
  assert (G1 : forall x y, access_get ac1 x y = access_get ac x y).
  { intros x y. unfold access_get. rewrite R1. reflexivity. }
  set (L := last_n 5 (List.filter (fun f => negb (String.eqb f a))
                        (keys (access_row ac1 recent_key)))).
  assert (HL : forall f, f ∈ L -> f <> a /\ f ∈ keys (access_row ac recent_key)).
  { intros f Hf. apply last_n_elem in Hf.
    apply list_elem_of_In, List.filter_In in Hf. destruct Hf as [Hin Hne].
    rewrite R1 in Hin. split; [|apply list_elem_of_In; exact Hin].
    intros ->. rewrite String.eqb_refl in Hne. discriminate. }
  assert (HaL : a ∉ L) by (intros H; apply HL in H; tauto).
  assert (HkL : recent_key ∉ L) by (intros H; apply HL in H; tauto).
  destruct (access_loop a L ac1) as [G Rw]. cbv zeta in G, Rw.
  set (ac2 := fold_left _ L ac1) in *.
  assert (R2 : access_row ac2 recent_key = access_row ac recent_key).
  { rewrite Rw by (congruence || assumption). apply R1. }
  assert (Rf : forall r,
    access_row (<[recent_key := set a 1 (access_row ac2 recent_key)]> ac2) r
    = if String.eqb r recent_key then set a 1 (access_row ac recent_key)
      else access_row ac2 r).
  { intros r. unfold access_row at 1. destruct (String.eqb_spec r recent_key) as [->|Hne].
    - rewrite lookup_insert_eq, R2. reflexivity.
    - rewrite lookup_insert_ne by congruence. reflexivity. }
  assert (EL : L = window ac a).
  { subst L. unfold window. rewrite R1. reflexivity. }
  split; [|split; [|split; [|split; [|split]]]].
  - rewrite Rf, String.eqb_refl, keys_set.
    case_bool_decide as Hin.
    + rewrite (proj2 (mem_keys _ _) Hin). reflexivity.
    + destruct (mem a (access_row ac recent_key)) eqn:E; [|reflexivity].
      apply mem_keys in E. contradiction.
  - intros k. rewrite Rf, String.eqb_refl, get_set. reflexivity.
  - intros x y Hx Hy. unfold access_get at 1. rewrite Rf.
    destruct (String.eqb_spec x recent_key); [contradiction|].
    fold (access_get ac2 x y). rewrite G, G1, EL. reflexivity.
  - rewrite Rf, String.eqb_refl, keys_set. destruct (mem a _); [exact Hk|].
    rewrite elem_of_app, list_elem_of_singleton. intros [H|H]; [exact (Hk H)|].
    congruence.
  - intros x y Hx Hy. unfold access_get. rewrite !Rf.
    destruct (String.eqb_spec x recent_key); [contradiction|].
    destruct (String.eqb_spec y recent_key); [contradiction|].
    fold (access_get ac2 x y). fold (access_get ac2 y x).
    rewrite !G, !G1, (Hs x y Hx Hy). lia.
  - intros x Hx. unfold access_get. rewrite Rf.
    destruct (String.eqb_spec x recent_key); [contradiction|].
    fold (access_get ac2 x x). rewrite G, G1, (Hd x Hx).
    destruct (String.eqb_spec x a) as [->|]; [|lia].
    rewrite (occ_notin a L HaL). lia.
Qed.

Lemma tidy_empty : tidy ∅.
Proof.
  unfold tidy, access_get, access_row. rewrite !lookup_empty. simpl.
  split; [apply not_elem_of_nil|]. split; intros; rewrite !lookup_empty; reflexivity.
Qed.

Lemma recent_values fs : forall ac k,
  tidy ac -> Forall (fun f => f <> recent_key) fs ->
  get k (access_row (fold_left record_file_access fs ac) recent_key)
  = if bool_decide (k ∈ fs) then Some 1 else get k (access_row ac recent_key).
Proof.
  induction fs as [|f fs IH]; intros ac k Ht Hf; cbn [fold_left].
  - case_bool_decide as H; [apply elem_of_nil in H; contradiction | reflexivity].
  - inversion Hf as [|? ? Hne Hf']; subst.
    destruct (record_file_access_step ac f Ht Hne) as (_ & G & _ & T).
    rewrite IH by assumption. rewrite G.
    case_bool_decide as H1; case_bool_decide as H2;
      destruct (String.eqb_spec k f) as [->|Hkf]; try reflexivity; exfalso;
      rewrite elem_of_cons in H2; tauto.
Qed.

(** X23. [record_file_access]. The empty table is tidy, and one access of
    [a] on a tidy table adds to the count of [a] and [y], in both directions,
    the number of times [y] is among the last five files of the recent list
    other than [a], and changes no other count between two files. Over any
    sequence of accesses (none of them the key '_recent_accesses' itself)
    the table stays tidy (counts symmetric, no file counted with itself),
    every accessed file stands in the recent list with the value 1, and the
    recent list is the old list followed by the new files in the order of
    their first access: a file that is accessed again keeps its place. *)
Theorem record_file_access_recent :
  tidy ∅
  /\ (forall ac a,
        tidy ac -> a <> recent_key ->
        forall x y, x <> recent_key -> y <> recent_key ->
          access_get (record_file_access ac a) x y
          = access_get ac x y
            + (if String.eqb x a then occ y (window ac a) else 0)
            + (if String.eqb y a then occ x (window ac a) else 0))
  /\ (forall fs ac,
        tidy ac -> Forall (fun f => f <> recent_key) fs ->
        let ac' := fold_left record_file_access fs ac in
        keys (access_row ac' recent_key)
        = first_seen_from (keys (access_row ac recent_key)) fs
        /\ tidy ac'
        /\ forall f, f ∈ fs -> access_get ac' recent_key f = 1).
Proof.
  split; [apply tidy_empty|]. split.
  - intros ac a Ht Ha. apply (record_file_access_step ac a Ht Ha).
  - intros fs ac Ht Hf ac'. split; [|split].
    + subst ac'. revert ac Ht Hf. induction fs as [|f fs IH]; intros ac Ht Hf; simpl.
      * reflexivity.
      * inversion Hf as [|? ? Hne Hf']; subst.
        destruct (record_file_access_step ac f Ht Hne) as (K & _ & _ & T).
        rewrite (IH _ T Hf'). unfold first_seen_from. simpl. rewrite K. reflexivity.
    + subst ac'. revert ac Ht Hf. induction fs as [|f fs IH]; intros ac Ht Hf; simpl.
      * exact Ht.
      * inversion Hf as [|? ? Hne Hf']; subst.
        destruct (record_file_access_step ac f Ht Hne) as (_ & _ & _ & T).
        apply IH; assumption.
    + intros f Hin. subst ac'. unfold access_get.
      rewrite recent_values by assumption.
      case_bool_decide; [reflexivity | contradiction].
Qed.

(** *** [get_correlations_for_file] *)

(** What an entry adds to the strength of [related]. *)
Lemma strength_of_cons related r results :
  strength_of related (r :: results)
  = (if String.eqb (fst (fst r)) related then snd (fst r) else 0)
    + strength_of related results.
Proof. reflexivity. Qed.

Lemma strength_of_app related a b :
  strength_of related (a ++ b) = strength_of related a + strength_of related b.
Proof.
  induction a as [|r a IH]; [reflexivity|].
  rewrite <- app_comm_cons, !strength_of_cons, IH. lia.
Qed.

Lemma strength_of_insert related (l : list (string * Z * string)) idx e y :
  l !! idx = Some e ->
  strength_of related (<[idx := y]> l)
  = strength_of related l
    - (if String.eqb (fst (fst e)) related then snd (fst e) else 0)
    + (if String.eqb (fst (fst y)) related then snd (fst y) else 0).
Proof.
  revert idx. induction l as [|r l IH]; intros idx H; [discriminate|].
  destruct idx as [|idx]; simpl in H.
  - injection H as ->. change (<[0%nat := y]> (e :: l)) with (y :: l).
    rewrite !strength_of_cons. lia.
  - change (<[S idx := y]> (r :: l)) with (r :: <[idx := y]> l).
    rewrite !strength_of_cons, (IH idx H). lia.
Qed.

Lemma strength_of_perm related a b :
  a ≡ₚ b -> strength_of related a = strength_of related b.
Proof.
  induction 1 as [|x a b _ IH|x y a|a b c _ IH1 _ IH2];
    rewrite ?strength_of_cons; lia.
Qed.

Lemma index_of_entry_lookup e l idx :
  index_of_entry e l = Some idx -> l !! idx = Some e.
Proof.
  revert idx. induction l as [|r l IH]; intros idx H; simpl in H; [discriminate|].
  case_bool_decide as E.
  - injection H as <-. subst r. reflexivity.
  - destruct (index_of_entry e l) as [i|]; [|discriminate].
    injection H as <-. simpl. apply IH. reflexivity.
Qed.

Lemma index_of_entry_elem e l : e ∈ l -> is_Some (index_of_entry e l).
Proof.
  induction l as [|r l IH]; intros H; [apply elem_of_nil in H; contradiction|].
  simpl. case_bool_decide as E; [eauto|].
  apply elem_of_cons in H. destruct H as [->|H]; [contradiction|].
  destruct (IH H) as [i ->]. simpl. eauto.
Qed.

Lemma existing_entry_spec related results e :
  existing_entry related results = Some e ->
  fst (fst e) = related /\ e ∈ results.
Proof.
  unfold existing_entry. intros H. apply find_some in H. destruct H as [Hin He].
  apply String.eqb_eq in He. split; [exact He | apply list_elem_of_In, Hin].
Qed.

Lemma comod_entry_strength related results rc :
  strength_of related (comod_entry results rc)
  = strength_of related results + adds related rc.
Proof.
  unfold comod_entry, adds. destruct (0 <? snd rc).
  - rewrite strength_of_app, strength_of_cons. simpl.
    rewrite andb_true_r. destruct (String.eqb (fst rc) related); lia.
  - rewrite andb_false_r. lia.
Qed.

Lemma access_entry_strength related results rc :
  strength_of related (access_entry results rc)
  = strength_of related results + adds related rc.
Proof.
  unfold access_entry, adds. destruct (0 <? snd rc).
  - rewrite andb_true_r.
    destruct (existing_entry (fst rc) results) as [e|] eqn:Ee.
    + destruct (existing_entry_spec _ _ _ Ee) as [He Hin].
      destruct (index_of_entry_elem e results Hin) as [idx Hi]. rewrite Hi.
      rewrite (strength_of_insert related results idx e _
                 (index_of_entry_lookup _ _ _ Hi)).
      simpl. rewrite He. destruct (String.eqb (fst rc) related); lia.
    + rewrite strength_of_app, strength_of_cons. simpl.
      destruct (String.eqb (fst rc) related); lia.
  - rewrite andb_false_r. lia.
Qed.

Lemma row_mass_cons related rc row :
  row_mass related (rc :: row) = adds related rc + row_mass related row.
Proof. reflexivity. Qed.

Lemma table_mass_cons file_name file_path related kv items :
  table_mass file_name file_path related (kv :: items)
  = (if key_matches file_name file_path (fst kv) then row_mass related (snd kv) else 0)
    + table_mass file_name file_path related items.
Proof. reflexivity. Qed.

Section Loop.
Variable entry : list (string * Z * string) -> string * Z -> list (string * Z * string).
Hypothesis entry_strength : forall related results rc,
  strength_of related (entry results rc) = strength_of related results + adds related rc.

Lemma row_loop_strength related row : forall results,
  strength_of related (fold_left entry row results)
  = strength_of related results + row_mass related row.
Proof.
  induction row as [|rc row IH]; intros results; simpl fold_left.
  - unfold row_mass. simpl. lia.
  - rewrite IH, entry_strength, row_mass_cons. lia.
Qed.

Lemma table_loop_strength file_name file_path related items : forall results,
  strength_of related (table_loop entry file_name file_path items results)
  = strength_of related results + table_mass file_name file_path related items.
Proof.
  induction items as [|kv items IH]; intros results.
  - unfold table_loop, table_mass. simpl. lia.
  - rewrite table_mass_cons. unfold table_loop in *. cbn [fold_left].
    rewrite IH. destruct (key_matches file_name file_path (fst kv)).
    + rewrite row_loop_strength. lia.
    + lia.
Qed.
End Loop.

Lemma adds_nonneg related rc : 0 <= adds related rc.
Proof.
  unfold adds. destruct (String.eqb _ _); simpl; [|lia].
  destruct (Z.ltb_spec 0 (snd rc)); lia.
Qed.

Lemma row_mass_nonneg related row : 0 <= row_mass related row.
Proof.
  induction row as [|rc row IH]; [unfold row_mass; simpl; lia|].
  rewrite row_mass_cons. pose proof (adds_nonneg related rc). lia.
Qed.

Lemma row_mass_pos related row count :
  (related, count) ∈ row -> 0 < count -> 0 < row_mass related row.
Proof.
  intros Hin Hc. induction row as [|rc row IH]; [apply elem_of_nil in Hin; contradiction|].
  rewrite row_mass_cons. apply elem_of_cons in Hin. destruct Hin as [<-|Hin].
  - pose proof (row_mass_nonneg related row). unfold adds. simpl.
    rewrite String.eqb_refl. destruct (Z.ltb_spec 0 count); simpl; lia.
  - pose proof (adds_nonneg related rc). specialize (IH Hin). lia.
Qed.

Lemma table_mass_nonneg file_name file_path related items :
  0 <= table_mass file_name file_path related items.
Proof.
  induction items as [|kv items IH]; [unfold table_mass; simpl; lia|].
  rewrite table_mass_cons. pose proof (row_mass_nonneg related (snd kv)).
  destruct (key_matches _ _ _); lia.
Qed.

Lemma table_mass_pos file_name file_path related items :
  counted file_name file_path related items ->
  0 < table_mass file_name file_path related items.
Proof.
  intros (key & row & count & Hin & Hm & Hr & Hc).
  induction items as [|kv items IH]; [apply elem_of_nil in Hin; contradiction|].
  rewrite table_mass_cons. apply elem_of_cons in Hin. destruct Hin as [<-|Hin].
  - cbn [fst snd]. rewrite Hm. pose proof (row_mass_pos related row count Hr Hc).
    pose proof (table_mass_nonneg file_name file_path related items). lia.
  - specialize (IH Hin). pose proof (row_mass_nonneg related (snd kv)).
    destruct (key_matches file_name file_path (fst kv)); lia.
Qed.

Lemma strength_of_pos_elem related results :
  0 < strength_of related results ->
  exists strength reason, (related, strength, reason) ∈ results.
Proof.
  induction results as [|[[n s] t] results IH]; [unfold strength_of; simpl; lia|].
  rewrite strength_of_cons. simpl.
  destruct (String.eqb_spec n related) as [->|Hne].
  - intros _. exists s, t. apply elem_of_cons. auto.
  - intros H. destruct IH as (s' & t' & H'); [lia|].
    exists s', t'. apply elem_of_cons. auto.
Qed.

Section Entries.
Variables file_name file_path : string.
Variables comod_items access_items : list (string * list (string * Z)).

Lemma comod_entry_ok results rc :
  (0 < snd rc -> counted file_name file_path (fst rc) comod_items) ->
  Forall (entry_ok file_name file_path comod_items access_items) results ->
  Forall (entry_ok file_name file_path comod_items access_items)
    (comod_entry results rc).
Proof.
  intros Hc H. unfold comod_entry. destruct (Z.ltb_spec 0 (snd rc)); [|exact H].
  apply Forall_app. split; [exact H|]. apply Forall_singleton.
  split; [simpl; lia|]. split; [left; reflexivity|]. left. apply Hc. lia.
Qed.

Lemma access_entry_ok results rc :
  (0 < snd rc -> counted file_name file_path (fst rc) access_items) ->
  Forall (entry_ok file_name file_path comod_items access_items) results ->
  Forall (entry_ok file_name file_path comod_items access_items)
    (access_entry results rc).
Proof.
  intros Hc H. unfold access_entry. destruct (Z.ltb_spec 0 (snd rc)); [|exact H].
  destruct (existing_entry (fst rc) results) as [e|] eqn:Ee.
  - destruct (existing_entry_spec _ _ _ Ee) as [He Hin].
    destruct (index_of_entry e results) as [idx|]; [|exact H].
    apply Forall_insert; [exact H|].
    rewrite Forall_forall in H. destruct (H e Hin) as (Hpos & _ & _).
    split; [simpl; lia|]. split; [right; right; reflexivity|]. right. apply Hc. lia.
  - apply Forall_app. split; [exact H|]. apply Forall_singleton.
    split; [simpl; lia|]. split; [right; left; reflexivity|]. right. apply Hc. lia.
Qed.

Lemma table_loop_ok entry items0 items :
  (forall results rc,
     (0 < snd rc -> counted file_name file_path (fst rc) items0) ->
     Forall (entry_ok file_name file_path comod_items access_items) results ->
     Forall (entry_ok file_name file_path comod_items access_items) (entry results rc)) ->
  (forall kv, kv ∈ items -> kv ∈ items0) ->
  forall results,
    Forall (entry_ok file_name file_path comod_items access_items) results ->
    Forall (entry_ok file_name file_path comod_items access_items)
      (table_loop entry file_name file_path items results).
Proof.
  intros He. unfold table_loop.
  induction items as [|[key row] items IH]; intros Hsub results H; simpl; [exact H|].
  apply IH; [intros kv Hkv; apply Hsub, elem_of_cons; auto|].
  destruct (key_matches file_name file_path key) eqn:Hm; [|exact H].
  assert (Hrow : forall rc, rc ∈ row -> 0 < snd rc ->
                            counted file_name file_path (fst rc) items0).
  { intros [n c] Hrc Hc. exists key, row, c. split; [apply Hsub, elem_of_cons; auto|].
    split; [exact Hm|]. split; [exact Hrc | exact Hc]. }
  clear Hsub IH. revert results H Hrow.
  induction row as [|rc row IHr]; intros results H Hrow; simpl; [exact H|].
  apply IHr.
  - apply He; [|exact H]. apply Hrow, elem_of_cons. auto.
  - intros rc' Hrc'. apply Hrow, elem_of_cons. auto.
Qed.

Lemma correlations_found_ok :
  Forall (entry_ok file_name file_path comod_items access_items)
    (correlations_found file_name file_path comod_items access_items).
Proof.
  unfold correlations_found.
  apply (table_loop_ok access_entry access_items access_items);
    [exact access_entry_ok | auto |].
  apply (table_loop_ok comod_entry comod_items comod_items);
    [exact comod_entry_ok | auto | constructor].
Qed.

Lemma table_loop_unmatched entry items results :
  (forall key row, (key, row) ∈ items -> key_matches file_name file_path key = false) ->
  table_loop entry file_name file_path items results = results.
Proof.
  unfold table_loop. revert results.
  induction items as [|[key row] items IH]; intros results H; simpl; [reflexivity|].
  rewrite (H key row) by (apply elem_of_cons; auto).
  apply IH. intros k r Hkr. apply (H k r), elem_of_cons. auto.
Qed.

End Entries.

(** X24. [get_correlations_for_file]. The answer is the first [limit] entries
    (as the slice [[:limit]] has it) of a ranking of the entries the two
    loops found: the same entries, in descending order of strength, entries
    of equal strength in the order in which they were found; for a limit that
    is not negative it has at most [limit] entries. Every entry of the answer
    has a positive strength, one of the three reasons, and names a file that
    has a positive count in the row of a key that matches, in one of the two
    tables. For every file, the strengths of the entries found that name it
    add up to the positive counts that the matching rows of both tables hold
    for it: no count is lost and none is counted twice, so every file with
    such a count is named by an entry. If no key of either table contains the
    file name or the path, the answer is empty. *)
Theorem get_correlations_for_file_spec (file_name file_path : string)
  (comod_items access_items : list (string * list (string * Z))) (limit : Z) :
  let found := correlations_found file_name file_path comod_items access_items in
  let r := get_correlations_for_file file_name file_path comod_items access_items
             limit in
  (exists ranked,
     r = slice_to limit ranked
     /\ ranked ≡ₚ found
     /\ StronglySorted (desc_int (fun e => snd (fst e))) ranked
     /\ forall v, List.filter (fun e => snd (fst e) =? v) ranked
                  = List.filter (fun e => snd (fst e) =? v) found)
  /\ (0 <= limit -> (List.length r <= Z.to_nat limit)%nat)
  /\ (forall related strength reason,
        (related, strength, reason) ∈ r ->
        0 < strength /\ reason_ok reason
        /\ (counted file_name file_path related comod_items
            \/ counted file_name file_path related access_items))
  /\ (forall related,
        strength_of related found
        = table_mass file_name file_path related comod_items
          + table_mass file_name file_path related access_items)
  /\ (forall related,
        counted file_name file_path related comod_items
        \/ counted file_name file_path related access_items ->
        exists strength reason, (related, strength, reason) ∈ found)
  /\ ((forall key row, (key, row) ∈ (comod_items ++ access_items)%list ->
                       key_matches file_name file_path key = false) ->
      r = []).
Proof.
  intros found r.
  assert (M : forall related,
             strength_of related found
             = table_mass file_name file_path related comod_items
               + table_mass file_name file_path related access_items).
  { intros related. subst found. unfold correlations_found.
    rewrite (table_loop_strength access_entry access_entry_strength).
    rewrite (table_loop_strength comod_entry comod_entry_strength).
    unfold strength_of at 1. simpl. lia. }
  split; [|split; [|split; [|split; [exact M|split]]]].
  - exists (sorted_desc_int (fun e => snd (fst e)) found).
    split; [reflexivity|]. split; [apply sorted_desc_int_perm|].
    split; [apply sorted_desc_int_sorted|]. intros v. apply sorted_desc_int_stable.
  - intros Hl. subst r. unfold get_correlations_for_file.
    rewrite PyDictFacts.slice_to_nonneg by exact Hl. rewrite length_firstn. lia.
  - intros related strength reason Hin.
    assert (Hf : (related, strength, reason) ∈ found).
    { subst r. unfold get_correlations_for_file in Hin.
      assert (Hs : (related, strength, reason)
                   ∈ sorted_desc_int (fun e => snd (fst e)) found).
      { eapply elem_of_sublist; [exact Hin|]. unfold slice_to.
        destruct (0 <=? limit); apply sublist_take. }
      rewrite sorted_desc_int_perm in Hs. exact Hs. }
    pose proof (correlations_found_ok file_name file_path comod_items access_items) as Hok.
    rewrite Forall_forall in Hok. exact (Hok _ Hf).
  - intros related Hc. apply strength_of_pos_elem. rewrite M.
    pose proof (table_mass_nonneg file_name file_path related comod_items).
    pose proof (table_mass_nonneg file_name file_path related access_items).
    destruct Hc as [Hc|Hc]; apply table_mass_pos in Hc; lia.
  - intros Hn. subst r found.
    unfold get_correlations_for_file, correlations_found.
    rewrite (table_loop_unmatched file_name file_path comod_entry comod_items)
      by (intros k row Hk; apply (Hn k row), elem_of_app; auto).
    rewrite (table_loop_unmatched file_name file_path access_entry access_items)
      by (intros k row Hk; apply (Hn k row), elem_of_app; auto).
    unfold slice_to. destruct (0 <=? limit); simpl; [apply firstn_nil|reflexivity].
Qed.

End CorrelationAccessFacts.

(** ** The co-modification miner on a commit log *)

Module CorrelationLogFacts.
Import PyStr PyStrFacts Pairs Hybrid ComodFacts Correlation CorrelationFacts.
Local Open Scope string_scope.

(** *** Reversal, [strip] and [split] on well-formed text *)































(** *** What the miner reads off a well-formed log *)







Local Close Scope string_scope.


End CorrelationLogFacts.

(** ** Runs of the model *)

Module Runs.
Import PyFloat PyDict Pairs Hybrid Examples.
Local Open Scope Z_scope.
#[local] Existing Instance Runtimes.ordered.

Example related_of_a :
  get_related_nodes mixed "a.py" 10
  = [("b.py"%string, 0.3%float); ("c.py"%string, 0.010000000000000002%float)].
Proof. vm_compute. reflexivity. Qed.

Example related_of_a_cut : get_related_nodes mixed "a.py" 1 = [("b.py"%string, 0.3%float)].
Proof. vm_compute. reflexivity. Qed.

Example related_of_unknown : get_related_nodes mixed "z.py" 10 = [].
Proof. vm_compute. reflexivity. Qed.

Example search_upper_case :
  map (fun r => (id (fst r), snd r)) (search mixed "A.PY" 10)
  = [("a.py"%string, 0.8%float)].
Proof. vm_compute. reflexivity. Qed.

Example calls_twice :
  option_map structural_weight
    (edges (add_calls three_files "a.py" "b.py" ["t1"; "t2"]%string)
       !! edge_id "a.py" "b.py")
  = Some 1%float.
Proof. vm_compute. reflexivity. Qed.

Example saturate_19 : saturate 19 = 0.95000000000000029%float.
Proof. vm_compute. reflexivity. Qed.

Example saturate_21 : saturate 21 = 1%float.
Proof. vm_compute. reflexivity. Qed.

Example built_scores :
  map (fun kv => (fst kv, structural_score (snd kv), comod_score (snd kv),
                  temporal_score (snd kv))) (nodes built)
  = [("a.py"%string, 0.1%float, 0.30000000000000004%float, 0%float);
     ("b.py"%string, 0.1%float, 0.30000000000000004%float, 0%float)].
Proof. vm_compute. reflexivity. Qed.

Example built_matrix :
  comod_get (comod_matrix built) "a.py" "b.py" = 6
  /\ comod_get (comod_matrix built) "b.py" "a.py" = 6
  /\ comod_get (comod_matrix built) "a.py" "a.py" = 0.
Proof. vm_compute. repeat split. Qed.

Example one_commit_counts :
  let data := Correlation.analyze_git_history
                {| Correlation.root := ""; Correlation.comod_counts := ∅;
                   Correlation.commits_analyzed := 0 |} (Some one_commit) in
  comod_get (Correlation.comod_counts data) "a.py" "b.py" = 1
  /\ comod_get (Correlation.comod_counts data) "b.py" "a.py" = 1
  /\ comod_get (Correlation.comod_counts data) "a.py" "notes.txt" = 0
  /\ Correlation.commits_analyzed data = 1.
Proof. vm_compute. repeat split. Qed.

Example sample_file_calls :
  CallGraph.calls_edges
    (CallGraph.edges
       (CallGraph.analyze_file (CallGraph.empty "/repo") "pkg/mod.py" "mod.py"
          "pkg.mod" sample_file))
  = [{| CallGraph.source := "pkg.mod.g"; CallGraph.target := "helpers.fetch";
        CallGraph.edge_type := "calls"; CallGraph.edge_file := "pkg/mod.py";
        CallGraph.edge_line := 3 |}].
Proof. vm_compute. reflexivity. Qed.

Example nested_file_calls :
  CallGraph.calls_edges
    (CallGraph.edges
       (CallGraph.analyze_file (CallGraph.empty "/repo") "pkg/mod.py" "mod.py"
          "pkg.mod" nested_file))
  = [{| CallGraph.source := "pkg.mod.g"; CallGraph.target := "helpers.fetch";
        CallGraph.edge_type := "calls"; CallGraph.edge_file := "pkg/mod.py";
        CallGraph.edge_line := 3 |}].
Proof. vm_compute. reflexivity. Qed.

(** With the import behind the function, the call in [g] is visited before
    the alias is written, and its target is the bare name. *)
Example late_import_calls :
  CallGraph.calls_edges
    (CallGraph.edges
       (CallGraph.analyze_file (CallGraph.empty "/repo") "pkg/mod.py" "mod.py"
          "pkg.mod" [CallGraph.FunctionDef "g" g_body 2; aliased_import]))
  = [{| CallGraph.source := "pkg.mod.g"; CallGraph.target := "f";
        CallGraph.edge_type := "calls"; CallGraph.edge_file := "pkg/mod.py";
        CallGraph.edge_line := 3 |}].
Proof. vm_compute. reflexivity. Qed.

Example two_commit_log_text :
  Correlation.log_text two_commit_log
  = PyStr.lines ["0a1b2c|dev|change two files"; "a.py"; "notes.txt"; "b.py"; "";
                 "1f2e3d|dev|change one file"; "a.py"].
Proof. vm_compute. reflexivity. Qed.

Example search_name_match :
  map (fun r => (id (fst r), snd r)) (search core_and_auth "auth" 10)
  = [("src/auth.py"%string, 0.8%float); ("src/core.py"%string, 0.4%float)].
Proof. vm_compute. reflexivity. Qed.

End Runs.

(** ** The properties at concrete inputs *)

Module Witnesses.
Import PyFloat PyDict Pairs Hybrid Examples.
Local Open Scope Z_scope.
#[local] Existing Instance Runtimes.ordered.

(** C1 on [mixed]: [a.py] is known. *)
Lemma related_nodes_ranked_witness :
  exists ranked,
    get_related_nodes mixed "a.py" 10 = firstn (Z.to_nat 10) ranked
    /\ ranked ≡ₚ related_scored mixed "a.py"
    /\ (Forall (fun p => is_number (snd p)) (related_scored mixed "a.py") ->
        StronglySorted (desc snd) ranked
        /\ forall v, with_key snd v ranked = with_key snd v (related_scored mixed "a.py")).
Proof.
  refine (proj1 (proj2 (HybridRankingFacts.related_nodes_ranked mixed "a.py" 10)) _ _).
  - apply list_elem_of_In. vm_compute. auto.
  - lia.
Defined.

(** C2 on [core_and_auth]: [core] is in the answer for "auth", at the
    second place, so [auth_node] is in it at the first. *)
Lemma search_ranked_witness :
  exists j, (j < 1)%nat
            /\ search core_and_auth "auth" 10 !! j
               = Some (auth_node, search_score_spec "auth" auth_node).
Proof.
  refine (proj2 (proj2 (proj2 (proj2 (proj2
            (HybridQueryFacts.search_ranked core_and_auth "auth" 10)))))
            1%nat core 0.4%float "src/auth.py"%string auth_node _ _ _ _ _ _).
  - vm_compute. reflexivity.
  - vm_compute. reflexivity.
  - vm_compute. reflexivity.
  - apply list_elem_of_In. vm_compute. auto.
  - vm_compute. reflexivity.
  - vm_compute. reflexivity.
Defined.

(** C3 on [three_files]: two calls on a new edge. *)
Lemma add_edge_structural_idempotent_witness :
  exists e, edges (add_calls three_files "a.py" "b.py" ["t1"; "t2"]%string)
              !! edge_id "a.py" "b.py" = Some e
            /\ structural_weight e = 1%float.
Proof.
  refine (proj1 (HybridEdgeFacts.add_edge_structural_idempotent
                   three_files "a.py" "b.py" ["t1"; "t2"]%string _ _)).
  - discriminate.
  - intros e H. vm_compute in H. discriminate.
Defined.

(** C4 on [b_accessed]: twenty accesses of [a.py] inside the window. *)
Lemma temporal_saturation_witness :
  tw (access_many b_accessed "a.py" twenty_accesses) "a.py" "b.py" = 1%float.
Proof.
  refine (proj1 (proj2 (HybridAccessFacts.temporal_saturation
            b_accessed "a.py" "b.py" "2024-05-01T10:00:00Z" twenty_accesses
            _ _ _ _)) _).
  - discriminate.
  - vm_compute. reflexivity.
  - vm_compute. reflexivity.
  - unfold twenty_accesses. apply Forall_forall. intros c Hc.
    apply list_elem_of_In, repeat_spec in Hc. subst c. vm_compute. reflexivity.
  - reflexivity.
Defined.

(** C5 on [two_calls], where sets iterate in insertion order. *)
Lemma round_trip_queries_witness :
  search (from_dict (to_dict two_calls)) "a" 10 = search two_calls "a" 10
  /\ get_related_nodes (from_dict (to_dict two_calls)) "a.py" 10
     = get_related_nodes two_calls "a.py" 10.
Proof.
  assert (Hwf : wf (nodes two_calls)).
  { unfold wf. vm_compute. repeat constructor; rewrite ?elem_of_cons, ?elem_of_nil;
      intuition discriminate. }
  pose proof (HybridQueryFacts.round_trip_queries two_calls Hwf) as (Hs & _ & Hr & _).
  split; [apply Hs | apply Hr]. vm_compute. reflexivity.
Defined.

(** C6 on [three_files]. *)
Lemma record_comodification_three_witness :
  comod_get (comod_matrix (record_comodification "t" three_files ["a.py"; "b.py"; "c.py"]%string))
    "a.py" "b.py"
  = comod_get (comod_matrix three_files) "a.py" "b.py" + 1.
Proof.
  refine (proj1 (HybridComodFacts.record_comodification_three
                   "t" three_files "a.py" "b.py" "c.py" _ _ _)); discriminate.
Defined.

(** C7 on [built]: the first node, [a.py], after six commits with [b.py]. *)
Lemma build_scores_witness :
  exists n, nodes built !! 0%nat = Some ("a.py"%string, n)
            /\ comod_score n = pymin 1 (0.05 * float_of_int 6)%float
            /\ temporal_score n = 0%float.
Proof.
  assert (Hn : exists n, nodes built !! 0%nat = Some ("a.py"%string, n))
    by (eexists; vm_compute; reflexivity).
  destruct Hn as [n Hn]. exists n. split; [exact Hn|].
  destruct (proj1 (HybridBuildFacts.build_scores "t" "" (fun f => f)
                     [("a.py", "a.py"); ("b.py", "b.py")]%string None
                     (Some six_commits)) 0%nat "a.py"%string n Hn)
    as (_ & _ & Ht & Hsix).
  split; [|exact Ht].
  apply (Hsix "b.py"%string). vm_compute. reflexivity.
Defined.


Import CallGraph.

(** C9 on [nested_file]: the call [f()] in [g], which is nested in [h],
    goes from [pkg.mod.g] to [helpers.fetch]. *)
Lemma calls_edge_emitted_witness :
  In {| source := "pkg.mod.g"; target := "helpers.fetch"; edge_type := "calls";
        edge_file := "pkg/mod.py"; edge_line := 3 |}
     (edges (analyze_file (CallGraph.empty "/repo") "pkg/mod.py" "mod.py" "pkg.mod"
               nested_file)).
Proof.
  refine (proj1 (CallGraphFacts.calls_edge_emitted
            (CallGraph.empty "/repo") "pkg/mod.py" "mod.py" "pkg.mod"
            nested_file g_body false "g" 3
            (aliases_all [] (aliases_all [aliased_import] ∅))
            (aliases_all [] (aliases_all []
               (aliases_all [] (aliases_all [aliased_import] ∅))))
            (Name "f") [] 3 _ _ _) "f"%string eq_refl _).
  - discriminate.
  - apply (located_below classless [aliased_import]
             (FunctionDef "h" [FunctionDef "g" g_body 3] 2) []); [exact I|].
    apply (located_here classless [] (FunctionDef "g" g_body 3) []).
  - unfold g_body.
    apply (located_below plain [] (Other [Call (Name "f") [] 3]) []); [exact I|].
    apply (located_here plain [] (Call (Name "f") [] 3) []).
  - vm_compute. discriminate.
Defined.

(** C10 on the two statements of [sample_file] that are outside [g]. *)
Lemma no_calls_edge_outside_functions_witness :
  calls_edges (edges (analyze_file (CallGraph.empty "/repo") "pkg/mod.py" "mod.py"
                        "pkg.mod" [aliased_import; top_level_call]))
  = calls_edges (edges (CallGraph.empty "/repo")).
Proof.
  refine (proj1 (proj2 (proj2 (proj2 (CallGraphFacts.no_calls_edge_outside_functions
            (CallGraph.empty "/repo") "pkg/mod.py" "mod.py" "pkg.mod"))))
            [aliased_import; top_level_call] _).
  reflexivity.
Defined.

End Witnesses.

(** ** Where two claims fail as stated *)

Module Counterexamples.
Import PyFloat PyDict Pairs Hybrid Examples.
Local Open Scope Z_scope.
#[local] Existing Instance Runtimes.ordered.

(** Against C2 as stated: for the query "auth", [readme] has no intrinsic
    score and matches by its path only, [core] matches neither by name nor by
    path, and [core] is ranked first, with 0.4 against 0.3. *)
Lemma search_path_match_outranked :
  structural_score readme = 0%float /\ temporal_score readme = 0%float
  /\ comod_score readme = 0%float
  /\ PyStr.contains (str_lower "auth") (str_lower (name readme)) = false
  /\ PyStr.contains (str_lower "auth") (str_lower (path readme)) = true
  /\ PyStr.contains (str_lower "auth") (str_lower (name core)) = false
  /\ PyStr.contains (str_lower "auth") (str_lower (path core)) = false
  /\ search readme_and_core "auth" 10 = [(core, 0.4%float); (readme, 0.3%float)].
Proof. repeat split; vm_compute; reflexivity. Qed.

(** Against C7 as stated: after [b.py] and then [a.py] twenty times have
    been accessed, the access count of [a.py] is 20 and the temporal weight of
    its edge to [b.py] is 1.0, but the temporal score of both nodes is still
    0: nothing accumulates in it. *)
Lemma accesses_leave_temporal_score :
  let g := access_many b_accessed "a.py" twenty_accesses in
  option_map access_count (get "a.py" (nodes g)) = Some 20
  /\ tw g "a.py" "b.py" = 1%float
  /\ option_map temporal_score (get "a.py" (nodes g)) = Some 0%float
  /\ option_map temporal_score (get "b.py" (nodes g)) = Some 0%float.
Proof. repeat split; vm_compute; reflexivity. Qed.

(** Against C10 as stated: the decorator of [index] is a call at module
    level, outside the body of every function, and the analysis of the file
    gives it a 'calls' edge, from [app.index]. *)
Lemma decorator_call_has_edge :
  CallGraph.edges
    (CallGraph.analyze_file (CallGraph.empty "/repo") "app.py" "app.py" "app"
       decorated_file)
  = [{| CallGraph.source := "app.index"; CallGraph.target := "app.route";
        CallGraph.edge_type := "calls"; CallGraph.edge_file := "app.py";
        CallGraph.edge_line := 1 |}].
Proof. vm_compute. reflexivity. Qed.

End Counterexamples.

Module InsertionOrderCounterexample.
Import PyFloat PyDict Pairs Hybrid Examples.
Local Open Scope Z_scope.
#[local] Existing Instance Runtimes.newest_first.

(** Against C1 as stated: with sets that iterate the newest element first,
    [a.py] gets the neighbour [b.py] and then, by a second [add_edge], the
    neighbour [c.py], with edges of equal combined weight; the neighbour set
    is iterated with [c.py] first, and [relatedNodes('a.py')] ranks [c.py],
    which was inserted last, before [b.py]. *)
Lemma related_ties_newest_first :
  get_related_nodes (add_edge "t1" three_files "a.py" "b.py" "calls" 1) "a.py" 10
  = [("b.py"%string, 0.3%float)]
  /\ two_calls
     = add_edge "t2" (add_edge "t1" three_files "a.py" "b.py" "calls" 1)
         "a.py" "c.py" "calls" 1
  /\ set_iter (neighbors_of two_calls "a.py") = ["c.py"%string; "b.py"%string]
  /\ get_related_nodes two_calls "a.py" 10
     = [("c.py"%string, 0.3%float); ("b.py"%string, 0.3%float)].
Proof. repeat split; vm_compute; reflexivity. Qed.

End InsertionOrderCounterexample.

Module RoundTripCounterexample.
Import PyFloat PyDict Pairs Hybrid Examples.
Local Open Scope Z_scope.
#[local] Existing Instance Runtimes.newest_first.

(** Against C5 as stated: with sets that iterate the newest element first,
    [two_calls] has a node and an edge, and [relatedNodes('a.py')] lists the
    two neighbours of equal score in one order before the round trip and in
    the other order after it. *)
Lemma round_trip_changes_ties :
  wf (nodes two_calls)
  /\ nodes two_calls <> []
  /\ edges two_calls <> ∅
  /\ get_related_nodes two_calls "a.py" 10
     = [("c.py"%string, 0.3%float); ("b.py"%string, 0.3%float)]
  /\ get_related_nodes (from_dict (to_dict two_calls)) "a.py" 10
     = [("b.py"%string, 0.3%float); ("c.py"%string, 0.3%float)]
  /\ get_related_nodes (from_dict (to_dict two_calls)) "a.py" 10
     <> get_related_nodes two_calls "a.py" 10.
Proof.
  split; [|split; [|split; [|split; [|split]]]].
  - unfold wf. vm_compute. repeat constructor; rewrite ?elem_of_cons, ?elem_of_nil;
      intuition discriminate.
  - vm_compute. discriminate.
  - intros H. apply (f_equal (fun m => m !! edge_id "a.py" "b.py")) in H.
    vm_compute in H. discriminate.
  - vm_compute. reflexivity.
  - vm_compute. reflexivity.
  - vm_compute. intros H. discriminate.
Qed.

End RoundTripCounterexample.

(** ** Runs of the builds, the queries and the miner *)

Module BuildRuns.
Import PyDict Hybrid Examples.
Local Open Scope Z_scope.
Local Open Scope string_scope.
#[local] Existing Instance Runtimes.ordered.

(** The second of [sample_sources] cannot be parsed: the graph is that of
    the first alone. *)
Example build_skips_unparsed :
  CallGraph.build_call_graph "/repo" sample_sources = sample_graph.
Proof. reflexivity. Qed.

(** [g] calls [helpers.fetch]: an exact and a partial match. *)
Example callers_exact :
  CallGraph.get_callers (CallGraph.by_key sample_graph) sample_graph "helpers.fetch"
  = ["pkg.mod.g"].
Proof. vm_compute. reflexivity. Qed.

Example callers_partial :
  CallGraph.get_callers (CallGraph.by_key sample_graph) sample_graph "fetch"
  = ["pkg.mod.g"].
Proof. vm_compute. reflexivity. Qed.

(** [g] has a callee, [helpers.fetch], which is no node of the graph: the
    query for [g] lists no callee, and one related file. *)
Example query_g :
  let r := CallGraph.query_graph (CallGraph.by_key sample_graph) sample_graph "g" in
  CallGraph.get_callees (CallGraph.by_key sample_graph) sample_graph "g"
  = ["helpers.fetch"]
  /\ CallGraph.res_callees r = []
  /\ CallGraph.res_related_files r = ["pkg/mod.py"].
Proof. vm_compute. repeat split; reflexivity. Qed.

(** [a.py] keeps the first place of the recent list, and is counted twice
    with [b.py]. *)
Example three_accesses_table :
  let ac := fold_left Correlation.record_file_access three_accesses ∅ in
  keys (Correlation.access_row ac Correlation.recent_key) = ["a.py"; "b.py"]
  /\ Correlation.access_get ac "a.py" "b.py" = 2
  /\ Correlation.access_get ac "b.py" "a.py" = 2.
Proof. vm_compute. repeat split; reflexivity. Qed.

(** A file that was modified and accessed with [a.py], one that was accessed
    with it, and one whose count is 0. *)
Example correlations_of_a :
  Correlation.get_correlations_for_file "a.py" "src/a.py"
    [("src/a.py", [("b.py", 3); ("c.py", 0)]); ("src/z.py", [("a.py", 3)])]
    [("src/a.py", [("d.py", 1); ("b.py", 2)])] 10
  = [("b.py", 5, "co-modified+accessed"); ("d.py", 1, "co-accessed")].
Proof. vm_compute. reflexivity. Qed.

(** Two keys of the access table contain the file name: the second count of
    [b.py] is added to the first, under a reason that names a
    co-modification. *)
Example correlations_two_keys :
  Correlation.get_correlations_for_file "a.py" "a.py" []
    [("a.py", [("b.py", 1)]); ("lib/a.py", [("b.py", 1)])] 10
  = [("b.py", 2, "co-modified+accessed")].
Proof. vm_compute. reflexivity. Qed.

End BuildRuns.

(** ** The builds, the queries and the miner at concrete inputs *)

Module BuildWitnesses.
Import PyFloat PyDict Pairs Hybrid Examples.
Local Open Scope Z_scope.
Local Open Scope string_scope.
#[local] Existing Instance Runtimes.ordered.

(** X15 on [mixed]: both of its edges were observed with a weight between 0
    and 1, and one more such observation keeps the weights in range. *)
Lemma weights_stay_in_range_witness :
  edges_in_range (add_edge "t3" mixed "b.py" "c.py" "similar" 0.25).
Proof.
  pose proof HybridInvariantFacts.weights_stay_in_range as (H0 & Hadd & _).
  apply Hadd; [reflexivity|]. unfold mixed. apply Hadd; [reflexivity|].
  apply Hadd; [reflexivity|]. exact (H0 "/repo").
Defined.

(** X16 on [mixed], which comes from an empty graph by three [add_node] and
    two [add_edge]. *)
Lemma reachable_graphs_are_sound_witness :
  sound mixed
  /\ map fst (related_scored mixed "a.py") = set_iter (neighbors_of mixed "a.py").
Proof.
  assert (Hr : reachable mixed).
  { unfold mixed, three_files. repeat constructor. }
  pose proof (proj2 HybridInvariantFacts.reachable_graphs_are_sound mixed Hr)
    as [Hs Hq].
  split; [exact Hs | apply Hq].
Defined.

(** X17 on [built_structural]: its nodes are [a.py] and [b.py]. *)
Lemma build_nodes_are_files_witness :
  map (fun kv => (fst kv, id (snd kv), path (snd kv), name (snd kv),
                  node_type (snd kv), access_count (snd kv)))
    (nodes built_structural)
  = [("a.py", "a.py", "a.py", "a.py", "file", 0);
     ("b.py", "b.py", "b.py", "b.py", "file", 0)].
Proof.
  refine (HybridInvariantFacts.build_nodes_are_files "t" "/repo" (fun f => f)
            [("a.py", "a.py"); ("b.py", "b.py")] (Some two_file_graph) None _).
  simpl. repeat constructor; rewrite ?elem_of_cons, ?elem_of_nil;
    intuition discriminate.
Defined.

(** X18 on [built_structural]: the call from [a.run] to [b.help] links
    [a.py] to [b.py]. *)
Lemma build_structural_edges_witness :
  structural_link "a.py" "b.py" "calls" built_structural.
Proof.
  refine (HybridInvariantFacts.build_structural_edges "t" "/repo" (fun f => f)
            [("a.py", "a.py"); ("b.py", "b.py")] two_file_graph None
            call_edge caller_node callee_node _ _ _ _ _).
  - simpl. left. reflexivity.
  - vm_compute. reflexivity.
  - vm_compute. reflexivity.
  - discriminate.
  - left. reflexivity.
Defined.

(** X19 on [six_commits], with paths that are not prefixed. *)
Lemma miners_agree_witness :
  comod_get (comod_matrix built) "a.py" "b.py"
  = comod_get
      (Correlation.comod_counts
         (Correlation.analyze_git_history
            {| Correlation.root := ""; Correlation.comod_counts := ∅;
               Correlation.commits_analyzed := 0 |} (Some six_commits)))
      "a.py" "b.py".
Proof.
  refine (HybridInvariantFacts.miners_agree "t" "" (fun f => f)
            [("a.py", "a.py"); ("b.py", "b.py")] None six_commits "a.py" "b.py" _).
  intros a b H. exact H.
Defined.

(** X20 on [mixed], with its edges in the order of their keys. *)
Lemma hybrid_search_results_witness :
  map (fun x => (fst (fst x), snd (fst x)))
    (hybrid_search mixed (map_to_list (edges mixed)) "a" 10)
  = map (fun r => (path (fst r), snd r)) (search mixed "a" 10).
Proof.
  refine (proj1 (HybridInvariantFacts.hybrid_search_results mixed
                   (map_to_list (edges mixed)) "a" 10 _)).
  reflexivity.
Defined.

(** X21 on [built]: every count of its matrix is 6. *)
Lemma build_weights_in_range_witness :
  edges_in_range built.
Proof.
  refine (proj1 (HybridInvariantFacts.build_weights_in_range "t" "" (fun f => f)
                   [("a.py", "a.py"); ("b.py", "b.py")] None (Some six_commits) _)).
  intros x y. apply (HybridInvariantFacts.comod_get_below _ (2 ^ 63)); [reflexivity|].
  apply map_Forall_to_list.
  set (l := map_to_list _). vm_compute in l. subst l.
  repeat first [apply List.Forall_nil | apply List.Forall_cons].
  all: unfold uncurry; cbn [fst snd].
  all: apply map_Forall_to_list.
  all: set (l := map_to_list _); vm_compute in l; subst l.
  all: repeat first [apply List.Forall_nil | apply List.Forall_cons].
  all: reflexivity.
Defined.

(** X22 on [one_commit], analyzed twice from an empty table. *)
Lemma analyze_git_history_reruns_witness :
  let data := {| Correlation.root := ""; Correlation.comod_counts := ∅;
                 Correlation.commits_analyzed := 0 |} in
  let blocks := PyStr.split PyStr.nlnl (PyStr.strip one_commit) in
  let d1 := Correlation.analyze_git_history data (Some one_commit) in
  let d2 := Correlation.analyze_git_history d1 (Some one_commit) in
  Correlation.commits_analyzed d1
  = Correlation.commits_analyzed data
    + Z.of_nat (List.length (Correlation.multi_file_blocks blocks))
  /\ comod_get (Correlation.comod_counts d2) "a.py" "b.py"
     = comod_get (Correlation.comod_counts data) "a.py" "b.py"
       + 2 * Correlation.log_pairs "a.py" "b.py" blocks.
Proof.
  pose proof (CorrelationAccessFacts.analyze_git_history_reruns
                {| Correlation.root := ""; Correlation.comod_counts := ∅;
                   Correlation.commits_analyzed := 0 |} one_commit "a.py" "b.py")
    as H.
  destruct H as (H1 & H2 & _); [vm_compute; discriminate|].
  split; [exact H1 | exact H2].
Defined.

(** X23 on [three_accesses] from an empty table: [a.py] keeps its place in
    the recent list when it is accessed again. *)
Lemma record_file_access_recent_witness :
  keys (Correlation.access_row
          (fold_left Correlation.record_file_access three_accesses ∅)
          Correlation.recent_key)
  = Correlation.first_seen_from (keys (Correlation.access_row ∅ Correlation.recent_key))
      three_accesses
  /\ Correlation.tidy (fold_left Correlation.record_file_access three_accesses ∅).
Proof.
  pose proof CorrelationAccessFacts.record_file_access_recent as (H0 & _ & H).
  destruct (H three_accesses ∅ H0) as (Hk & Ht & _).
  - unfold three_accesses. repeat constructor; discriminate.
  - split; [exact Hk | exact Ht].
Defined.

Import CallGraph.

(** The indexes of [sample_graph] agree with its edges. *)
Lemma sample_graph_coherent : coherent sample_graph.
Proof.
  unfold sample_graph. eapply CallGraphIndexFacts.built_coherent.
  - apply (CallGraphIndexFacts.analyze_file_step "pkg/mod.py" "pkg.mod").
  - apply CallGraphIndexFacts.coherent_empty.
Qed.

(** X3 on [sample_graph] and the name [fetch], which is no target of an edge
    itself: the target is [helpers.fetch]. *)
Lemma get_callers_callees_spec_witness :
  NoDup (get_callers (by_key sample_graph) sample_graph "fetch")
  /\ NoDup (get_callees (by_key sample_graph) sample_graph "fetch")
  /\ (forall y, y ∈ get_callers (by_key sample_graph) sample_graph "fetch"
        <-> if has_target sample_graph "fetch"
            then linked sample_graph y "fetch"
            else exists t, PyStr.endswith ("." ++ "fetch") t = true
                           /\ linked sample_graph y t)
  /\ (forall y, y ∈ get_callees (by_key sample_graph) sample_graph "fetch"
        <-> if has_source sample_graph "fetch"
            then linked sample_graph "fetch" y
            else exists s, PyStr.endswith ("." ++ "fetch") s = true
                           /\ linked sample_graph s y).
Proof.
  refine (CallGraphIndexFacts.get_callers_callees_spec
            (by_key sample_graph) sample_graph "fetch" _ _).
  - exact sample_graph_coherent.
  - repeat split; reflexivity.
Defined.

(** X4 on [sample_graph]: [g] is found under [pkg.mod.g]. *)
Lemma find_node_spec_witness :
  (forall n, nodes sample_graph !! "g" = Some n ->
             find_node (by_key sample_graph) sample_graph "g" = Some n)
  /\ (find_node (by_key sample_graph) sample_graph "g" = None
      <-> forall q n, nodes sample_graph !! q = Some n ->
            q <> "g" /\ PyStr.endswith ("." ++ "g") q = false
            /\ CallGraph.name n <> "g")
  /\ (forall n, find_node (by_key sample_graph) sample_graph "g" = Some n ->
        exists q, nodes sample_graph !! q = Some n
                  /\ (q = "g" \/ PyStr.endswith ("." ++ "g") q = true
                      \/ CallGraph.name n = "g")).
Proof.
  refine (CallGraphIndexFacts.find_node_spec (by_key sample_graph) sample_graph "g" _).
  repeat split; reflexivity.
Defined.

(** X5 on [sample_graph]. *)
Lemma query_graph_spec_witness :
  res_callers (query_graph (by_key sample_graph) sample_graph "g")
  = omap (ref_of sample_graph) (get_callers (by_key sample_graph) sample_graph "g")
  /\ res_callees (query_graph (by_key sample_graph) sample_graph "g")
     = omap (ref_of sample_graph) (get_callees (by_key sample_graph) sample_graph "g").
Proof.
  pose proof (CallGraphIndexFacts.query_graph_spec (by_key sample_graph)
                sample_graph "g") as H.
  destruct H as (H1 & H2 & _); [repeat split; reflexivity|].
  split; [exact H1 | exact H2].
Defined.

(** X6 on [sample_graph]: the keyword [pkg.mod.g] is the
    qualified name of a node of [pkg/mod.py]. *)
Lemma predict_files_from_graph_spec_witness :
  "pkg/mod.py"
  ∈ set_iter (predict_files_from_graph (by_key sample_graph) (Some sample_graph)
                ["pkg.mod.g"]).
Proof.
  refine (proj1 (proj2 (proj2 (CallGraphIndexFacts.predict_files_from_graph_spec
            (by_key sample_graph) sample_graph ["pkg.mod.g"] _)))
            "pkg.mod.g"
            {| name := "g"; node_type := "function"; file := "pkg/mod.py";
               line := 2; qualified_name := "pkg.mod.g" |} _ _).
  - repeat split; reflexivity.
  - apply elem_of_cons. left. reflexivity.
  - vm_compute. reflexivity.
Defined.

(** X7 on [sample_file]: the import in its first line. *)
Lemma import_edges_witness :
  In {| source := "pkg.mod"; target := "helpers"; edge_type := "imports";
        edge_file := "pkg/mod.py"; edge_line := 1 |}
     (edges sample_graph).
Proof.
  refine (proj1 (proj2 (CallGraphIndexFacts.import_edges
            (CallGraph.empty "/repo") "pkg/mod.py" "mod.py" "pkg.mod" sample_file
            _)) "helpers" [("fetch", Some "f")] 1 _ _ _).
  - apply (visited_here _ [] aliased_import
             [FunctionDef "g" g_body 2; top_level_call]).
  - discriminate.
  - discriminate.
Defined.

(** X8 on a file that holds [sample_class]. *)
Lemma inherits_edges_witness :
  In {| source := "pkg.repo.Repo"; target := "Base"; edge_type := "inherits";
        edge_file := "pkg/repo.py"; edge_line := 1 |}
     (edges (analyze_file (CallGraph.empty "/repo") "pkg/repo.py" "repo.py"
               "pkg.repo" [sample_class])).
Proof.
  refine (proj1 (CallGraphIndexFacts.inherits_edges
            (CallGraph.empty "/repo") "pkg/repo.py" "repo.py" "pkg.repo"
            [sample_class] _ "Repo" [Name "Base"]
            [FunctionDef "load" load_body 2] 1 _)
            (Name "Base") "Base" _ _ _).
  - apply (visited_here _ [] sample_class []).
  - left. reflexivity.
  - vm_compute. reflexivity.
  - discriminate.
Defined.

(** X9 on the same file: the call of [fetch] in [Repo.load]. *)
Lemma method_call_edge_witness :
  In {| source := "pkg.repo.Repo.load"; target := "fetch"; edge_type := "calls";
        edge_file := "pkg/repo.py"; edge_line := 3 |}
     (edges (analyze_file (CallGraph.empty "/repo") "pkg/repo.py" "repo.py"
               "pkg.repo" [sample_class])).
Proof.
  refine (proj1 (CallGraphIndexFacts.method_call_edge
            (CallGraph.empty "/repo") "pkg/repo.py" "repo.py" "pkg.repo"
            [sample_class] "Repo" [Name "Base"] [FunctionDef "load" load_body 2] 1
            _ false "load" load_body 2 _ _ (Name "fetch") [] 3 "fetch"
            _ _ _ _ _ _ _)).
  - discriminate.
  - discriminate.
  - discriminate.
  - apply (reach_here _ [] sample_class []).
  - apply (reach_here _ [Name "Base"] (FunctionDef "load" load_body 2) []).
  - unfold load_body.
    apply (reach_below _ [] (Other [Call (Name "fetch") [] 3]) []); [exact I|].
    apply (reach_here _ [] (Call (Name "fetch") [] 3) []).
  - vm_compute. reflexivity.
Defined.

(** X10 on the call [get().a.b()]. *)
Lemma call_on_unnamed_receiver_witness :
  _get_call_name (file_init (CallGraph.empty "/repo") "m.py" "m.py" "m")
    (attr_chain (Call (Name "get") [] 1) ["a"; "b"])
  = Some "a.b".
Proof.
  refine (proj1 (CallGraphIndexFacts.call_on_unnamed_receiver
                   (file_init (CallGraph.empty "/repo") "m.py" "m.py" "m"))
            (Call (Name "get") [] 1) "a" ["b"] _).
  exact I.
Defined.

End BuildWitnesses.
